(** * Idol: binary message format, schema merger and compiler checks

    A shallow embedding of the Go packages [idol], [idol/encoding/idolbin],
    [idol/syntax] and [idol/compiler].  Machine integers are modelled as [Z]
    with their wrap-around written out, byte buffers as [list byte], Go maps
    as [gmap], and the three ways a Go call can end (a value, an [error], a
    run-time panic) as the constructors of [outcome]. *)

From Stdlib Require Import ZArith Lia List Bool.
From Stdlib Require Import Strings.String Strings.Ascii Strings.Byte.
From stdpp Require Import base tactics option list numbers gmap strings sorting.

Open Scope Z_scope.

(** ** How a Go call ends *)

Inductive outcome (E A : Type) : Type :=
| Ok (a : A)
| Err (e : E)
| Panic.
Arguments Ok {E A} a.
Arguments Err {E A} e.
Arguments Panic {E A}.

Definition obind {E A B} (m : outcome E A) (k : A -> outcome E B) : outcome E B :=
  match m with
  | Ok a => k a
  | Err e => Err e
  | Panic => Panic
  end.

Definition omap {E A B} (f : A -> B) (m : outcome E A) : outcome E B :=
  obind m (fun a => Ok (f a)).

Notation "'let*' x ':=' m 'in' k" := (obind m (fun x => k))
  (at level 10, x pattern, m at level 100, k at level 200).

(** Two calls, possibly of different packages, end the same way: both
    return the same value, or both panic. *)
Definition same_payload {E1 E2 A} (r1 : outcome E1 A) (r2 : outcome E2 A) : Prop :=
  match r1, r2 with
  | Ok a, Ok b => a = b
  | Panic, Panic => True
  | _, _ => False
  end.

Definition isOk {E A} (m : outcome E A) : bool :=
  match m with Ok _ => true | _ => false end.

Definition isErr {E A} (m : outcome E A) : bool :=
  match m with Err _ => true | _ => false end.

(** ** Bytes, slices and little-endian integers (package [idol], idol.go) *)

Module wire.

(** The numeric value of a [uint8]. *)
Definition u8 (b : byte) : Z := Z.of_N (Byte.to_N b).

(** Conversion [uint8(z)]: keeps the low eight bits. *)
Definition to_u8 (z : Z) : byte :=
  match Byte.of_N (Z.to_N (z mod 256)) with
  | Some b => b
  | None => x00
  end.

Definition bytes (l : list Z) : list byte := map to_u8 l.

(** Wrap-around of the unsigned machine integers. *)
Definition wrap16 (z : Z) : Z := z mod 2^16.
Definition wrap32 (z : Z) : Z := z mod 2^32.
Definition wrap64 (z : Z) : Z := z mod 2^64.

(** Go's slice expression [s[lo:hi]] on a string, or on a byte slice whose
    capacity equals its length: it panics unless [0 <= lo <= hi <= len(s)]. *)
Definition slice {E A} (s : list A) (lo hi : Z) : outcome E (list A) :=
  if (0 <=? lo) && (lo <=? hi) && (hi <=? Z.of_nat (length s))
  then Ok (take (Z.to_nat (hi - lo)) (drop (Z.to_nat lo) s))
  else Panic.

(** Go's index expression [s[i]]. *)
Definition index {E A} (s : list A) (i : Z) : outcome E A :=
  if (0 <=? i) && (i <? Z.of_nat (length s))
  then match s !! Z.to_nat i with Some a => Ok a | None => Panic end
  else Panic.

(** [binary.LittleEndian.Uint16/32/64]; every caller passes a slice of
    exactly 2, 4 or 8 bytes. *)
Fixpoint leUint (l : list byte) : Z :=
  match l with
  | [] => 0
  | b :: r => u8 b + 256 * leUint r
  end.

Definition leUint16 (buf : list byte) : Z := leUint (take 2 buf).
Definition leUint32 (buf : list byte) : Z := leUint (take 4 buf).
Definition leUint64 (buf : list byte) : Z := leUint (take 8 buf).

(** [binary.LittleEndian.PutUint16/32/64] as the bytes they store. *)
Fixpoint leBytes (n : nat) (v : Z) : list byte :=
  match n with
  | O => []
  | S n' => to_u8 v :: leBytes n' (v / 256)
  end.

(** Storing [bs] into [buf[off:off+len(bs)]] in place. *)
Definition put {A} (buf : list A) (off : Z) (bs : list A) : list A :=
  take (Z.to_nat off) buf ++ bs ++ drop (Z.to_nat off + length bs) buf.

Definition MaxMessageSize : Z := 0x7FF00000.
Definition MaxUint32 : Z := 0xFFFFFFFF.

End wire.

(** ** Package [idol/encoding/idolbin]: validation that leaves the buffer
    untouched and recomputes offsets on every access *)

Module idolbin.
Import wire.

Inductive error := errTODO.

Record Message := { buf : list byte }.

(** The body of the [for tag := uint32(1); tag <= thunkCount; tag++] loop of
    [validateEncodedThunks], folded over the tags still to visit; the value
    is the running [valueOff]. *)
Fixpoint validateEncodedThunks_loop (buf : list byte) (messageSize : Z)
    (tags : list Z) (valueOff : Z) : outcome error Z :=
  match tags with
  | [] => Ok valueOff
  | tag :: rest =>
    let* thunk := slice buf (wrap32 (tag * 8)) (wrap32 (tag * 8 + 8)) in
    let* b24 := slice thunk 2 4 in
    let flags := leUint16 b24 in
    if Z.land flags 0x8000 =? 0x0000 then
      if leUint64 thunk =? 0
      then validateEncodedThunks_loop buf messageSize rest valueOff
      else Err errTODO
    else if negb (Z.land flags 0x3FFF =? 0x0000) then Err errTODO
    else if Z.land flags 0x4000 =? 0x4000 then
      let* b48 := slice thunk 4 8 in
      let valueSize := leUint32 b48 in
      let paddedSize := Z.land (wrap64 (valueSize + 7)) 0xFFFFFFF8 in
      let* _ :=
        (if paddedSize >? valueSize then
           let* padding :=
             slice buf (wrap64 (valueOff + valueSize)) (wrap64 (valueOff + paddedSize)) in
           if forallb (fun pad => u8 pad =? 0x00) padding
           then Ok tt else Err errTODO
         else Ok tt) in
      let valueOff := wrap64 (valueOff + paddedSize) in
      if valueOff >? messageSize then Err errTODO
      else validateEncodedThunks_loop buf messageSize rest valueOff
    else
      let* b02 := slice thunk 0 2 in
      let handles := leUint16 b02 in
      if handles >? 0 then
        if negb (handles =? 1) then Err errTODO
        else
          let* b48 := slice thunk 4 8 in
          let value := leUint32 b48 in
          if negb (value =? 0xFFFFFFFF) then Err errTODO
          else validateEncodedThunks_loop buf messageSize rest valueOff
      else validateEncodedThunks_loop buf messageSize rest valueOff
  end.

Definition validateEncodedThunks (buf : list byte) (messageSize : Z)
    : outcome error unit :=
  let* b68 := slice buf 6 8 in
  let thunkCount := leUint16 b68 in
  let dataOff := wrap32 (8 + thunkCount * 8) in
  if dataOff >? messageSize then Err errTODO
  else
    let* valueOff :=
      validateEncodedThunks_loop buf messageSize (seqZ 1 thunkCount) dataOff in
    if negb (valueOff =? messageSize) then Err errTODO else Ok tt.

Definition NewMessage (buf : list byte) : outcome error Message :=
  if Z.of_nat (length buf) >? MaxUint32 then Err errTODO
  else
    let bufLen := wrap32 (Z.of_nat (length buf)) in
    if bufLen <? 8 then Err errTODO
    else if negb (bufLen mod 8 =? 0) then Err errTODO
    else if bufLen >? MaxMessageSize then Err errTODO
    else
      let* b04 := slice buf 0 4 in
      let messageSize := leUint32 b04 in
      if negb (messageSize =? bufLen) then Err errTODO
      else
        let* b46 := slice buf 4 6 in
        let messageFlags := leUint16 b46 in
        if negb (messageFlags =? 0x0000) then Err errTODO
        else
          let* _ := validateEncodedThunks buf messageSize in
          Ok {| buf := buf |}.

Definition Message_Size (msg : Message) : outcome error Z :=
  if (length (buf msg) =? 0)%nat then Ok 0
  else omap leUint32 (slice (buf msg) 0 4).

(** [MessageField]: the message buffer, a copy of the field's 8-byte thunk
    and its tag. *)
Record MessageField := { f_buf : list byte; f_thunk : list byte; f_tag : Z }.

(** [Message.Field]; [None] is the nil pointer.  The thunk is copied out of
    the buffer at [tag*8]. *)
Definition Field (msg : Message) (tag : Z) : outcome error (option MessageField) :=
  if (length (buf msg) =? 0)%nat || (tag =? 0) then Ok None
  else
    let* b68 := slice (buf msg) 6 8 in
    let thunkCount := leUint16 b68 in
    if tag >? thunkCount then Ok None
    else
      let* thunk := slice (buf msg) (wrap32 (tag * 8)) (wrap32 (tag * 8) + 8) in
      Ok (Some {| f_buf := buf msg; f_thunk := thunk; f_tag := tag |}).

Definition IsPresent (f : MessageField) : outcome error bool :=
  let* t3 := index (f_thunk f) 3 in Ok (Z.land (u8 t3) 0x80 =? 0x80).

Definition IsScalar (f : MessageField) : outcome error bool :=
  let* t3 := index (f_thunk f) 3 in Ok (u8 t3 =? 0x80).

Definition IsIndirect (f : MessageField) : outcome error bool :=
  let* t3 := index (f_thunk f) 3 in Ok (u8 t3 =? 0xC0).

Definition GetUint32 (f : MessageField) : outcome error Z :=
  let* t3 := index (f_thunk f) 3 in
  if u8 t3 =? 0x00 then Ok 0
  else if u8 t3 =? 0x80 then omap leUint32 (slice (f_thunk f) 4 8)
  else Err errTODO.

(** The loop of [getIndirect] over the thunks before the field's own:
    [for ii := uint32(1); ii < uint32(f.tag); ii++]. *)
Fixpoint getIndirect_loop (buf : list byte) (iis : list Z) (valueOff : Z)
    : outcome error Z :=
  match iis with
  | [] => Ok valueOff
  | ii :: rest =>
    let* thunk := slice buf (wrap32 (ii * 8)) (wrap32 (ii * 8 + 8)) in
    let* t3 := index thunk 3 in
    if Z.land (u8 t3) 0x40 =? 0x00 then getIndirect_loop buf rest valueOff
    else
      let* b48 := slice thunk 4 8 in
      let size := leUint32 b48 in
      let paddedSize := Z.land (wrap32 (size + 7)) 0xFFFFFFF8 in
      getIndirect_loop buf rest (wrap32 (valueOff + paddedSize))
  end.

Definition getIndirect (f : MessageField) : outcome error (list byte) :=
  let* t3 := index (f_thunk f) 3 in
  if u8 t3 =? 0x00 then Ok []
  else if u8 t3 =? 0x80 then Err errTODO
  else
    let* b68 := slice (f_buf f) 6 8 in
    let thunkCount := leUint16 b68 in
    let* valueOff :=
      getIndirect_loop (f_buf f) (seqZ 1 (f_tag f - 1)) (wrap32 (8 + thunkCount * 8)) in
    let* b48 := slice (f_thunk f) 4 8 in
    let valueSize := leUint32 b48 in
    slice (f_buf f) valueOff (wrap32 (valueOff + valueSize)).

(** [strings.IndexByte(value, 0x00)], [-1] when there is none. *)
Fixpoint IndexByte (value : list byte) (c : Z) : Z :=
  match value with
  | [] => -1
  | b :: r =>
    if u8 b =? c then 0
    else let i := IndexByte r c in if i =? -1 then -1 else i + 1
  end.

Definition GetText (f : MessageField) : outcome error (list byte) :=
  let* value := getIndirect f in
  if (length value =? 0)%nat then Ok []
  else
    let nul := IndexByte value 0x00 in
    if nul =? -1 then Err errTODO
    else if negb (nul =? Z.of_nat (length value) - 1) then Err errTODO
    else slice value 0 nul.

(** [validateMessageArray]: the loop over the element sizes,
    [for ii := uint32(0); ii < arrayLen; ii++]; [n] elements remain. *)
Fixpoint validateMessageArray_loop (buf : list byte) (bufLen : Z) (n : nat)
    (sizeOff valueOff : Z) : outcome error Z :=
  match n with
  | O => Ok valueOff
  | S n' =>
    let* bsz := slice buf sizeOff (sizeOff + 4) in
    let valueSize := leUint32 bsz in
    if valueSize =? 0 then Err errTODO
    else if negb (valueSize mod 8 =? 0) then Err errTODO
    else
      let valueEnd := wrap64 (valueOff + valueSize) in
      if valueEnd >? bufLen then Err errTODO
      else
        let* value := slice buf valueOff valueEnd in
        let* _ := NewMessage value in
        validateMessageArray_loop buf bufLen n' (sizeOff + 4) valueEnd
  end.

Definition validateMessageArray (buf : list byte) : outcome error unit :=
  if (length buf =? 0)%nat then Ok tt
  else
    let bufLen := Z.of_nat (length buf) in
    if bufLen <? 4 then Err errTODO
    else
      let* b04 := slice buf 0 4 in
      let arrayLen := leUint32 b04 in
      let valueOff := wrap64 (4 + arrayLen * 4) in
      let valueOff :=
        if Z.land arrayLen 0x01 =? 0x00 then wrap64 (valueOff + 4) else valueOff in
      if valueOff >? bufLen then Err errTODO
      else
        let* valueOff :=
          validateMessageArray_loop buf bufLen (Z.to_nat arrayLen) 4 valueOff in
        if negb (valueOff =? bufLen) then Err errTODO else Ok tt.

(** [validateTextArray]: the loop over the element sizes. *)
Fixpoint validateTextArray_loop (buf : list byte) (bufLen : Z) (n : nat)
    (sizeOff valueOff : Z) : outcome error Z :=
  match n with
  | O => Ok valueOff
  | S n' =>
    let* bsz := slice buf sizeOff (sizeOff + 4) in
    let valueSize := leUint32 bsz in
    if valueSize =? 0 then Err errTODO
    else
      let valueEnd := wrap64 (valueOff + valueSize) in
      if valueEnd >? bufLen then Err errTODO
      else
        let* value := slice buf valueOff valueEnd in
        let nul := IndexByte value 0x00 in
        if nul =? -1 then Err errTODO
        else if negb (nul =? Z.of_nat (length value) - 1) then Err errTODO
        else validateTextArray_loop buf bufLen n' (sizeOff + 4) valueEnd
  end.

Definition validateTextArray (buf : list byte) : outcome error unit :=
  if (length buf =? 0)%nat then Ok tt
  else
    let bufLen := Z.of_nat (length buf) in
    if bufLen <? 4 then Err errTODO
    else
      let* b04 := slice buf 0 4 in
      let arrayLen := leUint32 b04 in
      let valueOff := wrap64 (4 + arrayLen * 4) in
      let valueOff :=
        if Z.land arrayLen 0x01 =? 0x00 then wrap64 (valueOff + 4) else valueOff in
      if valueOff >? bufLen then Err errTODO
      else
        let* valueOff :=
          validateTextArray_loop buf bufLen (Z.to_nat arrayLen) 4 valueOff in
        if negb (valueOff =? bufLen) then Err errTODO else Ok tt.

(** [GetTextArray] and [GetMessageArray] hand the validated payload to the
    array views of package [idol]. *)
Definition GetTextArray (f : MessageField) : outcome error (list byte) :=
  let* value := getIndirect f in
  if (length value =? 0)%nat then Ok []
  else let* _ := validateTextArray value in Ok value.

Definition GetMessageArray (f : MessageField) : outcome error (list byte) :=
  let* value := getIndirect f in
  let* _ := validateMessageArray value in Ok value.

End idolbin.

(** ** Package [idol]: decoding that caches each indirect offset in the
    thunk, the decoded-message accessors and the array views *)

Module idol.
Import wire.

Inductive error := errTODO.

(** *** DecodedMessage *)

Record DecodedMessage := { buf : list byte }.

Definition Size (msg : DecodedMessage) : outcome error Z :=
  if (length (buf msg) =? 0)%nat then Ok 8
  else omap leUint32 (slice (buf msg) 0 4).

Definition Has (msg : DecodedMessage) (tag : Z) : outcome error bool :=
  if (length (buf msg) =? 0)%nat then Ok false
  else
    let* b68 := slice (buf msg) 6 8 in
    let thunkCount := leUint16 b68 in
    if tag >? thunkCount then Ok false
    else
      let thunkOff := wrap32 (tag * 8) in
      let* b := index (buf msg) (wrap32 (thunkOff + 3)) in
      Ok (negb (u8 b =? 0x00)).

Definition GetIndirect (msg : DecodedMessage) (tag : Z) : outcome error (list byte) :=
  let* has := Has msg tag in
  if negb has then Ok []
  else
    let thunkOff := wrap32 (tag * 8) in
    let* b48 := slice (buf msg) (wrap32 (thunkOff + 4)) (wrap32 (thunkOff + 8)) in
    let valueSize := leUint32 b48 in
    if valueSize =? 0 then Ok []
    else
      let* b04 := slice (buf msg) thunkOff (wrap32 (thunkOff + 4)) in
      let valueOff := leUint32 b04 in
      let valueOff := wrap32 (Z.shiftl (Z.land valueOff 0x0FFFFFFF) 3) in
      slice (buf msg) valueOff (wrap32 (valueOff + valueSize)).

Definition GetUint32 (msg : DecodedMessage) (tag : Z) : outcome error Z :=
  let* has := Has msg tag in
  if negb has then Ok 0
  else
    let thunkOff := wrap32 (tag * 8) in
    omap leUint32 (slice (buf msg) (wrap32 (thunkOff + 4)) (wrap32 (thunkOff + 8))).

Definition GetBool (msg : DecodedMessage) (tag : Z) : outcome error bool :=
  omap (fun v => v =? 1) (GetUint32 msg tag).

Definition GetText (msg : DecodedMessage) (tag : Z) : outcome error (list byte) :=
  let* buf := GetIndirect msg tag in
  if (0 <? length buf)%nat
  then slice buf 0 (Z.of_nat (length buf) - 1)
  else Ok [].

Definition GetAsciz (msg : DecodedMessage) (tag : Z) : outcome error (list byte) :=
  let* buf := GetIndirect msg tag in
  if (0 <? length buf)%nat then Ok buf else Ok [x00].

(** *** MessageDecoder *)

(** The loop of [decodeThunks].  The thunk slice aliases the buffer, so the
    [PutUint32] into [thunk[0:4]] is a store into [buf] at [tag*8]; the
    buffer is threaded through the loop together with [valueOff]. *)
Fixpoint decodeThunks_loop (buf : list byte) (messageSize : Z)
    (tags : list Z) (valueOff : Z) : outcome error (list byte * Z) :=
  match tags with
  | [] => Ok (buf, valueOff)
  | tag :: rest =>
    let* thunk := slice buf (wrap32 (tag * 8)) (wrap32 (tag * 8 + 8)) in
    let* b24 := slice thunk 2 4 in
    let flags := leUint16 b24 in
    if Z.land flags 0x8000 =? 0x0000 then
      if leUint64 thunk =? 0
      then decodeThunks_loop buf messageSize rest valueOff
      else Err errTODO
    else if negb (Z.land flags 0x3FFF =? 0x0000) then Err errTODO
    else if Z.land flags 0x4000 =? 0x4000 then
      let* b48 := slice thunk 4 8 in
      let valueSize := leUint32 b48 in
      let paddedSize := Z.land (wrap64 (valueSize + 7)) 0xFFFFFFF8 in
      let* _ :=
        (if paddedSize >? valueSize then
           let* padding :=
             slice buf (wrap64 (valueOff + valueSize)) (wrap64 (valueOff + paddedSize)) in
           if forallb (fun pad => u8 pad =? 0x00) padding
           then Ok tt else Err errTODO
         else Ok tt) in
      let thunkOffset :=
        Z.lor (Z.shiftr (wrap32 valueOff) 3) (wrap32 (Z.shiftl flags 16)) in
      let buf := put buf (wrap32 (tag * 8)) (leBytes 4 thunkOffset) in
      let valueOff := wrap64 (valueOff + paddedSize) in
      if valueOff >? messageSize then Err errTODO
      else decodeThunks_loop buf messageSize rest valueOff
    else
      let* b02 := slice thunk 0 2 in
      let handles := leUint16 b02 in
      if handles >? 0 then
        if negb (handles =? 1) then Err errTODO
        else
          let* b48 := slice thunk 4 8 in
          let value := leUint32 b48 in
          if negb (value =? 0xFFFFFFFF) then Err errTODO
          else Panic (* panic("decoding handles: TODO") *)
      else decodeThunks_loop buf messageSize rest valueOff
  end.

(** [decodeThunks]; on success the value is the buffer with the offsets
    cached in place. *)
Definition decodeThunks (buf : list byte) (messageSize : Z)
    : outcome error (list byte) :=
  let* b68 := slice buf 6 8 in
  let thunkCount := leUint16 b68 in
  let dataOff := wrap32 (8 + thunkCount * 8) in
  if dataOff >? messageSize then Err errTODO
  else
    let* (buf, valueOff) :=
      decodeThunks_loop buf messageSize (seqZ 1 thunkCount) dataOff in
    if negb (valueOff =? messageSize) then Err errTODO else Ok buf.

(** A decoder holds the buffer and the first error met; its methods record
    errors in [d_err] instead of returning them. *)
Record MessageDecoder := { d_buf : list byte; d_err : option error }.

(** [NewMessageDecoder]; it returns a decoder in every case it returns, so
    the [Err] constructor is not used. *)
Definition NewMessageDecoder (buf : list byte) : outcome error MessageDecoder :=
  let failed := Ok {| d_buf := []; d_err := Some errTODO |} in
  if Z.of_nat (length buf) >? MaxUint32 then failed
  else
    let bufLen := wrap32 (Z.of_nat (length buf)) in
    if bufLen <? 8 then failed
    else if negb (bufLen mod 8 =? 0) then failed
    else if bufLen >? MaxMessageSize then failed
    else
      let* b04 := slice buf 0 4 in
      let messageSize := leUint32 b04 in
      if negb (messageSize =? bufLen) then failed
      else
        let* b46 := slice buf 4 6 in
        let messageFlags := leUint16 b46 in
        if negb (messageFlags =? 0x0000) then failed
        else
          match decodeThunks buf messageSize with
          | Ok buf' => Ok {| d_buf := buf'; d_err := None |}
          | Err e => Ok {| d_buf := []; d_err := Some e |}
          | Panic => Panic
          end.

Definition Finish (d : MessageDecoder) : option error := d_err d.

Definition has (d : MessageDecoder) (tag : Z) : outcome error bool :=
  Has {| buf := d_buf d |} tag.

Definition getIndirect (d : MessageDecoder) (tag : Z) : outcome error (list byte) :=
  GetIndirect {| buf := d_buf d |} tag.

(** The loop of [MessageDecoder.MessageArray] over the element sizes; an
    element of size 0 is skipped. *)
Fixpoint MessageArray_loop (decode : list byte -> outcome error unit)
    (buf : list byte) (bufLen : Z) (n : nat) (sizeOff valueOff : Z)
    : outcome error Z :=
  match n with
  | O => Ok valueOff
  | S n' =>
    let* bsz := slice buf sizeOff (sizeOff + 4) in
    let valueSize := leUint32 bsz in
    if valueSize =? 0
    then MessageArray_loop decode buf bufLen n' (sizeOff + 4) valueOff
    else if negb (valueSize mod 8 =? 0) then Err errTODO
    else
      let valueEnd := wrap64 (valueOff + valueSize) in
      if valueEnd >? bufLen then Err errTODO
      else
        let* value := slice buf valueOff valueEnd in
        let* _ := decode value in
        MessageArray_loop decode buf bufLen n' (sizeOff + 4) valueEnd
  end.

(** The checks of [MessageDecoder.MessageArray] on the field's payload. *)
Definition MessageArray_check (decode : list byte -> outcome error unit)
    (buf : list byte) : outcome error unit :=
  if (length buf =? 0)%nat then Ok tt
  else
    let bufLen := Z.of_nat (length buf) in
    if bufLen <? 4 then Err errTODO
    else
      let* b04 := slice buf 0 4 in
      let arrayLen := leUint32 b04 in
      let valueOff := wrap64 (4 + arrayLen * 4) in
      let valueOff :=
        if Z.land arrayLen 0x01 =? 0x00 then wrap64 (valueOff + 4) else valueOff in
      if valueOff >? bufLen then Err errTODO
      else
        let* valueOff :=
          MessageArray_loop decode buf bufLen (Z.to_nat arrayLen) 4 valueOff in
        if negb (valueOff =? bufLen) then Err errTODO else Ok tt.

(** [MessageDecoder.MessageArray]: an error of the checks, or of [decode],
    is stored into [d.err]; a panic propagates. *)
Definition MessageArray (d : MessageDecoder) (tag : Z)
    (decode : list byte -> outcome error unit) : outcome error MessageDecoder :=
  match d_err d with
  | Some _ => Ok d
  | None =>
    match getIndirect d tag with
    | Panic => Panic
    | Err e => Err e
    | Ok buf =>
      match MessageArray_check decode buf with
      | Ok _ => Ok d
      | Err e => Ok {| d_buf := d_buf d; d_err := Some e |}
      | Panic => Panic
      end
    end
  end.

(** *** Array views (idol_array.go) *)

(** [dynArray.len]. *)
Definition dynArray_len (a : list byte) : outcome error Z :=
  if (length a =? 0)%nat then Ok 0 else omap leUint32 (slice a 0 4).

(** The loop of [dynArray.get] that skips the [idx] elements before the
    one asked for. *)
Fixpoint dynArray_get_loop (a : list byte) (n : nat) (sizeOff valueOff : Z)
    : outcome error (Z * Z) :=
  match n with
  | O => Ok (sizeOff, valueOff)
  | S n' =>
    let* bsz := slice a sizeOff (sizeOff + 4) in
    let size := leUint32 bsz in
    dynArray_get_loop a n' (sizeOff + 4) (wrap32 (valueOff + size))
  end.

(** [dynArray.get]: the element and [true], or [("", false)] out of range. *)
Definition dynArray_get (a : list byte) (align : bool) (idx : Z)
    : outcome error (list byte * bool) :=
  let* len := dynArray_len a in
  if idx >=? len then Ok ([], false)
  else
    let valueOff := wrap32 (4 + len * 4) in
    let valueOff :=
      if align && (Z.land len 0x01 =? 0x00) then wrap32 (valueOff + 4) else valueOff in
    let* (sizeOff, valueOff) := dynArray_get_loop a (Z.to_nat idx) 4 valueOff in
    let* bsz := slice a sizeOff (sizeOff + 4) in
    let size := leUint32 bsz in
    if size =? 0 then Ok ([], true)
    else
      let* value := slice a valueOff (wrap32 (valueOff + size)) in
      Ok (value, true).

(** The loop of [dynArray.iter], for a [yield] that never stops the
    iteration: the pairs it is called with, in order. *)
Fixpoint dynArray_iter_loop (a : list byte) (n : nat) (ii sizeOff valueOff : Z)
    : outcome error (list (Z * list byte)) :=
  match n with
  | O => Ok []
  | S n' =>
    let* bsz := slice a sizeOff (sizeOff + 4) in
    let size := leUint32 bsz in
    let* value := slice a valueOff (wrap32 (valueOff + size)) in
    let* rest :=
      dynArray_iter_loop a n' (ii + 1) (sizeOff + 4) (wrap32 (valueOff + size)) in
    Ok ((ii, value) :: rest)
  end.

Definition dynArray_iter (a : list byte) (align : bool)
    : outcome error (list (Z * list byte)) :=
  let* arrayLen := dynArray_len a in
  if arrayLen =? 0 then Ok []
  else
    let valueOff := wrap32 (4 + arrayLen * 4) in
    let valueOff :=
      if align && (Z.land arrayLen 0x01 =? 0x00)
      then wrap32 (valueOff + 4) else valueOff in
    dynArray_iter_loop a (Z.to_nat arrayLen) 0 4 valueOff.

Record TextArray := { ta_buf : list byte }.

Definition TextArray_Len (a : TextArray) : outcome error Z := dynArray_len (ta_buf a).

(** [value[:len(value)-1]] when the element is not empty. *)
Definition dropNul (value : list byte) : list byte :=
  if (0 <? length value)%nat then take (length value - 1) value else value.

(** [TextArray.Iter]: the texts it yields, in order, each with its index. *)
Definition TextArray_Iter (a : TextArray) : outcome error (list (Z * list byte)) :=
  omap (map (fun '(idx, value) => (idx, dropNul value))) (dynArray_iter (ta_buf a) false).

Definition TextArray_Get (a : TextArray) (idx : Z) : outcome error (list byte * bool) :=
  let* (value, ok) := dynArray_get (ta_buf a) false idx in
  if negb ok || (length value =? 0)%nat then Ok ([], ok)
  else Ok (dropNul value, true).

Record MessageArray_view := { ma_buf : list byte }.

Definition MessageArray_Get (a : MessageArray_view) (idx : Z)
    : outcome error (list byte * bool) :=
  dynArray_get (ma_buf a) true idx.

Definition MessageArray_Iter (a : MessageArray_view)
    : outcome error (list (Z * list byte)) :=
  dynArray_iter (ma_buf a) true.

(** *** Field builders (idol_field_builders.go) *)

(** What a builder writes to its [io.Writer]. *)
Definition zeros (n : Z) : list byte := repeat x00 (Z.to_nat n).

(** [PutUint16(thunk[2:4], flags); PutUint32(thunk[4:8], value)]. *)
Definition putFlagsValue (thunk : list byte) (flags value : Z) : list byte :=
  put (put thunk 2 (leBytes 2 flags)) 4 (leBytes 4 value).

Record Uint32FieldBuilder := { u32_value : Z }.

Definition Uint32_IsPresent (b : Uint32FieldBuilder) : bool :=
  negb (u32_value b =? 0).

Definition Uint32_PutThunk (b : Uint32FieldBuilder) (thunk : list byte) : list byte :=
  if Uint32_IsPresent b then putFlagsValue thunk 0x8000 (u32_value b) else thunk.

Record TextFieldBuilder := { text_value : list byte }.

Definition Text_IsPresent (b : TextFieldBuilder) : bool :=
  (0 <? length (text_value b))%nat.

Definition Text_DataSize (b : TextFieldBuilder) : Z :=
  if negb (Text_IsPresent b) then 0
  else
    let size := wrap32 (wrap32 (Z.of_nat (length (text_value b))) + 1) in
    if negb (size mod 8 =? 0)
    then Z.land (wrap32 (size + 7)) 0xFFFFFFF8
    else size.

Definition Text_PutThunk (b : TextFieldBuilder) (thunk : list byte) : list byte :=
  if Text_IsPresent b
  then putFlagsValue thunk 0xC000 (wrap32 (Z.of_nat (length (text_value b)) + 1))
  else thunk.

Definition Text_EncodeData (b : TextFieldBuilder) : list byte :=
  if negb (Text_IsPresent b) then []
  else
    let size := wrap32 (Z.of_nat (length (text_value b))) in
    let paddedSize := wrap32 (size + 1) in
    let paddedSize :=
      if negb (paddedSize mod 8 =? 0)
      then Z.land (wrap32 (wrap32 (size + 1) + 7)) 0xFFFFFFF8
      else paddedSize in
    let padLen := wrap32 (paddedSize - size) in
    text_value b ++ zeros padLen.

Record TextArrayFieldBuilder := { values : list (list byte); valuesSize : Z }.

Definition TextArray_IsPresent (b : TextArrayFieldBuilder) : bool :=
  (0 <? length (values b))%nat.

Definition TextArray_DataSize (b : TextArrayFieldBuilder) : Z :=
  if (length (values b) =? 0)%nat then 0
  else
    let size :=
      wrap32 (wrap32 (4 + wrap32 (4 * wrap32 (Z.of_nat (length (values b)))))
              + valuesSize b) in
    if negb (size mod 8 =? 0)
    then Z.land (wrap32 (size + 7)) 0xFFFFFFF8
    else size.

Definition TextArray_Add (b : TextArrayFieldBuilder) (value : list byte)
    : TextArrayFieldBuilder :=
  {| values := values b ++ [value];
     valuesSize := wrap32 (valuesSize b + wrap32 (wrap32 (Z.of_nat (length value)) + 1)) |}.

Definition TextArray_Set (vs : list (list byte)) : TextArrayFieldBuilder :=
  {| values := vs;
     valuesSize :=
       fold_left
         (fun acc value => wrap32 (acc + wrap32 (wrap32 (Z.of_nat (length value)) + 1)))
         vs 0 |}.

Definition TextArray_PutThunk (b : TextArrayFieldBuilder) (thunk : list byte)
    : list byte :=
  if TextArray_IsPresent b
  then putFlagsValue thunk 0xC000 (TextArray_DataSize b)
  else thunk.

Definition TextArray_EncodeData (b : TextArrayFieldBuilder) : list byte :=
  if negb (TextArray_IsPresent b) then []
  else
    let sizes :=
      leBytes 4 (wrap32 (Z.of_nat (length (values b))))
      ++ concat (map (fun value =>
                   leBytes 4 (wrap32 (wrap32 (Z.of_nat (length value)) + 1)))
                 (values b)) in
    let elems := concat (map (fun value => value ++ [x00]) (values b)) in
    let wrote := Z.of_nat (length sizes) + Z.of_nat (length elems) in
    let padding := if negb (wrote mod 8 =? 0) then zeros (8 - wrote mod 8) else [] in
    sizes ++ elems ++ padding.

(** *** MessageSizeBuilder (idol_message.go) *)

Record MessageSizeBuilder := { dataSize : Z; thunksLen : Z }.

Definition MSB_Scalar (b : MessageSizeBuilder) (tag : Z) : MessageSizeBuilder :=
  {| dataSize := dataSize b; thunksLen := tag |}.

Definition MSB_Indirect (b : MessageSizeBuilder) (tag size : Z) : MessageSizeBuilder :=
  {| dataSize :=
       if size >? 0 then
         let s := wrap64 (dataSize b + size) in
         let s := if s >? MaxUint32 then MaxUint32 else s in
         wrap32 s
       else dataSize b;
     thunksLen := tag |}.

Definition MSB_Finish (b : MessageSizeBuilder) : Z * Z :=
  if thunksLen b =? 0 then (0, 0)
  else
    let s := wrap64 (wrap64 (8 + wrap64 (thunksLen b * 8)) + dataSize b) in
    let s := if s >? MaxUint32 then MaxUint32 else s in
    (wrap32 s, thunksLen b).

(** *** Message encoding *)

(** The field builders of a message builder, by kind. *)
Inductive FieldBuilder :=
| Uint32Field (b : Uint32FieldBuilder)
| TextField (b : TextFieldBuilder)
| TextArrayField (b : TextArrayFieldBuilder).

Definition IsPresent (f : FieldBuilder) : bool :=
  match f with
  | Uint32Field b => Uint32_IsPresent b
  | TextField b => Text_IsPresent b
  | TextArrayField b => TextArray_IsPresent b
  end.

(** [DataSize]; a scalar builder has no such method and no indirect data. *)
Definition DataSize (f : FieldBuilder) : Z :=
  match f with
  | Uint32Field _ => 0
  | TextField b => Text_DataSize b
  | TextArrayField b => TextArray_DataSize b
  end.

Definition PutThunk (f : FieldBuilder) (thunk : list byte) : list byte :=
  match f with
  | Uint32Field b => Uint32_PutThunk b thunk
  | TextField b => Text_PutThunk b thunk
  | TextArrayField b => TextArray_PutThunk b thunk
  end.

Definition EncodeData (f : FieldBuilder) : list byte :=
  match f with
  | Uint32Field _ => []
  | TextField b => Text_EncodeData b
  | TextArrayField b => TextArray_EncodeData b
  end.

(** Modelled from the spec: the [EncodeTo] method that the code generator
    emits for each message builder, which is not under src/.  Section 4.5.6:
    the encoder computes the total message size (header + thunks + padded
    data), writes the header and the thunk table, one 8-byte entry per field
    tag, then streams the data region in tag order.  [fields] lists the
    builders of tags [1..thunkCount] in tag order; each thunk starts as eight
    zero bytes (section 4.5.2: an absent field is all zero). *)
Definition encodeMessage (fields : list FieldBuilder) : list byte :=
  let thunkCount := Z.of_nat (length fields) in
  let messageSize :=
    8 + 8 * thunkCount + fold_right (fun f acc => DataSize f + acc) 0 fields in
  leBytes 4 messageSize ++ leBytes 2 0x0000 ++ leBytes 2 thunkCount
  ++ concat (map (fun f => PutThunk f (zeros 8)) fields)
  ++ concat (map EncodeData fields).

End idol.

(** ** Go strings *)

(** A Go [string] (and a [[]byte]) is a sequence of bytes. *)
Definition str (s : string) : list byte := list_byte_of_string s.

#[global] Instance byte_eq_dec : EqDecision byte := Byte.byte_eq_dec.
#[global] Instance byte_countable : Countable byte :=
  inj_countable Byte.to_N Byte.of_N Byte.of_to_N.

(** The text of a diagnostic.  [fmt.Sprintf(format, args...)] is kept as the
    format and its arguments, unformatted; an argument is a string, an
    integer, or itself the result of [fmt.Sprintf]. *)
#[warnings="-register-all"] Inductive gostr :=
| Lit (s : list byte)
| Num (z : Z)
| Sprintf (format : string) (args : list gostr).

(** ** Package [idol/syntax]: spans, tokens kinds and CST nodes
    (syntax_tokens.go, syntax_nodes.go) *)

Module syntax.
Import wire.

Record Span := { start : Z; len : Z }.

Definition NewSpan (start len : Z) : Span := {| start := start; len := len |}.
Definition Span_End (s : Span) : Z := wrap32 (start s + len s).

Record Error := { code : Z; message : gostr; span : Span }.

Inductive TokenKind :=
| T_EOF
| T_SPACE | T_NEWLINE | T_COMMENT
| T_AT | T_COLON | T_DOT | T_EQ
| T_OPEN_CURL | T_CLOSE_CURL | T_OPEN_PAREN | T_CLOSE_PAREN
| T_OPEN_SQUARE | T_CLOSE_SQUARE
| T_INT_LIT | T_BIN_INT_LIT | T_OCT_INT_LIT | T_DEC_INT_LIT | T_HEX_INT_LIT
| T_TEXT_LIT
| T_IDENT.

#[global] Instance TokenKind_eq_dec : EqDecision TokenKind.
Proof. solve_decision. Defined.

Definition TokenKind_String (k : TokenKind) : string :=
  match k with
  | T_EOF => "EOF" | T_SPACE => "SPACE" | T_NEWLINE => "NEWLINE"
  | T_COMMENT => "COMMENT" | T_AT => "AT" | T_COLON => "COLON"
  | T_DOT => "DOT" | T_EQ => "EQ" | T_OPEN_CURL => "OPEN_CURL"
  | T_CLOSE_CURL => "CLOSE_CURL" | T_OPEN_PAREN => "OPEN_PAREN"
  | T_CLOSE_PAREN => "CLOSE_PAREN" | T_OPEN_SQUARE => "OPEN_SQUARE"
  | T_CLOSE_SQUARE => "CLOSE_SQUARE" | T_INT_LIT => "INT_LIT"
  | T_BIN_INT_LIT => "BIN_INT_LIT" | T_OCT_INT_LIT => "OCT_INT_LIT"
  | T_DEC_INT_LIT => "DEC_INT_LIT" | T_HEX_INT_LIT => "HEX_INT_LIT"
  | T_TEXT_LIT => "TEXT_LIT" | T_IDENT => "IDENT"
  end.

(** *** Leaf nodes *)

Record IntLit := { il_raw : list byte; il_value : Z; il_start : Z }.
Record TextLit :=
  { tl_raw : list byte; tl_value : list byte; tl_start : Z;
    tl_validAsciz : bool; tl_validText : bool }.
Record Ident := { id_raw : list byte; id_start : Z }.

(** *** The node variants.  A typed pointer field of the Go struct is an
    [option] ([None] is the nil pointer); a field of interface type [Node]
    or of another node's pointer type holds the node itself. *)
#[warnings="-register-all"] Inductive Node :=
| N_nil
| N_ParseError (span : Span) (err : Error)
| N_Space (raw : list byte) (start : Z)
| N_Newline (start : Z) (crlf : bool)
| N_Comment (raw : list byte) (start : Z)
| N_IntLit (lit : IntLit)
| N_TextLit (lit : TextLit)
| N_Sigil (raw : byte) (start : Z)
| N_Ident (id : Ident)
| N_Keyword (raw : list byte) (start : Z)
| N_TypeName (span : Span) (childNodes : list Node) (scope name : option Ident)
| N_ValueName (span : Span) (childNodes : list Node) (scope name : option Ident)
| N_ExportName (span : Span) (childNodes : list Node) (scope name : option Ident)
| N_Tag (span : Span) (childNodes : list Node) (value : option IntLit)
| N_Schema (span : Span) (childNodes : list Node)
| N_Namespace (span : Span) (childNodes : list Node) (namespace : option TextLit)
| N_Import (span : Span) (childNodes : list Node) (namespace : option TextLit)
    (importAs : option Ident) (importNames : list (option Ident))
| N_Export (span : Span) (childNodes : list Node)
    (exportAs_exportName : option Node) (exportAs_name : option Ident)
    (exportNames : list (option Node))
| N_Decorator (span : Span) (childNodes : list Node) (value : option Node)
| N_Options (span : Span) (childNodes : list Node) (schema : option Node)
    (options : list (option Node))
| N_OptionsOption (span : Span) (childNodes : list Node)
    (name : option Node) (value : option Node)
| N_Option (span : Span) (childNodes : list Node)
    (name : option Node) (value : option Node)
| N_OptionName (span : Span) (childNodes : list Node)
| N_Const (span : Span) (childNodes : list Node) (name : option Ident)
    (typeName : option Node) (value : option Node) (decorators : list Node)
| N_EnumRef (span : Span) (childNodes : list Node) (name : option Ident)
| N_Enum (span : Span) (childNodes : list Node) (name type_ : option Ident)
    (items : list (option Node)) (decorators : list Node)
| N_EnumItem (span : Span) (childNodes : list Node) (name : option Ident)
    (value : option Node) (decorators : list Node)
| N_Struct (span : Span) (childNodes : list Node) (name : option Ident)
    (decorators : list Node) (fields : list (option Node))
| N_StructField (span : Span) (childNodes : list Node) (name : option Ident)
    (fieldType : option Node) (decorators : list Node)
| N_Message (span : Span) (childNodes : list Node) (name : option Ident)
    (decorators : list Node) (fields : list (option Node))
| N_MessageField (span : Span) (childNodes : list Node) (name : option Ident)
    (tag : option Node) (fieldType : option Node) (decorators : list Node)
| N_Union (span : Span) (childNodes : list Node) (name : option Ident)
    (decorators : list Node) (fields : list (option Node))
| N_UnionField (span : Span) (childNodes : list Node) (name : option Ident)
    (tag : option Node) (fieldType : option Node) (decorators : list Node)
| N_FieldType (span : Span) (childNodes : list Node) (typeName : option Node)
    (isArray : bool) (arrayLen : option IntLit)
| N_Protocol (span : Span) (childNodes : list Node) (name : option Ident)
    (decorators : list Node) (rpcs events : list Node)
| N_ProtocolRpc (span : Span) (childNodes : list Node) (name : option Ident)
    (tag : option Node) (requestType : option Node) (requestIsStream : bool)
    (responseType : option Node) (responseIsStream : bool)
    (decorators : list Node)
| N_ProtocolEvent (span : Span) (childNodes : list Node) (name : option Ident)
    (tag : option Node) (payloadType : option Node) (decorators : list Node).

(** [privChildren]: the child nodes of an interior node, none for a leaf. *)
Definition privChildren (n : Node) : list Node :=
  match n with
  | N_nil | N_ParseError _ _ | N_Space _ _ | N_Newline _ _ | N_Comment _ _
  | N_IntLit _ | N_TextLit _ | N_Sigil _ _ | N_Ident _ | N_Keyword _ _ => []
  | N_TypeName _ cs _ _ | N_ValueName _ cs _ _ | N_ExportName _ cs _ _
  | N_Tag _ cs _ | N_Schema _ cs | N_Namespace _ cs _ | N_Import _ cs _ _ _
  | N_Export _ cs _ _ _ | N_Decorator _ cs _ | N_Options _ cs _ _
  | N_OptionsOption _ cs _ _ | N_Option _ cs _ _ | N_OptionName _ cs
  | N_Const _ cs _ _ _ _ | N_EnumRef _ cs _ | N_Enum _ cs _ _ _ _
  | N_EnumItem _ cs _ _ _ | N_Struct _ cs _ _ _ | N_StructField _ cs _ _ _
  | N_Message _ cs _ _ _ | N_MessageField _ cs _ _ _ _ | N_Union _ cs _ _ _
  | N_UnionField _ cs _ _ _ _ | N_FieldType _ cs _ _ _
  | N_Protocol _ cs _ _ _ _ | N_ProtocolRpc _ cs _ _ _ _ _ _ _
  | N_ProtocolEvent _ cs _ _ _ _ => cs
  end.

Definition isLeaf (n : Node) : bool :=
  match n with
  | N_ParseError _ _ | N_Space _ _ | N_Newline _ _ | N_Comment _ _
  | N_IntLit _ | N_TextLit _ | N_Sigil _ _ | N_Ident _ | N_Keyword _ _ => true
  | _ => false
  end.

Definition Ident_Span (n : Ident) : Span :=
  {| start := id_start n; len := wrap32 (Z.of_nat (length (id_raw n))) |}.
Definition IntLit_Span (n : IntLit) : Span :=
  {| start := il_start n; len := wrap32 (Z.of_nat (length (il_raw n))) |}.
Definition TextLit_Span (n : TextLit) : Span :=
  {| start := tl_start n; len := wrap32 (Z.of_nat (length (tl_raw n))) |}.

(** [Node.Span]; [None] for the nil pointer, whose method call panics. *)
Definition Node_Span (n : Node) : option Span :=
  match n with
  | N_nil => None
  | N_ParseError sp _ => Some sp
  | N_Space raw st | N_Comment raw st | N_Keyword raw st =>
      Some {| start := st; len := wrap32 (Z.of_nat (length raw)) |}
  | N_Newline st crlf => Some {| start := st; len := if crlf then 2 else 1 |}
  | N_IntLit l => Some (IntLit_Span l)
  | N_TextLit l => Some (TextLit_Span l)
  | N_Sigil _ st => Some {| start := st; len := 1 |}
  | N_Ident i => Some (Ident_Span i)
  | N_TypeName sp _ _ _ | N_ValueName sp _ _ _ | N_ExportName sp _ _ _
  | N_Tag sp _ _ | N_Schema sp _ | N_Namespace sp _ _ | N_Import sp _ _ _ _
  | N_Export sp _ _ _ _ | N_Decorator sp _ _ | N_Options sp _ _ _
  | N_OptionsOption sp _ _ _ | N_Option sp _ _ _ | N_OptionName sp _
  | N_Const sp _ _ _ _ _ | N_EnumRef sp _ _ | N_Enum sp _ _ _ _ _
  | N_EnumItem sp _ _ _ _ | N_Struct sp _ _ _ _ | N_StructField sp _ _ _ _
  | N_Message sp _ _ _ _ | N_MessageField sp _ _ _ _ _ | N_Union sp _ _ _ _
  | N_UnionField sp _ _ _ _ _ | N_FieldType sp _ _ _ _
  | N_Protocol sp _ _ _ _ _ | N_ProtocolRpc sp _ _ _ _ _ _ _ _
  | N_ProtocolEvent sp _ _ _ _ _ => Some sp
  end.

(** [UnparseTo], as the bytes written to the buffer; [None] when the call
    panics (a nil node, or a [ParseError], whose method is unimplemented). *)
Fixpoint UnparseTo (n : Node) : option (list byte) :=
  let children :=
    fix children (cs : list Node) : option (list byte) :=
      match cs with
      | [] => Some []
      | c :: rest =>
        match UnparseTo c with
        | None => None
        | Some s =>
          match children rest with
          | None => None
          | Some r => Some (s ++ r)
          end
        end
      end in
  match n with
  | N_nil => None
  | N_ParseError _ _ => None
  | N_Space raw _ | N_Comment raw _ | N_Keyword raw _ => Some raw
  | N_Newline _ crlf => Some (if crlf then [x0d; x0a] else [x0a])
  | N_IntLit l => Some (il_raw l)
  | N_TextLit l => Some (tl_raw l)
  | N_Sigil raw _ => Some [raw]
  | N_Ident i => Some (id_raw i)
  | N_TypeName _ cs _ _ | N_ValueName _ cs _ _ | N_ExportName _ cs _ _
  | N_Tag _ cs _ | N_Schema _ cs | N_Namespace _ cs _ | N_Import _ cs _ _ _
  | N_Export _ cs _ _ _ | N_Decorator _ cs _ | N_Options _ cs _ _
  | N_OptionsOption _ cs _ _ | N_Option _ cs _ _ | N_OptionName _ cs
  | N_Const _ cs _ _ _ _ | N_EnumRef _ cs _ | N_Enum _ cs _ _ _ _
  | N_EnumItem _ cs _ _ _ | N_Struct _ cs _ _ _ | N_StructField _ cs _ _ _
  | N_Message _ cs _ _ _ | N_MessageField _ cs _ _ _ _ | N_Union _ cs _ _ _
  | N_UnionField _ cs _ _ _ _ | N_FieldType _ cs _ _ _
  | N_Protocol _ cs _ _ _ _ | N_ProtocolRpc _ cs _ _ _ _ _ _ _
  | N_ProtocolEvent _ cs _ _ _ _ => children cs
  end.

Definition Unparse (n : Node) : option (list byte) := UnparseTo n.

(** The leaf nodes below a node, in source order. *)
Fixpoint leaves (n : Node) : list Node :=
  let children :=
    fix children (cs : list Node) : list Node :=
      match cs with
      | [] => []
      | c :: rest => leaves c ++ children rest
      end in
  match n with
  | N_nil => []
  | N_ParseError _ _ | N_Space _ _ | N_Newline _ _ | N_Comment _ _
  | N_IntLit _ | N_TextLit _ | N_Sigil _ _ | N_Ident _ | N_Keyword _ _ => [n]
  | N_TypeName _ cs _ _ | N_ValueName _ cs _ _ | N_ExportName _ cs _ _
  | N_Tag _ cs _ | N_Schema _ cs | N_Namespace _ cs _ | N_Import _ cs _ _ _
  | N_Export _ cs _ _ _ | N_Decorator _ cs _ | N_Options _ cs _ _
  | N_OptionsOption _ cs _ _ | N_Option _ cs _ _ | N_OptionName _ cs
  | N_Const _ cs _ _ _ _ | N_EnumRef _ cs _ | N_Enum _ cs _ _ _ _
  | N_EnumItem _ cs _ _ _ | N_Struct _ cs _ _ _ | N_StructField _ cs _ _ _
  | N_Message _ cs _ _ _ | N_MessageField _ cs _ _ _ _ | N_Union _ cs _ _ _
  | N_UnionField _ cs _ _ _ _ | N_FieldType _ cs _ _ _
  | N_Protocol _ cs _ _ _ _ | N_ProtocolRpc _ cs _ _ _ _ _ _ _
  | N_ProtocolEvent _ cs _ _ _ _ => children cs
  end.

(** *** Errors (syntax_errors.go) *)

(** The span length [uint32(len(token))] that the error constructors
    saturate at [math.MaxUint32]. *)
Definition saturatedLen (n : Z) : Z := if n <? MaxUint32 then n else MaxUint32.

Definition sigilText (k : TokenKind) : option (Z * list byte) :=
  match k with
  | T_AT => Some (2000, str "@")
  | T_COLON => Some (2001, str ":")
  | T_DOT => Some (2002, str ".")
  | T_EQ => Some (2003, str "=")
  | T_OPEN_CURL => Some (2004, str "{")
  | T_CLOSE_CURL => Some (2005, str "}")
  | T_OPEN_PAREN => Some (2006, str "(")
  | T_CLOSE_PAREN => Some (2007, str ")")
  | T_OPEN_SQUARE => Some (2008, str "[")
  | T_CLOSE_SQUARE => Some (2009, str "]")
  | _ => None
  end.

(** [errExpectedSigil]; [None] is the panic of its default case. *)
Definition errExpectedSigil (wantKind gotKind : TokenKind) (gotToken : list byte)
    (sp : Span) : option Error :=
  match sigilText wantKind with
  | Some (c, want) =>
      Some {| code := c;
              message := Sprintf "Expected sigil '%s', got (%s %q)"
                           [Lit want; Lit (str (TokenKind_String gotKind));
                            Lit gotToken];
              span := sp |}
  | None => None
  end.

(** The constructors [errExpectedIntLit] ... [errExpectedProtocolItem], which
    differ in their code and in what they expected. *)
Definition errExpected (c : Z) (what : string) (gotKind : TokenKind)
    (gotToken : list byte) (sp : Span) : Error :=
  {| code := c;
     message := Sprintf ("Expected " ++ what ++ ", got (%s %q)")
                  [Lit (str (TokenKind_String gotKind)); Lit gotToken];
     span := sp |}.

Definition errExpectedIntLit := errExpected 2010 "integer literal".
Definition errExpectedTextLit := errExpected 2011 "text literal".
Definition errExpectedIdent := errExpected 2012 "identifier".
Definition errExpectedKeywordAs := errExpected 2013 "keyword 'as'".
Definition errExpectedKeywordNamespace := errExpected 2014 "keyword 'namespace'".
Definition errExpectedDeclaration := errExpected 2015 "declaration keyword".
Definition errExpectedTypeName := errExpected 2018 "type name".
Definition errExpectedConstValue := errExpected 2019 "const value".
Definition errExpectedOptionName := errExpected 2020 "option name".
Definition errExpectedOptionValue := errExpected 2021 "option value".
Definition errExpectedProtocolItem := errExpected 2025 "protocol item".
Definition errExpectedValueName := errExpected 2026 "value name".
Definition errExpectedExportName := errExpected 2027 "export name".

Definition errUnknownDeclaration (token : list byte) (sp : Span) : Error :=
  {| code := 2016;
     message := Sprintf "Unknown declaration keyword %q" [Lit token];
     span := sp |}.

Definition errUnknownDecorator (token : list byte) (sp : Span) : Error :=
  {| code := 2017;
     message := Sprintf "Unknown decorator keyword %q" [Lit token];
     span := sp |}.

Definition errIntLitTooPositive (token : list byte) (start : Z) : Error :=
  {| code := 2022;
     message := Sprintf "Integer literal too positive (must be <= %d)"
                  [Num (2^64 - 1)];
     span := {| start := start; len := wrap32 (Z.of_nat (length token)) |} |}.

Definition errIntLitTooNegative (token : list byte) (start : Z) : Error :=
  {| code := 2023;
     message := Sprintf "Integer literal too negative (must be >= %d)"
                  [Num (- 2^63)];
     span := {| start := start; len := wrap32 (Z.of_nat (length token)) |} |}.

Definition errTextLitInvalid (start : Z) (token : list byte) : Error :=
  {| code := 2024;
     message := Sprintf "Invalid text literal %q" [Lit token];
     span := {| start := start; len := wrap32 (Z.of_nat (length token)) |} |}.

(** *** Integer literals (syntax_nodes.go) *)

(** The value of a digit of [strconv.ParseUint]. *)
Definition digitValue (c : byte) : option Z :=
  let v := u8 c in
  if (48 <=? v) && (v <=? 57) then Some (v - 48)
  else if (97 <=? v) && (v <=? 122) then Some (v - 97 + 10)
  else if (65 <=? v) && (v <=? 90) then Some (v - 65 + 10)
  else None.

Fixpoint parseDigits (base : Z) (acc : Z) (s : list byte) : option Z :=
  match s with
  | [] => Some acc
  | c :: r =>
    match digitValue c with
    | Some d => if d <? base then parseDigits base (acc * base + d) r else None
    | None => None
    end
  end.

(** [strconv.ParseUint(s, base, bitSize)] for a base other than 0: no
    prefix, no sign and no underscore is accepted; [None] is any error
    (empty input, a character that is no digit of the base, a value of
    more than [bitSize] bits). *)
Definition ParseUint (s : list byte) (base : Z) (bitSize : Z) : option Z :=
  match s with
  | [] => None
  | _ =>
    match parseDigits base 0 s with
    | Some v => if v <? 2^bitSize then Some v else None
    | None => None
    end
  end.

(** [valueStr[2:]] of the prefixed kinds. *)
Definition stripPrefix (kind : TokenKind) (valueStr : list byte)
  : outcome Error (Z * list byte) :=
  match kind with
  | T_BIN_INT_LIT =>
      let* s := slice valueStr 2 (Z.of_nat (length valueStr)) in Ok (2, s)
  | T_OCT_INT_LIT =>
      let* s := slice valueStr 2 (Z.of_nat (length valueStr)) in Ok (8, s)
  | T_DEC_INT_LIT =>
      let* s := slice valueStr 2 (Z.of_nat (length valueStr)) in Ok (10, s)
  | T_HEX_INT_LIT =>
      let* s := slice valueStr 2 (Z.of_nat (length valueStr)) in Ok (16, s)
  | _ => Ok (10, valueStr)
  end.

Definition minus : byte := x2d.

Definition newIntLit (token : list byte) (kind : TokenKind) (start : Z)
  : outcome Error IntLit :=
  let* c0 := index token 0 in
  let* valueStr :=
    if decide (c0 = minus) then slice token 1 (Z.of_nat (length token))
    else Ok token in
  let* (base, valueStr) := stripPrefix kind valueStr in
  match ParseUint valueStr base 64 with
  | None => Err (errIntLitTooPositive token start)
  | Some value =>
    if decide (c0 = minus) then
      if 2^63 <? value then Err (errIntLitTooNegative token start)
      else Ok {| il_raw := token; il_value := wrap64 (- value); il_start := start |}
    else Ok {| il_raw := token; il_value := value; il_start := start |}
  end.

Definition newUnsignedIntLit (token : list byte) (kind : TokenKind) (start : Z)
  : outcome Error IntLit :=
  let* (base, valueStr) := stripPrefix kind token in
  match ParseUint valueStr base 64 with
  | None => Err (errIntLitTooPositive token start)
  | Some value => Ok {| il_raw := token; il_value := value; il_start := start |}
  end.

(** [n.raw[0] == '-']; [None] is the panic of indexing an empty string. *)
Definition IntLit_negative (n : IntLit) : option bool :=
  match il_raw n with
  | [] => None
  | c :: _ => Some (bool_decide (c = minus))
  end.

(** The conversion [int64(v)] of a [uint64]. *)
Definition int64 (v : Z) : Z := if v <? 2^63 then v else v - 2^64.

(** The getters return the pair [(value, ok)]. *)
Definition IntLit_GetUint (max : Z) (n : IntLit) : option (Z * bool) :=
  match IntLit_negative n with
  | None => None
  | Some neg =>
    if negb neg && (il_value n <=? max) then Some (il_value n, true)
    else Some (0, false)
  end.

Definition IntLit_GetUint8 := IntLit_GetUint (2^8 - 1).
Definition IntLit_GetUint16 := IntLit_GetUint (2^16 - 1).
Definition IntLit_GetUint32 := IntLit_GetUint (2^32 - 1).

Definition IntLit_GetUint64 (n : IntLit) : option (Z * bool) :=
  match IntLit_negative n with
  | None => None
  | Some neg => if negb neg then Some (il_value n, true) else Some (0, false)
  end.

Definition IntLit_GetInt (min max : Z) (n : IntLit) : option (Z * bool) :=
  match IntLit_negative n with
  | None => None
  | Some neg =>
    let v := int64 (il_value n) in
    if neg && (min <=? v) && (v <=? max) then Some (v, true)
    else if il_value n <=? max then Some (il_value n, true)
    else Some (0, false)
  end.

Definition IntLit_GetInt8 := IntLit_GetInt (- 2^7) (2^7 - 1).
Definition IntLit_GetInt16 := IntLit_GetInt (- 2^15) (2^15 - 1).
Definition IntLit_GetInt32 := IntLit_GetInt (- 2^31) (2^31 - 1).

Definition IntLit_GetInt64 (n : IntLit) : option (Z * bool) :=
  match IntLit_negative n with
  | None => None
  | Some neg =>
    if neg || (il_value n <=? 2^63 - 1) then Some (int64 (il_value n), true)
    else Some (0, false)
  end.

(** The integer that a literal denotes. *)
Definition IntLit_value (n : IntLit) : Z :=
  match IntLit_negative n with
  | Some true => int64 (il_value n)
  | _ => il_value n
  end.

(** *** Text literals *)

(** [utf8.AppendRune], which [bytes.Buffer.WriteRune] uses: a surrogate or
    a value above U+10FFFF is written as U+FFFD. *)
Definition EncodeRune (r : Z) : list byte :=
  if r <? 0x80 then [to_u8 r]
  else if r <? 0x800 then
    [to_u8 (0xC0 + r / 64); to_u8 (0x80 + r mod 64)]
  else if (0x10FFFF <? r) || ((0xD800 <=? r) && (r <=? 0xDFFF)) then
    [xef; xbf; xbd]
  else if r <? 0x10000 then
    [to_u8 (0xE0 + r / 4096); to_u8 (0x80 + (r / 64) mod 64);
     to_u8 (0x80 + r mod 64)]
  else
    [to_u8 (0xF0 + r / 262144); to_u8 (0x80 + (r / 4096) mod 64);
     to_u8 (0x80 + (r / 64) mod 64); to_u8 (0x80 + r mod 64)].

Definition tokenFlagTextHasNoEscapes : Z := 1.

(** The position of the first ['}'] of [value], the result of the search
    loop of the [\u{...}] escape. *)
Fixpoint findCloseCurl (value : list byte) : option nat :=
  match value with
  | [] => None
  | c :: r =>
    if decide (c = x7d) then Some O
    else match findCloseCurl r with Some i => Some (S i) | None => None end
  end.

(** The escape loop of [newTextLit]; [None] is the result of [invalid()].
    The fuel is the length of the text that is left. *)
Fixpoint unescape (fuel : nat) (value : list byte) (escaped : bool)
    (buf : list byte) (validAsciz validText : bool)
  : option (list byte * bool * bool) :=
  match fuel with
  | O =>
    match value with
    | [] => if escaped then None else Some (buf, validAsciz, validText)
    | _ => None
    end
  | S fuel' =>
    match value with
    | [] => if escaped then None else Some (buf, validAsciz, validText)
    | c :: rest =>
      if negb escaped then
        if decide (c = x5c)
        then unescape fuel' rest true buf validAsciz validText
        else unescape fuel' rest false (buf ++ [c]) validAsciz validText
      else
        if decide (c = x22) then
          unescape fuel' rest false (buf ++ [c]) validAsciz validText
        else if decide (c = x5c) then
          unescape fuel' rest false (buf ++ [c]) validAsciz validText
        else if decide (c = x6e) then
          unescape fuel' rest false (buf ++ [x0a]) validAsciz validText
        else if decide (c = x74) then
          unescape fuel' rest false (buf ++ [x09]) validAsciz validText
        else if decide (c = x78) then
          if (length value <? 3)%nat then None
          else
            match ParseUint (take 2 rest) 16 8 with
            | None => None
            | Some b =>
              unescape fuel' (drop 2 rest) false (buf ++ [to_u8 b])
                (validAsciz && negb (b =? 0))
                (validText && negb (b =? 0) && negb (0x7F <? b))
            end
        else if decide (c = x75) then
          match rest with
          | open :: value2 =>
            if decide (open = x7b) then
              match findCloseCurl value2 with
              | None => None
              | Some ii =>
                let hex := take ii value2 in
                if (length hex =? 0)%nat || (6 <? length hex)%nat then None
                else
                  match ParseUint hex 16 32 with
                  | None => None
                  | Some scalar =>
                    if 0x10FFFF <? scalar then None
                    else
                      unescape fuel' (drop (S ii) value2) false
                        (buf ++ EncodeRune scalar)
                        (validAsciz && negb (scalar =? 0))
                        (validText && negb (scalar =? 0))
                  end
              end
            else None
          | [] => None
          end
        else None
    end
  end.

Definition newTextLit (token : list byte) (start : Z) (flags : Z)
  : outcome Error TextLit :=
  let* value := slice token 1 (Z.of_nat (length token) - 1) in
  if negb (Z.land flags tokenFlagTextHasNoEscapes =? 0) then
    Ok {| tl_raw := token; tl_value := value; tl_start := start;
          tl_validAsciz := true; tl_validText := true |}
  else
    match unescape (length value) value false [] true true with
    | None => Err (errTextLitInvalid start token)
    | Some (buf, validAsciz, validText) =>
      Ok {| tl_raw := token; tl_value := buf; tl_start := start;
            tl_validAsciz := validAsciz; tl_validText := validText |}
    end.

Definition TextLit_GetAsciz (n : TextLit) : list byte * bool :=
  if negb (tl_validAsciz n) then ([], false) else (tl_value n, true).

Definition TextLit_GetText (n : TextLit) : list byte * bool :=
  if negb (tl_validText n) then ([], false) else (tl_value n, true).

(** *** UTF-8 (package unicode/utf8) *)

Definition RuneError : Z := 0xFFFD.

Definition inRange (lo hi : Z) (b : byte) : bool := (lo <=? u8 b) && (u8 b <=? hi).

(** The accepted range of the second byte and the size of the sequence
    that a leading byte announces; [None] for a byte that leads nothing. *)
Definition first (p0 : byte) : option (Z * Z * nat) :=
  let c := u8 p0 in
  if (0xC2 <=? c) && (c <=? 0xDF) then Some (0x80, 0xBF, 2%nat)
  else if c =? 0xE0 then Some (0xA0, 0xBF, 3%nat)
  else if (0xE1 <=? c) && (c <=? 0xEC) then Some (0x80, 0xBF, 3%nat)
  else if c =? 0xED then Some (0x80, 0x9F, 3%nat)
  else if (0xEE <=? c) && (c <=? 0xEF) then Some (0x80, 0xBF, 3%nat)
  else if c =? 0xF0 then Some (0x90, 0xBF, 4%nat)
  else if (0xF1 <=? c) && (c <=? 0xF3) then Some (0x80, 0xBF, 4%nat)
  else if c =? 0xF4 then Some (0x80, 0x8F, 4%nat)
  else None.

(** [utf8.DecodeRune]: the rune and its width in bytes. *)
Definition DecodeRune (p : list byte) : Z * nat :=
  match p with
  | [] => (RuneError, 0%nat)
  | p0 :: rest =>
    if u8 p0 <? 0x80 then (u8 p0, 1%nat)
    else
      match first p0 with
      | None => (RuneError, 1%nat)
      | Some (lo, hi, sz) =>
        if (length p <? sz)%nat then (RuneError, 1%nat)
        else
          match rest with
          | b1 :: rest1 =>
            if negb (inRange lo hi b1) then (RuneError, 1%nat)
            else if (sz <=? 2)%nat then
              ((u8 p0 mod 32) * 64 + u8 b1 mod 64, 2%nat)
            else
              match rest1 with
              | b2 :: rest2 =>
                if negb (inRange 0x80 0xBF b2) then (RuneError, 1%nat)
                else if (sz <=? 3)%nat then
                  ((u8 p0 mod 16) * 4096 + (u8 b1 mod 64) * 64 + u8 b2 mod 64,
                   3%nat)
                else
                  match rest2 with
                  | b3 :: _ =>
                    if negb (inRange 0x80 0xBF b3) then (RuneError, 1%nat)
                    else
                      ((u8 p0 mod 8) * 262144 + (u8 b1 mod 64) * 4096
                       + (u8 b2 mod 64) * 64 + u8 b3 mod 64, 4%nat)
                  | [] => (RuneError, 1%nat)
                  end
              | [] => (RuneError, 1%nat)
              end
          | [] => (RuneError, 1%nat)
          end
      end
  end.

(** [utf8.Valid]: no position decodes to an encoding error of width 1. *)
Fixpoint Valid_loop (fuel : nat) (p : list byte) : bool :=
  match p with
  | [] => true
  | _ =>
    let '(r, size) := DecodeRune p in
    if (r =? RuneError) && (size =? 1)%nat then false
    else
      match fuel with
      | O => false
      | S fuel' => Valid_loop fuel' (drop size p)
      end
  end.

Definition Valid (p : list byte) : bool := Valid_loop (length p) p.

(** [utf8.RuneLen], converted to [uint32]. *)
Definition RuneLen32 (r : Z) : Z :=
  if r <? 0 then MaxUint32
  else if r <? 0x80 then 1
  else if r <? 0x800 then 2
  else if (0xD800 <=? r) && (r <=? 0xDFFF) then MaxUint32
  else if r <? 0x10000 then 3
  else if r <=? 0x10FFFF then 4
  else MaxUint32.

(** *** Lexical errors *)

Definition maxSrcLen : Z := 0x7FFFFFFF.
Definition maxTokenLen : Z := 65535.

Definition errSourceTooLong (srcLen : Z) : Error :=
  {| code := 1000;
     message := Sprintf "Source file size (%d bytes) exceeds maximum (%d bytes)"
                  [Num srcLen; Num maxSrcLen];
     span := {| start := 0; len := saturatedLen srcLen |} |}.

(** The offset of the first position that decodes to U+FFFD. *)
Fixpoint errInvalidUtf8_loop (fuel : nat) (src : list byte) (off : Z) : Z :=
  match fuel with
  | O => off
  | S fuel' =>
    match src with
    | [] => off
    | _ =>
      let '(r, size) := DecodeRune src in
      if r =? RuneError then off
      else errInvalidUtf8_loop fuel' (drop size src) (wrap32 (off + Z.of_nat size))
    end
  end.

Definition errInvalidUtf8 (src : list byte) : Error :=
  {| code := 1001;
     message := Lit (str "Source file contains invalid UTF-8");
     span := {| start := errInvalidUtf8_loop (length src) src 0; len := 1 |} |}.

Definition errUnexpectedCharacter (start : Z) (r : Z) : Error :=
  {| code := 1002;
     message := Sprintf "Unexpected character '%s' (U+%04X)"
                  [Lit (EncodeRune r); Num r];
     span := {| start := start; len := RuneLen32 r |} |}.

Definition errForbiddenControlCharacter (start : Z) (c : byte) : Error :=
  {| code := 1003;
     message := Sprintf "Forbidden control character U+%04X" [Num (u8 c)];
     span := {| start := start; len := 1 |} |}.

Definition errTokenTooLong (start : Z) (tokenLen : Z) : Error :=
  {| code := 1004;
     message := Sprintf "Token size (%d bytes) exceeds maximum (%d bytes)"
                  [Num tokenLen; Num maxTokenLen];
     span := {| start := start; len := saturatedLen tokenLen |} |}.

Definition errIntLitInvalid (start : Z) (token : list byte) : Error :=
  {| code := 1005;
     message := Sprintf "Invalid integer literal %q" [Lit token];
     span := {| start := start; len := saturatedLen (Z.of_nat (length token)) |} |}.

Definition errTextLitUnterminated (start tokenLen : Z) : Error :=
  {| code := 1006;
     message := Lit (str "Unterminated text literal");
     span := {| start := start; len := tokenLen |} |}.

Definition errTextLitContainsNewline (start newlineLen : Z) : Error :=
  {| code := 1007;
     message := Lit (str "Text literal contains unescaped newline");
     span := {| start := start; len := newlineLen |} |}.

Definition errIdentInvalid (start : Z) (token : list byte) : Error :=
  {| code := 1008;
     message := Sprintf "Invalid identifier %q" [Lit token];
     span := {| start := start; len := saturatedLen (Z.of_nat (length token)) |} |}.

(** *** The lexer (syntax_tokens.go) *)

Record Token := { tk_Len : Z; tk_Kind : TokenKind; tk_flags : Z }.

Record Tokens := { t_src : list byte; t_offset : Z }.

Definition NewTokens (src : list byte) : outcome Error Tokens :=
  if maxSrcLen <? Z.of_nat (length src)
  then Err (errSourceTooLong (Z.of_nat (length src)))
  else if negb (Valid src) then Err (errInvalidUtf8 src)
  else Ok {| t_src := src; t_offset := 0 |}.

Definition isDigit (c : byte) : bool := inRange 48 57 c.
Definition isUpper (c : byte) : bool := inRange 65 90 c.
Definition isLower (c : byte) : bool := inRange 97 122 c.
Definition isLetter (c : byte) : bool := isUpper c || isLower c.

Definition checkTokenLen (t : Tokens) (n : Z) : outcome Error Z :=
  if maxTokenLen <? n then Err (errTokenTooLong (t_offset t) n) else Ok n.

(** The token of [n] bytes at the front of the source, and the lexer after
    it. *)
Definition emit (t : Tokens) (kind : TokenKind) (n : Z) (flags : Z)
  : outcome Error (Token * Tokens) :=
  let* tokenLen := checkTokenLen t n in
  let* rest := slice (t_src t) tokenLen (Z.of_nat (length (t_src t))) in
  Ok ({| tk_Len := tokenLen; tk_Kind := kind; tk_flags := flags |},
      {| t_src := rest; t_offset := wrap32 (t_offset t + tokenLen) |}).

(** The loop of [nextSpace]: what is left of [src] after the blanks at its
    front; [None] is the panic of [src[0]] on an empty slice. *)
Fixpoint nextSpace_loop (fuel : nat) (src : list byte) : option (list byte) :=
  match fuel with
  | O => Some src
  | S fuel' =>
    match src with
    | [] => None
    | c :: rest =>
      let continue_ (src' : list byte) :=
        match src' with
        | [] => Some src'
        | _ => nextSpace_loop fuel' src'
        end in
      if decide (c = x20) then continue_ rest
      else if decide (c = x09) then continue_ rest
      else
        let '(r, runeLen) := DecodeRune src in
        if r =? 0xA0 then continue_ (drop runeLen src) else Some src
    end
  end.

Definition nextSpace (t : Tokens) : outcome Error (Token * Tokens) :=
  match nextSpace_loop (length (t_src t)) (t_src t) with
  | None => Panic
  | Some src =>
    emit t T_SPACE (Z.of_nat (length (t_src t)) - Z.of_nat (length src)) 0
  end.

(** The length of a comment: up to the first line feed or carriage
    return. *)
Fixpoint commentLen (src : list byte) : nat :=
  match src with
  | [] => O
  | c :: rest =>
    if decide (c = x0a) then O
    else if decide (c = x0d) then O
    else S (commentLen rest)
  end.

Definition nextComment (t : Tokens) : outcome Error (Token * Tokens) :=
  emit t T_COMMENT (Z.of_nat (commentLen (t_src t))) 0.

(** The scanning loops of [nextNumLit]: [digit] continues, [bad] continues
    and invalidates the literal, any other byte ends it.  The result is the
    length of the digits and the flag [invalid]. *)
Fixpoint scanNum (digit bad : byte -> bool) (numSrc : list byte) (invalid : bool)
  : nat * bool :=
  match numSrc with
  | [] => (O, invalid)
  | c :: rest =>
    if digit c then
      let '(n, inv) := scanNum digit bad rest invalid in (S n, inv)
    else if bad c then
      let '(n, inv) := scanNum digit bad rest true in (S n, inv)
    else (O, invalid)
  end.

Definition isUnderscore (c : byte) : bool := bool_decide (c = x5f).

Definition scanKind (kind : TokenKind) (numSrc : list byte) (invalid : bool)
  : nat * bool :=
  match kind with
  | T_INT_LIT | T_DEC_INT_LIT =>
      scanNum (fun c => isDigit c || isUnderscore c) isLetter numSrc invalid
  | T_HEX_INT_LIT =>
      scanNum (fun c => isDigit c || inRange 65 70 c || inRange 97 102 c
                        || isUnderscore c)
              (fun c => inRange 71 90 c || inRange 103 122 c) numSrc invalid
  | T_OCT_INT_LIT =>
      scanNum (fun c => inRange 48 55 c || isUnderscore c)
              (fun c => bool_decide (c = x38) || bool_decide (c = x39)
                        || isLetter c) numSrc invalid
  | T_BIN_INT_LIT =>
      scanNum (fun c => bool_decide (c = x30) || bool_decide (c = x31))
              (fun c => inRange 50 57 c || isLetter c || isUnderscore c)
              numSrc invalid
  | _ =>
      scanNum (fun c => isDigit c || isUpper c || inRange 97 90 c
                        || isUnderscore c)
              (fun _ => false) numSrc true
  end.

Definition nextNumLit (t : Tokens) : outcome Error (Token * Tokens) :=
  let src := t_src t in
  let* c0 := index src 0 in
  let neg := bool_decide (c0 = minus) in
  if neg && (length src =? 1)%nat then
    let* tok := slice src 0 1 in Err (errIntLitInvalid (t_offset t) tok)
  else
    let tokenLen := if neg then 1 else 0 in
    let* numSrc := if neg then slice src 1 (Z.of_nat (length src)) else Ok src in
    let* d0 := index numSrc 0 in
    if bool_decide (d0 = x30) && (length numSrc =? 1)%nat then
      if neg then
        let* tok := slice src 0 2 in Err (errIntLitInvalid (t_offset t) tok)
      else
        let* rest := slice src 1 (Z.of_nat (length src)) in
        Ok ({| tk_Len := 1; tk_Kind := T_INT_LIT; tk_flags := 0 |},
            {| t_src := rest; t_offset := wrap32 (t_offset t + 1) |})
    else
      let* (kind, invalid) :=
        if bool_decide (d0 = x30) then
          let* base := index numSrc 1 in
          if isDigit base then Ok (T_INT_LIT, true)
          else if decide (base = x62) then Ok (T_BIN_INT_LIT, false)
          else if decide (base = x6f) then Ok (T_OCT_INT_LIT, false)
          else if decide (base = x64) then Ok (T_DEC_INT_LIT, false)
          else if decide (base = x78) then Ok (T_HEX_INT_LIT, false)
          else Ok (T_INT_LIT, true)
        else Ok (T_INT_LIT, false) in
      let prefixed := negb (bool_decide (kind = T_INT_LIT)) in
      let tokenLen := if prefixed then tokenLen + 2 else tokenLen in
      let* numSrc :=
        if prefixed then slice numSrc 2 (Z.of_nat (length numSrc)) else Ok numSrc in
      let '(n, invalid) := scanKind kind numSrc invalid in
      let numSrc := take n numSrc in
      let tokenLen := tokenLen + Z.of_nat n in
      let invalid :=
        if (n =? 0)%nat then true
        else if (tokenLen =? 1) && bool_decide (head numSrc = Some x30) then false
        else invalid in
      if invalid then
        let* tok := slice src 0 tokenLen in
        Err (errIntLitInvalid (t_offset t) tok)
      else emit t kind tokenLen 0.

(** The loop of [nextTextLit] from the second byte on. *)
Inductive textScan :=
| TextEnd (len : Z)
| TextUnterminated
| TextNewline (ii : Z) (newlineLen : Z)
| TextControl (ii : Z) (c : byte).

Fixpoint scanText (s : list byte) (ii : Z) (escaped : bool) : textScan :=
  match s with
  | [] => TextUnterminated
  | c :: rest =>
    if escaped then scanText rest (ii + 1) false
    else if decide (c = x22) then TextEnd (ii + 1)
    else if ((u8 c <=? 0x1F) || (u8 c =? 0x7F)) && negb (u8 c =? 0x09) then
      if u8 c =? 0x0A then TextNewline ii 1
      else if (u8 c =? 0x0D) && bool_decide (head rest = Some x0a)
      then TextNewline ii 2
      else TextControl ii c
    else scanText rest (ii + 1) (bool_decide (c = x5c))
  end.

Definition nextTextLit (t : Tokens) : outcome Error (Token * Tokens) :=
  match scanText (drop 1 (t_src t)) 1 false with
  | TextEnd n => emit t T_TEXT_LIT n 0
  | TextUnterminated =>
      Err (errTextLitUnterminated (t_offset t)
             (wrap32 (Z.of_nat (length (t_src t)))))
  | TextNewline ii n =>
      Err (errTextLitContainsNewline (wrap32 (t_offset t + ii)) n)
  | TextControl ii c =>
      Err (errForbiddenControlCharacter (wrap32 (t_offset t + ii)) c)
  end.

(** The loop of [nextIdent] from the second byte on: the length scanned
    and the flags [underscore] and [invalid]. *)
Fixpoint scanIdent (s : list byte) (underscore invalid : bool)
  : nat * bool * bool :=
  match s with
  | [] => (O, underscore, invalid)
  | c :: rest =>
    if isUnderscore c then
      let '(n, u, i) := scanIdent rest true (invalid || underscore) in (S n, u, i)
    else if isLetter c || isDigit c then
      let '(n, u, i) := scanIdent rest false invalid in (S n, u, i)
    else (O, underscore, invalid)
  end.

Definition nextIdent (t : Tokens) : outcome Error (Token * Tokens) :=
  let '(n, underscore, invalid) := scanIdent (drop 1 (t_src t)) false false in
  let tokenLen := Z.of_nat (S n) in
  if underscore || invalid then
    let* tok := slice (t_src t) 0 tokenLen in
    Err (errIdentInvalid (t_offset t) tok)
  else emit t T_IDENT tokenLen 0.

(** [Tokens.Next]: the next token and the lexer after it. *)
Definition Next (t : Tokens) : outcome Error (Token * Tokens) :=
  match t_src t with
  | [] => Ok ({| tk_Len := 0; tk_Kind := T_EOF; tk_flags := 0 |}, t)
  | c :: rest =>
    let len1 kind :=
      Ok ({| tk_Len := 1; tk_Kind := kind; tk_flags := 0 |},
          {| t_src := rest; t_offset := wrap32 (t_offset t + 1) |}) in
    if decide (c = x09) then nextSpace t
    else if decide (c = x20) then nextSpace t
    else if decide (c = x0a) then len1 T_NEWLINE
    else if decide (c = x40) then len1 T_AT
    else if decide (c = x3a) then len1 T_COLON
    else if decide (c = x2e) then len1 T_DOT
    else if decide (c = x3d) then len1 T_EQ
    else if decide (c = x7b) then len1 T_OPEN_CURL
    else if decide (c = x7d) then len1 T_CLOSE_CURL
    else if decide (c = x28) then len1 T_OPEN_PAREN
    else if decide (c = x29) then len1 T_CLOSE_PAREN
    else if decide (c = x5b) then len1 T_OPEN_SQUARE
    else if decide (c = x5d) then len1 T_CLOSE_SQUARE
    else if decide (c = x23) then nextComment t
    else if decide (c = x22) then nextTextLit t
    else if decide (c = x0d) then
      match rest with
      | c1 :: rest2 =>
        if decide (c1 = x0a) then
          Ok ({| tk_Len := 2; tk_Kind := T_NEWLINE; tk_flags := 0 |},
              {| t_src := rest2; t_offset := wrap32 (t_offset t + 2) |})
        else Err (errForbiddenControlCharacter (t_offset t) c)
      | [] => Err (errForbiddenControlCharacter (t_offset t) c)
      end
    else if isDigit c || bool_decide (c = minus) then nextNumLit t
    else if isLetter c then nextIdent t
    else
      let '(r, _) := DecodeRune (t_src t) in
      if r =? 0xA0 then nextSpace t
      else if (r <? 0x20) || (r =? 0x7F)
      then Err (errForbiddenControlCharacter (t_offset t) c)
      else Err (errUnexpectedCharacter (t_offset t) r)
  end.

(** *** The parser (syntax_parser.go) *)

Record ParseOptions := {
  saveSpaces : bool;
  saveNewlines : bool;
  saveComments : bool
}.

Definition NewParseOptions : ParseOptions :=
  {| saveSpaces := true; saveNewlines := true; saveComments := true |}.

(** [parseCtx[T]].  The lexer [tokens] is shared by pointer between a context
    and the contexts of the children parsed from it: whoever advances it, it
    is advanced for all of them. *)
Record parseCtx := {
  ctx_src : list byte;
  ctx_opts : ParseOptions;
  ctx_tokens : Tokens;
  ctx_childNodes : list Node;
  ctx_haveToken : bool;
  ctx_token : Token;
  ctx_err : option Error;
  ctx_consumed : Z;
  ctx_offset : Z
}.

Definition zeroToken : Token := {| tk_Len := 0; tk_Kind := T_EOF; tk_flags := 0 |}.

Definition newParseCtx (opts : ParseOptions) (src : list byte)
  : outcome Error parseCtx :=
  let* tokens := NewTokens src in
  Ok {| ctx_src := src; ctx_opts := opts; ctx_tokens := tokens;
        ctx_childNodes := []; ctx_haveToken := false; ctx_token := zeroToken;
        ctx_err := None; ctx_consumed := 0; ctx_offset := 0 |}.

(** A method of the context: it panics ([None]) or returns a value and the
    context it leaves. *)
Definition P (A : Type) : Type := parseCtx -> option (A * parseCtx).

Definition pret {A} (a : A) : P A := fun ctx => Some (a, ctx).

Definition pbind {A B} (m : P A) (k : A -> P B) : P B :=
  fun ctx =>
    match m ctx with
    | Some (a, ctx') => k a ctx'
    | None => None
    end.

Notation "'letp' x ':=' m 'in' k" := (pbind m (fun x => k))
  (at level 10, x pattern, m at level 100, k at level 200).

Notation "m1 '>>>' m2" := (pbind m1 (fun _ => m2))
  (at level 100, m2 at level 200, right associativity).

Definition getCtx : P parseCtx := fun ctx => Some (ctx, ctx).

Definition setErr (e : Error) : P unit :=
  fun ctx =>
    Some (tt, {| ctx_src := ctx_src ctx; ctx_opts := ctx_opts ctx;
                 ctx_tokens := ctx_tokens ctx;
                 ctx_childNodes := ctx_childNodes ctx;
                 ctx_haveToken := ctx_haveToken ctx;
                 ctx_token := ctx_token ctx; ctx_err := Some e;
                 ctx_consumed := ctx_consumed ctx;
                 ctx_offset := ctx_offset ctx |}).

(** A raising error constructor followed by [ctx.err = ...]. *)
Definition setErrO (e : option Error) : P unit :=
  match e with Some e => setErr e | None => fun _ => None end.

Definition ensureToken : P (option Error) :=
  fun ctx =>
    match ctx_err ctx with
    | Some e => Some (Some e, ctx)
    | None =>
      if ctx_haveToken ctx then Some (None, ctx)
      else
        match Next (ctx_tokens ctx) with
        | Panic => None
        | Err e =>
          Some (Some e,
                {| ctx_src := ctx_src ctx; ctx_opts := ctx_opts ctx;
                   ctx_tokens := ctx_tokens ctx;
                   ctx_childNodes := ctx_childNodes ctx;
                   ctx_haveToken := false; ctx_token := ctx_token ctx;
                   ctx_err := Some e; ctx_consumed := ctx_consumed ctx;
                   ctx_offset := ctx_offset ctx |})
        | Ok (token, tokens) =>
          Some (None,
                {| ctx_src := ctx_src ctx; ctx_opts := ctx_opts ctx;
                   ctx_tokens := tokens;
                   ctx_childNodes := ctx_childNodes ctx;
                   ctx_haveToken := true; ctx_token := token;
                   ctx_err := None; ctx_consumed := ctx_consumed ctx;
                   ctx_offset := ctx_offset ctx |})
        end
    end.

Definition readToken : P (list byte) :=
  fun ctx =>
    match slice (E:=Error) (ctx_src ctx) 0 (tk_Len (ctx_token ctx)) with
    | Ok s => Some (s, ctx)
    | _ => None
    end.

(** [consumeToken(child)].  The argument has interface type: [None] is the
    nil interface, which is dropped, and [Some N_nil] an interface that
    holds a nil pointer, which is appended like any node. *)
Definition consumeToken (child : option Node) : P unit :=
  fun ctx =>
    let n := tk_Len (ctx_token ctx) in
    match slice (E:=Error) (ctx_src ctx) n (Z.of_nat (length (ctx_src ctx))) with
    | Ok rest =>
      Some (tt,
            {| ctx_src := rest; ctx_opts := ctx_opts ctx;
               ctx_tokens := ctx_tokens ctx;
               ctx_childNodes :=
                 match child with
                 | Some c => ctx_childNodes ctx ++ [c]
                 | None => ctx_childNodes ctx
                 end;
               ctx_haveToken := false; ctx_token := ctx_token ctx;
               ctx_err := ctx_err ctx;
               ctx_consumed := wrap32 (ctx_consumed ctx + n);
               ctx_offset := wrap32 (ctx_offset ctx + n) |})
    | _ => None
    end.

Definition tokenSpan (ctx : parseCtx) : Span :=
  {| start := ctx_offset ctx; len := tk_Len (ctx_token ctx) |}.

(** What the body of a [for range ctx.loop] does at its end: it goes on, it
    breaks, or it returns from the function around the loop.  The first two
    carry the variables of the function that the body assigns. *)
Inductive ctl (S R : Type) : Type :=
| Continue (s : S)
| Break (s : S)
| Return (r : R).
Arguments Continue {S R} s.
Arguments Break {S R} s.
Arguments Return {S R} r.

(** [ctx.loop]: the body is run again as long as it consumes input and
    raises no error.  Every further iteration has consumed at least one byte
    of the source, so the fuel given by [loop] is never used up; [None]
    stands for that, as for a panic. *)
Fixpoint loop_fuel {S R} (fuel : nat) (body : S -> P (ctl S R)) (s : S)
  : P (S + R) :=
  fun ctx =>
    match fuel with
    | O => None
    | S fuel' =>
      let consumed := ctx_consumed ctx in
      match body s ctx with
      | None => None
      | Some (Return r, ctx') => Some (inr r, ctx')
      | Some (Break s', ctx') => Some (inl s', ctx')
      | Some (Continue s', ctx') =>
        match ctx_err ctx' with
        | Some _ => Some (inl s', ctx')
        | None =>
          if consumed =? ctx_consumed ctx' then Some (inl s', ctx')
          else loop_fuel fuel' body s' ctx'
        end
      end
    end.

Definition loop {S R} (body : S -> P (ctl S R)) (s : S) : P (S + R) :=
  fun ctx =>
    match ctx_err ctx with
    | Some _ => Some (inl s, ctx)
    | None => loop_fuel (Datatypes.S (length (ctx_src ctx))) body s ctx
    end.

(** A loop that has no variables and returns from nothing. *)
Definition loop_ (body : P (ctl unit Empty_set)) : P unit :=
  letp _ := loop (fun _ => body) tt in pret tt.

Definition consumeSpace : P unit :=
  letp ctx := getCtx in
  if negb (saveSpaces (ctx_opts ctx)) then consumeToken None
  else
    letp tokenBytes := readToken in
    consumeToken (Some (N_Space tokenBytes (ctx_offset ctx))).

Definition space : P unit :=
  letp e := ensureToken in
  match e with
  | Some _ => pret tt
  | None =>
    letp ctx := getCtx in
    if negb (bool_decide (tk_Kind (ctx_token ctx) = T_SPACE)) then pret tt
    else consumeSpace
  end.

Definition comments : P unit :=
  loop_
    (letp e := ensureToken in
     match e with
     | Some _ => pret (Break tt)
     | None =>
       letp ctx := getCtx in
       match tk_Kind (ctx_token ctx) with
       | T_SPACE => consumeSpace >>> pret (Continue tt)
       | T_NEWLINE =>
         consumeToken
           (Some (if saveNewlines (ctx_opts ctx)
                  then N_Newline (ctx_offset ctx) (tk_Len (ctx_token ctx) =? 2)
                  else N_nil)) >>>
         pret (Continue tt)
       | T_COMMENT =>
         (if saveComments (ctx_opts ctx) then
            letp raw := readToken in
            consumeToken (Some (N_Comment raw (ctx_offset ctx)))
          else consumeToken (Some N_nil)) >>>
         pret (Continue tt)
       | _ => pret (Break tt)
       end
     end).

Definition suffixComment : P unit := pret tt.

(** [&Sigil{raw: ctx.src[0], start: ctx.offset}]. *)
Definition newSigil : P Node :=
  fun ctx =>
    match ctx_src ctx with
    | c :: _ => Some (N_Sigil c (ctx_offset ctx), ctx)
    | [] => None
    end.

Definition sigil (kind : TokenKind) : P unit :=
  letp e := ensureToken in
  match e with
  | Some _ => pret tt
  | None =>
    letp ctx := getCtx in
    if negb (bool_decide (tk_Kind (ctx_token ctx) = kind)) then
      letp token := readToken in
      setErrO (errExpectedSigil kind (tk_Kind (ctx_token ctx)) token (tokenSpan ctx))
    else
      letp s := newSigil in consumeToken (Some s)
  end.

Definition trySigil (kind : TokenKind) : P bool :=
  letp e := ensureToken in
  match e with
  | Some _ => pret false
  | None =>
    letp ctx := getCtx in
    if negb (bool_decide (tk_Kind (ctx_token ctx) = kind)) then pret false
    else
      letp s := newSigil in consumeToken (Some s) >>> pret true
  end.

Definition tryKeyword (keyword : list byte) : P bool :=
  letp e := ensureToken in
  match e with
  | Some _ => pret false
  | None =>
    letp ctx := getCtx in
    if negb (bool_decide (tk_Kind (ctx_token ctx) = T_IDENT)) then pret false
    else
      letp token := readToken in
      if negb (bool_decide (token = keyword)) then pret false
      else
        consumeToken (Some (N_Keyword keyword (ctx_offset ctx))) >>> pret true
  end.

Definition ident : P (option Ident) :=
  letp e := ensureToken in
  match e with
  | Some _ => pret None
  | None =>
    letp token := readToken in
    letp ctx := getCtx in
    if negb (bool_decide (tk_Kind (ctx_token ctx) = T_IDENT)) then
      setErr (errExpectedIdent (tk_Kind (ctx_token ctx)) token (tokenSpan ctx)) >>>
      pret None
    else
      let i := {| id_raw := token; id_start := ctx_offset ctx |} in
      consumeToken (Some (N_Ident i)) >>> pret (Some i)
  end.

Definition isIntKind (k : TokenKind) : bool :=
  match k with
  | T_INT_LIT | T_BIN_INT_LIT | T_OCT_INT_LIT | T_DEC_INT_LIT | T_HEX_INT_LIT =>
      true
  | _ => false
  end.

Definition int : P (option IntLit) :=
  letp e := ensureToken in
  match e with
  | Some _ => pret None
  | None =>
    letp token := readToken in
    letp ctx := getCtx in
    if negb (isIntKind (tk_Kind (ctx_token ctx))) then
      setErr (errExpectedIntLit (tk_Kind (ctx_token ctx)) token (tokenSpan ctx)) >>>
      pret None
    else
      match newIntLit token (tk_Kind (ctx_token ctx)) (ctx_offset ctx) with
      | Panic => fun _ => None
      | Err e => setErr e >>> pret None
      | Ok intNode => consumeToken (Some (N_IntLit intNode)) >>> pret (Some intNode)
      end
  end.

Definition text : P (option TextLit) :=
  letp e := ensureToken in
  match e with
  | Some _ => pret None
  | None =>
    letp token := readToken in
    letp ctx := getCtx in
    if negb (bool_decide (tk_Kind (ctx_token ctx) = T_TEXT_LIT)) then
      setErr (errExpectedTextLit (tk_Kind (ctx_token ctx)) token (tokenSpan ctx)) >>>
      pret None
    else
      match newTextLit token (ctx_offset ctx) (tk_flags (ctx_token ctx)) with
      | Panic => fun _ => None
      | Err e => setErr e >>> pret None
      | Ok textNode =>
          consumeToken (Some (N_TextLit textNode)) >>> pret (Some textNode)
      end
  end.

(** What a parse function returns: a node, the pair [(nil, nil)], or an
    error. *)
Inductive parsed :=
| PNode (n : Node)
| PNil
| PErr (e : Error).

Definition finish (build : Span -> list Node -> Node) : P parsed :=
  fun ctx =>
    match ctx_err ctx with
    | Some e => Some (PErr e, ctx)
    | None =>
      Some (PNode (build {| start := wrap32 (ctx_offset ctx - ctx_consumed ctx);
                            len := ctx_consumed ctx |}
                         (ctx_childNodes ctx)),
            ctx)
    end.

(** [parseChild]: the pointer to the child, nil where [None], and the
    flag [ok]. *)
Definition parseChild (parseChildFn : P parsed) : P (option Node * bool) :=
  fun ctx =>
    match ctx_err ctx with
    | Some _ => Some ((None, false), ctx)
    | None =>
      let childCtx :=
        {| ctx_src := ctx_src ctx; ctx_opts := ctx_opts ctx;
           ctx_tokens := ctx_tokens ctx; ctx_childNodes := [];
           ctx_haveToken := ctx_haveToken ctx; ctx_token := ctx_token ctx;
           ctx_err := None; ctx_consumed := 0; ctx_offset := ctx_offset ctx |} in
      match parseChildFn childCtx with
      | None => None
      | Some (PErr e, childCtx) =>
        Some ((None, false),
              {| ctx_src := ctx_src ctx; ctx_opts := ctx_opts ctx;
                 ctx_tokens := ctx_tokens childCtx;
                 ctx_childNodes := ctx_childNodes ctx;
                 ctx_haveToken := ctx_haveToken ctx;
                 ctx_token := ctx_token ctx; ctx_err := Some e;
                 ctx_consumed := ctx_consumed ctx;
                 ctx_offset := ctx_offset ctx |})
      | Some (r, childCtx) =>
        if ctx_consumed childCtx =? 0 then
          Some ((None, false),
                {| ctx_src := ctx_src ctx; ctx_opts := ctx_opts ctx;
                   ctx_tokens := ctx_tokens childCtx;
                   ctx_childNodes := ctx_childNodes ctx;
                   ctx_haveToken := ctx_haveToken childCtx;
                   ctx_token := ctx_token childCtx; ctx_err := None;
                   ctx_consumed := ctx_consumed ctx;
                   ctx_offset := ctx_offset ctx |})
        else
          match slice (E:=Error) (ctx_src ctx) (ctx_consumed childCtx)
                  (Z.of_nat (length (ctx_src ctx))) with
          | Ok rest =>
            let child := match r with PNode n => n | _ => N_nil end in
            Some ((match r with PNode n => Some n | _ => None end, true),
                  {| ctx_src := rest; ctx_opts := ctx_opts ctx;
                     ctx_tokens := ctx_tokens childCtx;
                     ctx_childNodes := ctx_childNodes ctx ++ [child];
                     ctx_haveToken := ctx_haveToken childCtx;
                     ctx_token := ctx_token childCtx; ctx_err := None;
                     ctx_consumed :=
                       wrap32 (ctx_consumed ctx + ctx_consumed childCtx);
                     ctx_offset := ctx_offset childCtx |})
          | _ => None
          end
      end
    end.

(** [return nil, errExpected...(ctx.token.Kind, string(ctx.readToken()),
    ctx.tokenSpan())]. *)
Definition expected
    (mk : TokenKind -> list byte -> Span -> Error) : P parsed :=
  letp token := readToken in
  letp ctx := getCtx in
  pret (PErr (mk (tk_Kind (ctx_token ctx)) token (tokenSpan ctx))).

(** [setDecorators] on the node itself. *)
Definition withDecorators (decorators : list Node) (n : Node) : Node :=
  match n with
  | N_Const sp cs name typeName value _ =>
      N_Const sp cs name typeName value decorators
  | N_Enum sp cs name type_ items _ => N_Enum sp cs name type_ items decorators
  | N_EnumItem sp cs name value _ => N_EnumItem sp cs name value decorators
  | N_Struct sp cs name _ fields => N_Struct sp cs name decorators fields
  | N_StructField sp cs name fieldType _ =>
      N_StructField sp cs name fieldType decorators
  | N_Message sp cs name _ fields => N_Message sp cs name decorators fields
  | N_MessageField sp cs name tag fieldType _ =>
      N_MessageField sp cs name tag fieldType decorators
  | N_Union sp cs name _ fields => N_Union sp cs name decorators fields
  | N_UnionField sp cs name tag fieldType _ =>
      N_UnionField sp cs name tag fieldType decorators
  | N_Protocol sp cs name _ rpcs events =>
      N_Protocol sp cs name decorators rpcs events
  | N_ProtocolRpc sp cs name tag req reqStream resp respStream _ =>
      N_ProtocolRpc sp cs name tag req reqStream resp respStream decorators
  | N_ProtocolEvent sp cs name tag payloadType _ =>
      N_ProtocolEvent sp cs name tag payloadType decorators
  | _ => n
  end.

(** [setDecorators(node, decorators)] on the child that [parseChild] has
    just returned: the node is reached through a pointer that the last
    entry of [ctx.childNodes] holds as well, so that entry changes with
    it. *)
Definition setDecorators (node : option Node) (decorators : list Node)
  : P (option Node) :=
  match node with
  | None => pret None
  | Some n =>
    fun ctx =>
      let n' := withDecorators decorators n in
      Some (Some n',
            {| ctx_src := ctx_src ctx; ctx_opts := ctx_opts ctx;
               ctx_tokens := ctx_tokens ctx;
               ctx_childNodes :=
                 match ctx_childNodes ctx with
                 | [] => []
                 | cs => removelast cs ++ [n']
                 end;
               ctx_haveToken := ctx_haveToken ctx;
               ctx_token := ctx_token ctx; ctx_err := ctx_err ctx;
               ctx_consumed := ctx_consumed ctx;
               ctx_offset := ctx_offset ctx |})
  end.

Definition tokenKind : P TokenKind :=
  fun ctx => Some (tk_Kind (ctx_token ctx), ctx).

Definition hasErr : P bool :=
  fun ctx => Some (bool_decide (ctx_err ctx <> None), ctx).

(** [return nil, ctx.err]. *)
Definition returnErr : P parsed :=
  fun ctx =>
    match ctx_err ctx with
    | Some e => Some (PErr e, ctx)
    | None => Some (PNil, ctx)
    end.

(** The three kinds of qualified names have one grammar. *)
Definition parseName (mk : TokenKind -> list byte -> Span -> Error)
    (build : Span -> list Node -> option Ident -> option Ident -> Node)
  : P parsed :=
  letp e := ensureToken in
  match e with
  | Some e => pret (PErr e)
  | None =>
    letp kind := tokenKind in
    if negb (bool_decide (kind = T_IDENT)) then expected mk
    else
      letp name := ident in
      letp dot := trySigil T_DOT in
      letp sn :=
        if dot then letp name2 := ident in pret (name, name2)
        else pret (None, name) in
      finish (fun span childNodes => build span childNodes sn.1 sn.2)
  end.

Definition parseTypeName : P parsed := parseName errExpectedTypeName N_TypeName.
Definition parseValueName : P parsed := parseName errExpectedValueName N_ValueName.
Definition parseExportName : P parsed :=
  parseName errExpectedExportName N_ExportName.

Definition parseNamespace : P parsed :=
  letp ok := tryKeyword (str "namespace") in
  if negb ok then expected errExpectedKeywordNamespace
  else
    space >>>
    letp namespace := text in
    suffixComment >>>
    finish (fun span childNodes => N_Namespace span childNodes namespace).

Definition parseImport : P parsed :=
  letp ok := tryKeyword (str "import") in
  if negb ok then pret PNil
  else
    space >>>
    letp namespace := text in
    space >>>
    letp isAs := tryKeyword (str "as") in
    letp r :=
      if isAs then
        space >>>
        letp importAs := ident in pret (importAs, [])
      else
        sigil T_OPEN_CURL >>>
        comments >>>
        letp names :=
          loop (R:=Empty_set) (fun importNames =>
            letp close := trySigil T_CLOSE_CURL in
            if close then pret (Break importNames)
            else
              letp name := ident in
              suffixComment >>>
              comments >>>
              pret (Continue (importNames ++ [name]))) [] in
        match names with
        | inl importNames => pret (None, importNames)
        | inr r => match r with end
        end in
    suffixComment >>>
    finish (fun span childNodes => N_Import span childNodes namespace r.1 r.2).

Definition parseExport : P parsed :=
  letp ok := tryKeyword (str "export") in
  if negb ok then pret PNil
  else
    space >>>
    letp e := ensureToken in
    match e with
    | Some e => pret (PErr e)
    | None =>
      letp kind := tokenKind in
      if bool_decide (kind = T_IDENT) then
        letp exportName := parseChild parseExportName in
        space >>>
        letp isAs := tryKeyword (str "as") in
        if negb isAs then expected errExpectedKeywordAs
        else
          space >>>
          letp name := ident in
          suffixComment >>>
          finish (fun span childNodes =>
                    N_Export span childNodes exportName.1 name [])
      else
        sigil T_OPEN_CURL >>>
        comments >>>
        letp names :=
          loop (R:=Empty_set) (fun exportNames =>
            letp close := trySigil T_CLOSE_CURL in
            if close then pret (Break exportNames)
            else
              letp name := parseChild parseExportName in
              suffixComment >>>
              comments >>>
              pret (Continue (exportNames ++ [name.1]))) [] in
        match names with
        | inl exportNames =>
          suffixComment >>>
          finish (fun span childNodes =>
                    N_Export span childNodes None None exportNames)
        | inr r => match r with end
        end
    end.

Definition parseOptionName : P parsed :=
  letp e := ensureToken in
  match e with
  | Some e => pret (PErr e)
  | None =>
    letp kind := tokenKind in
    if negb (bool_decide (kind = T_IDENT)) then expected errExpectedOptionName
    else
      letp _ := ident in
      loop_
        (letp dot := trySigil T_DOT in
         if dot then letp _ := ident in pret (Continue tt)
         else pret (Break tt)) >>>
      finish (fun span childNodes => N_OptionName span childNodes)
  end.

Definition parseEnumRef : P parsed :=
  sigil T_DOT >>>
  letp name := ident in
  finish (fun span childNodes => N_EnumRef span childNodes name).

(** [parseValue]; the result is a value of interface type. *)
Definition parseValue : P (option Node) :=
  letp e := ensureToken in
  match e with
  | Some _ => pret None
  | None =>
    letp kind := tokenKind in
    if isIntKind kind then
      letp child := int in
      pret (match child with Some i => Some (N_IntLit i) | None => None end)
    else
      match kind with
      | T_TEXT_LIT =>
        letp child := text in
        pret (match child with Some t => Some (N_TextLit t) | None => None end)
      | T_DOT =>
        letp child := parseChild parseEnumRef in pret child.1
      | T_IDENT =>
        letp child := parseChild parseValueName in
        pret (if child.2 then child.1 else None)
      | _ => pret None
      end
  end.

Definition parseValueOr (mk : TokenKind -> list byte -> Span -> Error)
  : P (option Node) :=
  letp node := parseValue in
  letp failed := hasErr in
  match node with
  | None =>
    if negb failed then
      letp token := readToken in
      letp ctx := getCtx in
      setErr (mk (tk_Kind (ctx_token ctx)) token (tokenSpan ctx)) >>>
      pret None
    else pret None
  | Some _ => pret node
  end.

Definition parseConstValue : P (option Node) := parseValueOr errExpectedConstValue.
Definition parseOptionValue : P (option Node) :=
  parseValueOr errExpectedOptionValue.

Definition parseOptionsOption : P parsed :=
  letp name := parseChild parseOptionName in
  space >>>
  sigil T_EQ >>>
  space >>>
  letp value := parseOptionValue in
  finish (fun span childNodes => N_OptionsOption span childNodes name.1 value).

Definition parseOption : P parsed :=
  letp open := trySigil T_OPEN_CURL in
  if negb open then pret PNil
  else
    space >>>
    letp name := parseChild parseOptionName in
    space >>>
    letp eq := trySigil T_EQ in
    letp value :=
      if eq then space >>> parseOptionValue else pret None in
    space >>>
    sigil T_CLOSE_CURL >>>
    finish (fun span childNodes => N_Option span childNodes name.1 value).

Definition parseOptions : P parsed :=
  letp ok := tryKeyword (str "options") in
  if negb ok then pret PNil
  else
    space >>>
    letp colon := trySigil T_COLON in
    letp schema :=
      if colon then
        space >>>
        letp schema := parseChild parseTypeName in
        space >>>
        pret schema.1
      else pret None in
    sigil T_OPEN_CURL >>>
    comments >>>
    letp opts :=
      loop (R:=Empty_set) (fun options =>
        letp close := trySigil T_CLOSE_CURL in
        if close then pret (Break options)
        else
          letp option := parseChild parseOptionsOption in
          suffixComment >>>
          comments >>>
          pret (Continue (options ++ [option.1]))) [] in
    match opts with
    | inl options =>
        finish (fun span childNodes => N_Options span childNodes schema options)
    | inr r => match r with end
    end.

Definition parseDecorator : P parsed :=
  letp at_ := trySigil T_AT in
  if negb at_ then pret PNil
  else
    letp r := parseChild parseOptions in
    letp failed := hasErr in
    letp r :=
      if negb r.2 && negb failed then parseChild parseOption else pret r in
    letp failed := hasErr in
    if failed then returnErr
    else if negb r.2 then
      letp token := readToken in
      letp ctx := getCtx in
      pret (PErr (errUnknownDecorator token (tokenSpan ctx)))
    else
      finish (fun span childNodes => N_Decorator span childNodes r.1).

Definition parseDecorators : P (list Node) :=
  letp r :=
    loop (R:=Empty_set) (fun decorators =>
      letp d := parseChild parseDecorator in
      if d.2 then
        comments >>>
        pret (Continue (decorators ++ [default N_nil d.1]))
      else pret (Continue decorators)) [] in
  match r with
  | inl decorators => pret decorators
  | inr r => match r with end
  end.

Definition parseConst : P parsed :=
  letp ok := tryKeyword (str "const") in
  if negb ok then pret PNil
  else
    space >>>
    letp name := ident in
    space >>>
    sigil T_COLON >>>
    space >>>
    letp typeName := parseChild parseTypeName in
    space >>>
    sigil T_EQ >>>
    space >>>
    letp value := parseConstValue in
    finish (fun span childNodes =>
              N_Const span childNodes name typeName.1 value []).

Definition parseEnumItem : P parsed :=
  letp name := ident in
  space >>>
  sigil T_EQ >>>
  space >>>
  letp e := ensureToken in
  match e with
  | Some e => pret (PErr e)
  | None =>
    letp kind := tokenKind in
    letp value :=
      match kind with
      | T_DOT => letp v := parseChild parseEnumRef in pret v.1
      | T_IDENT => letp v := parseChild parseValueName in pret v.1
      | _ =>
        letp v := int in
        pret (match v with Some i => Some (N_IntLit i) | None => None end)
      end in
    suffixComment >>>
    finish (fun span childNodes => N_EnumItem span childNodes name value [])
  end.

(** The loop over the members between the curly brackets of an enum, a
    struct, a message or a union. *)
Definition parseMembers (parseMember : P parsed) : P (list (option Node)) :=
  letp r :=
    loop (R:=Empty_set) (fun members =>
      letp close := trySigil T_CLOSE_CURL in
      if close then pret (Break members)
      else
        letp decorators := parseDecorators in
        letp member := parseChild parseMember in
        letp member := setDecorators member.1 decorators in
        suffixComment >>>
        comments >>>
        pret (Continue (members ++ [member]))) [] in
  match r with
  | inl members => pret members
  | inr r => match r with end
  end.

Definition parseEnum : P parsed :=
  letp ok := tryKeyword (str "enum") in
  if negb ok then pret PNil
  else
    space >>>
    letp name := ident in
    space >>>
    sigil T_COLON >>>
    space >>>
    letp type_ := ident in
    space >>>
    sigil T_OPEN_CURL >>>
    comments >>>
    letp items := parseMembers parseEnumItem in
    suffixComment >>>
    finish (fun span childNodes => N_Enum span childNodes name type_ items []).

Definition parseFieldTag : P parsed :=
  sigil T_AT >>>
  space >>>
  letp value := int in
  finish (fun span childNodes => N_Tag span childNodes value).

Definition parseProtocolTag : P parsed :=
  letp at_ := trySigil T_AT in
  if negb at_ then pret PNil
  else
    space >>>
    letp value := int in
    finish (fun span childNodes => N_Tag span childNodes value).

Definition parseFieldType : P parsed :=
  letp typeName := parseChild parseTypeName in
  letp open := trySigil T_OPEN_SQUARE in
  letp arr :=
    if open then
      space >>>
      letp close := trySigil T_CLOSE_SQUARE in
      if negb close then
        letp arrayLen := int in
        space >>>
        sigil T_CLOSE_SQUARE >>>
        pret (true, arrayLen)
      else pret (true, None)
    else pret (false, None) in
  finish (fun span childNodes =>
            N_FieldType span childNodes typeName.1 arr.1 arr.2).

Definition parseStructField : P parsed :=
  letp name := ident in
  space >>>
  sigil T_COLON >>>
  space >>>
  letp fieldType := parseChild parseFieldType in
  suffixComment >>>
  finish (fun span childNodes =>
            N_StructField span childNodes name fieldType.1 []).

Definition parseStruct : P parsed :=
  letp ok := tryKeyword (str "struct") in
  if negb ok then pret PNil
  else
    space >>>
    letp name := ident in
    space >>>
    sigil T_OPEN_CURL >>>
    comments >>>
    letp fields := parseMembers parseStructField in
    suffixComment >>>
    finish (fun span childNodes => N_Struct span childNodes name [] fields).

(** The fields of messages and of unions have one grammar. *)
Definition parseTaggedField
    (build : Span -> list Node -> option Ident -> option Node -> option Node ->
             list Node -> Node) : P parsed :=
  letp name := ident in
  space >>>
  letp tag := parseChild parseFieldTag in
  space >>>
  sigil T_COLON >>>
  space >>>
  letp fieldType := parseChild parseFieldType in
  suffixComment >>>
  finish (fun span childNodes => build span childNodes name tag.1 fieldType.1 []).

Definition parseMessageField : P parsed := parseTaggedField N_MessageField.
Definition parseUnionField : P parsed := parseTaggedField N_UnionField.

Definition parseMessage : P parsed :=
  letp ok := tryKeyword (str "message") in
  if negb ok then pret PNil
  else
    space >>>
    letp name := ident in
    space >>>
    sigil T_OPEN_CURL >>>
    comments >>>
    letp fields := parseMembers parseMessageField in
    suffixComment >>>
    finish (fun span childNodes => N_Message span childNodes name [] fields).

Definition parseUnion : P parsed :=
  letp ok := tryKeyword (str "union") in
  if negb ok then pret PNil
  else
    space >>>
    letp name := ident in
    space >>>
    sigil T_OPEN_CURL >>>
    comments >>>
    letp fields := parseMembers parseUnionField in
    suffixComment >>>
    finish (fun span childNodes => N_Union span childNodes name [] fields).

Definition parseProtocolRpc : P parsed :=
  letp ok := tryKeyword (str "rpc") in
  if negb ok then pret PNil
  else
    space >>>
    letp name := ident in
    space >>>
    letp tag := parseChild parseProtocolTag in
    sigil T_OPEN_PAREN >>>
    space >>>
    letp requestType := parseChild parseTypeName in
    space >>>
    letp requestIsStream := tryKeyword (str "stream") in
    (if requestIsStream then space else pret tt) >>>
    sigil T_CLOSE_PAREN >>>
    space >>>
    sigil T_COLON >>>
    space >>>
    letp open := trySigil T_OPEN_PAREN in
    let build responseType responseIsStream :=
      finish (fun span childNodes =>
                N_ProtocolRpc span childNodes name tag.1 requestType.1
                  requestIsStream responseType responseIsStream []) in
    if open then
      space >>>
      letp e := ensureToken in
      match e with
      | Some e => pret (PErr e)
      | None =>
        letp kind := tokenKind in
        letp resp :=
          if bool_decide (kind = T_IDENT) then
            letp responseType := parseChild parseTypeName in
            space >>>
            letp responseIsStream := tryKeyword (str "stream") in
            (if responseIsStream then space else pret tt) >>>
            pret (responseType.1, responseIsStream)
          else pret (None, false) in
        sigil T_CLOSE_PAREN >>>
        build resp.1 resp.2
      end
    else
      letp responseType := parseChild parseTypeName in
      build responseType.1 false.

Definition parseProtocolEvent : P parsed :=
  letp ok := tryKeyword (str "event") in
  if negb ok then pret PNil
  else
    space >>>
    letp name := ident in
    space >>>
    letp tag := parseChild parseProtocolTag in
    sigil T_COLON >>>
    space >>>
    letp typeName := parseChild parseTypeName in
    finish (fun span childNodes =>
              N_ProtocolEvent span childNodes name tag.1 typeName.1 []).

Definition parseProtocol : P parsed :=
  letp ok := tryKeyword (str "protocol") in
  if negb ok then pret PNil
  else
    space >>>
    letp name := ident in
    space >>>
    sigil T_OPEN_CURL >>>
    comments >>>
    letp r :=
      loop (fun st : list Node * list Node =>
        let '(rpcs, events) := st in
        letp close := trySigil T_CLOSE_CURL in
        if close then pret (Break st)
        else
          letp decorators := parseDecorators in
          letp rpc := parseChild parseProtocolRpc in
          letp r1 :=
            if rpc.2 then
              letp rpc' := setDecorators rpc.1 decorators in
              pret (true, (rpcs ++ [default N_nil rpc'], events))
            else
              letp failed := hasErr in
              if negb failed then
                letp event := parseChild parseProtocolEvent in
                if event.2 then
                  letp event' := setDecorators event.1 decorators in
                  pret (true, (rpcs, events ++ [default N_nil event']))
                else pret (false, st)
              else pret (false, st) in
          letp failed := hasErr in
          if failed then letp r := returnErr in pret (Return r)
          else if negb r1.1 then
            letp r := expected errExpectedProtocolItem in pret (Return r)
          else
            suffixComment >>>
            comments >>>
            pret (Continue r1.2)) ([], []) in
    match r with
    | inr r => pret r
    | inl (rpcs, events) =>
      suffixComment >>>
      finish (fun span childNodes =>
                N_Protocol span childNodes name [] rpcs events)
    end.

(** The six attempts at a declaration in the last loop of [parseSchema]:
    each is made if none before it has succeeded and no error is set. *)
Fixpoint parseDecl (decorators : list Node) (parsers : list (P parsed)) : P bool :=
  match parsers with
  | [] => pret false
  | p :: rest =>
    letp decl := parseChild p in
    if decl.2 then
      letp _ := setDecorators decl.1 decorators in pret true
    else
      letp failed := hasErr in
      if failed then pret false else parseDecl decorators rest
  end.

Definition parseSchema : P parsed :=
  comments >>>
  letp _ := parseChild parseNamespace in
  loop_ (comments >>> letp _ := parseChild parseImport in pret (Continue tt)) >>>
  loop_ (comments >>> letp _ := parseChild parseExport in pret (Continue tt)) >>>
  loop_ (comments >>> letp _ := parseChild parseOptions in pret (Continue tt)) >>>
  letp r :=
    loop (fun _ : unit =>
      comments >>>
      letp kind := tokenKind in
      if bool_decide (kind = T_EOF) then pret (Break tt)
      else
        letp decorators := parseDecorators in
        letp ok :=
          parseDecl decorators
            [parseConst; parseEnum; parseStruct; parseMessage; parseUnion;
             parseProtocol] in
        letp failed := hasErr in
        if failed then letp r := returnErr in pret (Return r)
        else if negb ok then
          letp token := readToken in
          letp ctx := getCtx in
          if bool_decide (tk_Kind (ctx_token ctx) = T_IDENT)
          then pret (Return (PErr (errUnknownDeclaration token (tokenSpan ctx))))
          else pret (Return (PErr (errExpectedDeclaration
                                     (tk_Kind (ctx_token ctx)) token
                                     (tokenSpan ctx))))
        else pret (Continue tt)) tt in
  match r with
  | inr r => pret r
  | inl _ => finish (fun span childNodes => N_Schema span childNodes)
  end.

(** [ParseOptions.ParseSchema]. *)
Definition ParseSchema (opts : ParseOptions) (src : list byte)
  : outcome Error Node :=
  let* ctx := newParseCtx opts src in
  match parseSchema ctx with
  | None => Panic
  | Some (PNode n, _) => Ok n
  | Some (PErr e, _) => Err e
  | Some (PNil, _) => Ok N_nil
  end.

(** [Parse] without options. *)
Definition Parse (src : list byte) : outcome Error Node :=
  ParseSchema NewParseOptions src.

End syntax.

(** ** Package [schema_idl]: the compiled schema (generated code) *)

Module schema_idl.

(** Modelled from the spec: the base type of a compiled declaration.  The
    zero value is [Type_UNKNOWN]. *)
Inductive Type_ :=
| Type_UNKNOWN
| Type_BOOL
| Type_U8 | Type_I8 | Type_U16 | Type_I16
| Type_U32 | Type_I32 | Type_U64 | Type_I64
| Type_F32 | Type_F64
| Type_ASCIZ | Type_TEXT
| Type_HANDLE
| Type_STRUCT | Type_MESSAGE | Type_UNION.

#[global] Instance Type_eq_dec : EqDecision Type_.
Proof. solve_decision. Defined.

(** Modelled from the spec: the category of an exported declaration. *)
Inductive ExportType :=
| ExportType_UNKNOWN
| ExportType_CONST | ExportType_ENUM | ExportType_STRUCT
| ExportType_MESSAGE | ExportType_UNION | ExportType_PROTOCOL.

#[global] Instance ExportType_eq_dec : EqDecision ExportType.
Proof. solve_decision. Defined.

(** The decoded declarations of a compiled schema.  Their Go types are
    generated from the schema of schemas and are not part of the sources; the
    compiler uses them only through the accessors below and through [==]. *)
Class Decoded := {
  Const : Type;
  Enum : Type;
  EnumItem : Type;
  Struct : Type;
  Message : Type;
  Union : Type;
  Protocol : Type;
  Schema : Type;
  Const_eq :: EqDecision Const;
  Enum_eq :: EqDecision Enum;
  Struct_eq :: EqDecision Struct;
  Message_eq :: EqDecision Message;
  Union_eq :: EqDecision Union;
  Protocol_eq :: EqDecision Protocol;
  Const_Name : Const -> list byte;
  Const_Type : Const -> Type_;
  Const_TypeName : Const -> list byte;
  Const_Value : Const -> list byte;
  Enum_Name : Enum -> list byte;
  Enum_Type : Enum -> Type_;
  Enum_Items : Enum -> list EnumItem;
  EnumItem_Name : EnumItem -> list byte;
  EnumItem_Value : EnumItem -> Z;
  Struct_Name : Struct -> list byte;
  Message_Name : Message -> list byte;
  Union_Name : Union -> list byte;
  Protocol_Name : Protocol -> list byte;
  Schema_Namespace : Schema -> list byte;
  Schema_Consts : Schema -> list Const;
  Schema_Enums : Schema -> list Enum;
  Schema_Structs : Schema -> list Struct;
  Schema_Messages : Schema -> list Message;
  Schema_Unions : Schema -> list Union;
  Schema_Protocols : Schema -> list Protocol
}.

End schema_idl.

(** ** Go library functions on strings *)

(** [strings.Compare]: the byte-wise lexicographic order. *)
Fixpoint strings_Compare (a b : list byte) : comparison :=
  match a, b with
  | [], [] => Eq
  | [], _ :: _ => Lt
  | _ :: _, [] => Gt
  | x :: a', y :: b' =>
    match Z.compare (wire.u8 x) (wire.u8 y) with
    | Eq => strings_Compare a' b'
    | c => c
    end
  end.

Definition str_le (a b : list byte) : Prop := strings_Compare a b <> Gt.

#[global] Instance str_le_dec : RelDecision str_le.
Proof. intros a b. unfold str_le. apply _. Defined.

(** [slices.Sorted] on strings. *)
Definition slices_Sorted (l : list (list byte)) : list (list byte) :=
  merge_sort str_le l.

(** [strings.Cut(s, sep)] for a one-byte separator. *)
Fixpoint strings_Cut (s : list byte) (sep : byte) : list byte * list byte * bool :=
  match s with
  | [] => ([], [], false)
  | c :: r =>
    if decide (c = sep) then ([], r, true)
    else
      let '(before, after, found) := strings_Cut r sep in
      if found then (c :: before, after, true) else (s, [], false)
  end.

(** [strings.Contains(s, sep)] for a one-byte separator. *)
Definition strings_Contains (s : list byte) (sep : byte) : bool :=
  bool_decide (sep ∈ s).

(** A loop whose body may fail or panic. *)
Fixpoint foldM {E A B} (f : B -> A -> outcome E B) (l : list A) (b : B)
  : outcome E B :=
  match l with
  | [] => Ok b
  | a :: r => let* b' := f b a in foldM f r b'
  end.

(** ** Package [idol/compiler]: merged dependency schemas
    (compiler_errors.go, schema_set.go) *)

Module compiler.
Import wire syntax schema_idl.

Record Error := { code : Z; message : gostr; span : Span }.

Definition errImportNameNotFound (ns name : list byte) (sp : Span) : Error :=
  {| code := 3005;
     message := Sprintf "Name '%s' not found in imported namespace %q"
                  [Lit name; Lit ns];
     span := sp |}.

Definition errImportNameDefinitionConflict (ns name : list byte) (sp : Span)
  : Error :=
  {| code := 3006;
     message :=
       Sprintf "Name '%s' imported from namespace %q has conflicting definitions"
         [Lit name; Lit ns];
     span := sp |}.

Definition errImportedNameNotType (got ns name : list byte) (sp : Span) : Error :=
  {| code := 3007;
     message := Sprintf "Name '%s' imported from namespace %q is a %s, not a type"
                  [Lit name; Lit ns; Lit got];
     span := sp |}.

Definition errImportedNameNotConst (got ns name : list byte) (sp : Span) : Error :=
  {| code := 0x30000;
     message :=
       Sprintf "Name '%s' imported from namespace %q is a %s, not a constant"
         [Lit name; Lit ns; Lit got];
     span := sp |}.

Inductive declType :=
| declType_UNKNOWN
| declType_CONST
| declType_ENUM
| declType_STRUCT
| declType_MESSAGE
| declType_UNION
| declType_PROTOCOL.

#[global] Instance declType_eq_dec : EqDecision declType.
Proof. solve_decision. Defined.

Section schema_set.
Context `{Decoded}.

(** A value of interface type holding a decoded declaration, or nil. *)
Inductive any :=
| any_nil
| any_Const (v : Const)
| any_Enum (v : Enum)
| any_Struct (v : Struct)
| any_Message (v : Message)
| any_Union (v : Union)
| any_Protocol (v : Protocol).

#[global] Instance any_eq_dec : EqDecision any.
Proof. solve_decision. Defined.

Record mergedDecl := {
  md_type_ : declType;
  md_enumType : Type_;
  md_value : any;
  md_conflict : bool
}.

#[global] Instance mergedDecl_eq_dec : EqDecision mergedDecl.
Proof. solve_decision. Defined.

Record SchemaSet := {
  ss_decls : gmap (list byte) (gmap (list byte) mergedDecl)
}.

(** [s.decls[namespace][name]]; indexing a missing (nil) inner map finds
    nothing. *)
Definition lookupDecl (s : SchemaSet) (namespace name : list byte)
  : option mergedDecl :=
  match ss_decls s !! namespace with
  | Some ds => ds !! name
  | None => None
  end.

Record exportInfo := {
  ei_type_ : ExportType;
  ei_typeName : list byte;
  ei_imported : any
}.

(** [decl] is the index of the declaration in [compiler.decls]. *)
Record typeInfo := {
  ti_type_ : Type_;
  ti_typeName : list byte;
  ti_imported : any;
  ti_decl : option nat
}.

Definition SchemaSet_resolveExport (s : SchemaSet) (namespace name : list byte)
    (nameSpan : Span) : outcome Error exportInfo :=
  match lookupDecl s namespace name with
  | None => Err (errImportNameNotFound namespace name nameSpan)
  | Some decl =>
    if md_conflict decl
    then Err (errImportNameDefinitionConflict namespace name nameSpan)
    else
      let export t :=
        Ok {| ei_type_ := t; ei_typeName := []; ei_imported := md_value decl |} in
      match md_type_ decl with
      | declType_UNKNOWN =>
          Ok {| ei_type_ := ExportType_UNKNOWN; ei_typeName := [];
                ei_imported := any_nil |}
      | declType_CONST => export ExportType_CONST
      | declType_ENUM => export ExportType_ENUM
      | declType_STRUCT => export ExportType_STRUCT
      | declType_MESSAGE => export ExportType_MESSAGE
      | declType_UNION => export ExportType_UNION
      | declType_PROTOCOL => export ExportType_PROTOCOL
      end
  end.

Definition SchemaSet_resolveType (s : SchemaSet) (namespace name : list byte)
    (importSpan useSpan : Span) : outcome Error typeInfo :=
  match lookupDecl s namespace name with
  | None => Err (errImportNameNotFound namespace name importSpan)
  | Some decl =>
    if md_conflict decl
    then Err (errImportNameDefinitionConflict namespace name importSpan)
    else
      let type t :=
        Ok {| ti_type_ := t; ti_typeName := name;
              ti_imported := md_value decl; ti_decl := None |} in
      match md_type_ decl with
      | declType_UNKNOWN =>
          Ok {| ti_type_ := Type_UNKNOWN; ti_typeName := name;
                ti_imported := any_nil; ti_decl := None |}
      | declType_ENUM => type (md_enumType decl)
      | declType_STRUCT => type Type_STRUCT
      | declType_MESSAGE => type Type_MESSAGE
      | declType_UNION => type Type_UNION
      | declType_CONST =>
          Err (errImportedNameNotType (str "const") namespace name useSpan)
      | declType_PROTOCOL =>
          Err (errImportedNameNotType (str "protocol") namespace name useSpan)
      end
  end.

Definition SchemaSet_resolveConst (s : SchemaSet) (namespace name : list byte)
    (importSpan useSpan : Span) : outcome Error Const :=
  match lookupDecl s namespace name with
  | None => Err (errImportNameNotFound namespace name importSpan)
  | Some decl =>
    if md_conflict decl
    then Err (errImportNameDefinitionConflict namespace name importSpan)
    else
      let notConst got :=
        Err (errImportedNameNotConst (str got) namespace name useSpan) in
      match md_type_ decl with
      | declType_CONST =>
          match md_value decl with
          | any_Const c => Ok c
          | _ => Panic
          end
      | declType_ENUM => notConst "enum"%string
      | declType_STRUCT => notConst "struct"%string
      | declType_MESSAGE => notConst "message"%string
      | declType_UNION => notConst "union"%string
      | declType_PROTOCOL => notConst "protocol"%string
      | declType_UNKNOWN => Panic
      end
  end.

(** The type assertions [a.value.(schema_idl.Const)] and the like panic on a
    value of another dynamic type. *)
Definition canUnifyMergedDecls (a b : mergedDecl) : outcome Error bool :=
  if md_conflict a || md_conflict b then Ok false
  else if negb (bool_decide (md_type_ a = md_type_ b)) then Ok false
  else if negb (bool_decide (md_enumType a = md_enumType b)) then Ok false
  else
    match md_type_ a with
    | declType_UNKNOWN => Ok false
    | declType_CONST =>
        match md_value a, md_value b with
        | any_Const x, any_Const y => Ok (bool_decide (x = y))
        | _, _ => Panic
        end
    | declType_ENUM =>
        match md_value a, md_value b with
        | any_Enum x, any_Enum y => Ok (bool_decide (x = y))
        | _, _ => Panic
        end
    | declType_STRUCT =>
        match md_value a, md_value b with
        | any_Struct x, any_Struct y => Ok (bool_decide (x = y))
        | _, _ => Panic
        end
    | declType_MESSAGE =>
        match md_value a, md_value b with
        | any_Message x, any_Message y => Ok (bool_decide (x = y))
        | _, _ => Panic
        end
    | declType_UNION =>
        match md_value a, md_value b with
        | any_Union x, any_Union y => Ok (bool_decide (x = y))
        | _, _ => Panic
        end
    | declType_PROTOCOL =>
        match md_value a, md_value b with
        | any_Protocol x, any_Protocol y => Ok (bool_decide (x = y))
        | _, _ => Panic
        end
    end.

(** The entry that replaces two declarations that cannot be unified. *)
Definition conflictDecl : mergedDecl :=
  {| md_type_ := declType_UNKNOWN; md_enumType := Type_UNKNOWN;
     md_value := any_nil; md_conflict := true |}.

(** The closure [set] of [Merge]. *)
Definition set (ds : gmap (list byte) mergedDecl) (k : list byte) (v : mergedDecl)
  : outcome Error (gmap (list byte) mergedDecl) :=
  match ds !! k with
  | Some prev =>
    let* unify := canUnifyMergedDecls v prev in
    if negb unify then Ok (<[k := conflictDecl]> ds) else Ok ds
  | None => Ok (<[k := v]> ds)
  end.

Definition constDecl (c : Const) : mergedDecl :=
  {| md_type_ := declType_CONST; md_enumType := Type_UNKNOWN;
     md_value := any_Const c; md_conflict := false |}.
Definition enumDecl (e : Enum) : mergedDecl :=
  {| md_type_ := declType_ENUM; md_enumType := Enum_Type e;
     md_value := any_Enum e; md_conflict := false |}.
Definition structDecl (s : Struct) : mergedDecl :=
  {| md_type_ := declType_STRUCT; md_enumType := Type_UNKNOWN;
     md_value := any_Struct s; md_conflict := false |}.
Definition messageDecl (m : Message) : mergedDecl :=
  {| md_type_ := declType_MESSAGE; md_enumType := Type_UNKNOWN;
     md_value := any_Message m; md_conflict := false |}.
Definition unionDecl (u : Union) : mergedDecl :=
  {| md_type_ := declType_UNION; md_enumType := Type_UNKNOWN;
     md_value := any_Union u; md_conflict := false |}.
Definition protocolDecl (p : Protocol) : mergedDecl :=
  {| md_type_ := declType_PROTOCOL; md_enumType := Type_UNKNOWN;
     md_value := any_Protocol p; md_conflict := false |}.

(** The declarations of one schema under their names, in the order in which
    the six loops of [Merge] visit them. *)
Definition schemaDecls (schema : Schema) : list (list byte * mergedDecl) :=
  map (fun c => (Const_Name c, constDecl c)) (Schema_Consts schema)
  ++ map (fun e => (Enum_Name e, enumDecl e)) (Schema_Enums schema)
  ++ map (fun s => (Struct_Name s, structDecl s)) (Schema_Structs schema)
  ++ map (fun m => (Message_Name m, messageDecl m)) (Schema_Messages schema)
  ++ map (fun u => (Union_Name u, unionDecl u)) (Schema_Unions schema)
  ++ map (fun p => (Protocol_Name p, protocolDecl p)) (Schema_Protocols schema).

(** The loop over the sorted names of a later schema of a namespace that an
    earlier schema has already contributed to. *)
Definition mergeInto (ds : gmap (list byte) mergedDecl)
    (prevDecls : gmap (list byte) mergedDecl) (name : list byte)
  : outcome Error (gmap (list byte) mergedDecl) :=
  match ds !! name with
  | None => Panic
  | Some d =>
    match prevDecls !! name with
    | Some prev =>
      let* unify := canUnifyMergedDecls d prev in
      if negb unify then Ok (<[name := conflictDecl]> prevDecls)
      else Ok prevDecls
    | None => Ok (<[name := d]> prevDecls)
    end
  end.

Definition mergeSchema
    (declsByNs : gmap (list byte) (gmap (list byte) mergedDecl))
    (schema : Schema)
  : outcome Error (gmap (list byte) (gmap (list byte) mergedDecl)) :=
  let* ds := foldM (fun ds kv => set ds kv.1 kv.2) (schemaDecls schema) ∅ in
  let ns := Schema_Namespace schema in
  match declsByNs !! ns with
  | Some prevDecls =>
    let* merged :=
      foldM (mergeInto ds) (slices_Sorted (map fst (map_to_list ds))) prevDecls in
    Ok (<[ns := merged]> declsByNs)
  | None => Ok (<[ns := ds]> declsByNs)
  end.

Definition Merge (schemas : list Schema) : outcome Error SchemaSet :=
  let* declsByNs := foldM mergeSchema schemas ∅ in
  Ok {| ss_decls := declsByNs |}.

(** *** What [Merge] is expected to compute, in the words of the
    specification *)

(** Same declaration category and identical payload. *)
Definition sameDecl (a b : mergedDecl) : bool :=
  bool_decide (md_type_ a = md_type_ b) && bool_decide (md_value a = md_value b).

(** Everything the schemas contribute under one namespace and name, in the
    order of the schemas. *)
Definition contributions (schemas : list Schema) (ns name : list byte)
  : list mergedDecl :=
  flat_map
    (fun schema =>
       if decide (Schema_Namespace schema = ns)
       then map snd (filter (fun kv => kv.1 = name) (schemaDecls schema))
       else [])
    schemas.

(** One entry for all contributions: the declaration itself if all of them
    can be unified with the first one, the conflict marker otherwise. *)
Definition unified (ds : list mergedDecl) : option mergedDecl :=
  match ds with
  | [] => None
  | d :: rest => Some (if forallb (sameDecl d) rest then d else conflictDecl)
  end.

End schema_set.


(** *** Diagnostics of the compiler (compiler_errors.go,
    compiler_warnings.go) *)

Record Warning := { w_code : Z; w_message : gostr; w_span : Span }.

Definition warnUnusedImport (ns name : list byte) (sp : Span) : Warning :=
  {| w_code := 4001;
     w_message := Sprintf "Import '%s' from namespace %q is unused"
                    [Lit name; Lit ns];
     w_span := sp |}.

Definition warnUnusedImportAs (ns as_ : list byte) (sp : Span) : Warning :=
  {| w_code := 4002;
     w_message := Sprintf "Import of namespace %q (as %q) is unused"
                    [Lit ns; Lit as_];
     w_span := sp |}.

Definition warnDeclShadowsBuiltin (name : list byte) (sp : Span) : Warning :=
  {| w_code := 4009;
     w_message := Sprintf "Local declaration '%s' shadows builtin" [Lit name];
     w_span := sp |}.

Definition errInvalidNamespace (namespace : list byte) (sp : Span) : Error :=
  {| code := 3000;
     message := Sprintf "Invalid namespace name %q" [Lit namespace];
     span := sp |}.

Definition errImportAsNotFound (alias : list byte) (sp : Span) : Error :=
  {| code := 3003;
     message := Sprintf "No namespace imported as '%s'" [Lit alias];
     span := sp |}.

(** [n.Get()] and [n.Span()] on an [*Ident]; [None] is the panic of
    dereferencing nil. *)
Definition Ident_Get (n : option Ident) : option (list byte) :=
  match n with Some i => Some (id_raw i) | None => None end.

Definition Ident_Span_of (n : option Ident) : option Span :=
  match n with Some i => Some (Ident_Span i) | None => None end.

(** [decl.Name()] of the interface [declNode]. *)
Definition declNode_Name (decl : Node) : option (option Ident) :=
  match decl with
  | N_Const _ _ name _ _ _ | N_Enum _ _ name _ _ _ | N_Struct _ _ name _ _
  | N_Message _ _ name _ _ | N_Union _ _ name _ _
  | N_Protocol _ _ name _ _ _ => Some name
  | _ => None
  end.

Definition declTypeString (decl : Node) : option (list byte) :=
  match decl with
  | N_Const _ _ _ _ _ _ => Some (str "const")
  | N_Enum _ _ _ _ _ _ => Some (str "enum")
  | N_Struct _ _ _ _ _ => Some (str "struct")
  | N_Message _ _ _ _ _ => Some (str "message")
  | N_Union _ _ _ _ _ => Some (str "union")
  | N_Protocol _ _ _ _ _ _ => Some (str "protocol")
  | _ => None
  end.

Definition errDeclNameConflict (decl prevDecl : Node) : option Error :=
  t ← declTypeString decl;
  name ← declNode_Name decl;
  n ← Ident_Get name;
  pt ← declTypeString prevDecl;
  prevName ← declNode_Name prevDecl;
  pn ← Ident_Get prevName;
  sp ← Ident_Span_of name;
  Some {| code := 3012;
          message :=
            Sprintf
              "Declaration of %s '%s' conflicts with earlier declaration of %s '%s'"
              [Lit t; Lit n; Lit pt; Lit pn];
          span := sp |}.

Definition errDeclNameConflictsWithImport (decl : Node) (namespace : list byte)
  : option Error :=
  t ← declTypeString decl;
  name ← declNode_Name decl;
  n ← Ident_Get name;
  sp ← Ident_Span_of name;
  Some {| code := 3013;
          message :=
            Sprintf
              "Declaration of %s '%s' conflicts with name imported from namespace %q"
              [Lit t; Lit n; Lit namespace];
          span := sp |}.

Definition errDeclNameConflictsWithImportAs (decl : Node) (namespace : list byte)
  : option Error :=
  name ← declNode_Name decl;
  t ← declTypeString decl;
  n ← Ident_Get name;
  sp ← Ident_Span_of name;
  Some {| code := 3014;
          message :=
            Sprintf
              "Declaration of %s '%s' conflicts with import of namespace %q as '%s'"
              [Lit t; Lit n; Lit namespace; Lit n];
          span := sp |}.

(** The separator of a namespace and a local name in a qualified type
    name. *)
Definition unitSep : byte := x1f.

(** The name of a builtin type, as [errValueTypeMismatch] spells it. *)
Definition valueTypeName (t : Type_) : option (list byte) :=
  match t with
  | Type_BOOL => Some (str "bool")
  | Type_U8 => Some (str "u8") | Type_I8 => Some (str "i8")
  | Type_U16 => Some (str "u16") | Type_I16 => Some (str "i16")
  | Type_U32 => Some (str "u32") | Type_I32 => Some (str "i32")
  | Type_U64 => Some (str "u64") | Type_I64 => Some (str "i64")
  | Type_F32 => Some (str "f32") | Type_F64 => Some (str "f64")
  | Type_ASCIZ => Some (str "asciz") | Type_TEXT => Some (str "text")
  | _ => None
  end.

(** [n.UnparseTo(&buf)] on a value of interface type [Node] that may be
    nil. *)
Definition Unparse_of (n : option Node) : option (list byte) :=
  match n with Some n => Unparse n | None => None end.

Definition Span_of (n : option Node) : option Span :=
  match n with Some n => Node_Span n | None => None end.

Definition maxFloat32 : Z := Z.shiftl 2 23.
Definition maxFloat64 : Z := Z.shiftl 2 52.

(** [errValueOutOfRange2]; the value is an [int64] or a [uint64]. *)
Definition errValueOutOfRange2 (type_ : Type_) (value : Z) (valueSpan : Span)
  : option Error :=
  let mk (typeName : string) (valueMin valueMax : Z) (rangeDesc : string) :=
    Some {| code := 3016;
            message := Sprintf "Value %d out of %srange [%d, %d] for type '%s'"
                         [Num value; Lit (str rangeDesc); Num valueMin;
                          Num valueMax; Lit (str typeName)];
            span := valueSpan |} in
  match type_ with
  | Type_U8 => mk "u8"%string 0 (2^8 - 1) EmptyString
  | Type_I8 => mk "i8"%string (- 2^7) (2^7 - 1) EmptyString
  | Type_U16 => mk "u16"%string 0 (2^16 - 1) EmptyString
  | Type_I16 => mk "i16"%string (- 2^15) (2^15 - 1) EmptyString
  | Type_U32 => mk "u32"%string 0 (2^32 - 1) EmptyString
  | Type_I32 => mk "i32"%string (- 2^31) (2^31 - 1) EmptyString
  | Type_U64 => mk "u64"%string 0 (2^64 - 1) EmptyString
  | Type_I64 => mk "i64"%string (- 2^63) (2^63 - 1) EmptyString
  | Type_F32 => mk "f32"%string (- maxFloat32) maxFloat32
                  "floating-point unrounded integer "%string
  | Type_F64 => mk "f64"%string (- maxFloat64) maxFloat64
                  "floating-point unrounded integer "%string
  | _ => None
  end.

Definition errValueOutOfRange (type_ : Type_) (node : IntLit) : option Error :=
  match IntLit_GetInt64 node with
  | None => None
  | Some (i64, true) => errValueOutOfRange2 type_ i64 (IntLit_Span node)
  | Some (_, false) =>
    match IntLit_GetUint64 node with
    | None => None
    | Some (u64, _) => errValueOutOfRange2 type_ u64 (IntLit_Span node)
    end
  end.

Definition errInvalidBoolValue (sp : Span) : Error :=
  {| code := 3017;
     message :=
       Lit (str "Invalid value for type 'bool' (expected '.true' or '.false')");
     span := sp |}.

Definition errInvalidAscizValue (node : TextLit) : Error :=
  {| code := 3018;
     message := Lit (str "Invalid value for type 'asciz' (contains NUL)");
     span := TextLit_Span node |}.

Definition errInvalidTextValue (node : TextLit) : Error :=
  {| code := 3019;
     message :=
       Lit (str
         "Invalid value for type 'text' (contains NUL and/or non-ASCII byte escape)");
     span := TextLit_Span node |}.

(** [fmtTypeName] on a [*TypeName]. *)
Definition fmtTypeName (node : option Node) : option (list byte) :=
  match node with
  | Some (N_TypeName _ _ scope name) =>
    typeName ← Ident_Get name;
    match scope with
    | Some s => Some (id_raw s ++ str "." ++ typeName)
    | None => Some typeName
    end
  | _ => None
  end.

Definition errConstTypeInvalid (name : option Node) : option Error :=
  t ← fmtTypeName name;
  sp ← Span_of name;
  Some {| code := 3020;
          message := Sprintf "Invalid type '%s' for constant" [Lit t];
          span := sp |}.

Definition errEnumTypeInvalid (name : option Ident) : option Error :=
  n ← Ident_Get name;
  sp ← Ident_Span_of name;
  Some {| code := 3021;
          message := Sprintf "Invalid type '%s' for enum" [Lit n];
          span := sp |}.

Definition isUnsignedInt (t : Type_) : bool :=
  match t with Type_U8 | Type_U16 | Type_U32 | Type_U64 => true | _ => false end.

Definition isSignedInt (t : Type_) : bool :=
  match t with Type_I8 | Type_I16 | Type_I32 | Type_I64 => true | _ => false end.

(** [errEnumItemNameConflict]; [prevValue] is a pointer, and it is
    dereferenced when there is no previous alias and the enum has an integer
    type. *)
Definition errEnumItemNameConflict (enumType : Type_) (prevValue : option Z)
    (prevAlias : list byte) (name : Ident) : option Error :=
  prev ←
    match prevAlias with
    | [] =>
      if isUnsignedInt enumType then
        v ← prevValue; Some (Sprintf "%d" [Num v])
      else if isSignedInt enumType then
        v ← prevValue; Some (Sprintf "%d" [Num (int64 v)])
      else Some (Lit [])
    | _ => Some (Lit (str "." ++ prevAlias))
    end;
  Some {| code := 3022;
          message :=
            Sprintf
              "Enum item '%s' conflicts with name of earlier item '%s' (= %s)"
              [Lit (id_raw name); Lit (id_raw name); prev];
          span := Ident_Span name |}.

Definition errEnumItemValueConflict (enumType : Type_) (value : Z)
    (name prevName : list byte) (valueNode : option Node) : option Error :=
  let valueStr :=
    if isUnsignedInt enumType then Sprintf "%d" [Num value]
    else if isSignedInt enumType then Sprintf "%d" [Num (int64 value)]
    else Lit [] in
  sp ← Span_of valueNode;
  Some {| code := 3023;
          message :=
            Sprintf
              "Enum item '%s' value %s conflicts with value of earlier item '%s'"
              [Lit name; valueStr; Lit prevName];
          span := sp |}.

(** The constructors that still carry the placeholder code. *)
Definition errPlaceholder (name : string) : Error :=
  {| code := 0x30000; message := Lit (str name); span := NewSpan 0 0 |}.

Definition errEnumValueNotOk := errPlaceholder "errEnumValueNotOk".
Definition errEnumAliasTargetNotFound := errPlaceholder "errEnumAliasTargetNotFound".
Definition errResolvedDeclNotType := errPlaceholder "errResolvedDeclNotType".
Definition errResolvedDeclNotConst := errPlaceholder "errResolvedDeclNotConst".
Definition errTypeNameNotFound := errPlaceholder "errTypeNameNotFound".
Definition errValueNameNotFound := errPlaceholder "errValueNameNotFound".
Definition errImportedConstantCorrupt := errPlaceholder "errImportedConstantCorrupt".
Definition errEnumRefNotFound := errPlaceholder "errEnumRefNotFound".

(** An [&Error{message: ...}] literal of the compiler: code 0, no span. *)
Definition errTODO (msg : gostr) : Error :=
  {| code := 0; message := msg; span := NewSpan 0 0 |}.

(** The range of an integer type and the size of its values in bytes. *)
Definition intRange (t : Type_) : option (Z * Z * nat) :=
  match t with
  | Type_U8 => Some (0, 2^8 - 1, 1%nat)
  | Type_I8 => Some (- 2^7, 2^7 - 1, 1%nat)
  | Type_U16 => Some (0, 2^16 - 1, 2%nat)
  | Type_I16 => Some (- 2^15, 2^15 - 1, 2%nat)
  | Type_U32 => Some (0, 2^32 - 1, 4%nat)
  | Type_I32 => Some (- 2^31, 2^31 - 1, 4%nat)
  | Type_U64 => Some (0, 2^64 - 1, 8%nat)
  | Type_I64 => Some (- 2^63, 2^63 - 1, 8%nat)
  | _ => None
  end.

(** An integer literal fits an integer type with the range [lo..hi]: the
    integer it denotes is in the range, and it has no minus sign when the
    type is unsigned. *)
Definition intLitFits (t : Type_) (lo hi : Z) (lit : IntLit) : bool :=
  (lo <=? IntLit_value lit) && (IntLit_value lit <=? hi)
  && negb (isUnsignedInt t && bool_decide (IntLit_negative lit = Some true)).

(** *** Conversion of integers to floating point *)

(** [n / 2^s] rounded to the nearest integer, ties to even. *)
Definition roundShift (n s : Z) : Z :=
  let q := Z.shiftr n s in
  let r := n - Z.shiftl q s in
  let half := Z.shiftl 1 (s - 1) in
  if r <? half then q
  else if half <? r then q + 1
  else if Z.even q then q else q + 1.

(** The IEEE-754 bit pattern, with [mbits] bits of fraction and exponent
    bias [bias], of the float nearest to the integer [v]: what
    [math.Float32bits(float32(v))] and [math.Float64bits(float64(v))]
    return for an [int64] or [uint64] [v]. *)
Definition floatBitsOfInt (mbits bias signBit : Z) (v : Z) : Z :=
  if v =? 0 then 0
  else
    let n := Z.abs v in
    let e := Z.log2 n in
    let m := if e <=? mbits then Z.shiftl n (mbits - e) else roundShift n (e - mbits) in
    let '(m, e) := if m =? 2^(mbits + 1) then (2^mbits, e + 1) else (m, e) in
    (if v <? 0 then 2^signBit else 0) + (e + bias) * 2^mbits + (m - 2^mbits).

Definition Float32bits (v : Z) : Z := floatBitsOfInt 23 127 31 v.
Definition Float64bits (v : Z) : Z := floatBitsOfInt 52 1023 63 v.

(** The finite number that a bit pattern denotes, as a signed significand
    [m] and an exponent [e] standing for [m * 2^e]; [None] for an infinity
    or a NaN. *)
Definition floatOfBits (mbits bias signBit : Z) (bits : Z) : option (Z * Z) :=
  let sign := Z.testbit bits signBit in
  let expo := (bits / 2^mbits) mod 2^(signBit - mbits) in
  let frac := bits mod 2^mbits in
  if expo =? 2^(signBit - mbits) - 1 then None
  else
    let '(m, e) :=
      if expo =? 0 then (frac, 1 - bias - mbits)
      else (2^mbits + frac, expo - bias - mbits) in
    Some (if sign then - m else m, e).

(** The bit pattern denotes exactly the integer [v]. *)
Definition denotesInt (mbits bias signBit : Z) (bits v : Z) : Prop :=
  exists m e,
    floatOfBits mbits bias signBit bits = Some (m, e) /\
    (if 0 <=? e then m * 2^e = v else m = v * 2^(- e)).

(** *** State of a compilation *)

Section compile.
Context {D : Decoded}.

(** The builders of the generated package, of which the compiler sets the
    fields below.  The builders of options, structs, messages, unions and
    protocols are left abstract. *)
Context {OptionsBuilder UninterpretedOptions__Builder : Type}.
Context {Struct__Builder Message__Builder Union__Builder Protocol__Builder : Type}.
Context (zeroOptions : OptionsBuilder).
Context (Uninterpreted_Add :
           OptionsBuilder -> UninterpretedOptions__Builder -> OptionsBuilder).

Record EnumItem__Builder := {
  eib_Name : list byte;
  eib_Options : option OptionsBuilder;
  eib_Value : Z;
  eib_IsAlias : bool
}.

Record Enum__Builder := {
  eb_Name : list byte;
  eb_Type : Type_;
  eb_Options : option OptionsBuilder;
  eb_Items : list EnumItem__Builder
}.

Record Const__Builder := {
  cb_Name : list byte;
  cb_Options : option OptionsBuilder;
  cb_Type : Type_;
  cb_TypeName : list byte;
  cb_Value : list byte
}.

Record Import__Builder := {
  ib_Namespace : list byte;
  ib_Names : list (list byte)
}.

Record Export__Builder := {
  xb_Type : ExportType;
  xb_TypeName : list byte;
  xb_ExportAs : list byte
}.

Record Schema__Builder := {
  sb_Namespace : list byte;
  sb_SourcePath : list (list byte);
  sb_Options : option OptionsBuilder;
  sb_Imports : list Import__Builder;
  sb_Exports : list Export__Builder;
  sb_Consts : list Const__Builder;
  sb_Enums : list Enum__Builder;
  sb_Structs : list Struct__Builder;
  sb_Messages : list Message__Builder;
  sb_Unions : list Union__Builder;
  sb_Protocols : list Protocol__Builder
}.

Definition emptySchema : Schema__Builder :=
  {| sb_Namespace := []; sb_SourcePath := []; sb_Options := None;
     sb_Imports := []; sb_Exports := []; sb_Consts := []; sb_Enums := [];
     sb_Structs := []; sb_Messages := []; sb_Unions := []; sb_Protocols := [] |}.

Record schemaNodes := {
  sn_namespace : option Node;
  sn_imports : list Node;
  sn_exports : list Node;
  sn_options : list Node;
  sn_consts : list Node;
  sn_enums : list Node;
  sn_structs : list Node;
  sn_messages : list Node;
  sn_unions : list Node;
  sn_protocols : list Node
}.

Definition newSchemaNodes_step (nodes : schemaNodes) (node : Node) : schemaNodes :=
  let '{| sn_namespace := ns; sn_imports := im; sn_exports := ex;
          sn_options := op; sn_consts := co; sn_enums := en; sn_structs := st;
          sn_messages := me; sn_unions := un; sn_protocols := pr |} := nodes in
  let mk ns im ex op co en st me un pr :=
    {| sn_namespace := ns; sn_imports := im; sn_exports := ex;
       sn_options := op; sn_consts := co; sn_enums := en; sn_structs := st;
       sn_messages := me; sn_unions := un; sn_protocols := pr |} in
  match node with
  | N_Namespace _ _ _ => mk (Some node) im ex op co en st me un pr
  | N_Import _ _ _ _ _ => mk ns (im ++ [node]) ex op co en st me un pr
  | N_Export _ _ _ _ _ => mk ns im (ex ++ [node]) op co en st me un pr
  | N_Options _ _ _ _ => mk ns im ex (op ++ [node]) co en st me un pr
  | N_Const _ _ _ _ _ _ => mk ns im ex op (co ++ [node]) en st me un pr
  | N_Enum _ _ _ _ _ _ => mk ns im ex op co (en ++ [node]) st me un pr
  | N_Struct _ _ _ _ _ => mk ns im ex op co en (st ++ [node]) me un pr
  | N_Message _ _ _ _ _ => mk ns im ex op co en st (me ++ [node]) un pr
  | N_Union _ _ _ _ _ => mk ns im ex op co en st me (un ++ [node]) pr
  | N_Protocol _ _ _ _ _ _ => mk ns im ex op co en st me un (pr ++ [node])
  | _ => nodes
  end.

(** [newSchemaNodes]; [None] is the panic on a nil schema. *)
Definition newSchemaNodes (parsedSchema : Node) : option schemaNodes :=
  match parsedSchema with
  | N_Schema _ childNodes =>
    Some (foldl newSchemaNodes_step
            {| sn_namespace := None; sn_imports := []; sn_exports := [];
               sn_options := []; sn_consts := []; sn_enums := [];
               sn_structs := []; sn_messages := []; sn_unions := [];
               sn_protocols := [] |}
            childNodes)
  | _ => None
  end.

Record importCtx := {
  ic_namespace : list byte;
  ic_usedNames : gset (list byte);
  ic_unusedAliases : gmap (list byte) Node
}.

(** [ictx] is the index in [compiler.imports] of the context pointed to. *)
Record importedName := {
  in_ictx : nat;
  in_node : Ident;
  in_used : bool
}.

Record declInfo := {
  di_node : Node;
  di_enumType : Type_;
  di_constType : option typeInfo;
  di_constValue : option (list byte);
  di_enumValues : option (gmap (list byte) Z)
}.

Record constInfo := {
  ci_type_ : Type_;
  ci_typeName : list byte;
  ci_value : list byte
}.

(** The compiler.  Declarations and import contexts are shared by pointer
    between several fields of the Go struct and are updated in place: here
    [decls] and [imports] hold them, and every other reference is an index
    into these lists.  The dependencies [opts.deps] are part of the state
    because registering an import writes to them. *)
Record compiler := {
  deps : option SchemaSet;
  nodes : schemaNodes;
  schema : Schema__Builder;
  errors : list Error;
  warnings : list Warning;
  imports : list importCtx;
  importedNames : gmap (list byte) importedName;
  importsByNamespace : gmap (list byte) nat;
  importsByAlias : gmap (list byte) nat;
  decls : list declInfo;
  declsByName : gmap (list byte) nat
}.

Definition with_schema (f : Schema__Builder -> Schema__Builder) (c : compiler)
  : compiler :=
  {| deps := deps c; nodes := nodes c; schema := f (schema c);
     errors := errors c; warnings := warnings c; imports := imports c;
     importedNames := importedNames c;
     importsByNamespace := importsByNamespace c;
     importsByAlias := importsByAlias c; decls := decls c;
     declsByName := declsByName c |}.

Definition with_errors (f : list Error -> list Error) (c : compiler) : compiler :=
  {| deps := deps c; nodes := nodes c; schema := schema c;
     errors := f (errors c); warnings := warnings c; imports := imports c;
     importedNames := importedNames c;
     importsByNamespace := importsByNamespace c;
     importsByAlias := importsByAlias c; decls := decls c;
     declsByName := declsByName c |}.

Definition with_warnings (f : list Warning -> list Warning) (c : compiler)
  : compiler :=
  {| deps := deps c; nodes := nodes c; schema := schema c;
     errors := errors c; warnings := f (warnings c); imports := imports c;
     importedNames := importedNames c;
     importsByNamespace := importsByNamespace c;
     importsByAlias := importsByAlias c; decls := decls c;
     declsByName := declsByName c |}.

Definition with_imports (f : list importCtx -> list importCtx) (c : compiler)
  : compiler :=
  {| deps := deps c; nodes := nodes c; schema := schema c;
     errors := errors c; warnings := warnings c; imports := f (imports c);
     importedNames := importedNames c;
     importsByNamespace := importsByNamespace c;
     importsByAlias := importsByAlias c; decls := decls c;
     declsByName := declsByName c |}.

Definition with_importedNames
    (f : gmap (list byte) importedName -> gmap (list byte) importedName)
    (c : compiler) : compiler :=
  {| deps := deps c; nodes := nodes c; schema := schema c;
     errors := errors c; warnings := warnings c; imports := imports c;
     importedNames := f (importedNames c);
     importsByNamespace := importsByNamespace c;
     importsByAlias := importsByAlias c; decls := decls c;
     declsByName := declsByName c |}.

Definition with_importMaps (byNamespace byAlias : gmap (list byte) nat)
    (c : compiler) : compiler :=
  {| deps := deps c; nodes := nodes c; schema := schema c;
     errors := errors c; warnings := warnings c; imports := imports c;
     importedNames := importedNames c;
     importsByNamespace := byNamespace;
     importsByAlias := byAlias; decls := decls c;
     declsByName := declsByName c |}.

Definition with_decls (f : list declInfo -> list declInfo) (c : compiler)
  : compiler :=
  {| deps := deps c; nodes := nodes c; schema := schema c;
     errors := errors c; warnings := warnings c; imports := imports c;
     importedNames := importedNames c;
     importsByNamespace := importsByNamespace c;
     importsByAlias := importsByAlias c; decls := f (decls c);
     declsByName := declsByName c |}.

Definition with_declsByName
    (f : gmap (list byte) nat -> gmap (list byte) nat) (c : compiler)
  : compiler :=
  {| deps := deps c; nodes := nodes c; schema := schema c;
     errors := errors c; warnings := warnings c; imports := imports c;
     importedNames := importedNames c;
     importsByNamespace := importsByNamespace c;
     importsByAlias := importsByAlias c; decls := decls c;
     declsByName := f (declsByName c) |}.

(** A method of the compiler: it panics, or returns an error or a value,
    and in the last two cases leaves a new state. *)
Definition M (A : Type) : Type :=
  compiler -> outcome (Error * compiler) (A * compiler).

Definition ret {A} (a : A) : M A := fun c => Ok (a, c).

Definition bindM {A B} (m : M A) (k : A -> M B) : M B :=
  fun c =>
    match m c with
    | Ok (a, c') => k a c'
    | Err e => Err e
    | Panic => Panic
    end.

Notation "'letc' x ':=' m 'in' k" := (bindM m (fun x => k))
  (at level 10, x pattern, m at level 100, k at level 200).

(** [return nil, err]. *)
Definition fail {A} (e : Error) : M A := fun c => Err (e, c).

Definition panic {A} : M A := fun _ => Panic.

Definition get : M compiler := fun c => Ok (c, c).

Definition modify (f : compiler -> compiler) : M unit := fun c => Ok (tt, f c).

(** A helper that may panic. *)
Definition liftO {A} (o : option A) : M A :=
  match o with Some a => ret a | None => panic end.

(** A call that does not touch the compiler. *)
Definition lift {A} (o : outcome Error A) : M A :=
  fun c =>
    match o with
    | Ok a => Ok (a, c)
    | Err e => Err (e, c)
    | Panic => Panic
    end.

(** [v, err := m()] followed by a test of [err]. *)
Definition catch {A} (m : M A) : M (Error + A) :=
  fun c =>
    match m c with
    | Ok (a, c') => Ok (inr a, c')
    | Err (e, c') => Ok (inl e, c')
    | Panic => Panic
    end.

(** [c.err(err)] and [c.warn(warning)]. *)
Definition err (e : Error) : M unit := modify (with_errors (fun es => es ++ [e])).
Definition warn (w : Warning) : M unit :=
  modify (with_warnings (fun ws => ws ++ [w])).

(** A raising constructor followed by [c.err]. *)
Definition errO (e : option Error) : M unit := letc e := liftO e in err e.

Fixpoint forM {A} (l : list A) (body : A -> M unit) : M unit :=
  match l with
  | [] => ret tt
  | a :: r => letc _ := body a in forM r body
  end.

Fixpoint foldlM {A B} (body : B -> A -> M B) (l : list A) (b : B) : M B :=
  match l with
  | [] => ret b
  | a :: r => letc b' := body b a in foldlM body r b'
  end.

(** *** The parts of the compiler that are not modelled *)

Inductive builtinOptionsSchema :=
| _OPTS_NOT_BUILTIN
| _OPTS_SCHEMA
| _OPTS_CONST
| _OPTS_ENUM
| _OPTS_ENUM_ITEM
| _OPTS_STRUCT
| _OPTS_STRUCT_FIELD
| _OPTS_MESSAGE
| _OPTS_MESSAGE_FIELD
| _OPTS_UNION
| _OPTS_UNION_FIELD
| _OPTS_PROTOCOL
| _OPTS_PROTOCOL_RPC
| _OPTS_PROTOCOL_EVENT.

Record optionsSchema := {
  os_typeName : list byte;
  os_imported : option Message;
  os_builtin : builtinOptionsSchema
}.

Record optionsCtx := {
  uninterpreted_builders : list UninterpretedOptions__Builder;
  uninterpreted_bySchema : gmap (list byte) nat;
  seen : gmap (list byte) (gmap (list byte) (list byte))
}.

Definition newOptionsCtx : optionsCtx :=
  {| uninterpreted_builders := []; uninterpreted_bySchema := ∅; seen := ∅ |}.

(** The bodies of these methods are taken as given; each of them may panic
    and may change the compiler in any way. *)
Record callees := {
  exportDupes : Type;
  noExportDupes : exportDupes;
  registerImport : Node -> compiler -> option compiler;
  compileExport : exportDupes -> Node -> compiler -> option (exportDupes * compiler);
  resolveOptionsSchema : Node -> compiler -> option (option optionsSchema * compiler);
  compileOption :
    optionsCtx -> optionsSchema -> Node -> compiler ->
    option (option (OptionsBuilder -> OptionsBuilder) * optionsCtx * compiler);
  compileStruct : Node -> compiler -> option (Struct__Builder * compiler);
  compileMessage : Node -> compiler -> option (Message__Builder * compiler);
  compileUnion : Node -> compiler -> option (Union__Builder * compiler);
  compileProtocol : Node -> compiler -> option (Protocol__Builder * compiler)
}.

Context (ext : callees).

Definition call {A} (f : compiler -> option (A * compiler)) : M A :=
  fun c => match f c with Some r => Ok r | None => Panic end.

(** *** Resolving names *)

Definition builtinTypes (name : list byte) : option Type_ :=
  if decide (name = str "bool") then Some Type_BOOL
  else if decide (name = str "u8") then Some Type_U8
  else if decide (name = str "i8") then Some Type_I8
  else if decide (name = str "u16") then Some Type_U16
  else if decide (name = str "i16") then Some Type_I16
  else if decide (name = str "u32") then Some Type_U32
  else if decide (name = str "i32") then Some Type_I32
  else if decide (name = str "u64") then Some Type_U64
  else if decide (name = str "i64") then Some Type_I64
  else if decide (name = str "f32") then Some Type_F32
  else if decide (name = str "f64") then Some Type_F64
  else if decide (name = str "text") then Some Type_TEXT
  else if decide (name = str "asciz") then Some Type_ASCIZ
  else if decide (name = str "handle") then Some Type_HANDLE
  else None.

(** [strings.HasPrefix]. *)
Definition strings_HasPrefix (s prefix : list byte) : bool :=
  bool_decide (take (length prefix) s = prefix).

Definition synthesizeCodegenOptions (forOptionsSchema : bool)
    (namespace : list byte) : bool :=
  if negb forOptionsSchema then false
  else strings_HasPrefix namespace (str "idol/codegen-options/").

Definition isImported (t : typeInfo) : bool :=
  strings_Contains (ti_typeName t) unitSep.

(** [c.imports[i]], updated in place. *)
Definition getImport (i : nat) : M importCtx :=
  letc c := get in liftO (imports c !! i).

Definition updImport (i : nat) (f : importCtx -> importCtx) : M unit :=
  modify (with_imports (fun l => alter f i l)).

Definition dropUnusedAlias (alias : list byte) (ictx : importCtx) : importCtx :=
  {| ic_namespace := ic_namespace ictx; ic_usedNames := ic_usedNames ictx;
     ic_unusedAliases := delete alias (ic_unusedAliases ictx) |}.

Definition addUsedName (name : list byte) (ictx : importCtx) : importCtx :=
  {| ic_namespace := ic_namespace ictx;
     ic_usedNames := {[ name ]} ∪ ic_usedNames ictx;
     ic_unusedAliases := ic_unusedAliases ictx |}.

Definition markUsed (name : list byte) : M unit :=
  modify (with_importedNames
            (alter (fun n => {| in_ictx := in_ictx n; in_node := in_node n;
                                in_used := true |}) name)).

(** [c.opts.deps], a pointer whose methods dereference it. *)
Definition getDeps : M SchemaSet := letc c := get in liftO (deps c).

Definition qualified (namespace name : list byte) : list byte :=
  namespace ++ [unitSep] ++ name.

Definition resolveType (node : option Node) (forOptionsSchema : bool) : M typeInfo :=
  match node with
  | Some (N_TypeName nodeSpan _ scope nameNode) =>
    letc name := liftO (Ident_Get nameNode) in
    letc c := get in
    match scope with
    | Some scope =>
      match importsByAlias c !! id_raw scope with
      | None => fail (errImportAsNotFound (id_raw scope) (Ident_Span scope))
      | Some i =>
        letc _ := updImport i (dropUnusedAlias (id_raw scope)) in
        letc ictx := getImport i in
        if synthesizeCodegenOptions forOptionsSchema (ic_namespace ictx) then
          letc _ := updImport i (addUsedName name) in
          ret {| ti_type_ := Type_MESSAGE;
                 ti_typeName := qualified (ic_namespace ictx) name;
                 ti_imported := any_nil; ti_decl := None |}
        else
          letc s := getDeps in
          letc decl :=
            lift (SchemaSet_resolveType s (ic_namespace ictx) name nodeSpan nodeSpan) in
          letc _ := updImport i (addUsedName name) in
          ret {| ti_type_ := ti_type_ decl;
                 ti_typeName := qualified (ic_namespace ictx) name;
                 ti_imported := ti_imported decl; ti_decl := None |}
      end
    | None =>
      match declsByName c !! name with
      | Some i =>
        letc decl := liftO (decls c !! i) in
        match di_node decl with
        | N_Enum _ _ _ _ _ _ =>
            ret {| ti_type_ := di_enumType decl; ti_typeName := name;
                   ti_imported := any_nil; ti_decl := Some i |}
        | N_Struct _ _ _ _ _ =>
            ret {| ti_type_ := Type_STRUCT; ti_typeName := name;
                   ti_imported := any_nil; ti_decl := Some i |}
        | N_Message _ _ _ _ _ =>
            ret {| ti_type_ := Type_MESSAGE; ti_typeName := name;
                   ti_imported := any_nil; ti_decl := Some i |}
        | N_Union _ _ _ _ _ =>
            ret {| ti_type_ := Type_UNION; ti_typeName := name;
                   ti_imported := any_nil; ti_decl := Some i |}
        | N_Const _ _ _ _ _ _ => fail errResolvedDeclNotType
        | N_Protocol _ _ _ _ _ _ => fail errResolvedDeclNotType
        | _ => panic
        end
      | None =>
        match importedNames c !! name with
        | Some importedName =>
          let i := in_ictx importedName in
          letc ictx := getImport i in
          if synthesizeCodegenOptions forOptionsSchema (ic_namespace ictx) then
            letc _ := markUsed name in
            letc _ := updImport i (addUsedName name) in
            ret {| ti_type_ := Type_MESSAGE;
                   ti_typeName := qualified (ic_namespace ictx) name;
                   ti_imported := any_nil; ti_decl := None |}
          else
            letc s := getDeps in
            letc decl :=
              lift (SchemaSet_resolveType s (ic_namespace ictx) name
                      (Ident_Span (in_node importedName)) nodeSpan) in
            letc _ := markUsed name in
            letc _ := updImport i (addUsedName name) in
            ret {| ti_type_ := ti_type_ decl;
                   ti_typeName := qualified (ic_namespace ictx) name;
                   ti_imported := ti_imported decl; ti_decl := None |}
        | None =>
          match builtinTypes name with
          | Some type_ =>
              ret {| ti_type_ := type_; ti_typeName := [];
                     ti_imported := any_nil; ti_decl := None |}
          | None => fail errTypeNameNotFound
          end
        end
      end
    end
  | _ => panic
  end.

(** The constant that a resolved dependency declares. *)
Definition importedConst (ictx : importCtx) (resolved : Const) : constInfo :=
  let typeName := Const_TypeName resolved in
  {| ci_type_ := Const_Type resolved;
     ci_typeName :=
       if negb (strings_Contains typeName unitSep)
       then qualified (ic_namespace ictx) typeName else typeName;
     ci_value := Const_Value resolved |}.

Definition resolveConst (node : Node) : M constInfo :=
  match node with
  | N_ValueName nodeSpan _ scope nameNode =>
    letc name := liftO (Ident_Get nameNode) in
    letc c := get in
    match scope with
    | Some scope =>
      match importsByAlias c !! id_raw scope with
      | None => fail (errImportAsNotFound (id_raw scope) (Ident_Span scope))
      | Some i =>
        letc _ := updImport i (dropUnusedAlias (id_raw scope)) in
        letc ictx := getImport i in
        letc s := getDeps in
        letc resolved :=
          lift (SchemaSet_resolveConst s (ic_namespace ictx) name nodeSpan nodeSpan) in
        letc _ := updImport i (addUsedName name) in
        ret (importedConst ictx resolved)
      end
    | None =>
      match importedNames c !! name with
      | Some importedName =>
        let i := in_ictx importedName in
        letc ictx := getImport i in
        letc s := getDeps in
        letc resolved :=
          lift (SchemaSet_resolveConst s (ic_namespace ictx) name
                  (Ident_Span (in_node importedName)) nodeSpan) in
        letc _ := markUsed name in
        letc _ := updImport i (addUsedName name) in
        ret (importedConst ictx resolved)
      | None =>
        match declsByName c !! name with
        | Some i =>
          letc decl := liftO (decls c !! i) in
          match di_node decl with
          | N_Enum _ _ _ _ _ _ | N_Struct _ _ _ _ _ | N_Message _ _ _ _ _
          | N_Union _ _ _ _ _ | N_Protocol _ _ _ _ _ _ =>
              fail errResolvedDeclNotConst
          | N_Const _ _ _ _ _ _ =>
            match di_constValue decl with
            | None =>
                fail (errTODO (Lit (str "TODO: resolveConst not compiled yet")))
            | Some value =>
              letc constType := liftO (di_constType decl) in
              ret {| ci_type_ := ti_type_ constType;
                     ci_typeName := ti_typeName constType;
                     ci_value := value |}
            end
          | _ => panic
          end
        | None => fail errValueNameNotFound
        end
      end
    end
  | _ => panic
  end.

(** *** Values *)

(** The type that [resolveType] returns for the name of a builtin type. *)
Definition builtinType (t : Type_) : typeInfo :=
  {| ti_type_ := t; ti_typeName := []; ti_imported := any_nil; ti_decl := None |}.

Definition canCompileValue (t : typeInfo) : bool :=
  match ti_type_ t with
  | Type_BOOL | Type_U8 | Type_I8 | Type_U16 | Type_I16 | Type_U32 | Type_I32
  | Type_U64 | Type_I64 | Type_F32 | Type_F64 | Type_ASCIZ | Type_TEXT => true
  | _ => false
  end.

Definition isEnum (t : typeInfo) : bool :=
  match ti_typeName t with
  | [] => false
  | _ =>
    match ti_type_ t with
    | Type_U8 | Type_I8 | Type_U16 | Type_I16 | Type_U32 | Type_I32
    | Type_U64 | Type_I64 => true
    | _ => false
    end
  end.

Definition errValueTypeMismatch (destination : Node) (valueType : typeInfo)
    (valueNode : option Node) : option Error :=
  dst ←
    match destination with
    | N_Const _ _ name _ _ _ =>
        n ← Ident_Get name; Some (str "constant", n)
    | N_Option _ _ name _ | N_OptionsOption _ _ name _ =>
        n ← Unparse_of name; Some (str "option", n)
    | _ => None
    end;
  value ← Unparse_of valueNode;
  typeName ←
    match ti_typeName valueType with
    | [] => t ← valueTypeName (ti_type_ valueType); Some (Lit t)
    | typeName =>
      let '(namespace, local, ok) := strings_Cut typeName unitSep in
      if ok then Some (Sprintf "%q.%s" [Lit namespace; Lit local])
      else Some (Lit typeName)
    end;
  sp ← Span_of valueNode;
  Some {| code := 3015;
          message := Sprintf "Cannot assign value %s to %s %s (type '%s')"
                       [Lit value; Lit dst.1; Lit dst.2; typeName];
          span := sp |}.

Definition failO {A} (e : option Error) : M A := letc e := liftO e in fail e.

Definition compileNamedValue (dst : Node) (valueType : typeInfo) (name : Node)
  : M (list byte) :=
  letc const_ := resolveConst name in
  let mismatch := failO (errValueTypeMismatch dst valueType (Some name)) in
  let check :=
    if isEnum valueType then
      let '(valueTypeNS, valueTypeName) :=
        let '(ns, localName, ok) := strings_Cut (ti_typeName valueType) unitSep in
        if ok then (ns, localName) else ([], ti_typeName valueType) in
      let '(constTypeNS, constTypeName) :=
        let '(ns, localName, ok) := strings_Cut (ci_typeName const_) unitSep in
        if ok then (ns, localName) else ([], ci_typeName const_) in
      bool_decide (valueTypeNS = constTypeNS)
      && bool_decide (valueTypeName = constTypeName)
    else true in
  if negb check then mismatch
  else if negb (bool_decide (ci_type_ const_ = ti_type_ valueType)) then mismatch
  else
    let v := ci_value const_ in
    let sized (n : nat) : M (list byte) :=
      if negb (length v =? n)%nat then fail errImportedConstantCorrupt else ret v in
    match ci_type_ const_ with
    | Type_BOOL =>
      match v with
      | [b] =>
        if negb (bool_decide (b = x00)) && negb (bool_decide (b = x01))
        then fail errImportedConstantCorrupt else ret v
      | _ => fail errImportedConstantCorrupt
      end
    | Type_U8 | Type_I8 => sized 1%nat
    | Type_U16 | Type_I16 => sized 2%nat
    | Type_U32 | Type_I32 | Type_F32 => sized 4%nat
    | Type_U64 | Type_I64 | Type_F64 => sized 8%nat
    | Type_ASCIZ | Type_TEXT => ret v
    | _ => fail (errTODO (Lit (str "TODO: compileNamedValue err not type??")))
    end.

(** The range test and the encoding of an enum value for a destination of
    each integer type. *)
Definition encodeEnumValue (type_ : Type_) (value : Z) (sp : Span)
  : M (list byte) :=
  let unsigned (max : Z) (n : nat) : M (list byte) :=
    if max <? value then failO (errValueOutOfRange2 type_ value sp)
    else ret (leBytes n value) in
  let signed (min max : Z) (n : nat) : M (list byte) :=
    let value := int64 value in
    if (value <? min) || (max <? value)
    then failO (errValueOutOfRange2 type_ value sp)
    else ret (leBytes n (wrap64 value)) in
  match type_ with
  | Type_U8 => unsigned (2^8 - 1) 1%nat
  | Type_I8 => signed (- 2^7) (2^7 - 1) 1%nat
  | Type_U16 => unsigned (2^16 - 1) 2%nat
  | Type_I16 => signed (- 2^15) (2^15 - 1) 2%nat
  | Type_U32 => unsigned (2^32 - 1) 4%nat
  | Type_I32 => signed (- 2^31) (2^31 - 1) 4%nat
  | Type_U64 => unsigned (2^64 - 1) 8%nat
  | Type_I64 => signed (- 2^63) (2^63 - 1) 8%nat
  | _ => panic
  end.

Definition compileEnumRefValue (dst : Node) (valueType : typeInfo)
    (valueNode : Node) (name : list byte) : M (list byte) :=
  letc enumValues :=
    match ti_imported valueType with
    | any_nil =>
      letc i := liftO (ti_decl valueType) in
      letc c := get in
      letc decl := liftO (decls c !! i) in
      ret (default ∅ (di_enumValues decl))
    | any_Enum e =>
      ret (foldl (fun m item => <[EnumItem_Name item := EnumItem_Value item]> m)
             ∅ (Enum_Items e))
    | _ => panic
    end in
  match enumValues !! name with
  | None => fail errEnumRefNotFound
  | Some value =>
    letc sp := liftO (Node_Span valueNode) in
    encodeEnumValue (ti_type_ valueType) value sp
  end.

(** One of the ten cases of [compileValue] for an integer literal: [get] is
    the getter of the literal and [enc] the stores of the result. *)
Definition compileIntLit (dst : Node) (valueType : typeInfo)
    (valueNode : option Node) (get : IntLit -> option (Z * bool))
    (enc : Z -> list byte) : M (list byte) :=
  match valueNode with
  | Some (N_IntLit intLit) =>
    letc r := liftO (get intLit) in
    if r.2 then ret (enc r.1)
    else failO (errValueOutOfRange (ti_type_ valueType) intLit)
  | _ => failO (errValueTypeMismatch dst valueType valueNode)
  end.

(** The two floating-point cases. *)
Definition compileFloatLit (dst : Node) (valueType : typeInfo)
    (valueNode : option Node) (maxFloat : Z) (enc : Z -> list byte)
  : M (list byte) :=
  match valueNode with
  | Some (N_IntLit intLit) =>
    letc r := liftO (IntLit_GetInt64 intLit) in
    if r.2 then
      let i64 := r.1 in
      if (maxFloat <? i64) || (i64 <? - maxFloat)
      then failO (errValueOutOfRange (ti_type_ valueType) intLit)
      else ret (enc i64)
    else
      letc u := liftO (IntLit_GetUint64 intLit) in
      let u64 := u.1 in
      if maxFloat <? u64
      then failO (errValueOutOfRange (ti_type_ valueType) intLit)
      else ret (enc u64)
  | _ => failO (errValueTypeMismatch dst valueType valueNode)
  end.

Definition compileValue (dst : Node) (valueType : typeInfo)
    (valueNode : option Node) : M (list byte) :=
  let mismatch := failO (errValueTypeMismatch dst valueType valueNode) in
  match valueNode with
  | Some (N_ValueName _ _ _ _ as name) => compileNamedValue dst valueType name
  | _ =>
    if isEnum valueType then
      match valueNode with
      | Some (N_EnumRef _ _ name as enumRef) =>
        letc n := liftO (Ident_Get name) in
        compileEnumRefValue dst valueType enumRef n
      | _ => mismatch
      end
    else
      match ti_type_ valueType with
      | Type_BOOL =>
        match valueNode with
        | Some (N_EnumRef sp _ name) =>
          letc n := liftO (Ident_Get name) in
          if decide (n = str "true") then ret [x01]
          else if decide (n = str "false") then ret [x00]
          else fail (errInvalidBoolValue sp)
        | _ => mismatch
        end
      | Type_U8 =>
          compileIntLit dst valueType valueNode IntLit_GetUint8
            (fun v => [to_u8 v])
      | Type_I8 =>
          compileIntLit dst valueType valueNode IntLit_GetInt8
            (fun v => [to_u8 v])
      | Type_U16 =>
          compileIntLit dst valueType valueNode IntLit_GetUint16 (leBytes 2)
      | Type_I16 =>
          compileIntLit dst valueType valueNode IntLit_GetInt16
            (fun v => leBytes 2 (wrap16 v))
      | Type_U32 =>
          compileIntLit dst valueType valueNode IntLit_GetUint32 (leBytes 4)
      | Type_I32 =>
          compileIntLit dst valueType valueNode IntLit_GetInt32
            (fun v => leBytes 4 (wrap32 v))
      | Type_U64 =>
          compileIntLit dst valueType valueNode IntLit_GetUint64 (leBytes 8)
      | Type_I64 =>
          compileIntLit dst valueType valueNode IntLit_GetInt64
            (fun v => leBytes 8 (wrap64 v))
      | Type_F32 =>
          compileFloatLit dst valueType valueNode maxFloat32
            (fun v => leBytes 4 (Float32bits v))
      | Type_F64 =>
          compileFloatLit dst valueType valueNode maxFloat64
            (fun v => leBytes 8 (Float64bits v))
      | Type_ASCIZ =>
        match valueNode with
        | Some (N_TextLit textLit) =>
          let '(v, ok) := TextLit_GetAsciz textLit in
          if ok then ret (v ++ [x00]) else fail (errInvalidAscizValue textLit)
        | _ => mismatch
        end
      | Type_TEXT =>
        match valueNode with
        | Some (N_TextLit textLit) =>
          let '(v, ok) := TextLit_GetText textLit in
          if ok then ret v else fail (errInvalidTextValue textLit)
        | _ => mismatch
        end
      | _ => panic
      end
  end.

(** *** Options and decorators *)

(** The body of the loops over decorators and options blocks: one option
    of one schema. *)
Definition compileOneOption (st : option OptionsBuilder * optionsCtx)
    (schema : optionsSchema) (opt : Node)
  : M (option OptionsBuilder * optionsCtx) :=
  let '(builder, ctx) := st in
  letc r := call (fun c =>
              match compileOption ext ctx schema opt c with
              | Some (u, ctx', c') => Some ((u, ctx'), c')
              | None => None
              end) in
  let '(updateFn, ctx') := r in
  match updateFn with
  | Some f => ret (Some (f (default zeroOptions builder)), ctx')
  | None => ret (builder, ctx')
  end.

(** An options block [@options(...)] or the top-level [options] node. *)
Definition compileOptionsBlock (builtinSchema : builtinOptionsSchema)
    (st : option OptionsBuilder * optionsCtx) (options : Node)
  : M (option OptionsBuilder * optionsCtx) :=
  match options with
  | N_Options _ _ schemaNode opts =>
    letc schema :=
      match schemaNode with
      | Some schemaNode => call (resolveOptionsSchema ext schemaNode)
      | None => ret (Some {| os_typeName := []; os_imported := None;
                             os_builtin := builtinSchema |})
      end in
    match schema with
    | None => ret st
    | Some schema =>
      foldlM (fun st opt =>
                match opt with
                | Some opt => compileOneOption st schema opt
                | None => panic
                end) opts st
    end
  | _ => panic
  end.

Definition compileDecorators (builtinSchema : builtinOptionsSchema)
    (decorators : list Node) : M (option OptionsBuilder * optionsCtx) :=
  foldlM
    (fun st decorator =>
       match decorator with
       | N_Decorator _ _ value =>
         match value with
         | Some (N_Options _ _ _ _ as options) =>
             compileOptionsBlock builtinSchema st options
         | Some (N_Option _ _ _ _ as opt) =>
             compileOneOption st
               {| os_typeName := []; os_imported := None;
                  os_builtin := builtinSchema |} opt
         | _ => ret st
         end
       | _ => panic
       end)
    decorators (None, newOptionsCtx).

(** The tail shared by [compileSchemaOptions], [compileConstOptions],
    [compileEnumOptions] and [compileEnumItemOptions]. *)
Definition addUninterpreted (st : option OptionsBuilder * optionsCtx)
  : option OptionsBuilder :=
  let '(b, ctx) := st in
  match uninterpreted_builders ctx with
  | [] => b
  | ubs => Some (foldl Uninterpreted_Add (default zeroOptions b) ubs)
  end.

Definition compileSchemaOptions : M (option OptionsBuilder) :=
  letc c := get in
  letc st := foldlM (compileOptionsBlock _OPTS_SCHEMA) (sn_options (nodes c))
               (None, newOptionsCtx) in
  ret (addUninterpreted st).

Definition compileConstOptions (decorators : list Node) : M (option OptionsBuilder) :=
  letc st := compileDecorators _OPTS_CONST decorators in ret (addUninterpreted st).

Definition compileEnumOptions (decorators : list Node) : M (option OptionsBuilder) :=
  letc st := compileDecorators _OPTS_ENUM decorators in ret (addUninterpreted st).

Definition compileEnumItemOptions (decorators : list Node)
  : M (option OptionsBuilder) :=
  letc st := compileDecorators _OPTS_ENUM_ITEM decorators in
  ret (addUninterpreted st).

(** *** Declarations *)

Definition updDecl (i : nat) (f : declInfo -> declInfo) : M unit :=
  modify (with_decls (fun l => alter f i l)).

(** [registerDecl]; the result is the index of the new declaration. *)
Definition registerDecl (node : Node) : M nat :=
  letc nameNode := liftO (declNode_Name node) in
  letc name := liftO (Ident_Get nameNode) in
  letc c := get in
  let i := length (decls c) in
  letc _ :=
    match declsByName c !! name with
    | Some prev =>
      letc prevDecl := liftO (decls c !! prev) in
      errO (errDeclNameConflict node (di_node prevDecl))
    | None => modify (with_declsByName <[name := i]>)
    end in
  letc _ :=
    match importedNames c !! name with
    | Some importedName =>
      letc ictx := getImport (in_ictx importedName) in
      errO (errDeclNameConflictsWithImport node (ic_namespace ictx))
    | None => ret tt
    end in
  letc _ :=
    match importsByAlias c !! name with
    | Some j =>
      letc ictx := getImport j in
      errO (errDeclNameConflictsWithImportAs node (ic_namespace ictx))
    | None => ret tt
    end in
  letc _ :=
    match builtinTypes name with
    | Some _ =>
      letc sp := liftO (Ident_Span_of nameNode) in
      warn (warnDeclShadowsBuiltin name sp)
    | None => ret tt
    end in
  letc _ :=
    modify (with_decls (fun l =>
      l ++ [{| di_node := node; di_enumType := Type_UNKNOWN;
               di_constType := None; di_constValue := None;
               di_enumValues := None |}])) in
  ret i.

Definition setEnumType (t : Type_) (d : declInfo) : declInfo :=
  {| di_node := di_node d; di_enumType := t; di_constType := di_constType d;
     di_constValue := di_constValue d; di_enumValues := di_enumValues d |}.

Definition setConstType (t : typeInfo) (d : declInfo) : declInfo :=
  {| di_node := di_node d; di_enumType := di_enumType d; di_constType := Some t;
     di_constValue := di_constValue d; di_enumValues := di_enumValues d |}.

Definition setConstValue (v : list byte) (d : declInfo) : declInfo :=
  {| di_node := di_node d; di_enumType := di_enumType d;
     di_constType := di_constType d; di_constValue := Some v;
     di_enumValues := di_enumValues d |}.

Definition setEnumValues (m : gmap (list byte) Z) (d : declInfo) : declInfo :=
  {| di_node := di_node d; di_enumType := di_enumType d;
     di_constType := di_constType d; di_constValue := di_constValue d;
     di_enumValues := Some m |}.

Definition enumBaseType (name : list byte) : option Type_ :=
  if decide (name = str "u8") then Some Type_U8
  else if decide (name = str "i8") then Some Type_I8
  else if decide (name = str "u16") then Some Type_U16
  else if decide (name = str "i16") then Some Type_I16
  else if decide (name = str "u32") then Some Type_U32
  else if decide (name = str "i32") then Some Type_I32
  else if decide (name = str "u64") then Some Type_U64
  else if decide (name = str "i64") then Some Type_I64
  else None.

Definition registerEnumType (node : Node) (declInfo : nat) : M unit :=
  match node with
  | N_Enum _ _ _ type_ _ _ =>
    letc t := liftO (Ident_Get type_) in
    match enumBaseType t with
    | Some t => updDecl declInfo (setEnumType t)
    | None => errO (errEnumTypeInvalid type_)
    end
  | _ => panic
  end.

Definition registerConstType (node : Node) (declInfo : nat) : M unit :=
  match node with
  | N_Const _ _ _ typeName _ _ =>
    letc r := catch (resolveType typeName false) in
    match r with
    | inl e => err e
    | inr typeInfo => updDecl declInfo (setConstType typeInfo)
    end
  | _ => panic
  end.

Definition registerDecls : M unit :=
  letc _ := modify (with_declsByName (fun _ => ∅)) in
  letc c := get in
  letc _ := forM (sn_enums (nodes c)) (fun node =>
              letc declInfo := registerDecl node in
              registerEnumType node declInfo) in
  letc _ := forM (sn_structs (nodes c)) (fun node =>
              letc _ := registerDecl node in ret tt) in
  letc _ := forM (sn_messages (nodes c)) (fun node =>
              letc _ := registerDecl node in ret tt) in
  letc _ := forM (sn_unions (nodes c)) (fun node =>
              letc _ := registerDecl node in ret tt) in
  letc _ := forM (sn_protocols (nodes c)) (fun node =>
              letc _ := registerDecl node in ret tt) in
  forM (sn_consts (nodes c)) (fun node =>
    letc declInfo := registerDecl node in
    registerConstType node declInfo).

(** [compileConst]; the result is nil or the builder. *)
Definition compileConst (declInfo : nat) (node : Node) (compilingEnumConsts : bool)
  : M (option Const__Builder) :=
  match node with
  | N_Const _ _ nameNode typeNameNode value decorators =>
    letc name := liftO (Ident_Get nameNode) in
    letc opts := compileConstOptions decorators in
    letc c := get in
    letc decl := liftO (decls c !! declInfo) in
    let b t tn v :=
      {| cb_Name := name; cb_Options := opts; cb_Type := t; cb_TypeName := tn;
         cb_Value := v |} in
    match di_constType decl with
    | None =>
      if compilingEnumConsts then ret None
      else ret (Some (b Type_UNKNOWN [] []))
    | Some typeInfo =>
      if negb (eqb compilingEnumConsts (isEnum typeInfo)) then ret None
      else if negb (canCompileValue typeInfo) then
        letc _ := errO (errConstTypeInvalid typeNameNode) in
        ret (Some (b (ti_type_ typeInfo) (ti_typeName typeInfo) []))
      else
        letc r := catch (compileValue node typeInfo value) in
        match r with
        | inr v =>
          letc _ := updDecl declInfo (setConstValue v) in
          ret (Some (b (ti_type_ typeInfo) (ti_typeName typeInfo) v))
        | inl e =>
          letc _ := err e in
          ret (Some (b (ti_type_ typeInfo) (ti_typeName typeInfo) []))
        end
    end
  | _ => panic
  end.

(** [resolveEnumItemValue]. *)
Definition resolveEnumItemValue (name : Node) (enumType : Type_) : M Z :=
  letc const_ := resolveConst name in
  match ci_typeName const_ with
  | _ :: _ =>
    fail (errTODO (Sprintf
      "TODO: resolveEnumItemValue const must be plain builtin value (not '%s')"
      [Lit (ci_typeName const_)]))
  | [] =>
    let v := ci_value const_ in
    let badLen := fail (errTODO (Lit (str "TODO invalid const value length"))) in
    letc sv :=
      match ci_type_ const_ with
      | Type_I8 => if negb (length v =? 1)%nat then badLen else ret (true, leUint v)
      | Type_U8 => if negb (length v =? 1)%nat then badLen else ret (false, leUint v)
      | Type_I16 => if negb (length v =? 2)%nat then badLen else ret (true, leUint16 v)
      | Type_U16 => if negb (length v =? 2)%nat then badLen else ret (false, leUint16 v)
      | Type_I32 => if negb (length v =? 4)%nat then badLen else ret (true, leUint32 v)
      | Type_U32 => if negb (length v =? 4)%nat then badLen else ret (false, leUint32 v)
      | Type_I64 => if negb (length v =? 8)%nat then badLen else ret (true, leUint64 v)
      | Type_U64 => if negb (length v =? 8)%nat then badLen else ret (false, leUint64 v)
      | _ =>
        fail (errTODO (Lit (str
          "TODO: resolveEnumItemValue const can't be assigned to enum value")))
      end in
    let '(signed, value) := sv in
    letc sp := liftO (Node_Span name) in
    let unsignedDst (max : Z) : M Z :=
      if signed && (int64 value <? 0)
      then failO (errValueOutOfRange2 enumType (int64 value) sp)
      else if max <? value then failO (errValueOutOfRange2 enumType value sp)
      else ret value in
    let signedDst (min max : Z) : M Z :=
      if (int64 value <? min) || (max <? int64 value)
      then failO (errValueOutOfRange2 enumType (int64 value) sp)
      else ret value in
    match enumType with
    | Type_U8 => unsignedDst (2^8 - 1)
    | Type_I8 => signedDst (- 2^7) (2^7 - 1)
    | Type_U16 => unsignedDst (2^16 - 1)
    | Type_I16 => signedDst (- 2^15) (2^15 - 1)
    | Type_U32 => unsignedDst (2^32 - 1)
    | Type_I32 => signedDst (- 2^31) (2^31 - 1)
    | Type_U64 => unsignedDst (2^64 - 1)
    | Type_I64 => signedDst (- 2^63) (2^63 - 1)
    | _ => panic
    end
  end.

(** *** Enums *)

Record pendingAlias := {
  pa_name : list byte;
  pa_targetName : list byte;
  pa_idx : nat
}.

(** The local variables of [compileEnum]. *)
Record enumState := {
  valuesByName : gmap (list byte) Z;
  aliases : gmap (list byte) (list byte);
  names : gset (list byte);
  namesByValue : gmap Z (list byte);
  pendingAliases : list pendingAlias;
  items : list EnumItem__Builder
}.

(** The value of an integer literal item: the pair [(value, ok)] at the end
    of the switch over the type of the enum. *)
Definition enumIntLitValue (enumType : Type_) (valueNode : IntLit)
  : option (Z * bool) :=
  let conv (r : option (Z * bool)) (cast : Z -> Z) : option (Z * bool) :=
    match r with
    | None => None
    | Some (v, true) => Some (cast v, true)
    | Some (_, false) => Some (0, false)
    end in
  match enumType with
  | Type_U8 => conv (IntLit_GetUint8 valueNode) id
  | Type_U16 => conv (IntLit_GetUint16 valueNode) id
  | Type_U32 => conv (IntLit_GetUint32 valueNode) id
  | Type_U64 => IntLit_GetUint64 valueNode
  | Type_I8 => conv (IntLit_GetInt8 valueNode) (fun v => v mod 2^8)
  | Type_I16 => conv (IntLit_GetInt16 valueNode) wrap16
  | Type_I32 => conv (IntLit_GetInt32 valueNode) wrap32
  | Type_I64 => conv (IntLit_GetInt64 valueNode) wrap64
  | _ => Some (0, false)
  end.

(** The statements shared by the literal and the named constant items once
    the value is known. *)
Definition recordEnumValue (enumType : Type_) (itemName : list byte)
    (valueNode : option Node) (value : Z) (st : enumState) : M enumState :=
  letc _ :=
    match namesByValue st !! value with
    | Some prevName =>
        errO (errEnumItemValueConflict enumType value itemName prevName valueNode)
    | None => ret tt
    end in
  ret {| valuesByName := <[itemName := value]> (valuesByName st);
         aliases := aliases st; names := names st;
         namesByValue := <[value := itemName]> (namesByValue st);
         pendingAliases := pendingAliases st; items := items st |}.

Definition compileEnumItem (enumType : Type_) (st : enumState) (item : option Node)
  : M enumState :=
  match item with
  | Some (N_EnumItem _ _ nameNode valueNode decorators) =>
    letc itemName := liftO (Ident_Get nameNode) in
    letc name := liftO nameNode in
    letc opts := compileEnumItemOptions decorators in
    letc _ :=
      if bool_decide (itemName ∈ names st) then
        let '(prevValue, prevAlias) :=
          match valuesByName st !! itemName with
          | Some prev => (Some prev, [])
          | None =>
            match aliases st !! itemName with
            | Some prev => (None, prev)
            | None => (None, [])
            end
          end in
        errO (errEnumItemNameConflict enumType prevValue prevAlias name)
      else ret tt in
    let st :=
      {| valuesByName := valuesByName st; aliases := aliases st;
         names := {[ itemName ]} ∪ names st; namesByValue := namesByValue st;
         pendingAliases := pendingAliases st; items := items st |} in
    letc r :=
      match valueNode with
      | Some (N_IntLit lit) =>
        letc vo := liftO (enumIntLitValue enumType lit) in
        let '(value, ok) := vo in
        if ok then
          letc st := recordEnumValue enumType itemName valueNode value st in
          ret (st, value, false)
        else
          letc _ := errO (errValueOutOfRange enumType lit) in
          ret (st, value, false)
      | Some (N_EnumRef _ _ targetNode) =>
        letc targetName := liftO (Ident_Get targetNode) in
        let '(value, pending) :=
          match valuesByName st !! targetName with
          | Some targetValue => (targetValue, pendingAliases st)
          | None =>
            (0, pendingAliases st ++
                  [{| pa_name := itemName; pa_targetName := targetName;
                      pa_idx := length (items st) |}])
          end in
        ret ({| valuesByName := valuesByName st;
                aliases := <[itemName := targetName]> (aliases st);
                names := names st; namesByValue := namesByValue st;
                pendingAliases := pending; items := items st |},
             value, true)
      | Some (N_ValueName _ _ _ _ as valueName) =>
        letc r := catch (resolveEnumItemValue valueName enumType) in
        match r with
        | inr value =>
          letc st := recordEnumValue enumType itemName valueNode value st in
          ret (st, value, false)
        | inl e => letc _ := err e in ret (st, 0, false)
        end
      | _ => letc _ := err errEnumValueNotOk in ret (st, 0, false)
      end in
    let '(st, value, isAlias) := r in
    ret {| valuesByName := valuesByName st; aliases := aliases st;
           names := names st; namesByValue := namesByValue st;
           pendingAliases := pendingAliases st;
           items := items st ++
                    [{| eib_Name := itemName; eib_Options := opts;
                        eib_Value := value; eib_IsAlias := isAlias |}] |}
  | _ => panic
  end.

Definition setItemValue (v : Z) (b : EnumItem__Builder) : EnumItem__Builder :=
  {| eib_Name := eib_Name b; eib_Options := eib_Options b; eib_Value := v;
     eib_IsAlias := eib_IsAlias b |}.

(** The second pass, over the aliases whose target had no value yet. *)
Definition resolvePendingAlias (valuesByName : gmap (list byte) Z)
    (items : list EnumItem__Builder) (alias : pendingAlias)
  : M (list EnumItem__Builder) :=
  match valuesByName !! pa_targetName alias with
  | Some targetValue =>
    match items !! pa_idx alias with
    | Some _ => ret (alter (setItemValue targetValue) (pa_idx alias) items)
    | None => panic
    end
  | None => letc _ := err errEnumAliasTargetNotFound in ret items
  end.

Definition compileEnum (declInfo : nat) (node : Node) : M Enum__Builder :=
  match node with
  | N_Enum _ _ nameNode _ itemNodes decorators =>
    letc enumOpts := compileEnumOptions decorators in
    letc c := get in
    letc decl := liftO (decls c !! declInfo) in
    let enumType := di_enumType decl in
    letc st :=
      foldlM (compileEnumItem enumType) itemNodes
        {| valuesByName := ∅; aliases := ∅; names := ∅; namesByValue := ∅;
           pendingAliases := []; items := [] |} in
    letc items :=
      foldlM (resolvePendingAlias (valuesByName st)) (pendingAliases st)
        (items st) in
    letc _ := updDecl declInfo (setEnumValues (valuesByName st)) in
    letc name := liftO (Ident_Get nameNode) in
    ret {| eb_Name := name; eb_Type := enumType; eb_Options := enumOpts;
           eb_Items := items |}
  | _ => panic
  end.

(** *** The passes of a compilation *)

Definition checkNamespace (node : option TextLit) : option (list byte * option Error) :=
  node ← node;
  let '(namespace, ok) := TextLit_GetText node in
  let invalid :=
    (namespace, Some (errInvalidNamespace namespace (TextLit_Span node))) in
  if negb ok || bool_decide (namespace = []) then Some invalid
  else if forallb
            (fun b => let c := u8 b in
                      ((0x20 <=? c) && (c <=? 0x7E)) || (0x80 <=? c) || (c =? 0x09))
            namespace
       then Some (namespace, None)
       else Some invalid.

Definition registerImports : M unit :=
  letc _ := modify (with_importedNames (fun _ => ∅)) in
  letc _ := modify (with_importMaps ∅ ∅) in
  letc c := get in
  forM (sn_imports (nodes c)) (fun node =>
    call (fun c => match registerImport ext node c with
                   | Some c' => Some (tt, c')
                   | None => None
                   end)).

Definition compileExports : M unit :=
  letc c := get in
  letc _ := foldlM (fun dupes node => call (compileExport ext dupes node))
              (sn_exports (nodes c)) (noExportDupes ext) in
  ret tt.

Definition addConst (b : Const__Builder) (s : Schema__Builder) : Schema__Builder :=
  {| sb_Namespace := sb_Namespace s; sb_SourcePath := sb_SourcePath s;
     sb_Options := sb_Options s; sb_Imports := sb_Imports s;
     sb_Exports := sb_Exports s; sb_Consts := sb_Consts s ++ [b];
     sb_Enums := sb_Enums s; sb_Structs := sb_Structs s;
     sb_Messages := sb_Messages s; sb_Unions := sb_Unions s;
     sb_Protocols := sb_Protocols s |}.

Definition addEnum (b : Enum__Builder) (s : Schema__Builder) : Schema__Builder :=
  {| sb_Namespace := sb_Namespace s; sb_SourcePath := sb_SourcePath s;
     sb_Options := sb_Options s; sb_Imports := sb_Imports s;
     sb_Exports := sb_Exports s; sb_Consts := sb_Consts s;
     sb_Enums := sb_Enums s ++ [b]; sb_Structs := sb_Structs s;
     sb_Messages := sb_Messages s; sb_Unions := sb_Unions s;
     sb_Protocols := sb_Protocols s |}.

Definition addStruct (b : Struct__Builder) (s : Schema__Builder) : Schema__Builder :=
  {| sb_Namespace := sb_Namespace s; sb_SourcePath := sb_SourcePath s;
     sb_Options := sb_Options s; sb_Imports := sb_Imports s;
     sb_Exports := sb_Exports s; sb_Consts := sb_Consts s;
     sb_Enums := sb_Enums s; sb_Structs := sb_Structs s ++ [b];
     sb_Messages := sb_Messages s; sb_Unions := sb_Unions s;
     sb_Protocols := sb_Protocols s |}.

Definition addMessage (b : Message__Builder) (s : Schema__Builder) : Schema__Builder :=
  {| sb_Namespace := sb_Namespace s; sb_SourcePath := sb_SourcePath s;
     sb_Options := sb_Options s; sb_Imports := sb_Imports s;
     sb_Exports := sb_Exports s; sb_Consts := sb_Consts s;
     sb_Enums := sb_Enums s; sb_Structs := sb_Structs s;
     sb_Messages := sb_Messages s ++ [b]; sb_Unions := sb_Unions s;
     sb_Protocols := sb_Protocols s |}.

Definition addUnion (b : Union__Builder) (s : Schema__Builder) : Schema__Builder :=
  {| sb_Namespace := sb_Namespace s; sb_SourcePath := sb_SourcePath s;
     sb_Options := sb_Options s; sb_Imports := sb_Imports s;
     sb_Exports := sb_Exports s; sb_Consts := sb_Consts s;
     sb_Enums := sb_Enums s; sb_Structs := sb_Structs s;
     sb_Messages := sb_Messages s; sb_Unions := sb_Unions s ++ [b];
     sb_Protocols := sb_Protocols s |}.

Definition addProtocol (b : Protocol__Builder) (s : Schema__Builder)
  : Schema__Builder :=
  {| sb_Namespace := sb_Namespace s; sb_SourcePath := sb_SourcePath s;
     sb_Options := sb_Options s; sb_Imports := sb_Imports s;
     sb_Exports := sb_Exports s; sb_Consts := sb_Consts s;
     sb_Enums := sb_Enums s; sb_Structs := sb_Structs s;
     sb_Messages := sb_Messages s; sb_Unions := sb_Unions s;
     sb_Protocols := sb_Protocols s ++ [b] |}.

Definition addImport (b : Import__Builder) (s : Schema__Builder) : Schema__Builder :=
  {| sb_Namespace := sb_Namespace s; sb_SourcePath := sb_SourcePath s;
     sb_Options := sb_Options s; sb_Imports := sb_Imports s ++ [b];
     sb_Exports := sb_Exports s; sb_Consts := sb_Consts s;
     sb_Enums := sb_Enums s; sb_Structs := sb_Structs s;
     sb_Messages := sb_Messages s; sb_Unions := sb_Unions s;
     sb_Protocols := sb_Protocols s |}.

Definition setNamespace (ns : list byte) (s : Schema__Builder) : Schema__Builder :=
  {| sb_Namespace := ns; sb_SourcePath := sb_SourcePath s;
     sb_Options := sb_Options s; sb_Imports := sb_Imports s;
     sb_Exports := sb_Exports s; sb_Consts := sb_Consts s;
     sb_Enums := sb_Enums s; sb_Structs := sb_Structs s;
     sb_Messages := sb_Messages s; sb_Unions := sb_Unions s;
     sb_Protocols := sb_Protocols s |}.

Definition setSourcePath (p : list (list byte)) (s : Schema__Builder)
  : Schema__Builder :=
  {| sb_Namespace := sb_Namespace s; sb_SourcePath := p;
     sb_Options := sb_Options s; sb_Imports := sb_Imports s;
     sb_Exports := sb_Exports s; sb_Consts := sb_Consts s;
     sb_Enums := sb_Enums s; sb_Structs := sb_Structs s;
     sb_Messages := sb_Messages s; sb_Unions := sb_Unions s;
     sb_Protocols := sb_Protocols s |}.

Definition setOptions (o : OptionsBuilder) (s : Schema__Builder) : Schema__Builder :=
  {| sb_Namespace := sb_Namespace s; sb_SourcePath := sb_SourcePath s;
     sb_Options := Some o; sb_Imports := sb_Imports s;
     sb_Exports := sb_Exports s; sb_Consts := sb_Consts s;
     sb_Enums := sb_Enums s; sb_Structs := sb_Structs s;
     sb_Messages := sb_Messages s; sb_Unions := sb_Unions s;
     sb_Protocols := sb_Protocols s |}.

(** One of the loops [for _, decl := range c.decls] of [compileDecls]; the
    slice is not appended to while they run. *)
Definition forDecls (body : nat -> declInfo -> M unit) : M unit :=
  letc c := get in
  forM (seq 0 (length (decls c))) (fun i =>
    letc c := get in
    letc decl := liftO (decls c !! i) in
    body i decl).

Definition compileDecls : M unit :=
  letc _ := forDecls (fun i decl =>
    match di_node decl with
    | N_Const _ _ _ _ _ _ =>
      letc b := compileConst i (di_node decl) false in
      match b with
      | Some b => modify (with_schema (addConst b))
      | None => ret tt
      end
    | _ => ret tt
    end) in
  letc _ := forDecls (fun i decl =>
    match di_node decl with
    | N_Enum _ _ _ _ _ _ =>
      letc b := compileEnum i (di_node decl) in
      modify (with_schema (addEnum b))
    | _ => ret tt
    end) in
  letc _ := forDecls (fun i decl =>
    match di_node decl with
    | N_Const _ _ _ _ _ _ =>
      letc b := compileConst i (di_node decl) true in
      match b with
      | Some b => modify (with_schema (addConst b))
      | None => ret tt
      end
    | _ => ret tt
    end) in
  forDecls (fun i decl =>
    match di_node decl with
    | N_Struct _ _ _ _ _ =>
      letc b := call (compileStruct ext (di_node decl)) in
      modify (with_schema (addStruct b))
    | N_Message _ _ _ _ _ =>
      letc b := call (compileMessage ext (di_node decl)) in
      modify (with_schema (addMessage b))
    | N_Union _ _ _ _ _ =>
      letc b := call (compileUnion ext (di_node decl)) in
      modify (with_schema (addUnion b))
    | N_Protocol _ _ _ _ _ _ =>
      letc b := call (compileProtocol ext (di_node decl)) in
      modify (with_schema (addProtocol b))
    | _ => ret tt
    end).

(** [compileImports].  The first loop ranges over a Go map, whose order is
    not specified; the model takes the order of [map_to_list]. *)
Definition compileImports : M unit :=
  letc c := get in
  letc _ := forM (map_to_list (importedNames c)) (fun kv =>
    let name := kv.2 in
    if negb (in_used name) then
      letc ictx := getImport (in_ictx name) in
      warn (warnUnusedImport (ic_namespace ictx) (id_raw (in_node name))
              (Ident_Span (in_node name)))
    else ret tt) in
  letc c := get in
  letc used := foldlM (fun used ictx =>
    letc _ := forM (slices_Sorted (map fst (map_to_list (ic_unusedAliases ictx))))
      (fun alias =>
         letc importNode := liftO (ic_unusedAliases ictx !! alias) in
         letc sp := liftO (Node_Span importNode) in
         warn (warnUnusedImportAs (ic_namespace ictx) alias sp)) in
    if negb (bool_decide (ic_usedNames ictx = ∅)) then ret (used ++ [ictx])
    else ret used) (imports c) [] in
  let sorted :=
    merge_sort (fun a b => str_le (ic_namespace a) (ic_namespace b)) used in
  forM sorted (fun ictx =>
    modify (with_schema (addImport
      {| ib_Namespace := ic_namespace ictx;
         ib_Names := slices_Sorted (elements (ic_usedNames ictx)) |}))).

Definition compileSchema : M unit :=
  letc c := get in
  letc nsNode :=
    liftO (match sn_namespace (nodes c) with
           | Some (N_Namespace _ _ namespace) => Some namespace
           | _ => None
           end) in
  letc r := liftO (checkNamespace nsNode) in
  let '(namespace, e) := r in
  letc _ := match e with Some e => err e | None => ret tt end in
  letc _ := modify (with_schema (setNamespace namespace)) in
  letc _ := registerImports in
  letc _ := registerDecls in
  letc _ := compileExports in
  letc opts := compileSchemaOptions in
  letc _ := match opts with
            | Some opts => modify (with_schema (setOptions opts))
            | None => ret tt
            end in
  letc _ := compileDecls in
  compileImports.

Record CompileOptions := {
  opts_deps : option SchemaSet;
  opts_sourcePath : list (list byte)
}.

(** The nil slices of [Errors] and of [Warnings] are the empty lists. *)
Record CompileResult := {
  cr_schema : option Schema__Builder;
  Errors : list Error;
  Warnings : list Warning
}.

(** [CompileOptions.Compile]; [None] is a panic. *)
Definition newCompiler (opts : CompileOptions) (nodes : schemaNodes) : compiler :=
  {| deps := opts_deps opts; nodes := nodes;
     schema :=
       match opts_sourcePath opts with
       | [] => emptySchema
       | p => setSourcePath p emptySchema
       end;
     errors := []; warnings := []; imports := []; importedNames := ∅;
     importsByNamespace := ∅; importsByAlias := ∅; decls := [];
     declsByName := ∅ |}.

Definition Compile (opts : CompileOptions) (parsedSchema : Node)
  : option CompileResult :=
  nodes ← newSchemaNodes parsedSchema;
  match compileSchema (newCompiler opts nodes) with
  | Ok (_, c) =>
    match errors c with
    | _ :: _ =>
        Some {| cr_schema := None; Errors := errors c; Warnings := warnings c |}
    | [] =>
        Some {| cr_schema := Some (schema c); Errors := [];
                Warnings := warnings c |}
    end
  | _ => None
  end.

End compile.

End compiler.

(** ** Concrete buffers and builders used by the examples *)

Module examples.
Import wire.

(** A 16-byte message whose only thunk is indirect with length 1, but whose
    data region is empty. *)
Definition truncated : list byte :=
  bytes [16; 0; 0; 0;  0; 0;  1; 0;
         0; 0;  0x00; 0xC0;  1; 0; 0; 0].

(** A 16-byte message whose only thunk is a well-formed handle: handle count
    1, present scalar, inline value [0xFFFFFFFF]. *)
Definition oneHandle : list byte :=
  bytes [16; 0; 0; 0;  0; 0;  1; 0;
         1; 0;  0x00; 0x80;  0xFF; 0xFF; 0xFF; 0xFF].

Definition Hello : list byte := bytes [72; 101; 108; 108; 111].
Definition CommaSpace : list byte := bytes [44; 32].
Definition World : list byte := bytes [119; 111; 114; 108; 100; 33].

(** Field 1 = u32 [0x04030201], field 2 = [f2], field 3 = text "Hello". *)
Definition helloFields (f2 : idol.FieldBuilder) : list idol.FieldBuilder :=
  [ idol.Uint32Field {| idol.u32_value := 0x04030201 |};
    f2;
    idol.TextField {| idol.text_value := Hello |} ].

Definition helloWire : list byte :=
  bytes [40; 0; 0; 0;   0; 0;   3; 0;
         0; 0;   0x00; 0x80;   0x01; 0x02; 0x03; 0x04;
         0; 0;   0; 0;   0; 0; 0; 0;
         0; 0;   0x00; 0xC0;   6; 0; 0; 0;
         72; 101; 108; 108; 111; 0; 0; 0].

(** The text array ["Hello", "", ", ", "world!"]. *)
Definition greeting : idol.TextArrayFieldBuilder :=
  idol.TextArray_Set [Hello; []; CommaSpace; World].

Definition greetingWire : list byte :=
  bytes [4; 0; 0; 0;
         6; 0; 0; 0;   1; 0; 0; 0;   3; 0; 0; 0;   7; 0; 0; 0;
         72; 101; 108; 108; 111; 0;
         0;
         44; 32; 0;
         119; 111; 114; 108; 100; 33; 0].

(** A message-array payload with one element, of size 0, and a message
    whose field 1 carries it. *)
Definition zeroElemArray : list byte := bytes [1; 0; 0; 0;  0; 0; 0; 0].

Definition zeroElemMessage : list byte :=
  bytes [24; 0; 0; 0;  0; 0;  1; 0;
         0; 0;  0x00; 0xC0;  8; 0; 0; 0;
         1; 0; 0; 0;  0; 0; 0; 0].

(** A message-array payload with one element, the 8-byte message without
    fields, and a message whose field 1 carries it. *)
Definition oneElemArray : list byte :=
  bytes [1; 0; 0; 0;  8; 0; 0; 0;  8; 0; 0; 0;  0; 0;  0; 0].

Definition oneElemMessage : list byte :=
  bytes [32; 0; 0; 0;  0; 0;  1; 0;
         0; 0;  0x00; 0xC0;  16; 0; 0; 0;
         1; 0; 0; 0;  8; 0; 0; 0;  8; 0; 0; 0;  0; 0;  0; 0].

(** A [decode] callback for a message type without fields: construct the
    decoder and finish. *)
Definition decodeNoFields (value : list byte) : outcome idol.error unit :=
  let* d := idol.NewMessageDecoder value in
  match idol.Finish d with
  | Some e => Err e
  | None => Ok tt
  end.

(** A [decode] callback that rejects every element. *)
Definition rejectAll (value : list byte) : outcome idol.error unit :=
  Err idol.errTODO.

(** *** Schemas for the compiler *)

Definition quoted (s : string) : list byte := [x22] ++ str s ++ [x22].

(** [namespace "x"] and [const K : u8 = 257], each on a line. *)
Definition constOverflow : list byte :=
  str "namespace " ++ quoted "x" ++ [x0a] ++ str "const K : u8 = 257" ++ [x0a].

(** [namespace "t"] and an enum whose second item is an alias of the
    first. *)
Definition enumAlias : list byte :=
  str "namespace " ++ quoted "t" ++ [x0a]
  ++ str "enum E : u8 { A = 1 B = .A }" ++ [x0a].

(** The same enum with a comma between the items. *)
Definition enumAliasComma : list byte :=
  str "namespace " ++ quoted "t" ++ [x0a]
  ++ str "enum E : u8 { A = 1, B = .A }" ++ [x0a].

(** An alias of an alias, and an alias declared before its target. *)
Definition enumAliasOfAlias : list byte :=
  str "namespace " ++ quoted "t" ++ [x0a]
  ++ str "enum E : u8 { A = 1 B = .A C = .B }" ++ [x0a].

Definition enumAliasForward : list byte :=
  str "namespace " ++ quoted "t" ++ [x0a]
  ++ str "enum E : u8 { B = .A A = 1 }" ++ [x0a].



(** Decoded declarations that are a name and a payload, and schemas that are
    a namespace and constants. *)
#[local] Instance decoded : schema_idl.Decoded := {|
  schema_idl.Const := list byte * list byte;
  schema_idl.Enum := list byte * list byte;
  schema_idl.EnumItem := list byte * Z;
  schema_idl.Struct := list byte * list byte;
  schema_idl.Message := list byte * list byte;
  schema_idl.Union := list byte * list byte;
  schema_idl.Protocol := list byte * list byte;
  schema_idl.Schema := list byte * list (list byte * list byte);
  schema_idl.Const_Name := fst;
  schema_idl.Const_Type := fun _ => schema_idl.Type_U8;
  schema_idl.Const_TypeName := fun _ => [];
  schema_idl.Const_Value := snd;
  schema_idl.Enum_Name := fst;
  schema_idl.Enum_Type := fun _ => schema_idl.Type_U8;
  schema_idl.Enum_Items := fun _ => [];
  schema_idl.EnumItem_Name := fst;
  schema_idl.EnumItem_Value := snd;
  schema_idl.Struct_Name := fst;
  schema_idl.Message_Name := fst;
  schema_idl.Union_Name := fst;
  schema_idl.Protocol_Name := fst;
  schema_idl.Schema_Namespace := fst;
  schema_idl.Schema_Consts := snd;
  schema_idl.Schema_Enums := fun _ => [];
  schema_idl.Schema_Structs := fun _ => [];
  schema_idl.Schema_Messages := fun _ => [];
  schema_idl.Schema_Unions := fun _ => [];
  schema_idl.Schema_Protocols := fun _ => []
|}.

(** Two schemas of one namespace that agree on [A] and disagree on [K]. *)
Definition depOne : schema_idl.Schema :=
  (str "dep", [(str "A", bytes [1]); (str "K", bytes [1])]).
Definition depTwo : schema_idl.Schema :=
  (str "dep", [(str "A", bytes [1]); (str "K", bytes [2])]).

(** Callees that are never reached: each of them panics. *)
Definition noCallees : compiler.callees (D:=decoded) (OptionsBuilder:=unit)
    (UninterpretedOptions__Builder:=unit) (Struct__Builder:=unit)
    (Message__Builder:=unit) (Union__Builder:=unit) (Protocol__Builder:=unit) :=
  {| compiler.exportDupes := unit;
     compiler.noExportDupes := tt;
     compiler.registerImport := fun _ _ => None;
     compiler.compileExport := fun _ _ _ => None;
     compiler.resolveOptionsSchema := fun _ _ => None;
     compiler.compileOption := fun _ _ _ _ => None;
     compiler.compileStruct := fun _ _ => None;
     compiler.compileMessage := fun _ _ => None;
     compiler.compileUnion := fun _ _ => None;
     compiler.compileProtocol := fun _ _ => None |}.

Definition noOptions : compiler.CompileOptions (D:=decoded) :=
  {| compiler.opts_deps := None; compiler.opts_sourcePath := [] |}.

(** A compiler that has not started: no nodes, no dependencies. *)
Definition noNodes : compiler.schemaNodes :=
  {| compiler.sn_namespace := None; compiler.sn_imports := [];
     compiler.sn_exports := []; compiler.sn_options := [];
     compiler.sn_consts := []; compiler.sn_enums := [];
     compiler.sn_structs := []; compiler.sn_messages := [];
     compiler.sn_unions := []; compiler.sn_protocols := [] |}.

Definition freshCompiler
  : compiler.compiler (D:=decoded) (OptionsBuilder:=unit)
      (Struct__Builder:=unit) (Message__Builder:=unit)
      (Union__Builder:=unit) (Protocol__Builder:=unit) :=
  compiler.newCompiler noOptions noNodes.

(** The literals [200], [257] and [16777217] at offset 0. *)
Definition lit200 : syntax.IntLit :=
  {| syntax.il_raw := str "200"; syntax.il_value := 200; syntax.il_start := 0 |}.
Definition lit257 : syntax.IntLit :=
  {| syntax.il_raw := str "257"; syntax.il_value := 257; syntax.il_start := 0 |}.
Definition lit16777217 : syntax.IntLit :=
  {| syntax.il_raw := str "16777217"; syntax.il_value := 16777217;
     syntax.il_start := 0 |}.

(** The tree of a source that parses. *)
Definition parsed (src : list byte) : syntax.Node :=
  match syntax.Parse src with
  | Ok cst => cst
  | _ => syntax.N_nil
  end.

(** Parsing, then compiling. *)
Definition compileSource (src : list byte)
  : option (compiler.CompileResult (OptionsBuilder:=unit)
              (Struct__Builder:=unit) (Message__Builder:=unit)
              (Union__Builder:=unit) (Protocol__Builder:=unit)) :=
  match syntax.Parse src with
  | Ok cst => compiler.Compile tt (fun b _ => b) noCallees noOptions cst
  | _ => None
  end.

End examples.

(* ===================================================================== *)
(** * Theorems *)
(* ===================================================================== *)

(** ** Binary format *)

(** C1 (code at the failing inputs).  Message validation is not total over
    byte buffers: on [examples.truncated] the padding slice of the indirect
    thunk is taken before the bound on the running data offset is checked,
    so both [idolbin.NewMessage] and [idol.NewMessageDecoder] panic instead
    of returning a decode error; and on [examples.oneHandle], which
    [idolbin.NewMessage] accepts, [idol.NewMessageDecoder] panics. *)
Theorem C1_validation_panics :
  idolbin.NewMessage examples.truncated = Panic /\
  idol.NewMessageDecoder examples.truncated = Panic /\
  isOk (idolbin.NewMessage examples.oneHandle) = true /\
  idol.NewMessageDecoder examples.oneHandle = Panic.
Proof. repeat split; vm_compute; reflexivity. Qed.

Lemma absent_builder (f : idol.FieldBuilder) :
  idol.IsPresent f = false ->
  (forall thunk, idol.PutThunk f thunk = thunk) /\
  idol.EncodeData f = [] /\ idol.DataSize f = 0.
Proof.
  destruct f as [b|b|b]; simpl; intros H.
  - unfold idol.Uint32_PutThunk. rewrite H. auto.
  - unfold idol.Text_PutThunk, idol.Text_EncodeData, idol.Text_DataSize.
    rewrite H. auto.
  - unfold idol.TextArray_PutThunk, idol.TextArray_EncodeData,
      idol.TextArray_DataSize. rewrite H.
    unfold idol.TextArray_IsPresent in H.
    destruct (idol.values b); simpl in *; [auto|discriminate].
Qed.

(** C2.  The message with field 1 = u32 [0x04030201], field 2 absent and
    field 3 = text "Hello" encodes to exactly [examples.helloWire]: the
    header (messageSize 40 = the total length, flags 0, thunkCount 3), a
    present-scalar thunk holding the value inline, an all-zero thunk, a
    present-indirect thunk of length 6, and the data "Hello" followed by
    three NUL bytes.  Decoding that buffer succeeds and gives Has(1) = true,
    GetUint32(1) = [0x04030201], Has(2) = false, GetText(3) = "Hello", and a
    decoded size equal to the buffer length. *)
Theorem C2_hello_roundtrip (f2 : idol.FieldBuilder) :
  idol.IsPresent f2 = false ->
  let encoded := idol.encodeMessage (examples.helloFields f2) in
  encoded = examples.helloWire /\
  wire.leUint32 (take 4 encoded) = Z.of_nat (length encoded) /\
  exists d,
    idol.NewMessageDecoder encoded = Ok d /\
    idol.Finish d = None /\
    let msg := {| idol.buf := idol.d_buf d |} in
    idol.Has msg 1 = Ok true /\
    idol.GetUint32 msg 1 = Ok 0x04030201 /\
    idol.Has msg 2 = Ok false /\
    idol.GetText msg 3 = Ok examples.Hello /\
    idol.Size msg = Ok (Z.of_nat (length encoded)).
Proof.
  intros Habs encoded.
  destruct (absent_builder f2 Habs) as (Hthunk & Hdata & Hsize).
  assert (Henc : encoded = examples.helloWire).
  { unfold encoded, idol.encodeMessage, examples.helloFields.
    cbn [map concat fold_right length idol.PutThunk idol.EncodeData idol.DataSize].
    rewrite Hthunk, Hdata, Hsize. vm_compute. reflexivity. }
  clearbody encoded. subst encoded.
  split; [reflexivity|]. split; [vm_compute; reflexivity|].
  eexists. split; [vm_compute; reflexivity|].
  repeat split; vm_compute; reflexivity.
Qed.

Lemma C2_hello_roundtrip_witness :
  idol.IsPresent (idol.TextField {| idol.text_value := [] |}) = false /\
  idol.encodeMessage
    (examples.helloFields (idol.TextField {| idol.text_value := [] |}))
  = examples.helloWire.
Proof.
  split; [reflexivity|].
  apply (C2_hello_roundtrip (idol.TextField {| idol.text_value := [] |})).
  reflexivity.
Defined.

(** C3 (code at the failing input).  The encoder writes the text array
    ["Hello", "", ", ", "world!"] as the count 4, the sizes 6, 1, 3, 7, no
    padding word, and the NUL-terminated elements (then zero bytes up to a
    multiple of 8), and [TextArray.Iter] over these bytes yields the four
    texts in order; but [idolbin.validateTextArray] skips a padding word
    after an even number of sizes and so rejects the same bytes. *)
Theorem C3_text_array_layout :
  (exists pad,
     idol.TextArray_EncodeData examples.greeting = examples.greetingWire ++ pad /\
     Forall (fun b => b = x00) pad) /\
  idol.TextArray_Iter {| idol.ta_buf := idol.TextArray_EncodeData examples.greeting |}
  = Ok [(0, examples.Hello); (1, []); (2, examples.CommaSpace); (3, examples.World)] /\
  idolbin.validateTextArray (idol.TextArray_EncodeData examples.greeting)
  = Err idolbin.errTODO /\
  idolbin.validateTextArray examples.greetingWire = Err idolbin.errTODO.
Proof.
  split.
  { exists (wire.bytes [0; 0; 0]). split; [vm_compute; reflexivity|].
    repeat constructor. }
  repeat split; vm_compute; reflexivity.
Qed.

(** *** Helper lemmas on slices and machine integers *)

Lemma wrap32_small z : 0 <= z < 2^32 -> wire.wrap32 z = z.
Proof. intros H. unfold wire.wrap32. apply Z.mod_small. exact H. Qed.

Lemma wrap64_small z : 0 <= z < 2^64 -> wire.wrap64 z = z.
Proof. intros H. unfold wire.wrap64. apply Z.mod_small. exact H. Qed.

Lemma u8_bound b : 0 <= wire.u8 b < 256.
Proof.
  unfold wire.u8. pose proof (Byte.to_N_bounded b) as H.
  split; [apply N2Z.is_nonneg|]. lia.
Qed.

Lemma leUint_bound l : 0 <= wire.leUint l < 256 ^ Z.of_nat (length l).
Proof.
  induction l as [|b l IH]; simpl wire.leUint.
  - simpl. lia.
  - pose proof (u8_bound b). rewrite length_cons, Nat2Z.inj_succ, Z.pow_succ_r by lia.
    lia.
Qed.

Lemma leUint32_bound l : 0 <= wire.leUint32 l < 2^32.
Proof.
  unfold wire.leUint32. pose proof (leUint_bound (take 4 l)) as H.
  assert (Hl : (length (take 4 l) <= 4)%nat) by (rewrite length_take; lia).
  assert (256 ^ Z.of_nat (length (take 4 l)) <= 256 ^ 4)
    by (apply Z.pow_le_mono_r; lia).
  change (2^32) with (256^4). lia.
Qed.

Lemma leUint16_bound l : 0 <= wire.leUint16 l < 2^16.
Proof.
  unfold wire.leUint16. pose proof (leUint_bound (take 2 l)) as H.
  assert (Hl : (length (take 2 l) <= 2)%nat) by (rewrite length_take; lia).
  assert (256 ^ Z.of_nat (length (take 2 l)) <= 256 ^ 2)
    by (apply Z.pow_le_mono_r; lia).
  change (2^16) with (256^2). lia.
Qed.

Lemma slice_Ok {E A} (s : list A) lo hi v :
  wire.slice (E:=E) s lo hi = Ok v ->
  0 <= lo /\ lo <= hi /\ hi <= Z.of_nat (length s) /\
  v = take (Z.to_nat (hi - lo)) (drop (Z.to_nat lo) s) /\
  Z.of_nat (length v) = hi - lo.
Proof.
  unfold wire.slice. intros H.
  destruct (0 <=? lo) eqn:H1; [|discriminate].
  destruct (lo <=? hi) eqn:H2; [|discriminate].
  destruct (hi <=? Z.of_nat (length s)) eqn:H3; [|discriminate].
  simpl in H. injection H as <-.
  apply Z.leb_le in H1, H2, H3.
  repeat split; try assumption.
  rewrite length_take, length_drop. lia.
Qed.

Lemma slice_change_error {E1 E2 A} (s : list A) lo hi v :
  wire.slice (E:=E1) s lo hi = Ok v -> wire.slice (E:=E2) s lo hi = Ok v.
Proof.
  unfold wire.slice. destruct (_ && _); [|discriminate].
  intros [= <-]. reflexivity.
Qed.

Lemma slice_not_Err {E A} (s : list A) lo hi e : wire.slice (E:=E) s lo hi <> Err e.
Proof. unfold wire.slice. destruct (_ && _); discriminate. Qed.

(** Inversion of a successful bind. *)
Lemma obind_Ok {E A B} (m : outcome E A) (k : A -> outcome E B) b :
  obind m k = Ok b -> exists a, m = Ok a /\ k a = Ok b.
Proof. destruct m; simpl; intros H; try discriminate. eauto. Qed.

Ltac inv_bind H :=
  let a := fresh "a" in
  let Ha := fresh "Ha" in
  apply obind_Ok in H; destruct H as (a & Ha & H).

(** *** Message arrays: what the two validators guarantee per element *)

Lemma validateMessageArray_loop_get (buf : list byte) (n : nat) :
  forall so vo vend,
  Z.of_nat (length buf) < 2^32 ->
  0 <= vo <= Z.of_nat (length buf) ->
  idolbin.validateMessageArray_loop buf (Z.of_nat (length buf)) n so vo = Ok vend ->
  forall k, (k < n)%nat ->
  exists so' vo' bsz value,
    idol.dynArray_get_loop buf k so vo = Ok (so', vo') /\
    wire.slice (E:=idol.error) buf so' (so' + 4) = Ok bsz /\
    wire.leUint32 bsz <> 0 /\ wire.leUint32 bsz mod 8 = 0 /\
    wire.slice (E:=idol.error) buf vo' (wire.wrap32 (vo' + wire.leUint32 bsz))
      = Ok value /\
    isOk (idolbin.NewMessage value) = true.
Proof.
  induction n as [|n IH]; intros so vo vend Hlen Hvo H k Hk; [lia|].
  simpl in H. inv_bind H. rename a into bsz, Ha into Hbsz.
  pose proof (leUint32_bound bsz) as Hsz.
  destruct (wire.leUint32 bsz =? 0) eqn:Hz; [discriminate|].
  destruct (wire.leUint32 bsz mod 8 =? 0) eqn:Hm; [|discriminate].
  simpl in H. apply Z.eqb_neq in Hz. apply Z.eqb_eq in Hm.
  rewrite (wrap64_small (vo + wire.leUint32 bsz)) in H by lia.
  destruct (vo + wire.leUint32 bsz >? Z.of_nat (length buf)) eqn:Hgt; [discriminate|].
  assert (Hend : vo + wire.leUint32 bsz <= Z.of_nat (length buf)) by lia.
  inv_bind H. rename a into value, Ha into Hvalue.
  inv_bind H. rename Ha into Hmsg.
  destruct k as [|k].
  - exists so, vo, bsz, value. simpl.
    rewrite (wrap32_small (vo + wire.leUint32 bsz)) by lia.
    repeat split; eauto using slice_change_error.
    rewrite Hmsg. reflexivity.
  - destruct (IH (so + 4) (vo + wire.leUint32 bsz) vend Hlen ltac:(lia) H k ltac:(lia))
      as (so' & vo' & bsz' & value' & Hget & Hrest).
    exists so', vo', bsz', value'. split; [|exact Hrest].
    simpl. rewrite (slice_change_error _ _ _ _ Hbsz). simpl.
    rewrite (wrap32_small (vo + wire.leUint32 bsz)) by lia. exact Hget.
Qed.

Lemma MessageArray_loop_get decode (buf : list byte) (n : nat) :
  forall so vo vend,
  Z.of_nat (length buf) < 2^32 ->
  0 <= vo <= Z.of_nat (length buf) ->
  idol.MessageArray_loop decode buf (Z.of_nat (length buf)) n so vo = Ok vend ->
  forall k, (k < n)%nat ->
  exists so' vo' bsz,
    idol.dynArray_get_loop buf k so vo = Ok (so', vo') /\
    wire.slice (E:=idol.error) buf so' (so' + 4) = Ok bsz /\
    (wire.leUint32 bsz = 0 \/
     exists value,
       wire.leUint32 bsz <> 0 /\ wire.leUint32 bsz mod 8 = 0 /\
       wire.slice (E:=idol.error) buf vo' (wire.wrap32 (vo' + wire.leUint32 bsz))
         = Ok value /\
       decode value = Ok tt).
Proof.
  induction n as [|n IH]; intros so vo vend Hlen Hvo H k Hk; [lia|].
  simpl in H. inv_bind H. rename a into bsz, Ha into Hbsz.
  pose proof (leUint32_bound bsz) as Hsz.
  destruct (wire.leUint32 bsz =? 0) eqn:Hz.
  - apply Z.eqb_eq in Hz. destruct k as [|k].
    + exists so, vo, bsz. simpl. auto.
    + destruct (IH (so + 4) vo vend Hlen Hvo H k ltac:(lia))
        as (so' & vo' & bsz' & Hget & Hrest).
      exists so', vo', bsz'. split; [|exact Hrest].
      simpl. rewrite Hbsz. simpl. rewrite Hz, Z.add_0_r, wrap32_small by lia.
      exact Hget.
  - destruct (wire.leUint32 bsz mod 8 =? 0) eqn:Hm; [|discriminate].
    simpl in H. apply Z.eqb_neq in Hz. apply Z.eqb_eq in Hm.
    rewrite (wrap64_small (vo + wire.leUint32 bsz)) in H by lia.
    destruct (vo + wire.leUint32 bsz >? Z.of_nat (length buf)) eqn:Hgt; [discriminate|].
    assert (Hend : vo + wire.leUint32 bsz <= Z.of_nat (length buf)) by lia.
    inv_bind H. rename a into value, Ha into Hvalue.
    inv_bind H. rename Ha into Hdec. destruct a.
    destruct k as [|k].
    + exists so, vo, bsz. simpl.
      rewrite (wrap32_small (vo + wire.leUint32 bsz)) by lia.
      split; [reflexivity|]. split; [exact Hbsz|]. right. exists value. auto.
    + destruct (IH (so + 4) (vo + wire.leUint32 bsz) vend Hlen ltac:(lia) H k
                  ltac:(lia))
        as (so' & vo' & bsz' & Hget & Hrest).
      exists so', vo', bsz'. split; [|exact Hrest].
      simpl. rewrite Hbsz. simpl.
      rewrite (wrap32_small (vo + wire.leUint32 bsz)) by lia. exact Hget.
Qed.

Lemma dynArray_len_nonempty (buf : list byte) len :
  idol.dynArray_len buf = Ok len -> 0 < len ->
  exists b04, buf <> [] /\ wire.slice (E:=idol.error) buf 0 4 = Ok b04 /\
              len = wire.leUint32 b04.
Proof.
  unfold idol.dynArray_len. destruct buf as [|b buf]; simpl.
  - intros [= <-]. lia.
  - intros H _. unfold omap in H. inv_bind H. injection H as <-.
    exists a. auto.
Qed.

Lemma validateMessageArray_elements (buf : list byte) :
  Z.of_nat (length buf) < 2^32 ->
  idolbin.validateMessageArray buf = Ok tt ->
  forall len idx, idol.dynArray_len buf = Ok len -> 0 <= idx < len ->
  exists e,
    idol.dynArray_get buf true idx = Ok (e, true) /\
    e <> [] /\ Z.of_nat (length e) mod 8 = 0 /\
    isOk (idolbin.NewMessage e) = true.
Proof.
  intros Hlen H len idx Hl Hidx.
  destruct (dynArray_len_nonempty _ _ Hl ltac:(lia)) as (b04 & Hne & Hb04 & ->).
  unfold idolbin.validateMessageArray in H.
  assert (Hnz0 : (length buf =? 0)%nat = false)
    by (destruct buf; [congruence|reflexivity]).
  rewrite Hnz0 in H.
  destruct (Z.of_nat (length buf) <? 4); [discriminate|].
  rewrite (slice_change_error _ _ _ _ Hb04) in H. simpl obind in H.
  pose proof (leUint32_bound b04) as Hb.
  set (arrayLen := wire.leUint32 b04) in *. clearbody arrayLen.
  rewrite (wrap64_small (4 + arrayLen * 4)) in H by lia.
  set (v0 := if Z.land arrayLen 1 =? 0
             then wire.wrap64 (4 + arrayLen * 4 + 4) else 4 + arrayLen * 4) in *.
  assert (Hv0 : v0 = if Z.land arrayLen 1 =? 0
                     then 4 + arrayLen * 4 + 4 else 4 + arrayLen * 4).
  { unfold v0. destruct (Z.land arrayLen 1 =? 0); [|reflexivity].
    apply wrap64_small. lia. }
  clearbody v0.
  destruct (v0 >? Z.of_nat (length buf)) eqn:Hgt; [discriminate|].
  inv_bind H. rename a into vend, Ha into Hloop.
  assert (Hv0pos : 4 + arrayLen * 4 <= v0)
    by (rewrite Hv0; destruct (Z.land arrayLen 1 =? 0); lia).
  assert (Hv0le : 0 <= v0 <= Z.of_nat (length buf)) by lia.
  assert (Hidxn : (Z.to_nat idx < Z.to_nat arrayLen)%nat) by lia.
  destruct (validateMessageArray_loop_get buf (Z.to_nat arrayLen) 4 v0 vend
              Hlen Hv0le Hloop (Z.to_nat idx) Hidxn)
    as (so' & vo' & bsz & value & Hget & Hbsz & Hnz & Hm8 & Hval & Hmsg).
  exists value. unfold idol.dynArray_get. rewrite Hl. simpl obind.
  replace (idx >=? arrayLen) with false by lia.
  rewrite (wrap32_small (4 + arrayLen * 4)) by lia.
  replace (if Z.land arrayLen 1 =? 0
           then wire.wrap32 (4 + arrayLen * 4 + 4) else 4 + arrayLen * 4)
    with v0.
  2:{ rewrite Hv0. destruct (Z.land arrayLen 1 =? 0); [|reflexivity].
      symmetry. apply wrap32_small. lia. }
  rewrite Hget. simpl obind. rewrite Hbsz. simpl obind.
  apply Z.eqb_neq in Hnz. rewrite Hnz. rewrite Hval. simpl obind.
  apply slice_Ok in Hval. destruct Hval as (Hlo & Hle & Hhi & _ & Hlv).
  apply Z.eqb_neq in Hnz.
  pose proof (leUint32_bound bsz) as Hbs.
  assert (Hw : wire.wrap32 (vo' + wire.leUint32 bsz) = vo' + wire.leUint32 bsz).
  { unfold wire.wrap32 in *.
    destruct (Z.lt_ge_cases (vo' + wire.leUint32 bsz) (2^32)) as [Hs|Hs].
    - apply Z.mod_small. lia.
    - exfalso. 
      assert ((vo' + wire.leUint32 bsz) mod 2^32 = vo' + wire.leUint32 bsz - 2^32).
      { symmetry. apply Z.mod_unique with (q := 1); lia. }
      lia. }
  rewrite Hw in Hlv.
  repeat split; try assumption.
  - intros ->. simpl in Hlv. lia.
  - replace (Z.of_nat (length value)) with (wire.leUint32 bsz) by lia. exact Hm8.
Qed.

Lemma slice_wrap32_length {E A} (s : list A) lo x v :
  wire.slice (E:=E) s lo (wire.wrap32 x) = Ok v -> Z.of_nat (length v) < 2^32.
Proof.
  intros H. apply slice_Ok in H. destruct H as (Hlo & _ & _ & _ & Hl).
  unfold wire.wrap32 in Hl.
  pose proof (Z.mod_pos_bound x (2^32) ltac:(lia)). lia.
Qed.

Lemma MessageArray_check_elements decode (buf : list byte) :
  Z.of_nat (length buf) < 2^32 ->
  idol.MessageArray_check decode buf = Ok tt ->
  forall len idx, idol.dynArray_len buf = Ok len -> 0 <= idx < len ->
  exists e,
    idol.dynArray_get buf true idx = Ok (e, true) /\
    (e = [] \/ (Z.of_nat (length e) mod 8 = 0 /\ decode e = Ok tt)).
Proof.
  intros Hlen H len idx Hl Hidx.
  destruct (dynArray_len_nonempty _ _ Hl ltac:(lia)) as (b04 & Hne & Hb04 & ->).
  unfold idol.MessageArray_check in H.
  assert (Hnz0 : (length buf =? 0)%nat = false)
    by (destruct buf; [congruence|reflexivity]).
  rewrite Hnz0 in H.
  destruct (Z.of_nat (length buf) <? 4); [discriminate|].
  rewrite Hb04 in H. simpl obind in H.
  pose proof (leUint32_bound b04) as Hb.
  set (arrayLen := wire.leUint32 b04) in *. clearbody arrayLen.
  rewrite (wrap64_small (4 + arrayLen * 4)) in H by lia.
  set (v0 := if Z.land arrayLen 1 =? 0
             then wire.wrap64 (4 + arrayLen * 4 + 4) else 4 + arrayLen * 4) in *.
  assert (Hv0 : v0 = if Z.land arrayLen 1 =? 0
                     then 4 + arrayLen * 4 + 4 else 4 + arrayLen * 4).
  { unfold v0. destruct (Z.land arrayLen 1 =? 0); [|reflexivity].
    apply wrap64_small. lia. }
  clearbody v0.
  destruct (v0 >? Z.of_nat (length buf)) eqn:Hgt; [discriminate|].
  inv_bind H. rename a into vend, Ha into Hloop.
  assert (Hv0pos : 4 + arrayLen * 4 <= v0)
    by (rewrite Hv0; destruct (Z.land arrayLen 1 =? 0); lia).
  assert (Hv0le : 0 <= v0 <= Z.of_nat (length buf)) by lia.
  assert (Hidxn : (Z.to_nat idx < Z.to_nat arrayLen)%nat) by lia.
  destruct (MessageArray_loop_get decode buf (Z.to_nat arrayLen) 4 v0 vend
              Hlen Hv0le Hloop (Z.to_nat idx) Hidxn)
    as (so' & vo' & bsz & Hget & Hbsz & Hcase).
  unfold idol.dynArray_get. rewrite Hl. simpl obind.
  replace (idx >=? arrayLen) with false by lia.
  rewrite (wrap32_small (4 + arrayLen * 4)) by lia.
  replace (if Z.land arrayLen 1 =? 0
           then wire.wrap32 (4 + arrayLen * 4 + 4) else 4 + arrayLen * 4)
    with v0.
  2:{ rewrite Hv0. destruct (Z.land arrayLen 1 =? 0); [|reflexivity].
      symmetry. apply wrap32_small. lia. }
  rewrite Hget. simpl obind. rewrite Hbsz. simpl obind.
  destruct Hcase as [Hz | (value & Hnz & Hm8 & Hval & Hdec)].
  - rewrite Hz. simpl. exists []. auto.
  - apply Z.eqb_neq in Hnz. rewrite Hnz. rewrite Hval. simpl obind.
    exists value. split; [reflexivity|]. right. split; [|exact Hdec].
    apply slice_Ok in Hval. destruct Hval as (Hlo & Hle & Hhi & _ & Hlv).
    pose proof (leUint32_bound bsz) as Hbs.
    assert (Hw : wire.wrap32 (vo' + wire.leUint32 bsz) = vo' + wire.leUint32 bsz).
    { unfold wire.wrap32 in *.
      destruct (Z.lt_ge_cases (vo' + wire.leUint32 bsz) (2^32)) as [Hs|Hs].
      - apply Z.mod_small. lia.
      - exfalso.
        assert ((vo' + wire.leUint32 bsz) mod 2^32 = vo' + wire.leUint32 bsz - 2^32).
        { symmetry. apply Z.mod_unique with (q := 1); lia. }
        lia. }
    rewrite Hw in Hlv.
    replace (Z.of_nat (length value)) with (wire.leUint32 bsz) by lia. exact Hm8.
Qed.

Lemma idolbin_getIndirect_length f value :
  idolbin.getIndirect f = Ok value -> Z.of_nat (length value) < 2^32.
Proof.
  unfold idolbin.getIndirect. intros H. inv_bind H.
  destruct (wire.u8 a =? 0); [injection H as <-; simpl; lia|].
  destruct (wire.u8 a =? 128); [discriminate|].
  inv_bind H. inv_bind H. inv_bind H.
  eapply slice_wrap32_length; eauto.
Qed.

Lemma idol_GetIndirect_length msg tag value :
  idol.GetIndirect msg tag = Ok value -> Z.of_nat (length value) < 2^32.
Proof.
  unfold idol.GetIndirect. intros H. inv_bind H.
  destruct (negb a); [injection H as <-; simpl; lia|].
  inv_bind H.
  destruct (wire.leUint32 a0 =? 0); [injection H as <-; simpl; lia|].
  inv_bind H. eapply slice_wrap32_length; eauto.
Qed.

(** C4 (amended).  [idolbin]'s validation of a message array, run by
    [GetMessageArray], guarantees that every element the [MessageArray] view
    returns has a size that is a nonzero multiple of 8 and is accepted by
    [NewMessage]; the decoder of package [idol], [MessageDecoder.MessageArray],
    guarantees that every element is either of size 0 (it is skipped) or has
    a size that is a multiple of 8 and is accepted by [decode]. *)
Theorem C4_message_array_elements :
  (forall f value,
     idolbin.GetMessageArray f = Ok value ->
     forall len idx, idol.dynArray_len value = Ok len -> 0 <= idx < len ->
     exists e,
       idol.MessageArray_Get {| idol.ma_buf := value |} idx = Ok (e, true) /\
       e <> [] /\ Z.of_nat (length e) mod 8 = 0 /\
       isOk (idolbin.NewMessage e) = true) /\
  (forall d tag decode d' value,
     idol.d_err d = None ->
     idol.getIndirect d tag = Ok value ->
     idol.MessageArray d tag decode = Ok d' ->
     idol.Finish d' = None ->
     forall len idx, idol.dynArray_len value = Ok len -> 0 <= idx < len ->
     exists e,
       idol.MessageArray_Get {| idol.ma_buf := value |} idx = Ok (e, true) /\
       (e = [] \/ (Z.of_nat (length e) mod 8 = 0 /\ decode e = Ok tt))).
Proof.
  split.
  - intros f value H len idx Hl Hidx. unfold idolbin.GetMessageArray in H.
    inv_bind H. inv_bind H. injection H as <-. destruct a0.
    apply idolbin_getIndirect_length in Ha.
    exact (validateMessageArray_elements a Ha Ha0 len idx Hl Hidx).
  - intros d tag decode d' value Hd Hget H Hfin len idx Hl Hidx.
    unfold idol.MessageArray in H. rewrite Hd, Hget in H.
    destruct (idol.MessageArray_check decode value) as [[]|e|] eqn:Hc;
      try discriminate.
    + apply idol_GetIndirect_length in Hget.
      exact (MessageArray_check_elements decode value Hget Hc len idx Hl Hidx).
    + injection H as <-. discriminate Hfin.
Qed.

(** C4 (the claim as stated fails).  [MessageDecoder.MessageArray] accepts
    the array of [examples.zeroElemMessage], whose only element has size 0,
    without even calling [decode]; [idolbin.validateMessageArray] rejects
    the same array. *)
Lemma C4_zero_size_element_accepted :
  exists d d',
    idol.NewMessageDecoder examples.zeroElemMessage = Ok d /\
    idol.Finish d = None /\
    idol.getIndirect d 1 = Ok examples.zeroElemArray /\
    idol.MessageArray d 1 examples.rejectAll = Ok d' /\
    idol.Finish d' = None /\
    idolbin.validateMessageArray examples.zeroElemArray = Err idolbin.errTODO.
Proof.
  eexists. eexists. split; [vm_compute; reflexivity|].
  repeat split; vm_compute; reflexivity.
Qed.

Lemma C4_message_array_elements_witness :
  (exists e,
     idol.MessageArray_Get {| idol.ma_buf := examples.oneElemArray |} 0 = Ok (e, true) /\
     e <> [] /\ Z.of_nat (length e) mod 8 = 0 /\
     isOk (idolbin.NewMessage e) = true) /\
  (exists e,
     idol.MessageArray_Get {| idol.ma_buf := examples.oneElemArray |} 0 = Ok (e, true) /\
     (e = [] \/ (Z.of_nat (length e) mod 8 = 0 /\ examples.decodeNoFields e = Ok tt))).
Proof.
  split.
  - refine (proj1 C4_message_array_elements
              {| idolbin.f_buf := examples.oneElemMessage;
                 idolbin.f_thunk := wire.bytes [0; 0; 0; 0xC0; 16; 0; 0; 0];
                 idolbin.f_tag := 1 |}
              examples.oneElemArray _ 1 0 _ _).
    + vm_compute. reflexivity.
    + vm_compute. reflexivity.
    + lia.
  - refine (proj2 C4_message_array_elements
              {| idol.d_buf :=
                   wire.put examples.oneElemMessage 8 (wire.bytes [2; 0; 0; 0xC0]);
                 idol.d_err := None |}
              1 examples.decodeNoFields
              {| idol.d_buf :=
                   wire.put examples.oneElemMessage 8 (wire.bytes [2; 0; 0; 0xC0]);
                 idol.d_err := None |}
              examples.oneElemArray _ _ _ _ 1 0 _ _).
    + reflexivity.
    + vm_compute. reflexivity.
    + vm_compute. reflexivity.
    + reflexivity.
    + vm_compute. reflexivity.
    + lia.
Defined.

(** *** Bit masks, shifts and byte stores *)

Lemma land_pow2 x k : 0 <= k -> Z.land x (2^k) = 2^k * ((x / 2^k) mod 2).
Proof.
  intros Hk. rewrite <- Z.testbit_spec' by exact Hk.
  apply Z.bits_inj'. intros n Hn. rewrite Z.land_spec, Z.pow2_bits_eqb by exact Hk.
  destruct (Z.testbit x k) eqn:Hx; simpl Z.b2z.
  - rewrite Z.mul_1_r, Z.pow2_bits_eqb by exact Hk.
    destruct (Z.eqb_spec k n) as [->|]; [rewrite Hx; reflexivity|].
    apply andb_false_r.
  - rewrite Z.mul_0_r, Z.bits_0. destruct (Z.eqb_spec k n) as [->|];
      [rewrite Hx; reflexivity | apply andb_false_r].
Qed.

Lemma land_mask8 x : Z.land x 0xFFFFFFF8 = x mod 2^32 - x mod 8.
Proof.
  change 0xFFFFFFF8 with (Z.ldiff (Z.ones 32) (Z.ones 3)).
  rewrite Z.ldiff_land, Z.land_assoc, Z.land_ones by lia.
  rewrite <- Z.ldiff_land, Z.ldiff_ones_r by lia.
  rewrite Z.shiftr_div_pow2, Z.shiftl_mul_pow2 by lia.
  change (2^3) with 8.
  rewrite <- (Z.mod_mod_divide x (2^32) 8) by (exists (2^29); reflexivity).
  pose proof (Z.div_mod (x mod 2^32) 8 ltac:(lia)). lia.
Qed.

Lemma lor_high a : 0 <= a < 2^28 -> Z.lor a 0xC0000000 = a + 0xC0000000.
Proof.
  intros Ha. rewrite <- Z.lxor_lor, <- Z.add_nocarry_lxor; try reflexivity.
  all: change 0xC0000000 with (Z.lor (2^31) (2^30));
    rewrite Z.land_lor_distr_r, !land_pow2 by lia;
    change (2^31) with 2147483648; change (2^30) with 1073741824;
    change (2^28) with 268435456 in Ha;
    rewrite !Z.div_small by lia; reflexivity.
Qed.

Lemma u8_to_u8 z : wire.u8 (wire.to_u8 z) = z mod 256.
Proof.
  unfold wire.u8, wire.to_u8.
  pose proof (Z.mod_pos_bound z 256 ltac:(lia)) as Hb.
  destruct (Byte.of_N (Z.to_N (z mod 256))) as [b|] eqn:Hof.
  - apply Byte.to_of_N in Hof. rewrite Hof. lia.
  - apply Byte.of_N_None_iff in Hof. lia.
Qed.

Lemma leUint_leBytes n v :
  wire.leUint (wire.leBytes n v) = v mod 256 ^ Z.of_nat n.
Proof.
  revert v. induction n as [|n IH]; intros v.
  - simpl. rewrite Z.mod_1_r. reflexivity.
  - cbn [wire.leBytes wire.leUint]. rewrite u8_to_u8, IH.
    rewrite Nat2Z.inj_succ, Z.pow_succ_r by lia.
    rewrite Z.rem_mul_r by lia. reflexivity.
Qed.

Lemma length_leBytes n v : length (wire.leBytes n v) = n.
Proof. revert v. induction n as [|n IH]; intros v; simpl; [|rewrite IH]; reflexivity. Qed.

(** *** Slices and in-place stores *)

Lemma length_put {A} (buf : list A) off bs :
  0 <= off -> off + Z.of_nat (length bs) <= Z.of_nat (length buf) ->
  length (wire.put buf off bs) = length buf.
Proof.
  intros H0 H1. unfold wire.put.
  rewrite !length_app, length_take, length_drop. lia.
Qed.

Lemma lookup_put {A} (buf : list A) off bs (i : nat) :
  0 <= off -> off + Z.of_nat (length bs) <= Z.of_nat (length buf) ->
  wire.put buf off bs !! i =
  if (off <=? Z.of_nat i) && (Z.of_nat i <? off + Z.of_nat (length bs))
  then bs !! (i - Z.to_nat off)%nat
  else buf !! i.
Proof.
  intros H0 H1. unfold wire.put.
  destruct (off <=? Z.of_nat i) eqn:Hlo; simpl.
  - rewrite lookup_app_r by (rewrite length_take; lia).
    rewrite length_take, Nat.min_l by lia.
    destruct (Z.of_nat i <? off + Z.of_nat (length bs)) eqn:Hhi.
    + rewrite lookup_app_l by lia. reflexivity.
    + rewrite lookup_app_r by lia. rewrite lookup_drop. f_equal. lia.
  - rewrite lookup_app_l by (rewrite length_take; lia).
    rewrite lookup_take_lt by lia. reflexivity.
Qed.

(** A slice is determined by the length of the list and the bytes in its
    range. *)
Lemma slice_ext {E A} (l l' : list A) lo hi :
  length l = length l' ->
  (forall i : nat, lo <= Z.of_nat i < hi -> l !! i = l' !! i) ->
  wire.slice (E:=E) l lo hi = wire.slice l' lo hi.
Proof.
  intros Hlen Hagree. unfold wire.slice. rewrite <- Hlen.
  destruct ((0 <=? lo) && (lo <=? hi) && (hi <=? Z.of_nat (length l))) eqn:Hc;
    [|reflexivity].
  f_equal. apply list_eq. intros i.
  destruct (decide (i < Z.to_nat (hi - lo))%nat) as [Hi|Hi].
  - rewrite !lookup_take_lt, !lookup_drop by exact Hi. apply Hagree. lia.
  - rewrite !lookup_take_ge by lia. reflexivity.
Qed.

Lemma slice_lookup {E A} (l : list A) lo hi v (i : nat) :
  wire.slice (E:=E) l lo hi = Ok v -> (i < length v)%nat ->
  v !! i = l !! (Z.to_nat lo + i)%nat.
Proof.
  intros H Hi. apply slice_Ok in H. destruct H as (H0 & H1 & H2 & -> & Hl).
  rewrite length_take, length_drop in Hi.
  rewrite lookup_take_lt, lookup_drop by lia. reflexivity.
Qed.

Lemma slice_slice {E A} (l : list A) a b t c d u :
  wire.slice (E:=E) l a b = Ok t -> wire.slice (E:=E) t c d = Ok u ->
  wire.slice (E:=E) l (a + c) (a + d) = Ok u.
Proof.
  intros Ht Hu.
  pose proof (slice_Ok _ _ _ _ Ht) as (Ha & Hab & Hb & Het & Hlt).
  pose proof (slice_Ok _ _ _ _ Hu) as (Hc & Hcd & Hd & Heu & Hlu).
  unfold wire.slice.
  replace ((0 <=? a + c) && (a + c <=? a + d) && (a + d <=? Z.of_nat (length l)))
    with true by lia.
  f_equal. subst u t. apply list_eq. intros i.
  destruct (decide (i < Z.to_nat (d - c))%nat) as [Hi|Hi].
  - rewrite !lookup_take_lt, !lookup_drop by lia.
    rewrite lookup_take_lt, lookup_drop by lia. f_equal. lia.
  - rewrite !lookup_take_ge by lia. reflexivity.
Qed.

Lemma index_slice {E A} (l : list A) a b t (i : Z) x :
  wire.slice (E:=E) l a b = Ok t -> wire.index (E:=E) t i = Ok x ->
  wire.index (E:=E) l (a + i) = Ok x.
Proof.
  intros Ht Hx.
  pose proof (slice_Ok _ _ _ _ Ht) as (Ha & Hab & Hb & Het & Hlt).
  unfold wire.index in *.
  destruct ((0 <=? i) && (i <? Z.of_nat (length t))) eqn:Hc; [|discriminate].
  replace ((0 <=? a + i) && (a + i <? Z.of_nat (length l))) with true by lia.
  destruct (t !! Z.to_nat i) as [y|] eqn:Hy; [|discriminate].
  injection Hx as ->.
  rewrite (slice_lookup _ _ _ _ _ Ht) in Hy by lia.
  replace (Z.to_nat (a + i)) with (Z.to_nat a + Z.to_nat i)%nat by lia.
  rewrite Hy. reflexivity.
Qed.

Lemma slice_put_same {E A} (buf : list A) off bs :
  0 <= off -> off + Z.of_nat (length bs) <= Z.of_nat (length buf) ->
  wire.slice (E:=E) (wire.put buf off bs) off (off + Z.of_nat (length bs)) = Ok bs.
Proof.
  intros H0 H1. unfold wire.slice. rewrite length_put by assumption.
  replace ((0 <=? off) && (off <=? off + Z.of_nat (length bs))
           && (off + Z.of_nat (length bs) <=? Z.of_nat (length buf)))
    with true by lia.
  f_equal. unfold wire.put.
  rewrite drop_app_length' by (rewrite length_take; lia).
  replace (Z.to_nat (off + Z.of_nat (length bs) - off)) with (length bs) by lia.
  apply take_app_length.
Qed.

(** *** The two access strategies for indirect fields *)

Lemma slice_8bytes {E} (b : list byte) lo hi thunk :
  wire.slice (E:=E) b lo hi = Ok thunk -> hi = lo + 8 ->
  exists b0 b1 b2 b3 b4 b5 b6 b7, thunk = [b0; b1; b2; b3; b4; b5; b6; b7].
Proof.
  intros H ->. apply slice_Ok in H. destruct H as (_ & _ & _ & _ & Hl).
  assert (Hlen : length thunk = 8%nat) by lia. clear Hl.
  do 8 (destruct thunk as [|? thunk]; [discriminate|]).
  destruct thunk; [|discriminate]. eauto 10.
Qed.

Lemma wrap32_tag tag : 0 <= tag < 2^16 ->
  wire.wrap32 (tag * 8) = 8 * tag /\ wire.wrap32 (tag * 8 + 8) = 8 * tag + 8.
Proof.
  intros H. change (2^16) with 65536 in H.
  split; rewrite wrap32_small by (change (2^32) with 4294967296; lia); lia.
Qed.

(** The padded size as both validators compute it. *)
Definition padded (size : Z) : Z := (size + 7) mod 2^32 - (size + 7) mod 8.

Lemma paddedSize64 size : 0 <= size < 2^32 ->
  Z.land (wire.wrap64 (size + 7)) 0xFFFFFFF8 = padded size.
Proof.
  intros H. rewrite wrap64_small by (change (2^32) with 4294967296 in H;
    change (2^64) with 18446744073709551616; lia).
  apply land_mask8.
Qed.

Lemma paddedSize32 size :
  Z.land (wire.wrap32 (size + 7)) 0xFFFFFFF8 = padded size.
Proof.
  rewrite land_mask8. unfold wire.wrap32, padded.
  rewrite Z.mod_mod by lia.
  rewrite (Z.mod_mod_divide (size + 7) (2^32) 8) by (exists (2^29); reflexivity).
  reflexivity.
Qed.

Lemma padded_bounds size : 0 <= size < 2^32 ->
  0 <= padded size < 2^32 /\ padded size mod 8 = 0.
Proof.
  intros H. unfold padded.
  pose proof (Z.mod_pos_bound (size + 7) (2^32) ltac:(lia)).
  pose proof (Z.mod_pos_bound (size + 7) 8 ltac:(lia)).
  assert (Hm : ((size + 7) mod 2^32) mod 8 = (size + 7) mod 8)
    by (apply Z.mod_mod_divide; exists (2^29); reflexivity).
  pose proof (Z.div_mod ((size + 7) mod 2^32) 8 ltac:(lia)) as Hd.
  rewrite Hm in Hd.
  assert (0 <= ((size + 7) mod 2^32) / 8) by (apply Z.div_pos; lia).
  split; [lia|].
  replace ((size + 7) mod 2^32 - (size + 7) mod 8)
    with ((((size + 7) mod 2^32) / 8) * 8) by lia.
  apply Z.mod_mul. lia.
Qed.

(** One step of [decodeThunks]: the thunk is absent or scalar and the buffer
    is left alone, or it is indirect and the offset is cached. *)
Lemma decodeThunks_step b ms tag rest vo b' vo' :
  idol.decodeThunks_loop b ms (tag :: rest) vo = Ok (b', vo') ->
  0 <= tag < 2^16 -> 0 <= vo <= ms -> ms < 2^31 ->
  exists b0 b1 b2 b3 b4 b5 b6 b7,
    wire.slice (E:=idol.error) b (8 * tag) (8 * tag + 8)
      = Ok [b0; b1; b2; b3; b4; b5; b6; b7] /\
    ((wire.u8 b3 = 0x00 \/ wire.u8 b3 = 0x80) /\
      idol.decodeThunks_loop b ms rest vo = Ok (b', vo')
     \/
     wire.u8 b3 = 0xC0 /\
      let size := wire.leUint32 [b4; b5; b6; b7] in
      vo + padded size <= ms /\
      idol.decodeThunks_loop
        (wire.put b (8 * tag) (wire.leBytes 4 (vo / 8 + 0xC0000000)))
        ms rest (vo + padded size) = Ok (b', vo')).
Proof.
  intros H Htag Hvo Hms.
  cbn [idol.decodeThunks_loop] in H.
  destruct (wrap32_tag tag Htag) as [E1 E2]. rewrite !E1, !E2 in H.
  inv_bind H. rename a into thunk, Ha into Hthunk.
  destruct (slice_8bytes _ _ _ _ Hthunk eq_refl)
    as (b0 & b1 & b2 & b3 & b4 & b5 & b6 & b7 & ->).
  exists b0, b1, b2, b3, b4, b5, b6, b7. split; [exact Hthunk|].
  change (wire.slice [b0; b1; b2; b3; b4; b5; b6; b7] 2 4)
    with (Ok (E:=idol.error) [b2; b3]) in H.
  change (wire.slice [b0; b1; b2; b3; b4; b5; b6; b7] 4 8)
    with (Ok (E:=idol.error) [b4; b5; b6; b7]) in H.
  change (wire.slice [b0; b1; b2; b3; b4; b5; b6; b7] 0 2)
    with (Ok (E:=idol.error) [b0; b1]) in H.
  cbn [obind] in H.
  assert (HF : wire.leUint16 [b2; b3] = wire.u8 b2 + 256 * wire.u8 b3)
    by (cbn; lia).
  assert (H64 : wire.leUint64 [b0; b1; b2; b3; b4; b5; b6; b7] = 0 -> wire.u8 b3 = 0).
  { cbn. pose proof (u8_bound b0). pose proof (u8_bound b1).
    pose proof (u8_bound b2). pose proof (u8_bound b3).
    pose proof (u8_bound b4). pose proof (u8_bound b5).
    pose proof (u8_bound b6). pose proof (u8_bound b7). lia. }
  pose proof (u8_bound b2) as B2. pose proof (u8_bound b3) as B3.
  pose proof (leUint32_bound [b4; b5; b6; b7]) as Hsize.
  set (size := wire.leUint32 [b4; b5; b6; b7]) in *.
  rewrite HF in H. clear HF.
  set (F := wire.u8 b2 + 256 * wire.u8 b3) in *.
  assert (HFdef : F = wire.u8 b2 + 256 * wire.u8 b3) by reflexivity.
  clearbody F.
  change 32768 with (2^15) in H. change 16384 with (2^14) in H.
  change 16383 with (Z.ones 14) in H.
  rewrite !land_pow2, Z.land_ones in H by lia.
  change (2^15) with 32768 in H. change (2^14) with 16384 in H.
  change (2^31) with 2147483648 in Hms. change (2^32) with 4294967296 in Hsize.
  rewrite paddedSize64 in H by (change (2^32) with 4294967296; lia).
  destruct (padded_bounds size ltac:(change (2^32) with 4294967296; lia))
    as [Hpad Hpad8].
  change (2^32) with 4294967296 in Hpad.
  assert (HFb : 0 <= F < 65536) by lia.
  pose proof (Z.div_mod F 16384 ltac:(lia)) as Hdm.
  pose proof (Z.mod_pos_bound F 16384 ltac:(lia)) as Hmb.
  assert (Hq : 0 <= F / 16384 < 4)
    by (split; [apply Z.div_pos; lia | apply Z.div_lt_upper_bound; lia]).
  assert (Hq2 : F / 32768 = (F / 16384) / 2)
    by (rewrite Z.div_div by lia; reflexivity).
  rewrite Hq2 in H.
  set (q := F / 16384) in *. clearbody q.
  assert (Hqc : q = 0 \/ q = 1 \/ q = 2 \/ q = 3) by lia.
  destruct (32768 * ((q / 2) mod 2) =? 0) eqn:Hpresent.
  { destruct (wire.leUint64 _ =? 0) eqn:Hz; [|discriminate].
    apply Z.eqb_eq in Hz. left. split; [left; apply H64; exact Hz | exact H]. }
  destruct (F mod 16384 =? 0) eqn:Hlow; [|discriminate]. cbn [negb] in H.
  apply Z.eqb_eq in Hlow. apply Z.eqb_neq in Hpresent.
  destruct (16384 * (q mod 2) =? 16384) eqn:Hind.
  - right. apply Z.eqb_eq in Hind.
    assert (Hq3 : q = 3)
      by (destruct Hqc as [-> | [-> | [-> | ->]]]; 
          first [reflexivity | exfalso; apply Hpresent; reflexivity
                | discriminate Hind]).
    assert (HFC : F = 0xC000) by lia.
    split; [lia|]. cbv zeta.
    inv_bind H. clear Ha a.
    rewrite (wrap64_small (vo + padded size)) in H
      by (change (2^64) with 18446744073709551616; lia).
    destruct (vo + padded size >? ms) eqn:Hgt; [discriminate|].
    split; [lia|].
    rewrite HFC in H.
    rewrite (wrap32_small vo) in H by (change (2^32) with 4294967296; lia).
    change (wire.wrap32 (49152 ≪ 16)) with 0xC0000000 in H.
    rewrite Z.shiftr_div_pow2 in H by lia. change (2^3) with 8 in H.
    rewrite lor_high in H
      by (change (2^28) with 268435456; split;
          [apply Z.div_pos; lia | apply Z.div_lt_upper_bound; lia]).
    exact H.
  - left. apply Z.eqb_neq in Hind.
    assert (Hq3 : q = 2)
      by (destruct Hqc as [-> | [-> | [-> | ->]]];
          first [reflexivity | exfalso; apply Hpresent; reflexivity
                | exfalso; apply Hind; reflexivity]).
    split; [right; lia|].
    destruct (wire.leUint16 [b0; b1] >? 0).
    + destruct (negb _); [discriminate|]. destruct (negb _); discriminate.
    + exact H.
Qed.
(** One step of the recomputation in [idolbin]'s [getIndirect]. *)
Lemma getIndirect_step b tag rest vo b0 b1 b2 b3 b4 b5 b6 b7 :
  0 <= tag < 2^16 ->
  wire.slice (E:=idol.error) b (8 * tag) (8 * tag + 8)
    = Ok [b0; b1; b2; b3; b4; b5; b6; b7] ->
  ((wire.u8 b3 = 0x00 \/ wire.u8 b3 = 0x80) ->
   idolbin.getIndirect_loop b (tag :: rest) vo = idolbin.getIndirect_loop b rest vo) /\
  (wire.u8 b3 = 0xC0 ->
   idolbin.getIndirect_loop b (tag :: rest) vo
   = idolbin.getIndirect_loop b rest
       (wire.wrap32 (vo + padded (wire.leUint32 [b4; b5; b6; b7])))).
Proof.
  intros Htag Hthunk. cbn [idolbin.getIndirect_loop].
  destruct (wrap32_tag tag Htag) as [E1 E2]. rewrite !E1, !E2.
  rewrite (slice_change_error _ _ _ _ Hthunk). cbn [obind].
  change (wire.index [b0; b1; b2; b3; b4; b5; b6; b7] 3)
    with (Ok (E:=idolbin.error) b3).
  change (wire.slice [b0; b1; b2; b3; b4; b5; b6; b7] 4 8)
    with (Ok (E:=idolbin.error) [b4; b5; b6; b7]).
  cbn [obind]. rewrite paddedSize32.
  split.
  - intros [-> | ->]; reflexivity.
  - intros ->. reflexivity.
Qed.

(** The recomputation reads only the thunks of the tags it visits. *)
Lemma getIndirect_loop_ext b b' tags vo :
  length b = length b' ->
  (forall t (i : nat), t ∈ tags -> 8 * t <= Z.of_nat i < 8 * t + 8 -> b !! i = b' !! i) ->
  (forall t, t ∈ tags -> 0 <= t < 2^16) ->
  idolbin.getIndirect_loop b tags vo = idolbin.getIndirect_loop b' tags vo.
Proof.
  revert vo. induction tags as [|tag rest IH]; intros vo Hlen Hagree Hrange;
    [reflexivity|].
  cbn [idolbin.getIndirect_loop].
  destruct (wrap32_tag tag (Hrange tag ltac:(left))) as [E1 E2]. rewrite !E1, !E2.
  rewrite (slice_ext b b' (8 * tag) (8 * tag + 8) Hlen)
    by (intros i Hi; apply (Hagree tag); [left | exact Hi]).
  assert (IH' : forall vo, idolbin.getIndirect_loop b rest vo
                         = idolbin.getIndirect_loop b' rest vo).
  { intros vo1. apply IH; [exact Hlen| |].
    - intros t i Ht. apply Hagree. right. exact Ht.
    - intros t Ht. apply Hrange. right. exact Ht. }
  destruct (wire.slice b' (8 * tag) (8 * tag + 8)) as [thunk| |]; cbn [obind];
    try reflexivity.
  destruct (wire.index thunk 3) as [t3| |]; cbn [obind]; try reflexivity.
  destruct (Z.land (wire.u8 t3) 64 =? 0); [apply IH'|].
  destruct (wire.slice thunk 4 8) as [b48| |]; cbn [obind]; try reflexivity.
  apply IH'.
Qed.

(** What [decodeThunks] changes: only the first four bytes of the thunks it
    visits. *)
Lemma decodeThunks_loop_frame ms tags :
  forall b vo b' vo',
  idol.decodeThunks_loop b ms tags vo = Ok (b', vo') ->
  (forall t, t ∈ tags -> 0 <= t < 2^16) ->
  0 <= vo <= ms -> ms < 2^31 ->
  length b' = length b /\
  (forall i : nat,
     (forall t, t ∈ tags -> ~ (8 * t <= Z.of_nat i < 8 * t + 4)) ->
     b' !! i = b !! i) /\
  vo <= vo' <= ms /\
  (vo mod 8 = 0 -> vo' mod 8 = 0).
Proof.
  induction tags as [|tag rest IH]; intros b vo b' vo' H Hrange Hvo Hms.
  { cbn in H. injection H as <- <-. repeat split; auto; lia. }
  assert (Hrest : forall t, t ∈ rest -> 0 <= t < 2^16)
    by (intros t Ht; apply Hrange; right; exact Ht).
  destruct (decodeThunks_step _ _ _ _ _ _ _ H (Hrange tag ltac:(left)) Hvo Hms)
    as (b0 & b1 & b2 & b3 & b4 & b5 & b6 & b7 & Hthunk & [[_ Hloop] | [_ Hind]]).
  - destruct (IH _ _ _ _ Hloop Hrest Hvo Hms) as (Hl & Hf & Hv & Hm).
    repeat split; try assumption; try lia.
    intros i Hi. apply Hf. intros t Ht. apply Hi. right. exact Ht.
  - cbv zeta in Hind. destruct Hind as [Hle Hloop].
    pose proof (leUint32_bound [b4; b5; b6; b7]) as Hsz.
    destruct (padded_bounds _ Hsz) as [Hpad Hpad8].
    set (size := wire.leUint32 [b4; b5; b6; b7]) in *.
    apply slice_Ok in Hthunk. destruct Hthunk as (Ht0 & _ & Hthi & _ & _).
    destruct (IH _ _ _ _ Hloop Hrest ltac:(lia) Hms) as (Hl & Hf & Hv & Hm).
    rewrite length_put in Hl by (rewrite ?length_leBytes; lia).
    repeat split; try assumption; try lia.
    + intros i Hi. rewrite Hf by (intros t Ht; apply Hi; right; exact Ht).
      rewrite lookup_put by (rewrite ?length_leBytes; lia).
      rewrite length_leBytes.
      pose proof (Hi tag ltac:(left)) as Hitag.
      destruct (Z.leb_spec (8 * tag) (Z.of_nat i));
        destruct (Z.ltb_spec (Z.of_nat i) (8 * tag + Z.of_nat 4));
        try reflexivity.
      exfalso. apply Hitag. lia.
    + intros Hvo8. apply Hm. rewrite Z.add_mod, Hvo8, Hpad8 by lia. reflexivity.
Qed.
(** The offset that [decodeThunks] has reached after a run of tags is the
    one [getIndirect] recomputes over the same tags of the same buffer. *)
Lemma decodeThunks_loop_offsets ms tags :
  forall b vo b' vo',
  idol.decodeThunks_loop b ms tags vo = Ok (b', vo') ->
  NoDup tags ->
  (forall t, t ∈ tags -> 0 <= t < 2^16) ->
  0 <= vo <= ms -> ms < 2^31 ->
  idolbin.getIndirect_loop b tags vo = Ok vo'.
Proof.
  induction tags as [|tag rest IH]; intros b vo b' vo' H Hnd Hrange Hvo Hms.
  { cbn in H. injection H as <- <-. reflexivity. }
  assert (Hrest : forall t, t ∈ rest -> 0 <= t < 2^16)
    by (intros t Ht; apply Hrange; right; exact Ht).
  apply NoDup_cons in Hnd. destruct Hnd as [Hnotin Hnd].
  pose proof (Hrange tag ltac:(left)) as Htag.
  destruct (decodeThunks_step _ _ _ _ _ _ _ H Htag Hvo Hms)
    as (b0 & b1 & b2 & b3 & b4 & b5 & b6 & b7 & Hthunk & [[Hb3 Hloop] | [Hb3 Hind]]).
  - rewrite (proj1 (getIndirect_step b tag rest vo _ _ _ _ _ _ _ _ Htag Hthunk) Hb3).
    eapply IH; eauto.
  - rewrite (proj2 (getIndirect_step b tag rest vo _ _ _ _ _ _ _ _ Htag Hthunk) Hb3).
    cbv zeta in Hind. destruct Hind as [Hle Hloop].
    pose proof (leUint32_bound [b4; b5; b6; b7]) as Hsz.
    destruct (padded_bounds _ Hsz) as [Hpad Hpad8].
    set (size := wire.leUint32 [b4; b5; b6; b7]) in *.
    rewrite wrap32_small
      by (change (2^31) with 2147483648 in Hms;
          change (2^32) with 4294967296 in *; lia).
    apply slice_Ok in Hthunk. destruct Hthunk as (Ht0 & _ & Hthi & _ & _).
    rewrite (getIndirect_loop_ext b
               (wire.put b (8 * tag) (wire.leBytes 4 (vo / 8 + 0xC0000000)))).
    + eapply IH; eauto. lia.
    + rewrite length_put by (rewrite ?length_leBytes; lia). reflexivity.
    + intros t i Ht Hi.
      rewrite lookup_put by (rewrite ?length_leBytes; lia).
      rewrite length_leBytes.
      assert (t <> tag) by (intros ->; contradiction).
      destruct (Z.leb_spec (8 * tag) (Z.of_nat i));
        destruct (Z.ltb_spec (Z.of_nat i) (8 * tag + Z.of_nat 4));
        try reflexivity.
      exfalso. lia.
    + exact Hrest.
Qed.

Lemma decodeThunks_loop_app ms pre post :
  forall b vo,
  idol.decodeThunks_loop b ms (pre ++ post) vo =
  let* (b1, vo1) := idol.decodeThunks_loop b ms pre vo in
  idol.decodeThunks_loop b1 ms post vo1.
Proof.
  induction pre as [|tag pre IH]; intros b vo; [reflexivity|].
  cbn [app idol.decodeThunks_loop].
  repeat first
    [ reflexivity
    | apply IH
    | match goal with
      | |- obind ?m _ = obind (obind ?m _) _ => destruct m; cbn [obind]
      | |- (if ?c then _ else _) = obind (if ?c then _ else _) _ => destruct c
      | |- (if ?c then _ else _) = _ => destruct c
      end ].
Qed.
Lemma NewMessageDecoder_accepts buf d :
  idol.NewMessageDecoder buf = Ok d -> idol.Finish d = None ->
  let ms := Z.of_nat (length buf) in
  8 <= ms <= wire.MaxMessageSize /\
  exists b68,
    wire.slice (E:=idol.error) buf 6 8 = Ok b68 /\
    let tc := wire.leUint16 b68 in
    8 + 8 * tc <= ms /\
    idol.decodeThunks_loop buf ms (seqZ 1 tc) (8 + 8 * tc) = Ok (idol.d_buf d, ms).
Proof.
  intros H Hfin ms. unfold idol.NewMessageDecoder in H. unfold idol.Finish in Hfin.
  cbv zeta in H.
  destruct (Z.of_nat (length buf) >? wire.MaxUint32) eqn:Hmax;
    [injection H as <-; discriminate|].
  unfold wire.MaxUint32 in Hmax.
  rewrite (wrap32_small (Z.of_nat (length buf))) in H
    by (change (2^32) with 4294967296; lia).
  fold ms in H, Hmax.
  destruct (ms <? 8) eqn:H8; [injection H as <-; discriminate|].
  destruct (negb (ms mod 8 =? 0)) eqn:Hm8; [injection H as <-; discriminate|].
  destruct (ms >? wire.MaxMessageSize) eqn:Hmm; [injection H as <-; discriminate|].
  split; [lia|].
  inv_bind H. rename a into b04.
  destruct (negb (wire.leUint32 b04 =? ms)) eqn:Hsz; [injection H as <-; discriminate|].
  apply negb_false_iff, Z.eqb_eq in Hsz. rewrite Hsz in H.
  inv_bind H. rename a into b46.
  destruct (negb (wire.leUint16 b46 =? 0)); [injection H as <-; discriminate|].
  destruct (idol.decodeThunks buf ms) as [buf'|e|] eqn:Hdec;
    [|injection H as <-; discriminate|discriminate].
  injection H as <-. cbn [idol.d_buf].
  unfold idol.decodeThunks in Hdec. inv_bind Hdec. rename a into b68.
  exists b68. split; [exact Ha1|]. cbv zeta.
  pose proof (leUint16_bound b68) as Htc. change (2^16) with 65536 in Htc.
  rewrite wrap32_small in Hdec by (change (2^32) with 4294967296; lia).
  replace (8 + wire.leUint16 b68 * 8) with (8 + 8 * wire.leUint16 b68) in Hdec by lia.
  destruct (8 + 8 * wire.leUint16 b68 >? ms) eqn:Hgt; [discriminate|].
  split; [lia|].
  inv_bind Hdec. destruct a as [buf1 vo1].
  destruct (negb (vo1 =? ms)) eqn:Hend; [discriminate|].
  injection Hdec as <-. apply negb_false_iff, Z.eqb_eq in Hend. subst vo1.
  exact Ha2.
Qed.
Lemma same_payload_slice {E1 E2 A} (l l' : list A) lo hi :
  length l = length l' ->
  (forall i : nat, lo <= Z.of_nat i < hi -> l !! i = l' !! i) ->
  same_payload (wire.slice (E:=E1) l lo hi) (wire.slice (E:=E2) l' lo hi).
Proof.
  intros Hlen Hagree.
  rewrite (slice_ext (E:=E1) l l' lo hi Hlen Hagree).
  unfold wire.slice. destruct (_ && _); simpl; auto.
Qed.

(** C10.  For every buffer that both validations accept, and every present
    indirect field of it, reading the payload at the offset that
    [decodeThunks] cached in the thunk ([DecodedMessage.GetIndirect] on the
    decoder's buffer) and recomputing the offset from the sizes of the
    preceding indirect thunks ([MessageField.getIndirect] on the untouched
    buffer) end the same way: they return the same bytes, or both panic. *)
Theorem C10_cached_offset_refines_recomputed buf d msg tag f :
  idol.NewMessageDecoder buf = Ok d -> idol.Finish d = None ->
  idolbin.NewMessage buf = Ok msg ->
  0 <= tag < 2^16 ->
  idolbin.Field msg tag = Ok (Some f) ->
  idolbin.IsIndirect f = Ok true ->
  same_payload (idol.GetIndirect {| idol.buf := idol.d_buf d |} tag)
               (idolbin.getIndirect f).
Proof.
  intros Hdec Hfin Hnew Htag Hfield Hind.
  destruct (NewMessageDecoder_accepts _ _ Hdec Hfin) as (Hms & b68 & Hb68 & Hdata & Hloop).
  set (ms := Z.of_nat (length buf)) in *.
  pose proof (leUint16_bound b68) as Htc.
  set (tc := wire.leUint16 b68) in *.
  unfold wire.MaxMessageSize in Hms.
  change (2^16) with 65536 in Htc, Htag.
  assert (Hmsg : msg = {| idolbin.buf := buf |}).
  { unfold idolbin.NewMessage in Hnew.
    repeat match type of Hnew with
    | (if ?c then _ else _) = _ => destruct c; [discriminate|]
    | obind _ _ = _ => inv_bind Hnew
    end.
    injection Hnew as <-. reflexivity. }
  subst msg.
  (* The field and its thunk. *)
  unfold idolbin.Field in Hfield. cbn [idolbin.buf] in Hfield.
  replace ((length buf =? 0)%nat) with false in Hfield by (symmetry; apply Nat.eqb_neq; lia).
  destruct (tag =? 0) eqn:Htag0; [discriminate|]. cbn [orb] in Hfield.
  rewrite (slice_change_error _ _ _ _ Hb68) in Hfield. cbn [obind] in Hfield.
  fold tc in Hfield.
  destruct (tag >? tc) eqn:Htagtc; [discriminate|].
  rewrite (proj1 (wrap32_tag tag ltac:(change (2^16) with 65536; lia))) in Hfield.
  inv_bind Hfield. rename a into thunk, Ha into Hthunk.
  injection Hfield as <-.
  destruct (slice_8bytes _ _ _ _ Hthunk eq_refl)
    as (b0 & b1 & b2 & b3 & b4 & b5 & b6 & b7 & ->).
  unfold idolbin.IsIndirect in Hind. cbn in Hind. injection Hind as Hb3.
  apply Z.eqb_eq in Hb3.
  apply Z.eqb_neq in Htag0.
  assert (Htagle : 1 <= tag <= tc) by lia.
  set (buf' := idol.d_buf d) in *. clearbody buf'.
  (* Split the run of [decodeThunks] at the field's tag. *)
  assert (Hsplit : seqZ 1 tc = seqZ 1 (tag - 1) ++ tag :: seqZ (tag + 1) (tc - tag)).
  { replace tc with ((tag - 1) + (1 + (tc - tag))) at 1 by lia.
    rewrite seqZ_app by lia. f_equal.
    rewrite seqZ_cons by lia. f_equal; [lia|].
    f_equal; lia. }
  rewrite Hsplit, decodeThunks_loop_app in Hloop.
  inv_bind Hloop. destruct a as [bA voA]. rename Ha into Hpre.
  assert (HrangeA : forall t, t ∈ seqZ 1 (tag - 1) -> 0 <= t < 2^16).
  { intros t Ht. apply elem_of_seqZ in Ht. change (2^16) with 65536. lia. }
  assert (HrangeB : forall t, t ∈ seqZ (tag + 1) (tc - tag) -> 0 <= t < 2^16).
  { intros t Ht. apply elem_of_seqZ in Ht. change (2^16) with 65536. lia. }
  assert (Hms31 : ms < 2^31) by (change (2^31) with 2147483648; lia).
  destruct (decodeThunks_loop_frame _ _ _ _ _ _ Hpre HrangeA ltac:(lia) Hms31)
    as (HlenA & HframeA & HvoA & HvoA8).
  pose proof (decodeThunks_loop_offsets _ _ _ _ _ _ Hpre (NoDup_seqZ _ _) HrangeA
                ltac:(lia) Hms31) as HoffA.
  specialize (HvoA8 ltac:(rewrite Z.add_mod, Z.mul_comm, Z.mod_mul by lia; reflexivity)).
  (* The step at the field's own thunk. *)
  destruct (decodeThunks_step _ _ _ _ _ _ _ Hloop
              ltac:(change (2^16) with 65536; lia) ltac:(lia) Hms31)
    as (c0 & c1 & c2 & c3 & c4 & c5 & c6 & c7 & HthunkA & Hcase).
  assert (Hsame : [c0; c1; c2; c3; c4; c5; c6; c7] = [b0; b1; b2; b3; b4; b5; b6; b7]).
  { rewrite (slice_ext bA buf (8 * tag) (8 * tag + 8) HlenA) in HthunkA.
    - rewrite (slice_change_error (E2:=idol.error) _ _ _ _ Hthunk) in HthunkA.
      injection HthunkA as <- <- <- <- <- <- <- <-.
      reflexivity.
    - intros i Hi. apply HframeA. intros t Ht. apply elem_of_seqZ in Ht. lia. }
  injection Hsame as -> -> -> -> -> -> -> ->.
  pose proof (slice_change_error (E2:=idol.error) _ _ _ _ Hthunk) as HthunkA'.
  destruct Hcase as [[[Hz | Hz] _] | [_ Hstep]]; [lia | lia |].
  cbv zeta in Hstep. destruct Hstep as [Hle Hpost].
  pose proof (leUint32_bound [b4; b5; b6; b7]) as Hsz.
  destruct (padded_bounds _ Hsz) as [Hpad Hpad8].
  set (size := wire.leUint32 [b4; b5; b6; b7]) in *.
  set (cached := voA / 8 + 0xC0000000) in *.
  pose proof (slice_Ok _ _ _ _ Hthunk) as (_ & _ & Hthi & _ & _).
  fold ms in Hthi.
  destruct (decodeThunks_loop_frame _ _ _ _ _ _ Hpost HrangeB ltac:(lia) Hms31)
    as (HlenB & HframeB & _ & _).
  rewrite length_put in HlenB by (rewrite ?length_leBytes; lia).
  assert (Hlen : length buf' = length buf) by congruence.
  (* What the decoded buffer holds. *)
  assert (Hkeep : forall i : nat,
            (forall t, 1 <= t <= tc -> ~ (8 * t <= Z.of_nat i < 8 * t + 4)) ->
            buf' !! i = buf !! i).
  { intros i Hi.
    rewrite HframeB by (intros t Ht; apply elem_of_seqZ in Ht; apply Hi; lia).
    rewrite lookup_put by (rewrite ?length_leBytes; lia).
    rewrite length_leBytes.
    pose proof (Hi tag Htagle).
    destruct (Z.leb_spec (8 * tag) (Z.of_nat i));
      destruct (Z.ltb_spec (Z.of_nat i) (8 * tag + Z.of_nat 4));
      try (exfalso; lia); cbn [andb];
      apply HframeA; intros t Ht; apply elem_of_seqZ in Ht; apply Hi; lia. }
  assert (Hcached : forall i : nat, 8 * tag <= Z.of_nat i < 8 * tag + 4 ->
            buf' !! i = wire.leBytes 4 cached !! (i - Z.to_nat (8 * tag))%nat).
  { intros i Hi.
    rewrite HframeB by (intros t Ht; apply elem_of_seqZ in Ht; lia).
    rewrite lookup_put by (rewrite ?length_leBytes; lia).
    rewrite length_leBytes.
    destruct (Z.leb_spec (8 * tag) (Z.of_nat i));
      destruct (Z.ltb_spec (Z.of_nat i) (8 * tag + Z.of_nat 4));
      try (exfalso; lia). reflexivity. }
  change (2^32) with 4294967296 in *. change (2^31) with 2147483648 in Hms31.
  assert (Hcb : voA / 8 * 8 = voA /\ 0 <= voA / 8 < 268435456).
  { pose proof (Z.div_mod voA 8 ltac:(lia)).
    split; [lia|]. split; [apply Z.div_pos; lia | apply Z.div_lt_upper_bound; lia]. }
  destruct Hcb as [Hv8 Hvq].
  (* The recomputing side. *)
  assert (Hbin : idolbin.getIndirect
            {| idolbin.f_buf := buf;
               idolbin.f_thunk := [b0; b1; b2; b3; b4; b5; b6; b7];
               idolbin.f_tag := tag |}
          = wire.slice buf voA (wire.wrap32 (voA + size))).
  { unfold idolbin.getIndirect. cbn [idolbin.f_buf idolbin.f_thunk idolbin.f_tag].
    change (wire.index [b0; b1; b2; b3; b4; b5; b6; b7] 3)
      with (Ok (E:=idolbin.error) b3).
    cbn [obind]. rewrite Hb3. cbn [Z.eqb Pos.eqb].
    rewrite (slice_change_error _ _ _ _ Hb68). cbn [obind]. fold tc.
    replace (wire.wrap32 (8 + tc * 8)) with (8 + 8 * tc)
      by (rewrite wrap32_small by (change (2^32) with 4294967296; lia); lia).
    rewrite HoffA. cbn [obind].
    change (wire.slice [b0; b1; b2; b3; b4; b5; b6; b7] 4 8)
      with (Ok (E:=idolbin.error) [b4; b5; b6; b7]).
    cbn [obind]. reflexivity. }
  rewrite Hbin.
  (* The cached side. *)
  assert (Htc' : wire.slice (E:=idol.error) buf' 6 8 = Ok b68).
  { rewrite (slice_ext buf' buf 6 8 Hlen); [exact Hb68|].
    intros i Hi. apply Hkeep. intros t Ht. lia. }
  assert (Hsize' : wire.slice (E:=idol.error) buf' (8 * tag + 4) (8 * tag + 8)
                   = Ok [b4; b5; b6; b7]).
  { rewrite (slice_ext buf' buf (8 * tag + 4) (8 * tag + 8) Hlen).
    - apply (slice_slice buf (8 * tag) (8 * tag + 8) _ 4 8 _ HthunkA' eq_refl).
    - intros i Hi. apply Hkeep. intros t Ht. lia. }
  assert (Hc' : wire.slice (E:=idol.error) buf' (8 * tag) (8 * tag + 4)
                = Ok (wire.leBytes 4 cached)).
  { rewrite (slice_ext buf' (wire.put buf (8 * tag) (wire.leBytes 4 cached))).
    - apply (slice_put_same buf (8 * tag) (wire.leBytes 4 cached));
        rewrite ?length_leBytes; lia.
    - rewrite length_put by (rewrite ?length_leBytes; lia). exact Hlen.
    - intros i Hi. rewrite (Hcached i Hi).
      rewrite lookup_put by (rewrite ?length_leBytes; lia).
      rewrite length_leBytes.
      destruct (Z.leb_spec (8 * tag) (Z.of_nat i));
        destruct (Z.ltb_spec (Z.of_nat i) (8 * tag + Z.of_nat 4));
        try (exfalso; lia). reflexivity. }
  assert (Hb3' : wire.index (E:=idol.error) buf' (8 * tag + 3)
                 = Ok (wire.to_u8 (cached / 256 / 256 / 256))).
  { unfold wire.index.
    replace ((0 <=? 8 * tag + 3) && (8 * tag + 3 <? Z.of_nat (length buf')))
      with true by (rewrite Hlen; fold ms; lia).
    rewrite (Hcached (Z.to_nat (8 * tag + 3))) by lia.
    replace (Z.to_nat (8 * tag + 3) - Z.to_nat (8 * tag))%nat with 3%nat by lia.
    reflexivity. }
  unfold idol.GetIndirect, idol.Has. cbn [idol.buf].
  replace ((length buf' =? 0)%nat) with false
    by (symmetry; apply Nat.eqb_neq; rewrite Hlen; lia).
  rewrite Htc'. cbn [obind]. fold tc. rewrite Htagtc.
  destruct (wrap32_tag tag ltac:(change (2^16) with 65536; lia)) as [E1 _].
  rewrite !E1.
  rewrite !wrap32_small by (change (2^32) with 4294967296; lia).
  rewrite Hb3'. cbn [obind]. rewrite u8_to_u8.
  replace (cached / 256 / 256 / 256 mod 256 =? 0) with false.
  2:{ symmetry. apply Z.eqb_neq. unfold cached.
      rewrite !Z.div_div by lia. change (256 * (256 * 256)) with 16777216.
      pose proof (Z.div_mod (voA / 8 + 3221225472) 16777216 ltac:(lia)).
      assert (192 <= (voA / 8 + 3221225472) / 16777216 < 208)
        by (split; [apply Z.div_le_lower_bound; lia
                   | apply Z.div_lt_upper_bound; lia]).
      intros Hmod. apply Z.mod_divide in Hmod; [|lia].
      destruct Hmod as [k Hk]. lia. }
  cbn [negb]. rewrite Hsize'. cbn [obind]. fold size.
  destruct (Z.eqb_spec size 0) as [Hs0 | Hs0].
  - rewrite Hs0, Z.add_0_r, wrap32_small by (change (2^32) with 4294967296; lia).
    unfold wire.slice.
    replace ((0 <=? voA) && (voA <=? voA) && (voA <=? Z.of_nat (length buf)))
      with true by (fold ms; lia).
    rewrite Z.sub_diag. reflexivity.
  - rewrite Hc'. cbn [obind].
    unfold wire.leUint32. rewrite take_ge by (rewrite length_leBytes; lia).
    rewrite leUint_leBytes. change (256 ^ Z.of_nat 4) with 4294967296.
    rewrite (Z.mod_small cached) by (unfold cached; lia).
    change 268435455 with (Z.ones 28). rewrite Z.land_ones by lia.
    replace (cached mod 2^28) with (voA / 8).
    2:{ unfold cached. change 3221225472 with (12 * 2^28).
        rewrite Z.mod_add by lia. symmetry. apply Z.mod_small.
        change (2^28) with 268435456. lia. }
    rewrite Z.shiftl_mul_pow2 by lia. change (2^3) with 8. rewrite Hv8.
    rewrite (wrap32_small voA) by (change (2^32) with 4294967296; lia).
    apply same_payload_slice; [exact Hlen|].
    intros i Hi. apply Hkeep. intros t Ht. lia.
Qed.

Lemma C10_cached_offset_refines_recomputed_witness :
  idol.NewMessageDecoder examples.helloWire
  = Ok {| idol.d_buf := wire.put examples.helloWire 24 (wire.bytes [4; 0; 0; 0xC0]);
          idol.d_err := None |} /\
  same_payload
    (idol.GetIndirect
       {| idol.buf := wire.put examples.helloWire 24 (wire.bytes [4; 0; 0; 0xC0]) |} 3)
    (idolbin.getIndirect
       {| idolbin.f_buf := examples.helloWire;
          idolbin.f_thunk := wire.bytes [0; 0; 0; 0xC0; 6; 0; 0; 0];
          idolbin.f_tag := 3 |}).
Proof.
  split; [vm_compute; reflexivity|].
  apply (C10_cached_offset_refines_recomputed examples.helloWire
           {| idol.d_buf := wire.put examples.helloWire 24 (wire.bytes [4; 0; 0; 0xC0]);
              idol.d_err := None |}
           {| idolbin.buf := examples.helloWire |}).
  - vm_compute. reflexivity.
  - reflexivity.
  - vm_compute. reflexivity.
  - lia.
  - vm_compute. reflexivity.
  - vm_compute. reflexivity.
Defined.

(** ** Merging dependency schemas *)

Section schema_set_facts.
Import compiler schema_idl.
Context {D : Decoded}.

(** A declaration as one of the six loops of [Merge] builds it. *)
Inductive contributed : mergedDecl -> Prop :=
| contributed_const c : contributed (constDecl c)
| contributed_enum e : contributed (enumDecl e)
| contributed_struct s : contributed (structDecl s)
| contributed_message m : contributed (messageDecl m)
| contributed_union u : contributed (unionDecl u)
| contributed_protocol p : contributed (protocolDecl p).

Definition entry_ok (d : mergedDecl) : Prop := d = conflictDecl \/ contributed d.

Lemma contributed_no_conflict d : contributed d -> md_conflict d = false.
Proof. by destruct 1. Qed.

Lemma contributed_not_conflictDecl d : contributed d -> d <> conflictDecl.
Proof. by destruct 1. Qed.

Lemma sameDecl_eq a b :
  contributed a -> contributed b -> sameDecl a b = bool_decide (a = b).
Proof.
  intros Ha Hb. unfold sameDecl.
  destruct Ha, Hb; simpl;
    repeat case_bool_decide; simpl; try reflexivity; try congruence;
    simplify_eq; try congruence.
Qed.

Lemma canUnifyMergedDecls_entries a b :
  entry_ok a -> entry_ok b ->
  canUnifyMergedDecls a b = Ok (bool_decide (a = b) && negb (md_conflict a)).
Proof.
  intros [->|Ha] [->|Hb].
  - reflexivity.
  - unfold canUnifyMergedDecls. simpl. by rewrite andb_false_r.
  - unfold canUnifyMergedDecls.
    rewrite (contributed_no_conflict _ Ha). simpl.
    rewrite bool_decide_eq_false_2; [done|].
    by apply contributed_not_conflictDecl.
  - destruct Ha, Hb; unfold canUnifyMergedDecls; simpl;
      repeat (case_bool_decide; simpl); try reflexivity; try congruence;
      simplify_eq; try congruence.
Qed.

(** The entry for one more declaration [d] under a name that holds [prev]. *)
Definition joinEntry (prev : option mergedDecl) (d : mergedDecl) : mergedDecl :=
  match prev with
  | None => d
  | Some p => if bool_decide (d = p) && negb (md_conflict d) then p else conflictDecl
  end.

Definition joinOpt (prev cur : option mergedDecl) : option mergedDecl :=
  match cur with
  | None => prev
  | Some d => Some (joinEntry prev d)
  end.

Lemma unified_entry_ok l d :
  Forall contributed l -> unified l = Some d -> entry_ok d.
Proof.
  intros Hl. destruct l as [|a r]; simpl; [done|].
  intros [= <-]. destruct (forallb _ _); [right|left]; [|done].
  by inversion Hl.
Qed.

Lemma forallb_sameDecl a l :
  contributed a -> Forall contributed l ->
  forallb (sameDecl a) l = bool_decide (Forall (eq a) l).
Proof.
  intros Ha. induction 1 as [|x l Hx Hl IH]; cbn [forallb].
  - symmetry. apply bool_decide_eq_true_2. constructor.
  - rewrite IH, sameDecl_eq by done.
    destruct (decide (a = x)) as [->|Hne].
    + rewrite (bool_decide_eq_true_2 (x = x)) by done. simpl.
      apply bool_decide_ext. split; [by constructor|by inversion 1].
    + rewrite (bool_decide_eq_false_2 (a = x)) by done. simpl.
      symmetry. apply bool_decide_eq_false_2. by inversion 1.
Qed.

Lemma joinOpt_unified l1 l2 :
  Forall contributed l1 -> Forall contributed l2 ->
  joinOpt (unified l1) (unified l2) = unified (l1 ++ l2).
Proof.
  intros H1 H2.
  destruct l2 as [|b r2]; [by rewrite app_nil_r|].
  destruct l1 as [|a r1]; [done|].
  inversion H1 as [|? ? Ha Hr1]; subst. inversion H2 as [|? ? Hb Hr2]; subst.
  simpl. f_equal.
  rewrite forallb_app. simpl.
  rewrite !forallb_sameDecl by done.
  rewrite sameDecl_eq by done.
  destruct (decide (Forall (eq a) r1)) as [A1|A1];
    [rewrite (bool_decide_eq_true_2 _ A1)|rewrite (bool_decide_eq_false_2 _ A1)];
    (destruct (decide (Forall (eq b) r2)) as [A2|A2];
     [rewrite (bool_decide_eq_true_2 _ A2)|rewrite (bool_decide_eq_false_2 _ A2)]);
    simpl.
  - rewrite (contributed_no_conflict _ Hb). simpl.
    destruct (decide (a = b)) as [->|Hne].
    + rewrite !(bool_decide_eq_true_2 (b = b)) by done.
      by rewrite (bool_decide_eq_true_2 _ A2).
    + rewrite (bool_decide_eq_false_2 (a = b)) by done.
      rewrite (bool_decide_eq_false_2 (b = a)) by congruence. done.
  - destruct (decide (a = b)) as [->|Hne].
    + by rewrite (bool_decide_eq_false_2 _ A2), !andb_false_r.
    + rewrite (bool_decide_eq_false_2 (a = b)) by done.
      by rewrite andb_false_r.
  - rewrite bool_decide_eq_false_2; [done|].
    by apply contributed_not_conflictDecl.
  - done.
Qed.

Lemma set_entries ds k v :
  (forall p, ds !! k = Some p -> entry_ok p) -> entry_ok v ->
  set ds k v = Ok (<[k := joinEntry (ds !! k) v]> ds).
Proof.
  intros Hds Hv. unfold set.
  destruct (ds !! k) as [p|] eqn:E; [|done].
  rewrite canUnifyMergedDecls_entries by auto. simpl.
  destruct (bool_decide (v = p) && negb (md_conflict v)); simpl; [|done].
  by rewrite insert_id.
Qed.

Lemma contributed_filter (k : list byte) (l : list (list byte * mergedDecl)) :
  Forall (fun kv => contributed kv.2) l ->
  Forall contributed (map snd (filter (fun kv => kv.1 = k) l)).
Proof.
  intros Hl. apply Forall_forall. intros d Hd.
  apply list_elem_of_fmap in Hd as (kv & -> & Hin).
  apply list_elem_of_filter in Hin as [_ Hin].
  rewrite Forall_forall in Hl. by apply Hl.
Qed.

(** The first loop of [mergeSchema]: under every name the map holds the
    unification of what has been seen. *)
Lemma foldM_set l : forall seen ds,
  Forall (fun kv => contributed kv.2) seen ->
  Forall (fun kv => contributed kv.2) l ->
  (forall k, ds !! k = unified (map snd (filter (fun kv => kv.1 = k) seen))) ->
  exists ds',
    foldM (fun ds kv => set ds kv.1 kv.2) l ds = Ok ds' /\
    forall k, ds' !! k = unified (map snd (filter (fun kv => kv.1 = k) (seen ++ l))).
Proof.
  induction l as [|[k0 v] l IH]; intros seen ds Hseen Hl Hds.
  - exists ds. split; [done|]. intros k. by rewrite app_nil_r.
  - inversion Hl as [|? ? Hv Hl']; subst. simpl in Hv.
    assert (Hfil : forall k, Forall contributed
              (map snd (filter (fun kv : list byte * mergedDecl => kv.1 = k) seen))).
    { intros k. by apply contributed_filter. }
    simpl. rewrite set_entries; simpl.
    2:{ intros p Hp. rewrite Hds in Hp. eapply unified_entry_ok; [|exact Hp]. apply Hfil. }
    2:{ by right. }
    destruct (IH (seen ++ [(k0, v)]) (<[k0 := joinEntry (ds !! k0) v]> ds))
      as (ds' & Hrun & Hlook).
    + apply Forall_app. split; [done|]. by constructor.
    + done.
    + intros k. rewrite filter_app, map_app.
      rewrite <- joinOpt_unified.
      2:{ apply Hfil. }
      2:{ apply contributed_filter. by constructor. }
      rewrite <- Hds.
      destruct (decide (k0 = k)) as [->|Hne].
      * rewrite lookup_insert_eq.
        rewrite filter_cons_True by done. by simpl.
      * rewrite lookup_insert_ne by done.
        rewrite filter_cons_False by done. by simpl.
    + exists ds'. split; [done|].
      intros k. rewrite Hlook. by rewrite <- app_assoc.
Qed.

Lemma mergeInto_entries ds prev k d :
  ds !! k = Some d -> entry_ok d ->
  (forall p, prev !! k = Some p -> entry_ok p) ->
  mergeInto ds prev k = Ok (<[k := joinEntry (prev !! k) d]> prev).
Proof.
  intros Hd Hok Hprev. unfold mergeInto. rewrite Hd.
  destruct (prev !! k) as [p|] eqn:E; [|done].
  rewrite canUnifyMergedDecls_entries by auto. simpl.
  destruct (bool_decide (d = p) && negb (md_conflict d)); simpl; [|done].
  by rewrite insert_id.
Qed.

Lemma joinEntry_ok prev d :
  (forall p, prev = Some p -> entry_ok p) -> entry_ok d ->
  entry_ok (joinEntry prev d).
Proof.
  intros Hp Hd. destruct prev as [p|]; simpl; [|done].
  destruct (_ && _); [by apply Hp|by left].
Qed.

(** The second loop of [mergeSchema], over the names of the later schema. *)
Lemma foldM_mergeInto ds ks : forall prev,
  NoDup ks ->
  (forall k, k ∈ ks -> is_Some (ds !! k)) ->
  (forall k d, ds !! k = Some d -> entry_ok d) ->
  (forall k p, prev !! k = Some p -> entry_ok p) ->
  exists prev',
    foldM (mergeInto ds) ks prev = Ok prev' /\
    forall k, prev' !! k =
      if bool_decide (k ∈ ks) then joinOpt (prev !! k) (ds !! k) else prev !! k.
Proof.
  induction ks as [|k0 ks IH]; intros prev Hnd Hin Hds Hprev.
  - exists prev. split; [done|]. intros k.
    rewrite bool_decide_eq_false_2; [done|]. by apply not_elem_of_nil.
  - inversion Hnd as [|? ? Hnotin Hnd']; subst.
    destruct (Hin k0) as [d Hd]; [by left|].
    simpl. rewrite (mergeInto_entries _ _ _ _ Hd) by eauto. simpl.
    destruct (IH (<[k0 := joinEntry (prev !! k0) d]> prev)) as (prev' & Hrun & Hlook).
    + done.
    + intros k Hk. apply Hin. by right.
    + done.
    + intros k p. destruct (decide (k0 = k)) as [->|Hne].
      * rewrite lookup_insert_eq. intros [= <-].
        apply joinEntry_ok; eauto.
      * rewrite lookup_insert_ne by done. eauto.
    + exists prev'. split; [done|].
      intros k. rewrite Hlook.
      destruct (decide (k = k0)) as [->|Hne].
      * rewrite (bool_decide_eq_false_2 (k0 ∈ ks)) by done.
        rewrite (bool_decide_eq_true_2 (k0 ∈ k0 :: ks)) by (by left).
        rewrite lookup_insert_eq, Hd. done.
      * rewrite lookup_insert_ne by done.
        rewrite (bool_decide_ext (k ∈ k0 :: ks) (k ∈ ks)); [done|].
        rewrite elem_of_cons. split; [intros [?|?]; [congruence|done]|by right].
Qed.


Lemma schemaDecls_contributed schema :
  Forall (fun kv => contributed kv.2) (schemaDecls schema).
Proof.
  unfold schemaDecls. repeat (apply Forall_app; split);
    apply Forall_forall; intros kv Hkv;
    apply list_elem_of_fmap in Hkv as (x & -> & _); constructor.
Qed.

(** What the map of maps holds once the schemas [done] have been merged. *)
Definition merged_upto (done : list Schema)
    (declsByNs : gmap (list byte) (gmap (list byte) mergedDecl)) : Prop :=
  forall ns,
    match declsByNs !! ns with
    | Some ds => forall name, ds !! name = unified (contributions done ns name)
    | None => forall name, contributions done ns name = []
    end.

Lemma contributions_snoc done schema ns name :
  contributions (done ++ [schema]) ns name =
  contributions done ns name ++
  (if decide (Schema_Namespace schema = ns)
   then map snd (filter (fun kv => kv.1 = name) (schemaDecls schema))
   else []).
Proof.
  unfold contributions. rewrite flat_map_app. simpl. by rewrite app_nil_r.
Qed.

Lemma contributions_contributed schemas ns name :
  Forall contributed (contributions schemas ns name).
Proof.
  unfold contributions. induction schemas as [|s l IH]; simpl; [constructor|].
  apply Forall_app. split; [|done].
  destruct (decide _); [|constructor].
  apply contributed_filter, schemaDecls_contributed.
Qed.

Lemma mergeSchema_step done declsByNs schema :
  merged_upto done declsByNs ->
  exists declsByNs',
    mergeSchema declsByNs schema = Ok declsByNs' /\
    merged_upto (done ++ [schema]) declsByNs'.
Proof.
  intros Hinv. unfold mergeSchema.
  destruct (foldM_set (schemaDecls schema) [] ∅) as (ds & Hrun & Hds).
  { constructor. } { apply schemaDecls_contributed. } { intros k. by rewrite lookup_empty. }
  rewrite Hrun. simpl in Hds |- *.
  set (ns0 := Schema_Namespace schema).
  assert (Hdsok : forall k d, ds !! k = Some d -> entry_ok d).
  { intros k d Hd. rewrite Hds in Hd. eapply unified_entry_ok; [|exact Hd].
    apply contributed_filter, schemaDecls_contributed. }
  pose proof (Hinv ns0) as Hns0.
  destruct (declsByNs !! ns0) as [prevDecls|] eqn:Eprev.
  - destruct (foldM_mergeInto ds (slices_Sorted (map fst (map_to_list ds))) prevDecls)
      as (merged & Hmrun & Hm).
    + unfold slices_Sorted. rewrite merge_sort_Permutation.
      apply NoDup_fst_map_to_list.
    + intros k Hk. unfold slices_Sorted in Hk.
      rewrite merge_sort_Permutation in Hk.
      apply list_elem_of_fmap in Hk as ([k' d] & -> & Hin).
      apply elem_of_map_to_list in Hin. by exists d.
    + done.
    + intros k p Hp. rewrite Hns0 in Hp.
      eapply unified_entry_ok; [|exact Hp]. apply contributions_contributed.
    + rewrite Hmrun. simpl. eexists. split; [done|].
      intros ns. destruct (decide (ns = ns0)) as [->|Hne].
      * rewrite lookup_insert_eq. intros name.
        rewrite contributions_snoc. fold ns0.
        rewrite decide_True by done.
        rewrite <- joinOpt_unified.
        2:{ apply contributions_contributed. }
        2:{ apply contributed_filter, schemaDecls_contributed. }
        rewrite <- Hds, <- Hns0, Hm.
        case_bool_decide as Hin; [done|].
        destruct (ds !! name) as [d|] eqn:Ed; [|done].
        exfalso. apply Hin. unfold slices_Sorted.
        rewrite merge_sort_Permutation.
        apply list_elem_of_fmap. exists (name, d). split; [done|].
        by apply elem_of_map_to_list.
      * rewrite lookup_insert_ne by done.
        pose proof (Hinv ns) as Hns.
        destruct (declsByNs !! ns); intros name; rewrite contributions_snoc;
          fold ns0; rewrite decide_False by done; rewrite app_nil_r; apply Hns.
  - eexists. split; [done|].
    intros ns. destruct (decide (ns = ns0)) as [->|Hne].
    + rewrite lookup_insert_eq. intros name.
      rewrite contributions_snoc. fold ns0. rewrite decide_True by done.
      rewrite Hns0. simpl. apply Hds.
    + rewrite lookup_insert_ne by done.
      pose proof (Hinv ns) as Hns.
      destruct (declsByNs !! ns); intros name; rewrite contributions_snoc;
        fold ns0; rewrite decide_False by done; rewrite app_nil_r; apply Hns.
Qed.

Lemma foldM_mergeSchema rest : forall done declsByNs,
  merged_upto done declsByNs ->
  exists declsByNs',
    foldM mergeSchema rest declsByNs = Ok declsByNs' /\
    merged_upto (done ++ rest) declsByNs'.
Proof.
  induction rest as [|s rest IH]; intros done declsByNs Hinv.
  - exists declsByNs. by rewrite app_nil_r.
  - destruct (mergeSchema_step _ _ s Hinv) as (d1 & Hrun1 & Hinv1).
    destruct (IH _ _ Hinv1) as (d2 & Hrun2 & Hinv2).
    exists d2. simpl. rewrite Hrun1. simpl. split; [done|].
    by rewrite <- app_assoc in Hinv2.
Qed.

Lemma Merge_lookup schemas :
  exists s,
    Merge schemas = Ok s /\
    forall ns name, lookupDecl s ns name = unified (contributions schemas ns name).
Proof.
  destruct (foldM_mergeSchema schemas [] ∅) as (m & Hrun & Hinv).
  { intros ns. by rewrite lookup_empty. }
  unfold Merge. rewrite Hrun. simpl. eexists. split; [done|].
  intros ns name. unfold lookupDecl. simpl.
  pose proof (Hinv ns) as Hns. simpl in Hns.
  destruct (m !! ns); [apply Hns|by rewrite Hns].
Qed.

(** C9.  [Merge] never fails.  Under every namespace and name the merged
    set holds nothing if no schema contributes a declaration, the first
    contribution if every other one has the same declaration category and
    an identical payload, and the conflict marker otherwise; two
    contributions unify exactly when they have the same category and the
    same payload; and resolving a name whose entry is a conflict, as an
    export, as a type or as a constant, returns error code 3006. *)
Theorem C9_merge_unifies_or_conflicts (schemas : list Schema) :
  exists s,
    Merge schemas = Ok s /\
    (forall ns name,
       lookupDecl s ns name = unified (contributions schemas ns name)) /\
    (forall ns name a b,
       a ∈ contributions schemas ns name ->
       b ∈ contributions schemas ns name ->
       canUnifyMergedDecls a b = Ok (sameDecl a b)) /\
    (forall ns name d importSpan useSpan,
       lookupDecl s ns name = Some d -> md_conflict d = true ->
       (exists e, SchemaSet_resolveExport s ns name useSpan = Err e /\
                  code e = 3006 /\ span e = useSpan) /\
       (exists e, SchemaSet_resolveType s ns name importSpan useSpan = Err e /\
                  code e = 3006 /\ span e = importSpan) /\
       (exists e, SchemaSet_resolveConst s ns name importSpan useSpan = Err e /\
                  code e = 3006 /\ span e = importSpan)).
Proof.
  destruct (Merge_lookup schemas) as (s & Hrun & Hlook).
  exists s. split; [done|]. split; [done|]. split.
  - intros ns name a b Ha Hb.
    pose proof (contributions_contributed schemas ns name) as Hall.
    rewrite Forall_forall in Hall.
    rewrite canUnifyMergedDecls_entries by (right; auto).
    rewrite sameDecl_eq by auto.
    rewrite (contributed_no_conflict a) by auto. by rewrite andb_true_r.
  - intros ns name d importSpan useSpan Hd Hc.
    unfold SchemaSet_resolveExport, SchemaSet_resolveType, SchemaSet_resolveConst.
    rewrite Hd, Hc. repeat split; eexists; (split; [reflexivity|by split]).
Qed.

End schema_set_facts.

Lemma C9_merge_unifies_or_conflicts_witness :
  exists s,
    compiler.Merge (H:=examples.decoded) [examples.depOne; examples.depTwo] = Ok s /\
    compiler.lookupDecl s (str "dep") (str "K") = Some compiler.conflictDecl /\
    compiler.lookupDecl s (str "dep") (str "A")
    = Some (compiler.constDecl (H:=examples.decoded) (str "A", wire.bytes [1])) /\
    exists e,
      compiler.SchemaSet_resolveConst s (str "dep") (str "K")
        (syntax.NewSpan 0 1) (syntax.NewSpan 2 1) = Err e /\
      compiler.code e = 3006.
Proof.
  destruct (C9_merge_unifies_or_conflicts (D:=examples.decoded)
              [examples.depOne; examples.depTwo])
    as (s & Hrun & Hlook & _ & Hres).
  exists s. split; [exact Hrun|].
  assert (HK : compiler.lookupDecl s (str "dep") (str "K")
               = Some compiler.conflictDecl).
  { rewrite Hlook. vm_compute. reflexivity. }
  split; [exact HK|]. split.
  - rewrite Hlook. vm_compute. reflexivity.
  - destruct (Hres (str "dep") (str "K") compiler.conflictDecl
                (syntax.NewSpan 0 1) (syntax.NewSpan 2 1) HK eq_refl)
      as (_ & _ & e & He & Hcode & _).
    exists e. split; [exact He|exact Hcode].
Defined.


(** ** The compiler *)

Section compile_facts.
Import syntax schema_idl compiler.
Context {D : Decoded}.
Context {OptionsBuilder UninterpretedOptions__Builder : Type}.
Context {Struct__Builder Message__Builder Union__Builder Protocol__Builder : Type}.
Context (zeroOptions : OptionsBuilder).
Context (Uninterpreted_Add :
           OptionsBuilder -> UninterpretedOptions__Builder -> OptionsBuilder).
Context (ext : callees (D:=D) (OptionsBuilder:=OptionsBuilder)
                 (UninterpretedOptions__Builder:=UninterpretedOptions__Builder)
                 (Struct__Builder:=Struct__Builder)
                 (Message__Builder:=Message__Builder)
                 (Union__Builder:=Union__Builder)
                 (Protocol__Builder:=Protocol__Builder)).

#[local] Abbreviation state :=
  (compiler (D:=D) (OptionsBuilder:=OptionsBuilder)
     (Struct__Builder:=Struct__Builder) (Message__Builder:=Message__Builder)
     (Union__Builder:=Union__Builder) (Protocol__Builder:=Protocol__Builder)).

(** *** The result of a compilation *)



(** *** Integer literals against integer types *)

Lemma IntLit_negative_Some lit :
  il_raw lit <> [] -> exists b, IntLit_negative lit = Some b.
Proof. unfold IntLit_negative. destruct (il_raw lit); [done|]. by eexists. Qed.

Lemma to_u8_mod z : wire.to_u8 (z mod 256) = wire.to_u8 z.
Proof. unfold wire.to_u8. by rewrite Z.mod_mod. Qed.

Lemma errValueOutOfRange_int t lo hi n lit :
  il_raw lit <> [] -> intRange t = Some (lo, hi, n) ->
  exists e,
    errValueOutOfRange t lit = Some e /\
    compiler.code e = 3016 /\ compiler.span e = IntLit_Span lit.
Proof.
  intros Hraw Ht. destruct (IntLit_negative_Some lit Hraw) as [b Hb].
  unfold errValueOutOfRange, IntLit_GetInt64, IntLit_GetUint64. rewrite Hb.
  destruct t; try discriminate;
    destruct (b || (il_value lit <=? 2 ^ 63 - 1)); simpl;
    destruct (negb b); simpl; eexists; (split; [reflexivity|by split]).
Qed.

Lemma errValueOutOfRange_float t lit :
  il_raw lit <> [] -> t = Type_F32 \/ t = Type_F64 ->
  exists e,
    errValueOutOfRange t lit = Some e /\
    compiler.code e = 3016 /\ compiler.span e = IntLit_Span lit.
Proof.
  intros Hraw Ht. destruct (IntLit_negative_Some lit Hraw) as [b Hb].
  unfold errValueOutOfRange, IntLit_GetInt64, IntLit_GetUint64. rewrite Hb.
  destruct Ht as [-> | ->];
    destruct (b || (il_value lit <=? 2 ^ 63 - 1)); simpl;
    destruct (negb b); simpl; eexists; (split; [reflexivity|by split]).
Qed.

(** X2.  An integer literal compiled against one of the eight integer
    types is accepted exactly when it fits the type; it is then encoded in
    little-endian two's complement on the size of the type, and otherwise
    rejected with error 3016 on the span of the literal, the state of the
    compiler unchanged. *)
Theorem compileValue_int_range dst t lo hi n lit (c : state) :
  il_raw lit <> [] -> 0 <= il_value lit < 2^64 ->
  intRange t = Some (lo, hi, n) ->
  (intLitFits t lo hi lit = true ->
   compileValue dst (builtinType t) (Some (N_IntLit lit)) c
   = Ok (wire.leBytes n (IntLit_value lit mod 2 ^ (8 * Z.of_nat n)), c)) /\
  (intLitFits t lo hi lit = false ->
   exists e,
     compileValue dst (builtinType t) (Some (N_IntLit lit)) c = Err (e, c) /\
     compiler.code e = 3016 /\ compiler.span e = IntLit_Span lit).
Proof.
  intros Hraw Hval Ht.
  destruct (errValueOutOfRange_int t lo hi n lit Hraw Ht) as (e & He & Hcode & Hspan).
  destruct (IntLit_negative_Some lit Hraw) as [b Hb].
  unfold intLitFits, IntLit_value. rewrite Hb.
  assert (Hbd : bool_decide (Some b = Some true) = b).
  { destruct b; [by apply bool_decide_eq_true_2|by apply bool_decide_eq_false_2]. }
  rewrite Hbd. clear Hbd.
  unfold compileValue, builtinType, isEnum; simpl.
  destruct t; try discriminate; injection Ht as <- <- <-; simpl;
    unfold compileIntLit, bindM, liftO, failO, bindM, liftO, ret, fail, panic;
    unfold IntLit_GetUint8, IntLit_GetUint16, IntLit_GetUint32, IntLit_GetUint64,
      IntLit_GetUint, IntLit_GetInt8, IntLit_GetInt16, IntLit_GetInt32,
      IntLit_GetInt64, IntLit_GetInt;
    rewrite Hb, He; unfold int64; simpl.
  all: change (2 ^ 63) with 9223372036854775808;
    change (2 ^ 64) with 18446744073709551616 in *.
  all: destruct b; simpl;
    repeat match goal with
    | |- context [?a <=? ?b] => destruct (Z.leb_spec a b); simpl
    | |- context [?a <? ?b] => destruct (Z.ltb_spec a b); simpl
    end; try lia.
  all: split; intros Hfit; try discriminate;
    try (exists e; split; [reflexivity|by split]).
  all: try (f_equal; f_equal; unfold wire.wrap16, wire.wrap32, wire.wrap64;
            first [ by rewrite to_u8_mod
                  | reflexivity
                  | f_equal; symmetry; apply Z.mod_small; lia
                  | f_equal; lia ]).
  all: rewrite Z.mod_small; [reflexivity|].
  all: change (Z.of_nat 2) with 2; change (Z.of_nat 4) with 4;
    change (Z.of_nat 8) with 8; simpl; lia.
Qed.

(** *** Integer literals against floating-point types *)

Lemma testbit_div a n :
  0 <= n -> Z.testbit a n = ((a / 2 ^ n) mod 2 =? 1).
Proof.
  intros Hn. destruct (Z.testbit a n) eqn:E.
  - apply Z.testbit_true in E; [|done]. symmetry. by apply Z.eqb_eq.
  - symmetry. apply Z.eqb_neq. intros H. apply Z.testbit_true in H; [|done].
    congruence.
Qed.

(** The fields of a bit pattern put together from a sign [s], a biased
    exponent [x] and a fraction [f]. *)
Lemma floatOfBits_fields mb bias sb (s : bool) x f :
  0 < mb -> mb < sb -> 0 < x < 2 ^ (sb - mb) - 1 -> 0 <= f < 2 ^ mb ->
  floatOfBits mb bias sb ((if s then 2 ^ sb else 0) + x * 2 ^ mb + f)
  = Some (if s then - (2 ^ mb + f) else 2 ^ mb + f, x - bias - mb).
Proof.
  intros HM HS Hx Hf.
  set (T := 2 ^ mb). set (K := 2 ^ (sb - mb)).
  assert (HT : 0 < T) by (apply Z.pow_pos_nonneg; lia).
  assert (HK : 0 < K) by (apply Z.pow_pos_nonneg; lia).
  assert (HTK : 2 ^ sb = K * T).
  { unfold K, T. rewrite <- Z.pow_add_r by lia. f_equal. lia. }
  set (sv := if s then 1 else 0).
  assert (Hbits : (if s then 2 ^ sb else 0) + x * T + f = (sv * K + x) * T + f).
  { unfold sv. destruct s; rewrite ?HTK; ring. }
  unfold floatOfBits. fold T. fold K. rewrite Hbits.
  assert (Hfrac : ((sv * K + x) * T + f) mod T = f).
  { symmetry. apply (Z.mod_unique _ _ (sv * K + x)); [left; lia|ring]. }
  assert (Hdiv : ((sv * K + x) * T + f) / T = sv * K + x).
  { symmetry. apply (Z.div_unique _ _ _ f); [left; lia|ring]. }
  assert (Hexp : (sv * K + x) mod K = x).
  { symmetry. apply (Z.mod_unique _ _ sv); [left; unfold K in *; lia|ring]. }
  assert (Hsign : Z.testbit ((sv * K + x) * T + f) sb = s).
  { rewrite testbit_div by lia. rewrite HTK.
    replace (((sv * K + x) * T + f) / (K * T)) with sv.
    - unfold sv. by destruct s.
    - apply (Z.div_unique _ _ _ (x * T + f)); [left|ring].
      split; [nia|]. unfold K in *. nia. }
  rewrite Hsign, Hdiv, Hexp, Hfrac.
  destruct (Z.eqb_spec x (K - 1)); [unfold K in *; lia|].
  destruct (Z.eqb_spec x 0); [lia|]. reflexivity.
Qed.

Lemma floatBitsOfInt_denotes mb bias sb v :
  0 < mb -> mb < sb -> 0 < bias -> mb + 1 + bias < 2 ^ (sb - mb) - 1 ->
  Z.abs v <= 2 ^ (mb + 1) ->
  denotesInt mb bias sb (floatBitsOfInt mb bias sb v) v.
Proof.
  intros HM HS HB HE Hv. unfold denotesInt, floatBitsOfInt.
  destruct (Z.eqb_spec v 0) as [->|Hnz].
  { exists 0, (1 - bias - mb). split.
    - unfold floatOfBits. rewrite Z.bits_0, Z.div_0_l, !Z.mod_0_l.
      + destruct (Z.eqb_spec 0 (2 ^ (sb - mb) - 1)); [lia|]. reflexivity.
      + apply Z.pow_nonzero; lia.
      + apply Z.pow_nonzero; lia.
      + apply Z.pow_nonzero; lia.
    - destruct (0 <=? 1 - bias - mb); lia. }
  set (n := Z.abs v) in *.
  assert (Hn : 0 < n) by (unfold n; lia).
  set (e := Z.log2 n).
  destruct (Z.log2_spec n Hn) as [Hlo Hhi]. fold e in Hlo, Hhi.
  assert (He0 : 0 <= e) by apply Z.log2_nonneg.
  assert (HeM : e <= mb + 1).
  { unfold e. rewrite <- (Z.log2_pow2 (mb + 1)) by lia. by apply Z.log2_le_mono. }
  clearbody e.
  set (T := 2 ^ mb).
  assert (HT : 0 < T) by (apply Z.pow_pos_nonneg; lia).
  assert (HT2 : 2 ^ (mb + 1) = 2 * T).
  { unfold T. rewrite Z.pow_add_r by lia. lia. }
  (* the significand *)
  assert (Hm : exists m,
             (if e <=? mb then Z.shiftl n (mb - e) else roundShift n (e - mb)) = m /\
             T <= m < 2 * T /\
             (if 0 <=? e - mb then m * 2 ^ (e - mb) = n else m = n * 2 ^ (- (e - mb)))).
  { destruct (Z.leb_spec e mb) as [Hle|Hgt].
    - exists (n * 2 ^ (mb - e)). split; [apply Z.shiftl_mul_pow2; lia|].
      assert (HP : 0 < 2 ^ e) by (apply Z.pow_pos_nonneg; lia).
      assert (HQ : 0 < 2 ^ (mb - e)) by (apply Z.pow_pos_nonneg; lia).
      assert (HPQ : 2 ^ e * 2 ^ (mb - e) = T).
      { unfold T. rewrite <- Z.pow_add_r by lia. f_equal. lia. }
      assert (HPQ' : 2 ^ Z.succ e = 2 * 2 ^ e) by (rewrite Z.pow_succ_r; lia).
      split; [nia|].
      destruct (Z.leb_spec 0 (e - mb)).
      + replace (e - mb) with 0 by lia. replace (mb - e) with 0 by lia. simpl. lia.
      + f_equal. f_equal. lia.
    - assert (e = mb + 1) by lia. subst e.
      assert (Hn2 : n = 2 * T) by (rewrite HT2 in *; lia).
      exists T. split.
      + unfold roundShift. replace (mb + 1 - mb) with 1 by lia.
        rewrite Z.shiftr_div_pow2, !Z.shiftl_mul_pow2 by lia.
        change (2 ^ 1) with 2. change (2 ^ (1 - 1)) with 1.
        rewrite Hn2. replace (2 * T / 2) with T by (apply Z.div_unique_exact; lia).
        replace (2 * T - T * 2) with 0 by lia. simpl. reflexivity.
      + split; [lia|].
        replace (mb + 1 - mb) with 1 by lia. simpl. lia. }
  destruct Hm as (m & -> & Hmb & Hden).
  destruct (Z.eqb_spec m (2 ^ (mb + 1))) as [Heq|_]; [lia|].
  replace ((if v <? 0 then 2 ^ sb else 0) + (e + bias) * 2 ^ mb + (m - 2 ^ mb))
    with ((if v <? 0 then 2 ^ sb else 0) + (e + bias) * 2 ^ mb + (m - T)) by reflexivity.
  rewrite floatOfBits_fields by (fold T; lia).
  fold T. replace (T + (m - T)) with m by lia.
  eexists _, _. split; [reflexivity|].
  replace (e + bias - bias - mb) with (e - mb) by lia.
  destruct (Z.ltb_spec v 0); destruct (0 <=? e - mb); unfold n in *; nia.
Qed.

Lemma Float32bits_denotes v :
  Z.abs v <= 2 ^ 24 -> denotesInt 23 127 31 (Float32bits v) v.
Proof. intros H. apply floatBitsOfInt_denotes; simpl; lia. Qed.

Lemma Float64bits_denotes v :
  Z.abs v <= 2 ^ 53 -> denotesInt 52 1023 63 (Float64bits v) v.
Proof. intros H. apply floatBitsOfInt_denotes; simpl; lia. Qed.

Lemma compileValue_float dst t (p : Z) (bits : Z -> Z) (n : nat) lit (c : state) :
  il_raw lit <> [] -> 0 <= il_value lit < 2^64 ->
  (t = Type_F32 /\ p = 24 /\ bits = Float32bits /\ n = 4%nat) \/
  (t = Type_F64 /\ p = 53 /\ bits = Float64bits /\ n = 8%nat) ->
  (Z.abs (IntLit_value lit) <= 2 ^ p ->
   compileValue dst (builtinType t) (Some (N_IntLit lit)) c
   = Ok (wire.leBytes n (bits (IntLit_value lit)), c)) /\
  (2 ^ p < Z.abs (IntLit_value lit) ->
   exists e,
     compileValue dst (builtinType t) (Some (N_IntLit lit)) c = Err (e, c) /\
     compiler.code e = 3016 /\ compiler.span e = IntLit_Span lit).
Proof using Type.
  clear zeroOptions Uninterpreted_Add ext.
  intros Hraw Hval Ht.
  destruct (errValueOutOfRange_float t lit Hraw) as (e & He & Hcode & Hspan).
  { tauto. }
  destruct (IntLit_negative_Some lit Hraw) as [b Hb].
  unfold IntLit_value. rewrite Hb.
  unfold compileValue, builtinType, isEnum; simpl.
  destruct Ht as [(-> & -> & -> & ->)|(-> & -> & -> & ->)]; simpl;
    unfold compileFloatLit, bindM, liftO, failO, bindM, liftO, ret, fail, panic;
    unfold IntLit_GetInt64, IntLit_GetUint64; rewrite Hb, He; unfold int64;
    unfold maxFloat32, maxFloat64; simpl.
  all: change (2 ^ 63) with 9223372036854775808;
    change (2 ^ 64) with 18446744073709551616 in Hval |- *;
    change (2 ^ 24) with 16777216; change (2 ^ 53) with 9007199254740992;
    change (Z.shiftl 2 23) with 16777216;
    change (Z.shiftl 2 52) with 9007199254740992.
  all: destruct b; simpl;
    repeat match goal with
    | |- context [?a <=? ?b] => destruct (Z.leb_spec a b); simpl
    | |- context [?a <? ?b] => destruct (Z.ltb_spec a b); simpl
    end; try lia.
  all: split; intros Hfit;
    repeat match goal with
    | H : context [?a <? ?b] |- _ => destruct (Z.ltb_spec a b)
    end; try lia; try reflexivity;
    try (exists e; split; [reflexivity|by split]).
Qed.

(** X3.  An integer literal compiled against [f32] or [f64] is accepted
    exactly when its absolute value is at most 2^24 or 2^53; it is then
    encoded as the little-endian bit pattern of the converted value, and
    that pattern denotes the integer exactly.  Otherwise it is rejected
    with error 3016 on the span of the literal. *)
Theorem compileValue_float_range dst lit (c : state) :
  il_raw lit <> [] -> 0 <= il_value lit < 2^64 ->
  (Z.abs (IntLit_value lit) <= 2 ^ 24 ->
   compileValue dst (builtinType Type_F32) (Some (N_IntLit lit)) c
   = Ok (wire.leBytes 4 (Float32bits (IntLit_value lit)), c) /\
   denotesInt 23 127 31 (Float32bits (IntLit_value lit)) (IntLit_value lit)) /\
  (2 ^ 24 < Z.abs (IntLit_value lit) ->
   exists e,
     compileValue dst (builtinType Type_F32) (Some (N_IntLit lit)) c = Err (e, c) /\
     compiler.code e = 3016 /\ compiler.span e = IntLit_Span lit) /\
  (Z.abs (IntLit_value lit) <= 2 ^ 53 ->
   compileValue dst (builtinType Type_F64) (Some (N_IntLit lit)) c
   = Ok (wire.leBytes 8 (Float64bits (IntLit_value lit)), c) /\
   denotesInt 52 1023 63 (Float64bits (IntLit_value lit)) (IntLit_value lit)) /\
  (2 ^ 53 < Z.abs (IntLit_value lit) ->
   exists e,
     compileValue dst (builtinType Type_F64) (Some (N_IntLit lit)) c = Err (e, c) /\
     compiler.code e = 3016 /\ compiler.span e = IntLit_Span lit).
Proof using Type.
  intros Hraw Hval.
  destruct (compileValue_float dst Type_F32 24 Float32bits 4 lit c Hraw Hval)
    as [H32 H32']; [left; done|].
  destruct (compileValue_float dst Type_F64 53 Float64bits 8 lit c Hraw Hval)
    as [H64 H64']; [right; done|].
  split; [|split; [|split]]; try done.
  - intros H. split; [by apply H32|by apply Float32bits_denotes].
  - intros H. split; [by apply H64|by apply Float64bits_denotes].
Qed.

End compile_facts.


Lemma compileValue_int_range_witness :
  compiler.compileValue syntax.N_nil (compiler.builtinType schema_idl.Type_U8)
    (Some (syntax.N_IntLit examples.lit200)) examples.freshCompiler
  = Ok (wire.bytes [200], examples.freshCompiler) /\
  exists e,
    compiler.compileValue syntax.N_nil (compiler.builtinType schema_idl.Type_U8)
      (Some (syntax.N_IntLit examples.lit257)) examples.freshCompiler
    = Err (e, examples.freshCompiler) /\
    compiler.code e = 3016 /\ compiler.span e = syntax.NewSpan 0 3.
Proof.
  split.
  - apply (compileValue_int_range syntax.N_nil schema_idl.Type_U8 0 255 1
             examples.lit200 examples.freshCompiler);
      [discriminate|vm_compute; split; [discriminate|reflexivity]
      |reflexivity|reflexivity].
  - apply (compileValue_int_range syntax.N_nil schema_idl.Type_U8 0 255 1
             examples.lit257 examples.freshCompiler);
      [discriminate|vm_compute; split; [discriminate|reflexivity]
      |reflexivity|reflexivity].
Defined.

Lemma compileValue_float_range_witness :
  compiler.compileValue syntax.N_nil (compiler.builtinType schema_idl.Type_F32)
    (Some (syntax.N_IntLit examples.lit200)) examples.freshCompiler
  = Ok (wire.bytes [0; 0; 0x48; 0x43], examples.freshCompiler) /\
  exists e,
    compiler.compileValue syntax.N_nil (compiler.builtinType schema_idl.Type_F32)
      (Some (syntax.N_IntLit examples.lit16777217)) examples.freshCompiler
    = Err (e, examples.freshCompiler) /\
    compiler.code e = 3016 /\ compiler.span e = syntax.NewSpan 0 8.
Proof.
  split.
  - apply (compileValue_float_range syntax.N_nil examples.lit200
             examples.freshCompiler);
      [discriminate|vm_compute; split; [discriminate|reflexivity]
      |vm_compute; discriminate].
  - apply (compileValue_float_range syntax.N_nil examples.lit16777217
             examples.freshCompiler);
      [discriminate|vm_compute; split; [discriminate|reflexivity]
      |vm_compute; reflexivity].
Defined.

(** ** Resolving names in a merged set *)

Section merged_set_facts.
Import compiler schema_idl.
Context {D : Decoded}.

Lemma unified_Permutation (l l' : list mergedDecl) :
  Forall contributed l -> l ≡ₚ l' -> unified l = unified l'.
Proof.
  intros Hl Hp.
  assert (Hl' : Forall contributed l') by (by rewrite <- Hp).
  destruct l as [|a r].
  { apply Permutation_nil_l in Hp. by subst. }
  destruct l' as [|a' r'].
  { by apply Permutation_nil_r in Hp. }
  simpl. f_equal.
  inversion Hl as [|? ? Ha Hr]; subst. inversion Hl' as [|? ? Ha' Hr']; subst.
  rewrite !forallb_sameDecl by done.
  destruct (decide (Forall (eq a) r)) as [Hall|Hnot].
  - assert (Hall' : Forall (eq a) (a' :: r')).
    { rewrite <- Hp. by constructor. }
    inversion Hall' as [|? ? <- Hr'']; subst.
    rewrite bool_decide_eq_true_2 by done.
    by rewrite bool_decide_eq_true_2 by done.
  - rewrite (bool_decide_eq_false_2 _ Hnot).
    rewrite bool_decide_eq_false_2; [done|].
    intros Hall'. apply Hnot.
    assert (Hall : Forall (eq a') (a :: r)).
    { rewrite Hp. by constructor. }
    inversion Hall as [|? ? <- Hr'']; subst. done.
Qed.

Lemma contributions_Permutation schemas schemas' ns name :
  schemas ≡ₚ schemas' ->
  contributions schemas ns name ≡ₚ contributions schemas' ns name.
Proof.
  intros Hp. unfold contributions.
  induction Hp; simpl.
  - done.
  - by f_equiv.
  - rewrite !app_assoc. f_equiv. apply Permutation_app_comm.
  - etrans; eauto.
Qed.

(** X4.  The order in which the dependency schemas are given to [Merge]
    does not matter: both orders give a set, the two sets hold the same
    entry under every namespace and name, and so every resolution gives the
    same answer. *)
Theorem Merge_order_irrelevant (schemas schemas' : list Schema) :
  schemas ≡ₚ schemas' ->
  exists s s',
    Merge schemas = Ok s /\ Merge schemas' = Ok s' /\
    (forall ns name, lookupDecl s ns name = lookupDecl s' ns name) /\
    (forall ns name sp,
       SchemaSet_resolveExport s ns name sp
       = SchemaSet_resolveExport s' ns name sp) /\
    (forall ns name sp1 sp2,
       SchemaSet_resolveType s ns name sp1 sp2
       = SchemaSet_resolveType s' ns name sp1 sp2) /\
    (forall ns name sp1 sp2,
       SchemaSet_resolveConst s ns name sp1 sp2
       = SchemaSet_resolveConst s' ns name sp1 sp2).
Proof.
  intros Hp.
  destruct (Merge_lookup schemas) as (s & Hs & Hlook).
  destruct (Merge_lookup schemas') as (s' & Hs' & Hlook').
  assert (Heq : forall ns name, lookupDecl s ns name = lookupDecl s' ns name).
  { intros ns name. rewrite Hlook, Hlook'.
    apply unified_Permutation; [apply contributions_contributed|].
    by apply contributions_Permutation. }
  exists s, s'. split; [done|]. split; [done|]. split; [done|].
  unfold SchemaSet_resolveExport, SchemaSet_resolveType, SchemaSet_resolveConst.
  split; [|split]; intros; by rewrite Heq.
Qed.

(** X5.  A name that no dependency schema declares under the namespace is
    not found: resolving it as an export, as a type or as a constant
    returns error 3005, on the span of the name for an export and on the
    span of the import otherwise. *)
Theorem Merge_resolve_missing (schemas : list Schema) (ns name : list byte)
    (importSpan useSpan : syntax.Span) :
  contributions schemas ns name = [] ->
  exists s,
    Merge schemas = Ok s /\
    lookupDecl s ns name = None /\
    SchemaSet_resolveExport s ns name useSpan
    = Err (errImportNameNotFound ns name useSpan) /\
    SchemaSet_resolveType s ns name importSpan useSpan
    = Err (errImportNameNotFound ns name importSpan) /\
    SchemaSet_resolveConst s ns name importSpan useSpan
    = Err (errImportNameNotFound ns name importSpan) /\
    code (errImportNameNotFound ns name importSpan) = 3005.
Proof.
  intros Hnone.
  destruct (Merge_lookup schemas) as (s & Hs & Hlook).
  exists s. split; [done|].
  assert (Hl : lookupDecl s ns name = None) by (by rewrite Hlook, Hnone).
  unfold SchemaSet_resolveExport, SchemaSet_resolveType, SchemaSet_resolveConst.
  rewrite Hl. done.
Qed.

Lemma unified_agree (l : list mergedDecl) d :
  Forall contributed l -> l <> [] -> Forall (eq d) l -> unified l = Some d.
Proof.
  intros Hc Hne Hall. destruct l as [|a r]; [done|].
  inversion Hall as [|? ? <- Hr]; subst. inversion Hc; subst.
  simpl. rewrite forallb_sameDecl by done.
  by rewrite bool_decide_eq_true_2.
Qed.

(** X6.  A name that one or more dependency schemas declare, all of them as
    the same constant, resolves to that constant; as a type it is refused
    with error 3007 on the span of its use.  A name that they all declare
    as the same enum resolves, as a type, to the base type of the enum
    under its own name, and is refused as a constant. *)
Theorem Merge_resolve_agreed (schemas : list Schema) (ns name : list byte)
    (importSpan useSpan : syntax.Span) :
  contributions schemas ns name <> [] ->
  exists s,
    Merge schemas = Ok s /\
    (forall c,
       Forall (eq (constDecl c)) (contributions schemas ns name) ->
       SchemaSet_resolveConst s ns name importSpan useSpan = Ok c /\
       SchemaSet_resolveExport s ns name useSpan
       = Ok {| ei_type_ := ExportType_CONST; ei_typeName := [];
               ei_imported := any_Const c |} /\
       exists e,
         SchemaSet_resolveType s ns name importSpan useSpan = Err e /\
         code e = 3007 /\ span e = useSpan) /\
    (forall e,
       Forall (eq (enumDecl e)) (contributions schemas ns name) ->
       SchemaSet_resolveType s ns name importSpan useSpan
       = Ok {| ti_type_ := Enum_Type e; ti_typeName := name;
               ti_imported := any_Enum e; ti_decl := None |} /\
       SchemaSet_resolveExport s ns name useSpan
       = Ok {| ei_type_ := ExportType_ENUM; ei_typeName := [];
               ei_imported := any_Enum e |} /\
       exists err,
         SchemaSet_resolveConst s ns name importSpan useSpan = Err err /\
         span err = useSpan).
Proof.
  intros Hne.
  destruct (Merge_lookup schemas) as (s & Hs & Hlook).
  exists s. split; [done|].
  unfold SchemaSet_resolveExport, SchemaSet_resolveType, SchemaSet_resolveConst.
  rewrite Hlook.
  split; intros x Hall;
    rewrite (unified_agree _ _ (contributions_contributed _ _ _) Hne Hall);
    simpl; (split; [done|]); (split; [done|]); by eexists.
Qed.

End merged_set_facts.

Lemma Merge_order_irrelevant_witness :
  exists s s',
    compiler.Merge (H:=examples.decoded) [examples.depOne; examples.depTwo] = Ok s /\
    compiler.Merge (H:=examples.decoded) [examples.depTwo; examples.depOne] = Ok s' /\
    compiler.lookupDecl s (str "dep") (str "K")
    = compiler.lookupDecl s' (str "dep") (str "K").
Proof.
  destruct (Merge_order_irrelevant (D:=examples.decoded)
              [examples.depOne; examples.depTwo]
              [examples.depTwo; examples.depOne])
    as (s & s' & Hs & Hs' & Hl & _).
  { apply Permutation_swap. }
  exists s, s'. split; [done|]. split; [done|]. apply Hl.
Defined.

Lemma Merge_resolve_missing_witness :
  exists s,
    compiler.Merge (H:=examples.decoded) [examples.depOne; examples.depTwo] = Ok s /\
    compiler.SchemaSet_resolveConst s (str "dep") (str "Z")
      (syntax.NewSpan 10 5) (syntax.NewSpan 40 1)
    = Err (compiler.errImportNameNotFound (str "dep") (str "Z")
             (syntax.NewSpan 10 5)).
Proof.
  destruct (Merge_resolve_missing (D:=examples.decoded)
              [examples.depOne; examples.depTwo] (str "dep") (str "Z")
              (syntax.NewSpan 10 5) (syntax.NewSpan 40 1))
    as (s & Hs & _ & _ & _ & Hc & _).
  { reflexivity. }
  exists s. by split.
Defined.

Lemma Merge_resolve_agreed_witness :
  exists s,
    compiler.Merge (H:=examples.decoded) [examples.depOne; examples.depTwo] = Ok s /\
    compiler.SchemaSet_resolveConst s (str "dep") (str "A")
      (syntax.NewSpan 10 5) (syntax.NewSpan 40 1)
    = Ok (str "A", wire.bytes [1]).
Proof.
  destruct (Merge_resolve_agreed (D:=examples.decoded)
              [examples.depOne; examples.depTwo] (str "dep") (str "A")
              (syntax.NewSpan 10 5) (syntax.NewSpan 40 1))
    as (s & Hs & Hconst & _).
  { discriminate. }
  exists s. split; [done|].
  apply (Hconst (str "A", wire.bytes [1])).
  repeat constructor.
Defined.

(** ** The lexer *)

Section lexer_facts.
Import wire syntax.

Lemma slice_suffix {E A} (s : list A) n r :
  slice (E:=E) s n (Z.of_nat (length s)) = Ok r ->
  0 <= n <= Z.of_nat (length s) /\ r = drop (Z.to_nat n) s.
Proof.
  unfold slice. intros H.
  destruct (0 <=? n) eqn:H0; [|discriminate].
  destruct (n <=? Z.of_nat (length s)) eqn:H1; [|discriminate].
  simpl in H. rewrite Z.leb_refl in H. injection H as <-.
  apply Z.leb_le in H0, H1. split; [lia|].
  apply take_ge. rewrite length_drop. lia.
Qed.

Lemma slice_suffix_Ok {E A} (s : list A) n :
  0 <= n <= Z.of_nat (length s) ->
  slice (E:=E) s n (Z.of_nat (length s)) = Ok (drop (Z.to_nat n) s).
Proof.
  intros H. unfold slice.
  destruct (Z.leb_spec 0 n); [|lia].
  destruct (Z.leb_spec n (Z.of_nat (length s))); [|lia].
  rewrite Z.leb_refl. simpl. f_equal.
  apply take_ge. rewrite length_drop. lia.
Qed.

(** A token that is not the end of the input: it is not empty, it is no
    longer than a token may be, and the lexer has moved past it. *)
Definition advances (t : Tokens) (tok : Token) (t' : Tokens) : Prop :=
  tk_Kind tok <> T_EOF /\
  1 <= tk_Len tok <= maxTokenLen /\
  tk_Len tok <= Z.of_nat (length (t_src t)) /\
  t_src t' = drop (Z.to_nat (tk_Len tok)) (t_src t) /\
  t_offset t' = wrap32 (t_offset t + tk_Len tok).

Lemma emit_advances t kind n flags tok t' :
  emit t kind n flags = Ok (tok, t') -> kind <> T_EOF -> 1 <= n ->
  advances t tok t' /\ tk_Kind tok = kind.
Proof.
  unfold emit, checkTokenLen. intros H Hk Hn.
  destruct (Z.ltb_spec maxTokenLen n); [discriminate|]. simpl in H.
  destruct (slice _ _ _) as [r| |] eqn:Hs; try discriminate.
  apply slice_suffix in Hs as [Hb ->]. injection H as <- <-.
  unfold advances. simpl. repeat split; try done; lia.
Qed.

Lemma DecodeRune_size p r n :
  DecodeRune p = (r, n) -> p <> [] -> (1 <= n <= length p)%nat.
Proof.
  unfold DecodeRune. intros H Hp.
  destruct p as [|p0 rest]; [done|]. simpl length.
  destruct (u8 p0 <? 128); [injection H as <- <-; lia|].
  destruct (first p0) as [[[lo hi] sz]|]; [|injection H as <- <-; lia].
  destruct (Nat.ltb_spec (length (p0 :: rest)) sz) as [|Hsz];
    [injection H as <- <-; simpl; lia|].
  simpl in Hsz.
  repeat match type of H with
  | (if ?c then _ else _) = _ => destruct c
  | match ?l with [] => _ | _ :: _ => _ end = _ => destruct l; simpl length
  end; injection H as <- <-; simpl in *; lia.
Qed.

(** What the loop of [nextSpace] leaves is a suffix of what it started
    from. *)
Lemma nextSpace_loop_suffix fuel : forall src src',
  nextSpace_loop fuel src = Some src' ->
  exists k, (k <= length src)%nat /\ src' = drop k src.
Proof.
  induction fuel as [|fuel IH]; intros src src' H; simpl in H.
  { injection H as <-. exists 0%nat; split; [lia|done]. }
  destruct src as [|c rest]; [discriminate|].
  assert (Hcont : forall (k0 : nat) s,
             (k0 <= length (c :: rest))%nat -> s = drop k0 (c :: rest) ->
             match s with [] => Some s | _ :: _ => nextSpace_loop fuel s end
             = Some src' ->
             exists k, (k <= length (c :: rest))%nat /\ src' = drop k (c :: rest)).
  { intros k0 s Hk0 -> Hs.
    destruct (drop k0 (c :: rest)) as [|x xs] eqn:Hd.
    - injection Hs as <-. exists k0. by rewrite Hd.
    - apply IH in Hs as (k & Hk & ->).
      exists (k0 + k)%nat. rewrite <- Hd. rewrite drop_drop. split; [|done].
      assert (length (x :: xs) = (length (c :: rest) - k0)%nat)
        by (rewrite <- Hd; apply length_drop).
      lia. }
  destruct (decide (c = x20)); [apply (Hcont 1%nat rest); simpl; [lia|done|exact H]|].
  destruct (decide (c = x09)); [apply (Hcont 1%nat rest); simpl; [lia|done|exact H]|].
  destruct (DecodeRune (c :: rest)) as [r runeLen] eqn:Hr.
  destruct (r =? 160).
  - apply DecodeRune_size in Hr; [|done].
    apply (Hcont runeLen (drop runeLen (c :: rest))); [lia|done|exact H].
  - injection H as <-. exists 0%nat; split; [lia|done].
Qed.

(** It has taken one byte or more when the input starts with a blank. *)
Lemma nextSpace_loop_progress src src' :
  nextSpace_loop (length src) src = Some src' ->
  (exists c rest, src = c :: rest /\
     (c = x20 \/ c = x09 \/ (DecodeRune src).1 = 0xA0)) ->
  (length src' < length src)%nat.
Proof.
  intros H (c & rest & -> & Hc). cbn -[DecodeRune] in H.
  assert (Hcont : forall s,
             (length s < length (c :: rest))%nat ->
             match s with [] => Some s | _ :: _ => nextSpace_loop (length rest) s end
             = Some src' ->
             (length src' < length (c :: rest))%nat).
  { intros s Hlen Hs. destruct s as [|x xs].
    - injection Hs as <-. simpl. lia.
    - apply nextSpace_loop_suffix in Hs as (k & Hk & ->).
      rewrite length_drop. simpl in *. lia. }
  destruct (decide (c = x20)); [apply (Hcont rest); simpl; [lia|exact H]|].
  destruct (decide (c = x09)); [apply (Hcont rest); simpl; [lia|exact H]|].
  destruct Hc as [?|[?|Hc]]; [done|done|].
  destruct (DecodeRune (c :: rest)) as [r runeLen] eqn:Hr. simpl in Hc. subst r.
  cbn -[DecodeRune] in H. apply DecodeRune_size in Hr; [|done].
  apply (Hcont (drop runeLen (c :: rest))); [|exact H].
  rewrite length_drop. simpl in *. lia.
Qed.

Lemma nextSpace_advances t tok t' :
  nextSpace t = Ok (tok, t') ->
  (exists c rest, t_src t = c :: rest /\
     (c = x20 \/ c = x09 \/ (DecodeRune (t_src t)).1 = 0xA0)) ->
  advances t tok t'.
Proof.
  unfold nextSpace. intros H Hc.
  destruct (nextSpace_loop _ _) as [src'|] eqn:Hl; [|discriminate].
  pose proof (nextSpace_loop_progress _ _ Hl Hc).
  apply emit_advances in H; [tauto|done|lia].
Qed.

Lemma commentLen_le src : (commentLen src <= length src)%nat.
Proof.
  induction src as [|c r IH]; simpl; [lia|].
  destruct (decide _); [lia|]. destruct (decide _); lia.
Qed.

Lemma scanText_end s : forall ii escaped n,
  scanText s ii escaped = TextEnd n -> ii < n.
Proof.
  induction s as [|c r IH]; intros ii escaped n H; simpl in H; [discriminate|].
  destruct escaped; [apply IH in H; lia|].
  destruct (decide (c = x22)); [injection H as <-; lia|].
  destruct (_ && _).
  - destruct (_ =? _); [discriminate|]. destruct (_ && _); discriminate.
  - apply IH in H. lia.
Qed.

Ltac fails H :=
  match type of H with
  | obind ?m _ = _ => destruct m; simpl in H; discriminate
  end.

Lemma nextNumLit_advances t tok t' :
  nextNumLit t = Ok (tok, t') -> advances t tok t'.
Proof.
  unfold nextNumLit. intros H.
  destruct (index (t_src t) 0) as [c0| |] eqn:Hc0; try discriminate.
  simpl in H.
  assert (Hne : t_src t <> []).
  { intros Hnil. rewrite Hnil in Hc0. discriminate. }
  remember (bool_decide (c0 = minus)) as neg eqn:Hneg. clear Hneg.
  destruct (neg && (length (t_src t) =? 1)%nat).
  { fails H. }
  destruct (if neg then slice (t_src t) 1 (Z.of_nat (length (t_src t)))
            else Ok (t_src t)) as [numSrc| |] eqn:Hnum; try discriminate.
  simpl in H.
  destruct (index numSrc 0) as [d0| |] eqn:Hd0; try discriminate. simpl in H.
  destruct (bool_decide (d0 = x30) && (length numSrc =? 1)%nat).
  { destruct neg; [fails H|].
    destruct (slice _ _ _) as [rest| |] eqn:Hs; try discriminate.
    apply slice_suffix in Hs as [Hb ->]. injection H as <- <-.
    unfold advances, maxTokenLen. simpl. repeat split; try done; lia. }
  match type of H with
  | obind ?m _ = _ => destruct m as [[kind invalid]| |] eqn:Hkind; try discriminate
  end.
  simpl in H.
  assert (Hk : kind <> T_EOF).
  { destruct (bool_decide (d0 = x30)).
    - destruct (index numSrc 1); try discriminate. simpl in Hkind.
      repeat match type of Hkind with
      | (if ?c then _ else _) = _ => destruct c
      end; injection Hkind as <- <-; done.
    - injection Hkind as <- <-; done. }
  match type of H with
  | obind ?m _ = _ => destruct m as [numSrc'| |] eqn:Hnum'; try discriminate
  end.
  simpl in H.
  destruct (scanKind kind numSrc' invalid) as [n inv] eqn:Hscan.
  destruct (Nat.eqb_spec n 0); [fails H|].
  match type of H with
  | (if ?c then _ else _) = _ => destruct c
  end; [fails H|].
  apply emit_advances in H; [tauto|done|].
  destruct (negb _); destruct neg; lia.
Qed.

Lemma nextTextLit_advances t tok t' :
  nextTextLit t = Ok (tok, t') -> advances t tok t'.
Proof.
  unfold nextTextLit. intros H.
  destruct (scanText _ _ _) as [n| | |] eqn:Hs; try discriminate.
  apply scanText_end in Hs.
  apply emit_advances in H; [tauto|done|lia].
Qed.

Lemma nextIdent_advances t tok t' :
  nextIdent t = Ok (tok, t') -> advances t tok t'.
Proof.
  unfold nextIdent. intros H.
  destruct (scanIdent _ _ _) as [[n u] i].
  destruct (u || i); [fails H|].
  apply emit_advances in H; [tauto|done|lia].
Qed.

Lemma nextComment_advances t tok t' c rest :
  t_src t = c :: rest -> c = x23 ->
  nextComment t = Ok (tok, t') -> advances t tok t'.
Proof.
  unfold nextComment. intros Hsrc -> H.
  apply emit_advances in H; [tauto|done|].
  rewrite Hsrc. simpl. lia.
Qed.

(** X7.  [Next] returns the end-of-input token, of length 0 and without
    moving, exactly on the empty input.  On any other input a token that it
    returns is between 1 and 65535 bytes long and no longer than the input,
    the lexer is left on the input without those bytes, and the offset has
    moved by as much. *)
Theorem Next_advances (t : Tokens) (tok : Token) (t' : Tokens) :
  Next t = Ok (tok, t') ->
  (t_src t = [] /\ tk_Kind tok = T_EOF /\ tk_Len tok = 0 /\ t' = t) \/
  (t_src t <> [] /\ advances t tok t').
Proof.
  unfold Next. intros H.
  destruct (t_src t) as [|c rest] eqn:Hsrc.
  { left. injection H as <- <-. done. }
  right. split; [done|].
  assert (Hlen1 : forall kind,
             kind <> T_EOF ->
             Ok (E:=Error)
                ({| tk_Len := 1; tk_Kind := kind; tk_flags := 0 |},
                 {| t_src := rest; t_offset := wrap32 (t_offset t + 1) |})
             = Ok (tok, t') -> advances t tok t').
  { intros kind Hk [= <- <-]. unfold advances, maxTokenLen. rewrite Hsrc.
    simpl. repeat split; try done; lia. }
  assert (Hspace : forall (Hc : c = x20 \/ c = x09 \/
                                (DecodeRune (t_src t)).1 = 0xA0),
             nextSpace t = Ok (tok, t') -> advances t tok t').
  { intros Hc Hn. apply nextSpace_advances; [done|]. by exists c, rest. }
  repeat match type of H with
  | (if decide (c = ?b) then _ else _) = _ =>
      destruct (decide (c = b)) as [Heq|?];
      [first [ by (apply Hspace; [tauto|done])
             | by (eapply Hlen1; [|exact H]; done)
             | by (eapply nextComment_advances; eauto)
             | by apply nextTextLit_advances
             | idtac ]|]
  end.
  - destruct rest as [|c1 rest2]; [discriminate|].
    destruct (decide (c1 = x0a)); [|discriminate].
    injection H as <- <-. unfold advances, maxTokenLen. rewrite Hsrc.
    simpl. repeat split; try done; lia.
  - destruct (isDigit c || bool_decide (c = minus));
      [by apply nextNumLit_advances|].
    destruct (isLetter c); [by apply nextIdent_advances|].
    rewrite <- Hsrc in H.
    destruct (DecodeRune (t_src t)) as [r runeLen] eqn:Hr.
    destruct (Z.eqb_spec r 160) as [->|].
    + apply Hspace; [|done]. right. right. done.
    + destruct (_ || _); discriminate.
Qed.

End lexer_facts.

Lemma Next_advances_witness :
  let t := {| syntax.t_src := str "const K"; syntax.t_offset := 0 |} in
  let tok := {| syntax.tk_Len := 5; syntax.tk_Kind := syntax.T_IDENT;
                syntax.tk_flags := 0 |} in
  let t' := {| syntax.t_src := str " K"; syntax.t_offset := 5 |} in
  syntax.Next t = Ok (tok, t') /\ advances t tok t'.
Proof.
  intros t tok t'.
  assert (H : syntax.Next t = Ok (tok, t')) by reflexivity.
  split; [exact H|].
  destruct (Next_advances t tok t' H) as [[Hnil _]|[_ Hadv]];
    [discriminate Hnil|exact Hadv].
Defined.

(** ** Integer literals *)

Section intlit_facts.
Import wire syntax.

Lemma digitValue_nonneg c d : digitValue c = Some d -> 0 <= d.
Proof.
  unfold digitValue. intros H.
  repeat match type of H with
  | (if ?b then _ else _) = _ => destruct b eqn:?
  end; simplify_eq; lia.
Qed.

Lemma parseDigits_nonneg base s : forall acc v,
  0 <= base -> 0 <= acc -> parseDigits base acc s = Some v -> 0 <= v.
Proof.
  induction s as [|c r IH]; intros acc v Hb Ha H; simpl in H.
  { by simplify_eq. }
  destruct (digitValue c) as [d|] eqn:Hd; [|discriminate].
  destruct (d <? base); [|discriminate].
  apply digitValue_nonneg in Hd. eapply IH; [done| |done]. nia.
Qed.

Lemma ParseUint_bounds s base v :
  0 <= base -> ParseUint s base 64 = Some v -> 0 <= v < 2^64.
Proof.
  unfold ParseUint. intros Hb H. destruct s; [discriminate|].
  destruct (parseDigits _ _ _) as [w|] eqn:Hp; [|discriminate].
  destruct (Z.ltb_spec w (2^64)); [|discriminate]. simplify_eq.
  apply parseDigits_nonneg in Hp; lia.
Qed.

Lemma stripPrefix_base kind s base s' :
  stripPrefix kind s = Ok (base, s') -> 0 <= base.
Proof.
  unfold stripPrefix. intros H.
  destruct kind; try (injection H as <- <-; lia);
    destruct (slice _ _ _); simpl in H; simplify_eq; lia.
Qed.

(** What [newIntLit] establishes: the literal keeps the token, its stored
    value is a [uint64], and a literal with a minus sign stores the two's
    complement of a magnitude of at most 2^63. *)
Lemma newIntLit_inv token kind start lit :
  newIntLit token kind start = Ok lit ->
  il_raw lit = token /\ il_start lit = start /\
  exists neg,
    IntLit_negative lit = Some neg /\
    0 <= il_value lit < 2^64 /\
    (neg = true -> il_value lit = 0 \/ 2^63 <= il_value lit).
Proof.
  unfold newIntLit. intros H.
  destruct (index token 0) as [c0| |] eqn:Hc0; try discriminate. simpl in H.
  assert (Htok : exists rest, token = c0 :: rest).
  { unfold index in Hc0. destruct token as [|c rest]; [done|].
    simpl in Hc0. simplify_eq. by eexists. }
  destruct Htok as [rest ->].
  match type of H with
  | obind ?m _ = _ => destruct m as [valueStr| |]; try discriminate
  end.
  simpl in H.
  destruct (stripPrefix kind valueStr) as [[base s]| |] eqn:Hstrip;
    try discriminate.
  simpl in H. apply stripPrefix_base in Hstrip.
  destruct (ParseUint s base 64) as [value|] eqn:Hv; [|discriminate].
  apply ParseUint_bounds in Hv; [|done].
  unfold IntLit_negative.
  destruct (decide (c0 = minus)) as [->|Hc].
  - destruct (Z.ltb_spec (2^63) value); [discriminate|].
    injection H as <-. simpl. split; [done|]. split; [done|].
    exists true. split; [try (rewrite bool_decide_eq_true_2 by done); done|].
    unfold wrap64. split; [apply Z.mod_pos_bound; lia|]. intros _.
    destruct (Z.eq_dec value 0) as [->|]; [by left|right].
    replace (- value) with (2^64 - value + (-1) * 2^64) by lia.
    rewrite Z.mod_add by lia. rewrite Z.mod_small; lia.
  - injection H as <-. simpl. split; [done|]. split; [done|].
    exists false. split; [try (rewrite bool_decide_eq_false_2 by done); done|].
    split; [done|]. discriminate.
Qed.


End intlit_facts.


(** ** Field builders and array views *)

Section builder_facts.
Import wire idol.

(** The bytes of the elements of a text array, each with its NUL. *)
Definition textsSize (vs : list (list byte)) : Z :=
  fold_right (fun v acc => Z.of_nat (length v) + 1 + acc) 0 vs.

Lemma textsSize_nonneg vs : 0 <= textsSize vs.
Proof. induction vs; simpl; lia. Qed.

Lemma textsSize_app vs ws : textsSize (vs ++ ws) = textsSize vs + textsSize ws.
Proof. induction vs; simpl; lia. Qed.

Lemma length_zeros n : 0 <= n -> Z.of_nat (length (zeros n)) = n.
Proof. intros H. unfold zeros. rewrite repeat_length. lia. Qed.

Lemma padded_ge size : 0 <= size -> size + 7 < 2^32 ->
  size <= padded size <= size + 7 /\ padded size mod 8 = 0.
Proof.
  intros H0 H. unfold padded. rewrite (Z.mod_small (size + 7) (2^32)) by lia.
  pose proof (Z.mod_pos_bound (size + 7) 8 ltac:(lia)).
  split; [lia|].
  pose proof (Z.div_mod (size + 7) 8 ltac:(lia)).
  replace (size + 7 - (size + 7) mod 8) with ((size + 7) / 8 * 8) by lia.
  apply Z.mod_mul. lia.
Qed.

Lemma padded_id size : 0 <= size -> size mod 8 = 0 -> size + 7 < 2^32 ->
  padded size = size.
Proof.
  intros H0 Hm H. unfold padded. rewrite (Z.mod_small (size + 7) (2^32)) by lia.
  pose proof (Z.div_mod size 8 ltac:(lia)).
  replace (size + 7) with (7 + size / 8 * 8) by lia.
  rewrite Z.mod_add by lia. change (7 mod 8) with 7. lia.
Qed.

(** What [DataSize] rounds a size up to. *)
Lemma roundUp8 size : 0 <= size -> size + 7 < 2^32 ->
  (if negb (size mod 8 =? 0) then Z.land (wrap32 (size + 7)) 0xFFFFFFF8 else size)
  = padded size.
Proof.
  intros H0 H. destruct (Z.eqb_spec (size mod 8) 0); simpl.
  - symmetry. by apply padded_id.
  - apply paddedSize32.
Qed.

(** X9.  A text builder writes as many bytes as it announces: the text,
    its NUL and zero bytes up to the next multiple of 8; the thunk carries
    the length of the text with its NUL. *)
Theorem Text_builder_sizes (value : list byte) :
  value <> [] -> Z.of_nat (length value) + 8 < 2^32 ->
  let b := {| text_value := value |} in
  exists pad,
    Text_EncodeData b = value ++ x00 :: zeros pad /\
    0 <= pad < 8 /\
    Z.of_nat (length (Text_EncodeData b)) = Text_DataSize b /\
    Text_DataSize b mod 8 = 0 /\
    Text_PutThunk b (zeros 8)
    = bytes [0; 0; 0x00; 0xC0] ++ leBytes 4 (Z.of_nat (length value) + 1).
Proof.
  intros Hne Hlen b.
  assert (Hpos : (0 < length value)%nat) by (destruct value; simpl; [done|lia]).
  set (n := Z.of_nat (length value)) in *.
  assert (Hn : 0 < n) by lia.
  destruct (padded_ge (n + 1)) as [Hp Hm]; [lia|lia|].
  assert (Hds : Text_DataSize b = padded (n + 1)).
  { unfold Text_DataSize, Text_IsPresent. simpl.
    destruct (Nat.ltb_spec 0 (length value)); [|lia]. simpl. fold n.
    rewrite (wrap32_small n) by lia. rewrite (wrap32_small (n + 1)) by lia.
    apply roundUp8; lia. }
  assert (Hed : Text_EncodeData b = value ++ zeros (padded (n + 1) - n)).
  { unfold Text_EncodeData, Text_IsPresent. simpl.
    destruct (Nat.ltb_spec 0 (length value)); [|lia]. simpl. fold n.
    rewrite (wrap32_small n) by lia. rewrite (wrap32_small (n + 1)) by lia.
    rewrite roundUp8 by lia. by rewrite wrap32_small by lia. }
  exists (padded (n + 1) - n - 1). rewrite Hed, Hds.
  split.
  { f_equal. unfold zeros.
    replace (Z.to_nat (padded (n + 1) - n))
      with (S (Z.to_nat (padded (n + 1) - n - 1))) by lia.
    done. }
  split; [lia|]. split.
  { rewrite length_app, Nat2Z.inj_add, length_zeros by lia. fold n. lia. }
  split; [done|].
  unfold Text_PutThunk, Text_IsPresent. simpl.
  destruct (Nat.ltb_spec 0 (length value)); [|lia]. fold n.
  rewrite (wrap32_small (n + 1)) by lia. reflexivity.
Qed.

Lemma valuesSize_fold vs : forall acc,
  fold_left
    (fun acc value => wrap32 (acc + wrap32 (wrap32 (Z.of_nat (length value)) + 1)))
    vs (wrap32 acc)
  = wrap32 (acc + textsSize vs).
Proof.
  induction vs as [|v vs IH]; intros acc; simpl.
  - by rewrite Z.add_0_r.
  - replace (wrap32 (wrap32 acc + wrap32 (wrap32 (Z.of_nat (length v)) + 1)))
      with (wrap32 (acc + (Z.of_nat (length v) + 1))).
    + rewrite IH. f_equal. lia.
    + unfold wrap32.
      rewrite (Zplus_mod_idemp_l (Z.of_nat (length v))).
      by rewrite Zplus_mod_idemp_l, Zplus_mod_idemp_r.
Qed.

Lemma length_concat_sizes (vs : list (list byte)) :
  Z.of_nat (length (concat (map (fun value =>
     leBytes 4 (wrap32 (wrap32 (Z.of_nat (length value)) + 1))) vs)))
  = 4 * Z.of_nat (length vs).
Proof.
  induction vs as [|v vs IH]; [done|]. cbn [map concat].
  rewrite length_app, length_leBytes, Nat2Z.inj_add, IH. simpl length. lia.
Qed.

Lemma length_concat_elems (vs : list (list byte)) :
  Z.of_nat (length (concat (map (fun value => value ++ [x00]) vs)))
  = textsSize vs.
Proof.
  induction vs as [|v vs IH]; [done|]. cbn [map concat textsSize fold_right].
  rewrite length_app, Nat2Z.inj_add, IH, length_app, Nat2Z.inj_add.
  fold (textsSize vs). simpl length. lia.
Qed.

(** X10.  A text-array builder keeps the size of its elements up to date
    ([Add] after [Set] is [Set] of the longer list), and writes as many
    bytes as it announces, a multiple of 8. *)
Theorem TextArray_builder_sizes (vs : list (list byte)) :
  vs <> [] ->
  4 + 4 * Z.of_nat (length vs) + textsSize vs + 8 <= 2^32 ->
  let b := TextArray_Set vs in
  valuesSize b = textsSize vs /\
  (forall v, TextArray_Add b v = TextArray_Set (vs ++ [v])) /\
  Z.of_nat (length (TextArray_EncodeData b)) = TextArray_DataSize b /\
  TextArray_DataSize b mod 8 = 0 /\
  4 + 4 * Z.of_nat (length vs) + textsSize vs <= TextArray_DataSize b
  <= 4 + 4 * Z.of_nat (length vs) + textsSize vs + 7.
Proof.
  intros Hne Hlen b.
  pose proof (textsSize_nonneg vs) as Hts.
  set (n := Z.of_nat (length vs)) in *.
  assert (Hn : 0 < n) by (destruct vs; simpl in *; [done|lia]).
  set (size := 4 + 4 * n + textsSize vs).
  assert (Hvs : valuesSize b = textsSize vs).
  { unfold b, TextArray_Set. simpl.
    change 0 with (wrap32 0) at 1. rewrite valuesSize_fold.
    simpl. apply wrap32_small. lia. }
  destruct (padded_ge size) as [Hp Hm]; [unfold size; lia|unfold size; lia|].
  assert (Hds : TextArray_DataSize b = padded size).
  { unfold TextArray_DataSize. rewrite Hvs. simpl values.
    destruct (Nat.eqb_spec (length vs) 0); [lia|]. fold n.
    rewrite (wrap32_small n) by lia. rewrite (wrap32_small (4 * n)) by lia.
    rewrite (wrap32_small (4 + 4 * n)) by lia.
    rewrite (wrap32_small (4 + 4 * n + textsSize vs)) by lia.
    apply roundUp8; unfold size; lia. }
  split; [done|]. split.
  { intros v. unfold TextArray_Add, TextArray_Set, b. simpl.
    by rewrite fold_left_app. }
  rewrite Hds. split; [|split; [done|unfold size in *; lia]].
  assert (Hwrote :
            Z.of_nat (length (leBytes 4 (wrap32 (Z.of_nat (length vs)))
                              ++ concat (map (fun value =>
                                   leBytes 4 (wrap32 (wrap32 (Z.of_nat (length value)) + 1)))
                                   vs)))
            + Z.of_nat (length (concat (map (fun value => value ++ [x00]) vs)))
            = size).
  { rewrite length_app, Nat2Z.inj_add, length_leBytes.
    rewrite length_concat_sizes, length_concat_elems. unfold size, n. lia. }
  unfold TextArray_EncodeData, TextArray_IsPresent. cbn [values b TextArray_Set].
  destruct (Nat.ltb_spec 0 (length vs)); [|lia]. cbn [negb]. cbv zeta.
  rewrite Hwrote.
  rewrite !length_app, !Nat2Z.inj_add, length_leBytes.
  rewrite length_concat_sizes, length_concat_elems. fold n.
  change (Z.of_nat 4) with 4.
  replace (4 + 4 * n) with (size - textsSize vs) by (unfold size; lia).
  unfold padded in *. rewrite (Z.mod_small (size + 7) (2^32)) in * by (unfold size; lia).
  pose proof (Z.mod_pos_bound size 8 ltac:(lia)).
  pose proof (Z.div_mod size 8 ltac:(lia)).
  destruct (Z.eqb_spec (size mod 8) 0) as [Hz|Hz]; cbn [negb length].
  - replace (size + 7) with (7 + size / 8 * 8) by lia.
    rewrite Z.mod_add by lia. change (7 mod 8) with 7. lia.
  - rewrite length_zeros by lia.
    replace (size + 7) with ((size mod 8 - 1) + (size / 8 + 1) * 8) by lia.
    rewrite Z.mod_add by lia. rewrite (Z.mod_small (size mod 8 - 1)) by lia. lia.
Qed.

End builder_facts.
Section text_array_facts.
Import wire idol.

Definition sizeWords (vs : list (list byte)) : list byte :=
  concat (map (fun value =>
                 leBytes 4 (wrap32 (wrap32 (Z.of_nat (length value)) + 1))) vs).

Definition elemBytes (vs : list (list byte)) : list byte :=
  concat (map (fun value => value ++ [x00]) vs).

Lemma length_sizeWords vs : Z.of_nat (length (sizeWords vs)) = 4 * Z.of_nat (length vs).
Proof. apply length_concat_sizes. Qed.

Lemma length_elemBytes vs : Z.of_nat (length (elemBytes vs)) = textsSize vs.
Proof. apply length_concat_elems. Qed.

Lemma slice_middle {E A} (x y z : list A) lo hi :
  lo = Z.of_nat (length x) -> hi = lo + Z.of_nat (length y) ->
  slice (E:=E) (x ++ y ++ z) lo hi = Ok y.
Proof.
  intros -> ->. unfold slice. rewrite !length_app.
  destruct (Z.leb_spec 0 (Z.of_nat (length x))); [|lia].
  destruct (Z.leb_spec (Z.of_nat (length x))
              (Z.of_nat (length x) + Z.of_nat (length y))); [|lia].
  destruct (Z.leb_spec (Z.of_nat (length x) + Z.of_nat (length y))
              (Z.of_nat (length x + (length y + length z)))); [|lia].
  simpl. f_equal.
  rewrite Nat2Z.id, drop_app_length.
  replace (Z.to_nat (Z.of_nat (length x) + Z.of_nat (length y) - Z.of_nat (length x)))
    with (length y) by lia.
  by rewrite take_app_length.
Qed.

Lemma leUint32_leBytes v : 0 <= v < 2^32 -> leUint32 (leBytes 4 v) = v.
Proof.
  intros H. unfold leUint32.
  replace (take 4 (leBytes 4 v)) with (leBytes 4 v) by reflexivity.
  rewrite leUint_leBytes. apply Z.mod_small. simpl. lia.
Qed.

Lemma dropNul_nul v : dropNul (v ++ [x00]) = v.
Proof.
  unfold dropNul. rewrite length_app. simpl.
  destruct (Nat.ltb_spec 0 (length v + 1)); [|lia].
  replace (length v + 1 - 1)%nat with (length v) by lia.
  by rewrite take_app_length.
Qed.

Lemma map_zip_dropNul (l : list Z) (vs : list (list byte)) :
  map (fun '(idx, value) => (idx, dropNul value))
    (zip l (map (fun w => w ++ [x00]) vs))
  = zip l vs.
Proof.
  revert l. induction vs as [|v vs IH]; intros [|x l]; try done.
  cbn [map zip zip_with]. rewrite dropNul_nul. f_equal. apply IH.
Qed.

(** The loop of [dynArray.iter] on size words and elements that lie at the
    offsets that the loop has reached. *)
Lemma dynArray_iter_loop_elems ws : forall P Q R ii,
  Z.of_nat (length (P ++ sizeWords ws ++ Q ++ elemBytes ws ++ R)) < 2^32 ->
  dynArray_iter_loop (P ++ sizeWords ws ++ Q ++ elemBytes ws ++ R)
    (length ws) ii (Z.of_nat (length P))
    (Z.of_nat (length P) + 4 * Z.of_nat (length ws) + Z.of_nat (length Q))
  = Ok (zip (seqZ ii (Z.of_nat (length ws))) (map (fun w => w ++ [x00]) ws)).
Proof.
  induction ws as [|w ws IH]; intros P Q R ii Hlen; [done|].
  cbn [length dynArray_iter_loop].
  set (a := P ++ sizeWords (w :: ws) ++ Q ++ elemBytes (w :: ws) ++ R) in *.
  set (sz := Z.of_nat (length w) + 1).
  assert (Ha : a = (P ++ leBytes 4 sz) ++ sizeWords ws ++ (Q ++ w ++ [x00])
                   ++ elemBytes ws ++ R).
  { unfold a, sizeWords, elemBytes. cbn [map concat].
    rewrite (wrap32_small (Z.of_nat (length w))).
    - rewrite (wrap32_small (Z.of_nat (length w) + 1)).
      + by rewrite <- !app_assoc.
      + revert Hlen. unfold a, elemBytes. cbn [map concat].
        rewrite !length_app. change (length [x00]) with 1%nat. lia.
    - revert Hlen. unfold a, elemBytes. cbn [map concat].
      rewrite !length_app. change (length [x00]) with 1%nat. lia. }
  assert (Hbound : Z.of_nat (length a) < 2^32) by done.
  assert (Hla : Z.of_nat (length a)
                = Z.of_nat (length P) + 4 + 4 * Z.of_nat (length ws)
                  + Z.of_nat (length Q) + sz + textsSize ws + Z.of_nat (length R)).
  { rewrite Ha. rewrite !length_app, !Nat2Z.inj_add, length_leBytes.
    rewrite length_sizeWords, length_elemBytes. unfold sz. simpl length. lia. }
  pose proof (textsSize_nonneg ws).
  assert (Hs1 : slice (E:=error) a (Z.of_nat (length P)) (Z.of_nat (length P) + 4)
                = Ok (leBytes 4 sz)).
  { rewrite Ha, <- app_assoc. apply slice_middle; [done|].
    by rewrite length_leBytes. }
  rewrite Hs1. cbn [obind].
  rewrite leUint32_leBytes by (unfold sz; lia).
  set (vo := Z.of_nat (length P) + 4 * Z.of_nat (S (length ws)) + Z.of_nat (length Q)).
  assert (Hvo : wrap32 (vo + sz) = vo + sz) by (apply wrap32_small; unfold vo, sz in *; lia).
  rewrite Hvo.
  assert (Hs2 : slice (E:=error) a vo (vo + sz) = Ok (w ++ [x00])).
  { rewrite Ha.
    replace ((P ++ leBytes 4 sz) ++ sizeWords ws ++ (Q ++ w ++ [x00]) ++ elemBytes ws ++ R)
      with (((P ++ leBytes 4 sz) ++ sizeWords ws ++ Q) ++ (w ++ [x00]) ++ elemBytes ws ++ R)
      by (by rewrite <- !app_assoc).
    apply slice_middle.
    - rewrite !length_app, !Nat2Z.inj_add, length_leBytes, length_sizeWords.
      unfold vo. lia.
    - rewrite length_app. unfold sz. simpl. lia. }
  rewrite Hs2. cbn [obind].
  specialize (IH (P ++ leBytes 4 sz) (Q ++ w ++ [x00]) R (ii + 1)).
  rewrite <- Ha in IH.
  replace (Z.of_nat (length (P ++ leBytes 4 sz))) with (Z.of_nat (length P) + 4) in IH
    by (rewrite length_app, Nat2Z.inj_add, length_leBytes; lia).
  replace (Z.of_nat (length P) + 4 + 4 * Z.of_nat (length ws)
           + Z.of_nat (length (Q ++ w ++ [x00]))) with (vo + sz) in IH
    by (rewrite !length_app, !Nat2Z.inj_add; unfold vo, sz; simpl length; lia).
  rewrite IH by done. cbn [obind].
  rewrite (seqZ_cons ii) by lia. cbn [map zip zip_with].
  replace (Z.succ ii) with (ii + 1) by lia.
  replace (Z.pred (Z.of_nat (S (length ws)))) with (Z.of_nat (length ws)) by lia.
  done.
Qed.

(** The loop of [dynArray.get] over the size words before the element. *)
Lemma dynArray_get_loop_sizes ws : forall P S vo,
  0 <= vo -> vo + textsSize ws < 2^32 ->
  dynArray_get_loop (P ++ sizeWords ws ++ S) (length ws) (Z.of_nat (length P)) vo
  = Ok (Z.of_nat (length P) + 4 * Z.of_nat (length ws), vo + textsSize ws).
Proof.
  induction ws as [|w ws IH]; intros P S vo Hvo Hlen.
  { simpl. do 2 f_equal; lia. }
  cbn [length dynArray_get_loop].
  pose proof (textsSize_nonneg ws).
  set (sz := Z.of_nat (length w) + 1).
  assert (Hts : textsSize (w :: ws) = sz + textsSize ws) by (unfold sz; simpl; lia).
  rewrite Hts in *.
  assert (Ha : P ++ sizeWords (w :: ws) ++ S
               = (P ++ leBytes 4 sz) ++ sizeWords ws ++ S).
  { unfold sizeWords. cbn [map concat].
    rewrite (wrap32_small (Z.of_nat (length w))) by lia.
    rewrite (wrap32_small (Z.of_nat (length w) + 1)) by (unfold sz in *; lia).
    by rewrite <- !app_assoc. }
  assert (Hs1 : slice (E:=error) (P ++ sizeWords (w :: ws) ++ S)
                  (Z.of_nat (length P)) (Z.of_nat (length P) + 4)
                = Ok (leBytes 4 sz)).
  { rewrite Ha, <- app_assoc. apply slice_middle; [done|].
    by rewrite length_leBytes. }
  rewrite Hs1. cbn [obind].
  rewrite leUint32_leBytes by (unfold sz in *; lia).
  rewrite (wrap32_small (vo + sz)) by (unfold sz in *; lia).
  rewrite Ha.
  specialize (IH (P ++ leBytes 4 sz) S (vo + sz)).
  replace (Z.of_nat (length (P ++ leBytes 4 sz))) with (Z.of_nat (length P) + 4) in IH
    by (rewrite length_app, Nat2Z.inj_add, length_leBytes; lia).
  rewrite IH by (unfold sz in *; lia).
  do 2 f_equal; lia.
Qed.

Lemma sizeWords_app vs ws : sizeWords (vs ++ ws) = sizeWords vs ++ sizeWords ws.
Proof. unfold sizeWords. by rewrite map_app, concat_app. Qed.

Lemma elemBytes_app vs ws : elemBytes (vs ++ ws) = elemBytes vs ++ elemBytes ws.
Proof. unfold elemBytes. by rewrite map_app, concat_app. Qed.

(** X11.  A text array read back from what its builder wrote: the view has
    the length of the list, [Iter] yields the texts in order, each with its
    index, [Get] returns the text at an index of the list, and nothing
    beyond it. *)
Theorem TextArray_roundtrip (vs : list (list byte)) :
  4 + 4 * Z.of_nat (length vs) + textsSize vs + 8 <= 2^32 ->
  let a := {| ta_buf := TextArray_EncodeData (TextArray_Set vs) |} in
  TextArray_Len a = Ok (Z.of_nat (length vs)) /\
  TextArray_Iter a = Ok (zip (seqZ 0 (Z.of_nat (length vs))) vs) /\
  (forall (i : nat) v, vs !! i = Some v ->
     TextArray_Get a (Z.of_nat i) = Ok (v, true)) /\
  (forall idx, Z.of_nat (length vs) <= idx ->
     TextArray_Get a idx = Ok ([], false)).
Proof.
  intros Hlen a.
  destruct (decide (vs = [])) as [Hnil|Hne].
  { subst vs. unfold a. cbn. split; [done|]. split; [done|]. split; [by intros [] ?|].
    intros idx Hidx. unfold TextArray_Get, dynArray_get. cbn.
    destruct (Z.geb_spec idx 0); [done|lia]. }
  pose proof (textsSize_nonneg vs) as Hts.
  set (n := Z.of_nat (length vs)) in *.
  assert (Hn : 0 < n) by (destruct vs; simpl in *; [done|lia]).
  destruct (TextArray_builder_sizes vs Hne Hlen) as (_ & _ & Hsize & _ & _ & Hds).
  assert (Hbuf : exists pad,
             ta_buf a = leBytes 4 n ++ sizeWords vs ++ elemBytes vs ++ pad).
  { unfold a, TextArray_EncodeData, TextArray_IsPresent. cbn [ta_buf values TextArray_Set].
    destruct (Nat.ltb_spec 0 (length vs)); [|lia]. cbn [negb]. cbv zeta.
    fold n. rewrite (wrap32_small n) by lia.
    eexists. rewrite <- !app_assoc. reflexivity. }
  destruct Hbuf as [pad Hbuf].
  assert (Hlbuf : Z.of_nat (length (ta_buf a)) < 2^32).
  { unfold a. cbn [ta_buf]. rewrite Hsize. fold n in Hds. lia. }
  assert (Hcnt : dynArray_len (ta_buf a) = Ok n).
  { unfold dynArray_len. rewrite Hbuf.
    destruct (Nat.eqb_spec (length (leBytes 4 n ++ sizeWords vs ++ elemBytes vs ++ pad)) 0)
      as [H0|_].
    { rewrite length_app, length_leBytes in H0. lia. }
    assert (Hs : slice (E:=error)
                   (leBytes 4 n ++ sizeWords vs ++ elemBytes vs ++ pad) 0 4
                 = Ok (leBytes 4 n)).
    { apply (slice_middle [] (leBytes 4 n)); [done|by rewrite length_leBytes]. }
    rewrite Hs. cbn [omap obind]. by rewrite leUint32_leBytes by lia. }
  split; [done|].
  assert (Hvo : wrap32 (4 + n * 4) = 4 + 4 * n) by (rewrite wrap32_small; lia).
  split.
  { unfold TextArray_Iter, dynArray_iter. rewrite Hcnt. cbn [obind omap].
    destruct (Z.eqb_spec n 0); [lia|]. cbn [andb]. rewrite Hvo.
    rewrite Hbuf in *.
    pose proof (dynArray_iter_loop_elems vs (leBytes 4 n) [] pad 0) as Hloop.
    rewrite length_leBytes in Hloop. cbn [app length] in Hloop.
    change (Z.of_nat 4) with 4 in Hloop. change (Z.of_nat 0) with 0 in Hloop.
    rewrite Z.add_0_r in Hloop. unfold n.
    rewrite Nat2Z.id. fold n. fold n in Hloop. rewrite Hloop by done.
    unfold omap. cbn [obind]. f_equal. apply map_zip_dropNul. }
  split.
  - intros i v Hi.
    assert (Hsplit : vs = take i vs ++ v :: drop (S i) vs)
      by (symmetry; by apply take_drop_middle).
    assert (Hi' : (i < length vs)%nat) by (by eapply lookup_lt_Some).
    unfold TextArray_Get, dynArray_get. rewrite Hcnt. cbn [obind].
    destruct (Z.geb_spec (Z.of_nat i) n); [lia|]. cbn [andb]. rewrite Hvo.
    rewrite Nat2Z.id.
    set (pre := take i vs) in *. set (post := drop (S i) vs) in *.
    assert (Hlpre : length pre = i) by (unfold pre; rewrite length_take; lia).
    assert (Htot : textsSize vs
                   = textsSize pre + (Z.of_nat (length v) + 1) + textsSize post).
    { rewrite Hsplit at 1. rewrite textsSize_app. simpl. lia. }
    pose proof (textsSize_nonneg pre). pose proof (textsSize_nonneg post).
    assert (Ha : ta_buf a
                 = leBytes 4 n ++ sizeWords pre
                   ++ (leBytes 4 (Z.of_nat (length v) + 1) ++ sizeWords post
                       ++ elemBytes pre ++ (v ++ [x00]) ++ elemBytes post ++ pad)).
    { rewrite Hbuf. rewrite Hsplit at 1 2.
      rewrite sizeWords_app, elemBytes_app.
      unfold sizeWords at 2, elemBytes at 2. cbn [map concat].
      fold (sizeWords post) (elemBytes post).
      rewrite (wrap32_small (Z.of_nat (length v))) by lia.
      rewrite (wrap32_small (Z.of_nat (length v) + 1)) by lia.
      by rewrite <- !app_assoc. }
    rewrite Ha.
    pose proof (dynArray_get_loop_sizes pre (leBytes 4 n)
                  (leBytes 4 (Z.of_nat (length v) + 1) ++ sizeWords post
                   ++ elemBytes pre ++ (v ++ [x00]) ++ elemBytes post ++ pad)
                  (4 + 4 * n)) as Hloop.
    rewrite Hlpre, length_leBytes in Hloop. change (Z.of_nat 4) with 4 in Hloop.
    rewrite Hloop by lia. cbn [obind].
    rewrite (app_assoc (leBytes 4 n) (sizeWords pre)).
    rewrite (slice_middle (leBytes 4 n ++ sizeWords pre)
               (leBytes 4 (Z.of_nat (length v) + 1))).
    2:{ rewrite length_app, Nat2Z.inj_add, length_leBytes, length_sizeWords.
        rewrite Hlpre. lia. }
    2:{ by rewrite length_leBytes. }
    cbn [obind]. rewrite leUint32_leBytes by lia.
    destruct (Z.eqb_spec (Z.of_nat (length v) + 1) 0); [lia|].
    rewrite (wrap32_small (4 + 4 * n + textsSize pre + (Z.of_nat (length v) + 1)))
      by lia.
    replace ((leBytes 4 n ++ sizeWords pre)
             ++ leBytes 4 (Z.of_nat (length v) + 1) ++ sizeWords post
             ++ elemBytes pre ++ (v ++ [x00]) ++ elemBytes post ++ pad)
      with ((leBytes 4 n ++ sizeWords pre ++ leBytes 4 (Z.of_nat (length v) + 1)
             ++ sizeWords post ++ elemBytes pre)
            ++ (v ++ [x00]) ++ elemBytes post ++ pad)
      by (by rewrite <- !app_assoc).
    rewrite slice_middle.
    + cbn [obind negb orb]. rewrite length_app. simpl length.
      destruct (Nat.eqb_spec (length v + 1) 0); [lia|]. by rewrite dropNul_nul.
    + rewrite !length_app, !Nat2Z.inj_add, !length_leBytes, !length_sizeWords.
      rewrite length_elemBytes, Hlpre.
      assert (Z.of_nat (length post) = n - Z.of_nat i - 1).
      { unfold post, n. rewrite length_drop. lia. }
      lia.
    + rewrite length_app. simpl length. lia.
  - intros idx Hidx. unfold TextArray_Get, dynArray_get. rewrite Hcnt. cbn [obind].
    destruct (Z.geb_spec idx n); [done|lia].
Qed.

End text_array_facts.

Lemma Text_builder_sizes_witness :
  idol.Text_EncodeData {| idol.text_value := str "Hello" |}
  = str "Hello" ++ wire.bytes [0; 0; 0] /\
  idol.Text_DataSize {| idol.text_value := str "Hello" |} = 8.
Proof.
  destruct (Text_builder_sizes (str "Hello")) as (pad & Hdata & Hpad & Hlen & _).
  { discriminate. }
  { vm_compute. reflexivity. }
  split; [reflexivity|].
  rewrite <- Hlen. reflexivity.
Defined.

Lemma TextArray_builder_sizes_witness :
  idol.TextArray_DataSize (idol.TextArray_Set [str "Hello"; []; str ", "; str "world!"])
  = 40 /\
  Z.of_nat (length (idol.TextArray_EncodeData
                      (idol.TextArray_Set [str "Hello"; []; str ", "; str "world!"])))
  = 40.
Proof.
  destruct (TextArray_builder_sizes [str "Hello"; []; str ", "; str "world!"])
    as (_ & _ & Hlen & _).
  { discriminate. }
  { vm_compute. discriminate. }
  split; [reflexivity|]. rewrite Hlen. reflexivity.
Defined.

Lemma TextArray_roundtrip_witness :
  idol.TextArray_Iter
    {| idol.ta_buf :=
         idol.TextArray_EncodeData
           (idol.TextArray_Set [str "Hello"; []; str ", "; str "world!"]) |}
  = Ok [(0, str "Hello"); (1, []); (2, str ", "); (3, str "world!")].
Proof.
  destruct (TextArray_roundtrip [str "Hello"; []; str ", "; str "world!"])
    as (_ & Hiter & _).
  { vm_compute. discriminate. }
  exact Hiter.
Defined.

(** ** The two validators of messages *)

Section validator_facts.
Import wire.









End validator_facts.



(** ** Message arrays under the two validators *)

Section message_array_facts.
Import wire.



End message_array_facts.


(** ** The parser: what it consumes is what the tree unparses to *)

Section parser_facts.
Import wire syntax.

(** *** The text and the leaves of a list of nodes *)

(** What [UnparseTo] writes for the children of a node. *)
Fixpoint unparseAll (cs : list Node) : option (list byte) :=
  match cs with
  | [] => Some []
  | c :: rest =>
    match UnparseTo c with
    | None => None
    | Some s =>
      match unparseAll rest with
      | None => None
      | Some r => Some (s ++ r)
      end
    end
  end.

Fixpoint leavesAll (cs : list Node) : list Node :=
  match cs with
  | [] => []
  | c :: rest => leaves c ++ leavesAll rest
  end.

(** The leaves [ls] lie one after the other from the offset [o] on: each
    has a span that starts where the one before it ends and that is as
    long as its text.  The result is the text that they cover. *)
Fixpoint coverage (o : Z) (ls : list Node) : option (list byte) :=
  match ls with
  | [] => Some []
  | l :: rest =>
    match UnparseTo l, Node_Span l with
    | Some raw, Some sp =>
      if isLeaf l && (start sp =? o) && (len sp =? Z.of_nat (length raw)) then
        match coverage (o + Z.of_nat (length raw)) rest with
        | Some r => Some (raw ++ r)
        | None => None
        end
      else None
    | _, _ => None
    end
  end.

(** The text [r] under a node lies in the span [sp] when the span starts
    at the offset [o] and is as long as the text. *)
Definition spanOver (o : Z) (sp : Span) (r : option (list byte))
  : option (list byte) :=
  match r with
  | Some raw =>
    if (start sp =? o) && (len sp =? Z.of_nat (length raw)) then Some raw
    else None
  | None => None
  end.

(** The text under the node [n] when [n] and every node below it has the
    span of its text: the node starts at the offset [o], each child starts
    where the child before it ends, and each span is as long as the text
    under it. *)
Fixpoint extent (o : Z) (n : Node) : option (list byte) :=
  let children :=
    fix children (o : Z) (cs : list Node) : option (list byte) :=
      match cs with
      | [] => Some []
      | c :: rest =>
        match extent o c with
        | None => None
        | Some s =>
          match children (o + Z.of_nat (length s)) rest with
          | None => None
          | Some r => Some (s ++ r)
          end
        end
      end in
  match n with
  | N_nil => None
  | N_ParseError _ _ | N_Space _ _ | N_Newline _ _ | N_Comment _ _
  | N_IntLit _ | N_TextLit _ | N_Sigil _ _ | N_Ident _ | N_Keyword _ _ =>
      match Node_Span n with
      | Some sp => spanOver o sp (UnparseTo n)
      | None => None
      end
  | N_TypeName sp cs _ _ | N_ValueName sp cs _ _ | N_ExportName sp cs _ _
  | N_Tag sp cs _ | N_Schema sp cs | N_Namespace sp cs _ | N_Import sp cs _ _ _
  | N_Export sp cs _ _ _ | N_Decorator sp cs _ | N_Options sp cs _ _
  | N_OptionsOption sp cs _ _ | N_Option sp cs _ _ | N_OptionName sp cs
  | N_Const sp cs _ _ _ _ | N_EnumRef sp cs _ | N_Enum sp cs _ _ _ _
  | N_EnumItem sp cs _ _ _ | N_Struct sp cs _ _ _ | N_StructField sp cs _ _ _
  | N_Message sp cs _ _ _ | N_MessageField sp cs _ _ _ _ | N_Union sp cs _ _ _
  | N_UnionField sp cs _ _ _ _ | N_FieldType sp cs _ _ _
  | N_Protocol sp cs _ _ _ _ | N_ProtocolRpc sp cs _ _ _ _ _ _ _
  | N_ProtocolEvent sp cs _ _ _ _ => spanOver o sp (children o cs)
  end.

Fixpoint extentAll (o : Z) (cs : list Node) : option (list byte) :=
  match cs with
  | [] => Some []
  | c :: rest =>
    match extent o c with
    | None => None
    | Some s =>
      match extentAll (o + Z.of_nat (length s)) rest with
      | None => None
      | Some r => Some (s ++ r)
      end
    end
  end.

Lemma unparseAll_app cs1 cs2 :
  unparseAll (cs1 ++ cs2)
  = match unparseAll cs1, unparseAll cs2 with
    | Some a, Some b => Some (a ++ b)
    | _, _ => None
    end.
Proof.
  induction cs1 as [|c cs1 IH]; simpl.
  - by destruct (unparseAll cs2).
  - destruct (UnparseTo c); [|done]. rewrite IH.
    destruct (unparseAll cs1); [|done].
    destruct (unparseAll cs2); [|done]. by rewrite app_assoc.
Qed.

Lemma leavesAll_app cs1 cs2 : leavesAll (cs1 ++ cs2) = leavesAll cs1 ++ leavesAll cs2.
Proof. induction cs1 as [|c cs1 IH]; simpl; [done|]. by rewrite IH, app_assoc. Qed.

Lemma coverage_app ls1 : forall o ls2 a,
  coverage o ls1 = Some a ->
  coverage o (ls1 ++ ls2)
  = match coverage (o + Z.of_nat (length a)) ls2 with
    | Some b => Some (a ++ b)
    | None => None
    end.
Proof.
  induction ls1 as [|l ls1 IH]; intros o ls2 a H; simpl in H |- *.
  - injection H as <-. simpl. rewrite Z.add_0_r. by destruct (coverage o ls2).
  - destruct (UnparseTo l) as [raw|]; [|done].
    destruct (Node_Span l) as [sp|]; [|done].
    destruct (_ && _); [|done].
    destruct (coverage (o + Z.of_nat (length raw)) ls1) as [r|] eqn:Hr; [|done].
    injection H as <-. rewrite (IH _ ls2 r Hr).
    rewrite length_app, Nat2Z.inj_add, Z.add_assoc.
    destruct (coverage _ ls2); [|done]. by rewrite app_assoc.
Qed.

Lemma UnparseTo_children sp cs : UnparseTo (N_Schema sp cs) = unparseAll cs.
Proof.
  induction cs as [|c cs IH]; [done|]. simpl in IH |- *.
  destruct (UnparseTo c); [|done]. by rewrite IH.
Qed.

Lemma leaves_children sp cs : leaves (N_Schema sp cs) = leavesAll cs.
Proof.
  induction cs as [|c cs IH]; [done|]. simpl in IH |- *. by rewrite IH.
Qed.

Lemma extentAll_app cs1 : forall o cs2 a,
  extentAll o cs1 = Some a ->
  extentAll o (cs1 ++ cs2)
  = match extentAll (o + Z.of_nat (length a)) cs2 with
    | Some b => Some (a ++ b)
    | None => None
    end.
Proof.
  induction cs1 as [|c cs1 IH]; intros o cs2 a H; simpl in H |- *.
  - injection H as <-. simpl. rewrite Z.add_0_r. by destruct (extentAll o cs2).
  - destruct (extent o c) as [s|]; [|done].
    destruct (extentAll (o + Z.of_nat (length s)) cs1) as [r|] eqn:Hr; [|done].
    injection H as <-. rewrite (IH _ cs2 r Hr).
    rewrite length_app, Nat2Z.inj_add, Z.add_assoc.
    destruct (extentAll _ cs2); [|done]. by rewrite app_assoc.
Qed.

Lemma extent_children sp cs o :
  extent o (N_Schema sp cs) = spanOver o sp (extentAll o cs).
Proof.
reflexivity. Qed.

Lemma extent_leaf o l :
  isLeaf l = true ->
  extent o l = match Node_Span l with
               | Some sp => spanOver o sp (UnparseTo l)
               | None => None
               end.
Proof. by destruct l. Qed.

(** A node that [finish] builds: an interior node over the child nodes. *)
Definition interior (n : Node) (cs : list Node) : Prop :=
  UnparseTo n = unparseAll cs /\ leaves n = leavesAll cs.

Lemma interior_intro n sp cs :
  UnparseTo n = UnparseTo (N_Schema sp cs) ->
  leaves n = leaves (N_Schema sp cs) ->
  interior n cs.
Proof.
  intros H1 H2. split.
  - by rewrite H1, UnparseTo_children.
  - by rewrite H2, leaves_children.
Qed.

(** A node that [finish] builds with the span [sp]. *)
Definition built (n : Node) (sp : Span) (cs : list Node) : Prop :=
  interior n cs /\ forall o, extent o n = spanOver o sp (extentAll o cs).

Lemma built_intro n sp cs :
  UnparseTo n = UnparseTo (N_Schema sp cs) ->
  leaves n = leaves (N_Schema sp cs) ->
  (forall o, extent o n = extent o (N_Schema sp cs)) ->
  built n sp cs.
Proof.
  intros H1 H2 H3. split; [by apply (interior_intro _ sp)|].
  intros o. by rewrite H3, extent_children.
Qed.

Lemma withDecorators_extent d n o : extent o (withDecorators d n) = extent o n.
Proof. by destruct n. Qed.

Lemma withDecorators_UnparseTo d n : UnparseTo (withDecorators d n) = UnparseTo n.
Proof. by destruct n. Qed.

Lemma withDecorators_leaves d n : leaves (withDecorators d n) = leaves n.
Proof. by destruct n. Qed.

(** *** The kinds of the tokens *)

Ltac stuck H :=
  match type of H with
  | obind ?m _ = _ => destruct m; simpl in H; discriminate
  end.

Lemma emit_kind t kind n flags tok t' :
  emit t kind n flags = Ok (tok, t') -> tk_Kind tok = kind.
Proof.
  unfold emit, checkTokenLen. intros H.
  destruct (maxTokenLen <? n); [discriminate|]. simpl in H.
  destruct (slice _ _ _); simpl in H; try discriminate. by injection H as <- <-.
Qed.

Lemma nextSpace_kind t tok t' : nextSpace t = Ok (tok, t') -> tk_Kind tok = T_SPACE.
Proof.
  unfold nextSpace. destruct (nextSpace_loop _ _); [|discriminate]. apply emit_kind.
Qed.

Lemma nextNumLit_kind t tok t' :
  nextNumLit t = Ok (tok, t') -> isIntKind (tk_Kind tok) = true.
Proof.
  unfold nextNumLit. intros H.
  destruct (index (t_src t) 0) as [c0| |]; try discriminate. simpl in H.
  remember (bool_decide (c0 = minus)) as neg eqn:Hneg. clear Hneg.
  destruct (neg && (length (t_src t) =? 1)%nat); [stuck H|].
  match type of H with
  | obind ?m _ = _ => destruct m as [numSrc| |]; try discriminate
  end.
  simpl in H.
  destruct (index numSrc 0) as [d0| |]; try discriminate. simpl in H.
  destruct (bool_decide (d0 = x30) && (length numSrc =? 1)%nat).
  { destruct neg; [stuck H|].
    destruct (slice _ _ _); simpl in H; try discriminate. by injection H as <- <-. }
  match type of H with
  | obind ?m _ = _ => destruct m as [[kind invalid]| |] eqn:Hkind; try discriminate
  end.
  simpl in H.
  assert (Hk : isIntKind kind = true).
  { destruct (bool_decide (d0 = x30)).
    - destruct (index numSrc 1); try discriminate. simpl in Hkind.
      repeat match type of Hkind with
      | (if ?c then _ else _) = _ => destruct c
      end; injection Hkind as <- <-; done.
    - injection Hkind as <- <-; done. }
  match type of H with
  | obind ?m _ = _ => destruct m as [numSrc'| |]; try discriminate
  end.
  simpl in H.
  destruct (scanKind kind numSrc' invalid) as [n inv].
  match type of H with
  | (if ?c then _ else _) = _ => destruct c
  end; [stuck H|].
  apply emit_kind in H. by rewrite H.
Qed.

Lemma nextTextLit_kind t tok t' :
  nextTextLit t = Ok (tok, t') -> tk_Kind tok = T_TEXT_LIT.
Proof.
  unfold nextTextLit. destruct (scanText _ _ _); try discriminate. apply emit_kind.
Qed.

Lemma nextIdent_kind t tok t' : nextIdent t = Ok (tok, t') -> tk_Kind tok = T_IDENT.
Proof.
  unfold nextIdent. destruct (scanIdent _ _ _) as [[n u] i].
  destruct (u || i); [intros H; stuck H|]. apply emit_kind.
Qed.

(** A token of one of the ten punctuation kinds. *)
Definition isSigilKind (k : TokenKind) : bool :=
  match k with
  | T_AT | T_COLON | T_DOT | T_EQ | T_OPEN_CURL | T_CLOSE_CURL | T_OPEN_PAREN
  | T_CLOSE_PAREN | T_OPEN_SQUARE | T_CLOSE_SQUARE => true
  | _ => false
  end.

(** A punctuation token is one byte long, and a newline token is a line
    feed, or a carriage return and a line feed. *)
Lemma Next_token_text t tok t' :
  Next t = Ok (tok, t') ->
  (isSigilKind (tk_Kind tok) = true -> tk_Len tok = 1) /\
  (tk_Kind tok = T_NEWLINE ->
   take (Z.to_nat (tk_Len tok)) (t_src t)
   = if tk_Len tok =? 2 then [x0d; x0a] else [x0a]).
Proof.
  unfold Next. intros H.
  destruct (t_src t) as [|c rest] eqn:Hsrc.
  { injection H as <- <-. done. }
  assert (Hother : forall k, tk_Kind tok = k -> isSigilKind k = false ->
             k <> T_NEWLINE ->
             (isSigilKind (tk_Kind tok) = true -> tk_Len tok = 1) /\
             (tk_Kind tok = T_NEWLINE ->
              take (Z.to_nat (tk_Len tok)) (c :: rest)
              = if tk_Len tok =? 2 then [x0d; x0a] else [x0a])).
  { intros k -> Hs Hn. split; [by rewrite Hs|done]. }
  repeat match type of H with
  | (if decide (c = ?b) then _ else _) = _ =>
      destruct (decide (c = b)) as [Heq|?];
      [first [ by (apply (Hother T_SPACE); [by eapply nextSpace_kind|done|done])
             | by (apply (Hother T_COMMENT);
                   [unfold nextComment in H; by eapply emit_kind|done|done])
             | by (apply (Hother T_TEXT_LIT); [by eapply nextTextLit_kind|done|done])
             | by (injection H as <- <-; subst c; done)
             | idtac ]|]
  end.
  - destruct rest as [|c1 rest2]; [discriminate|].
    destruct (decide (c1 = x0a)) as [->|]; [|discriminate].
    injection H as <- <-. subst c. done.
  - destruct (isDigit c || bool_decide (c = minus)).
    { apply nextNumLit_kind in H.
      apply (Hother (tk_Kind tok)); [done| |]; by destruct (tk_Kind tok). }
    destruct (isLetter c).
    { apply (Hother T_IDENT); [by eapply nextIdent_kind|done|done]. }
    rewrite <- Hsrc in H.
    destruct (DecodeRune (t_src t)) as [r runeLen].
    destruct (r =? 160).
    + apply (Hother T_SPACE); [by eapply nextSpace_kind|done|done].
    + destruct (_ || _); discriminate.
Qed.

(** *** The invariant of a parse context *)

(** The lexer is where the context is, or one token ahead of it. *)
Definition sync (ctx : parseCtx) : Prop :=
  if ctx_haveToken ctx
  then exists t0,
         t_src t0 = ctx_src ctx /\ Next t0 = Ok (ctx_token ctx, ctx_tokens ctx)
  else t_src (ctx_tokens ctx) = ctx_src ctx.

(** A context that has started at the offset [off0] on the source [src0]:
    the child nodes unparse to what it has consumed of [src0], their leaves
    cover it from [off0] on, their spans are those of their texts, and
    [ctx.src] is what is left. *)
Record Good (src0 : list byte) (off0 : Z) (ctx : parseCtx) : Prop := mkGood {
  good_opts : ctx_opts ctx = NewParseOptions;
  good_start : 0 <= off0;
  good_size : off0 + Z.of_nat (length src0) <= maxSrcLen;
  good_text :
    exists u,
      unparseAll (ctx_childNodes ctx) = Some u /\
      coverage off0 (leavesAll (ctx_childNodes ctx)) = Some u /\
      u ++ ctx_src ctx = src0 /\
      ctx_consumed ctx = Z.of_nat (length u) /\
      ctx_offset ctx = off0 + Z.of_nat (length u);
  good_sync : sync ctx;
  good_extent :
    extentAll off0 (ctx_childNodes ctx) = unparseAll (ctx_childNodes ctx)
}.

(** Two contexts with the same child nodes at the same place. *)
Definition quiet (ctx ctx' : parseCtx) : Prop :=
  ctx_opts ctx' = ctx_opts ctx /\ ctx_src ctx' = ctx_src ctx /\
  ctx_childNodes ctx' = ctx_childNodes ctx /\
  ctx_consumed ctx' = ctx_consumed ctx /\ ctx_offset ctx' = ctx_offset ctx.

Lemma quiet_refl ctx : quiet ctx ctx.
Proof. by repeat split. Qed.

Lemma quiet_trans c1 c2 c3 : quiet c1 c2 -> quiet c2 c3 -> quiet c1 c3.
Proof.
  intros (?&?&?&?&?) (?&?&?&?&?). repeat split; congruence.
Qed.

Lemma Good_quiet src0 off0 ctx ctx' :
  Good src0 off0 ctx -> quiet ctx ctx' -> sync ctx' -> Good src0 off0 ctx'.
Proof.
  intros [Ho Hs Hz (u & Hu & Hc & Hsrc & Hcons & Hoff) _ Hx]
    (Q1 & Q2 & Q3 & Q4 & Q5) Hsync.
  split; try done; [congruence| |by rewrite Q3].
  exists u. rewrite Q2, Q3, Q4, Q5. done.
Qed.

Definition sticky (ctx ctx' : parseCtx) : Prop :=
  ctx_err ctx <> None -> ctx_err ctx' <> None.

Definition grows (ctx ctx' : parseCtx) : Prop :=
  ctx_consumed ctx <= ctx_consumed ctx'.

(** What a context knows of its look-ahead token. *)
Lemma sync_token ctx :
  sync ctx -> ctx_haveToken ctx = true ->
  let tok := ctx_token ctx in
  0 <= tk_Len tok <= Z.of_nat (length (ctx_src ctx)) /\
  tk_Len tok <= maxTokenLen /\
  t_src (ctx_tokens ctx) = drop (Z.to_nat (tk_Len tok)) (ctx_src ctx) /\
  (tk_Kind tok = T_EOF -> ctx_src ctx = []) /\
  (tk_Kind tok <> T_EOF -> 1 <= tk_Len tok) /\
  (isSigilKind (tk_Kind tok) = true -> tk_Len tok = 1) /\
  (tk_Kind tok = T_NEWLINE ->
   take (Z.to_nat (tk_Len tok)) (ctx_src ctx)
   = if tk_Len tok =? 2 then [x0d; x0a] else [x0a]).
Proof.
  unfold sync. intros Hs Hh. rewrite Hh in Hs. destruct Hs as (t0 & Hsrc & Hnext).
  cbv zeta. rewrite <- Hsrc.
  destruct (Next_token_text _ _ _ Hnext) as [Hsig Hnl].
  destruct (Next_advances _ _ _ Hnext)
    as [(Hnil & Hk & Hl & ->)|(Hne & Hk & Hl1 & Hl2 & Hd & _)].
  - rewrite Hl, Hnil. unfold maxTokenLen. simpl.
    repeat split; try done; try lia; intros Hx; rewrite Hk in Hx; done.
  - repeat split; try done; try lia.
Qed.

Lemma leaves_leaf l : isLeaf l = true -> leaves l = [l].
Proof. by destruct l. Qed.

Lemma readToken_take ctx s ctx' :
  readToken ctx = Some (s, ctx') ->
  ctx' = ctx /\ s = take (Z.to_nat (tk_Len (ctx_token ctx))) (ctx_src ctx) /\
  0 <= tk_Len (ctx_token ctx) <= Z.of_nat (length (ctx_src ctx)).
Proof.
  unfold readToken. destruct (slice _ _ _) as [v| |] eqn:Hs; try discriminate.
  intros [= <- <-]. apply slice_Ok in Hs as (? & ? & ? & -> & ?).
  split; [done|]. rewrite Z.sub_0_r. simpl. split; [done|lia].
Qed.

(** Consuming the look-ahead token as the leaf [leaf]. *)
Lemma consumeToken_leaf src0 off0 ctx leaf ctx' :
  Good src0 off0 ctx -> ctx_haveToken ctx = true ->
  UnparseTo leaf = Some (take (Z.to_nat (tk_Len (ctx_token ctx))) (ctx_src ctx)) ->
  Node_Span leaf
  = Some {| start := ctx_offset ctx; len := tk_Len (ctx_token ctx) |} ->
  isLeaf leaf = true ->
  consumeToken (Some leaf) ctx = Some (tt, ctx') ->
  Good src0 off0 ctx' /\ ctx_err ctx' = ctx_err ctx /\
  ctx_consumed ctx' = ctx_consumed ctx + tk_Len (ctx_token ctx).
Proof.
  intros [Ho Hs Hz (u & Hu & Hc & Hsrc & Hcons & Hoff) Hsync Hx] Hh Hun Hsp Hleaf H.
  destruct (sync_token ctx Hsync Hh) as (Hlen & Hmax & Hrest & _).
  cbv zeta in *. unfold consumeToken in H.
  destruct (slice _ _ _) as [rest| |] eqn:Hsl; try discriminate.
  apply slice_suffix in Hsl as [_ ->]. injection H as <-. simpl.
  set (n := tk_Len (ctx_token ctx)) in *.
  set (raw := take (Z.to_nat n) (ctx_src ctx)) in *.
  assert (Hraw : Z.of_nat (length raw) = n).
  { unfold raw. rewrite length_take. lia. }
  assert (Hsize : Z.of_nat (length src0)
                  = Z.of_nat (length u) + Z.of_nat (length (ctx_src ctx))).
  { rewrite <- Hsrc, length_app. lia. }
  unfold maxSrcLen in Hz.
  assert (Hw1 : wrap32 (ctx_consumed ctx + n) = ctx_consumed ctx + n)
    by (apply wrap32_small; change (2^32) with 4294967296; lia).
  assert (Hw2 : wrap32 (ctx_offset ctx + n) = ctx_offset ctx + n)
    by (apply wrap32_small; change (2^32) with 4294967296; lia).
  split; [|split; [done|done]].
  split; simpl; try done.
  - exists (u ++ raw). rewrite unparseAll_app, Hu. simpl. rewrite Hun.
    rewrite app_nil_r. split; [done|].
    rewrite leavesAll_app. simpl. rewrite app_nil_r, (leaves_leaf _ Hleaf).
    rewrite (coverage_app _ _ _ _ Hc). simpl. rewrite Hun, Hsp, Hleaf. simpl.
    rewrite <- Hoff, Z.eqb_refl, Hraw, Z.eqb_refl. simpl. rewrite app_nil_r.
    split; [done|]. split.
    + rewrite <- app_assoc. unfold raw. by rewrite take_drop.
    + rewrite length_app, Nat2Z.inj_add. lia.
  - rewrite Hu in Hx. rewrite (extentAll_app _ _ _ _ Hx), unparseAll_app, Hu.
    simpl. rewrite (extent_leaf _ _ Hleaf), Hun, Hsp. unfold spanOver. simpl.
    by rewrite <- Hoff, Z.eqb_refl, Hraw, Z.eqb_refl.
Qed.

(** *** The methods of the context that consume a token *)

(** One step of a method: an error that is set stays set, and the
    invariant is kept; a [lenient] step may set an error instead. *)
Definition okstep (lenient : bool) (ctx ctx' : parseCtx) : Prop :=
  sticky ctx ctx' /\
  forall src0 off0, Good src0 off0 ctx ->
    (Good src0 off0 ctx' /\ grows ctx ctx') \/
    (lenient = true /\ ctx_err ctx' <> None).

Definition run (lenient : bool) {A} (m : P A) : Prop :=
  forall ctx a ctx', m ctx = Some (a, ctx') -> okstep lenient ctx ctx'.

#[local] Abbreviation strong := (run false).
#[local] Abbreviation keeps := (run true).

Lemma grows_refl ctx : grows ctx ctx.
Proof. unfold grows. lia. Qed.

Lemma okstep_refl w ctx : okstep w ctx ctx.
Proof. split; [by intros ?|]. intros. left. split; [done|apply grows_refl]. Qed.

Lemma okstep_trans w c1 c2 c3 : okstep w c1 c2 -> okstep w c2 c3 -> okstep w c1 c3.
Proof.
  intros [S1 G1] [S2 G2]. split; [intros ?; by apply S2, S1|].
  intros src0 off0 Hg. destruct (G1 _ _ Hg) as [[Hg2 Hgr]|[Hw He]].
  - destruct (G2 _ _ Hg2) as [[Hg3 Hgr']|?]; [left|by right].
    split; [done|]. unfold grows in *. lia.
  - right. split; [done|]. by apply S2.
Qed.

Lemma okstep_weaken w c1 c2 : okstep false c1 c2 -> okstep w c1 c2.
Proof.
  intros [S1 G1]. split; [done|]. intros src0 off0 Hg.
  destruct (G1 _ _ Hg) as [?|[? _]]; [by left|done].
Qed.

Lemma okstep_quiet w ctx ctx' :
  quiet ctx ctx' -> sticky ctx ctx' -> (sync ctx -> sync ctx') -> okstep w ctx ctx'.
Proof.
  intros Hq Hs Hsync. split; [done|]. intros src0 off0 Hg. left. split.
  - eapply Good_quiet; [done|done|]. apply Hsync, Hg.
  - unfold grows. destruct Hq as (_ & _ & _ & -> & _). lia.
Qed.

Lemma okstep_Good ctx ctx' src0 off0 :
  okstep false ctx ctx' -> Good src0 off0 ctx -> Good src0 off0 ctx'.
Proof. intros [_ G] Hg. destruct (G _ _ Hg) as [[? _]|[? _]]; done. Qed.

Lemma run_weaken w {A} (m : P A) : strong m -> run w m.
Proof. intros H ctx a ctx' Hm. eapply okstep_weaken, H, Hm. Qed.

Lemma run_ret w {A} (a : A) : run w (pret a).
Proof. intros ctx b ctx' [= <- <-]. apply okstep_refl. Qed.

Lemma run_bind w {A B} (m : P A) (k : A -> P B) :
  run w m -> (forall a, run w (k a)) -> run w (pbind m k).
Proof.
  intros Hm Hk ctx b ctx' H. unfold pbind in H.
  destruct (m ctx) as [[a c1]|] eqn:E; [|discriminate].
  eapply okstep_trans; [eapply Hm, E|eapply Hk, H].
Qed.

Lemma ensureToken_spec ctx e ctx' :
  ensureToken ctx = Some (e, ctx') ->
  quiet ctx ctx' /\ sticky ctx ctx' /\ (sync ctx -> sync ctx') /\
  (e = None -> ctx_err ctx = None /\ ctx_err ctx' = None /\ ctx_haveToken ctx' = true) /\
  (e <> None -> ctx_err ctx' = e).
Proof.
  unfold ensureToken, sticky. intros H.
  destruct (ctx_err ctx) as [x|] eqn:Herr.
  { injection H as <- <-. rewrite Herr. repeat split; try done. }
  destruct (ctx_haveToken ctx) eqn:Hh.
  { injection H as <- <-. repeat split; try done. }
  destruct (Next (ctx_tokens ctx)) as [[tok toks]|x|] eqn:Hn; [| |discriminate].
  - injection H as <- <-. unfold quiet, sync. simpl. rewrite Hh.
    repeat split; try done. intros Hs. by exists (ctx_tokens ctx).
  - injection H as <- <-. unfold quiet, sync. simpl. rewrite Hh.
    repeat split; try done.
Qed.

Lemma ensureToken_strong : strong ensureToken.
Proof.
  intros ctx e ctx' H. apply ensureToken_spec in H as (Hq & Hs & Hsync & _).
  by apply okstep_quiet.
Qed.

(** A leaf that holds the text [raw] at the offset [off]. *)
Definition rawLeaf (leaf : Node) (raw : list byte) (off : Z) : Prop :=
  UnparseTo leaf = Some raw /\
  Node_Span leaf = Some {| start := off; len := wrap32 (Z.of_nat (length raw)) |} /\
  isLeaf leaf = true.

Lemma consumeToken_sticky child ctx ctx' :
  consumeToken child ctx = Some (tt, ctx') -> ctx_err ctx' = ctx_err ctx.
Proof.
  unfold consumeToken. destruct (slice _ _ _); try discriminate.
  by intros [= <-].
Qed.

Lemma consumeToken_raw src0 off0 ctx leaf raw c1 ctx' :
  Good src0 off0 ctx -> ctx_haveToken ctx = true ->
  readToken ctx = Some (raw, c1) ->
  rawLeaf leaf raw (ctx_offset ctx) ->
  consumeToken (Some leaf) ctx = Some (tt, ctx') ->
  Good src0 off0 ctx' /\ ctx_err ctx' = ctx_err ctx /\
  ctx_consumed ctx' = ctx_consumed ctx + tk_Len (ctx_token ctx).
Proof.
  intros Hg Hh Hr (Hun & Hsp & Hleaf) H.
  apply readToken_take in Hr as (_ & -> & Hlen).
  destruct (sync_token ctx (good_sync _ _ _ Hg) Hh) as (_ & Hmax & _).
  cbv zeta in Hmax. unfold maxTokenLen in Hmax.
  eapply consumeToken_leaf; try done.
  rewrite Hsp. do 2 f_equal. rewrite length_take.
  replace (Z.of_nat (Z.to_nat (tk_Len (ctx_token ctx)) `min` length (ctx_src ctx)))
    with (tk_Len (ctx_token ctx)) by lia.
  apply wrap32_small. change (2^32) with 4294967296. lia.
Qed.

Ltac prun H :=
  unfold pbind in H at 1;
  match type of H with
  | match ?m ?c with _ => _ end = _ =>
      let a := fresh "a" in
      let c1 := fresh "c" in
      let E := fresh "E" in
      destruct (m c) as [[a c1]|] eqn:E; [|discriminate]
  end.

Lemma consumeSpace_spec ctx ctx' :
  consumeSpace ctx = Some (tt, ctx') ->
  ctx_err ctx' = ctx_err ctx /\
  forall src0 off0, Good src0 off0 ctx -> ctx_haveToken ctx = true ->
    Good src0 off0 ctx' /\ ctx_err ctx' = ctx_err ctx /\
    ctx_consumed ctx' = ctx_consumed ctx + tk_Len (ctx_token ctx).
Proof.
  unfold consumeSpace. intros H. unfold pbind, getCtx in H.
  split.
  - destruct (negb _); [by apply consumeToken_sticky in H|].
    destruct (readToken ctx) as [[raw c1]|] eqn:Hr; [|discriminate].
    pose proof (readToken_take _ _ _ Hr) as (-> & _).
    by apply consumeToken_sticky in H.
  - intros src0 off0 Hg Hh. rewrite (good_opts _ _ _ Hg) in H. simpl in H.
    destruct (readToken ctx) as [[raw c1]|] eqn:Hr; [|discriminate].
    pose proof (readToken_take _ _ _ Hr) as (-> & _).
    assert (Hleaf : rawLeaf (N_Space raw (ctx_offset ctx)) raw (ctx_offset ctx))
      by (by repeat split).
    exact (consumeToken_raw _ _ _ _ _ _ _ Hg Hh Hr Hleaf H).
Qed.

Lemma sync_len_nonneg ctx :
  sync ctx -> ctx_haveToken ctx = true -> 0 <= tk_Len (ctx_token ctx).
Proof. intros Hs Hh. destruct (sync_token ctx Hs Hh) as (? & _). cbv zeta in *. lia. Qed.

(** Consuming after a successful [ensureToken]. *)
Lemma okstep_consume w ctx c ctx' :
  quiet ctx c -> sticky ctx c -> (sync ctx -> sync c) -> ctx_haveToken c = true ->
  ctx_err ctx' = ctx_err c ->
  (forall src0 off0, Good src0 off0 c ->
     Good src0 off0 ctx' /\ ctx_err ctx' = ctx_err c /\
     ctx_consumed ctx' = ctx_consumed c + tk_Len (ctx_token c)) ->
  okstep w ctx ctx'.
Proof.
  intros Hq Hs Hsync Hh Herr Hgood.
  eapply okstep_trans; [by apply okstep_quiet|].
  split; [intros ?; congruence|]. intros src0 off0 Hg. left.
  destruct (Hgood _ _ Hg) as (Hg' & _ & Hc). split; [done|].
  unfold grows. rewrite Hc.
  pose proof (sync_len_nonneg c (good_sync _ _ _ Hg) Hh). lia.
Qed.

Lemma space_strong : strong space.
Proof.
  intros ctx [] ctx' H. unfold space in H. prun H.
  apply ensureToken_spec in E as (Hq & Hs & Hsync & He & Hne).
  destruct a as [x|]; [injection H as <-; by apply okstep_quiet|].
  destruct (He eq_refl) as (He0 & He1 & Hh).
  unfold pbind, getCtx in H.
  destruct (negb _); [injection H as <-; by apply okstep_quiet|].
  apply consumeSpace_spec in H as [Herr Hgood].
  eapply okstep_consume; try done. intros src0 off0 Hg. by apply Hgood.
Qed.

Lemma setErr_okstep w e ctx u ctx' : setErr e ctx = Some (u, ctx') -> okstep w ctx ctx'.
Proof. intros [= <- <-]. by apply okstep_quiet. Qed.

Lemma setErr_strong e : strong (setErr e).
Proof. intros ctx [] ctx' H. by eapply setErr_okstep. Qed.

Lemma setErrO_strong e : strong (setErrO e).
Proof. destruct e; [apply setErr_strong|]. intros ctx a ctx' H. discriminate. Qed.

Lemma newSigil_spec ctx s ctx' :
  newSigil ctx = Some (s, ctx') ->
  ctx' = ctx /\ exists c rest, ctx_src ctx = c :: rest /\ s = N_Sigil c (ctx_offset ctx).
Proof.
  unfold newSigil. destruct (ctx_src ctx) as [|c rest]; [discriminate|].
  intros [= <- <-]. split; [done|]. by exists c, rest.
Qed.

(** The common end of [sigil] and [trySigil]. *)
Lemma consume_sigil kind c s c1 ctx' :
  isSigilKind kind = true -> ctx_haveToken c = true ->
  tk_Kind (ctx_token c) = kind ->
  newSigil c = Some (s, c1) -> consumeToken (Some s) c1 = Some (tt, ctx') ->
  ctx_err ctx' = ctx_err c /\
  forall src0 off0, Good src0 off0 c ->
    Good src0 off0 ctx' /\ ctx_err ctx' = ctx_err c /\
    ctx_consumed ctx' = ctx_consumed c + tk_Len (ctx_token c).
Proof.
  intros Hkind Hh Hk E H.
  apply newSigil_spec in E as (-> & ch & rest & Hsrc & ->).
  split; [by apply consumeToken_sticky in H|].
  intros src0 off0 Hg.
  destruct (sync_token c (good_sync _ _ _ Hg) Hh) as (_ & _ & _ & _ & _ & Hone & _).
  cbv zeta in Hone. rewrite Hk in Hone. specialize (Hone Hkind).
  apply (consumeToken_leaf src0 off0 c (N_Sigil ch (ctx_offset c)) ctx' Hg Hh);
    [by rewrite Hone, Hsrc|simpl; by rewrite Hone|done|done].
Qed.

Lemma sigil_strong kind : isSigilKind kind = true -> strong (sigil kind).
Proof.
  intros Hkind ctx [] ctx' H. unfold sigil in H. prun H.
  apply ensureToken_spec in E as (Hq & Hs & Hsync & He & Hne).
  destruct a as [x|]; [injection H as <-; by apply okstep_quiet|].
  destruct (He eq_refl) as (He0 & He1 & Hh).
  unfold pbind at 1, getCtx in H.
  destruct (bool_decide_reflect (tk_Kind (ctx_token c) = kind)) as [Hk|Hk];
    cbn [negb] in H.
  - prun H. destruct (consume_sigil kind _ _ _ _ Hkind Hh Hk E H) as [Herr Hgood].
    by eapply okstep_consume.
  - prun H. apply readToken_take in E as (-> & _).
    eapply okstep_trans; [by apply okstep_quiet|]. by eapply setErrO_strong.
Qed.

Lemma trySigil_spec kind ctx b ctx' :
  isSigilKind kind = true -> trySigil kind ctx = Some (b, ctx') ->
  okstep false ctx ctx' /\ (b = false -> quiet ctx ctx').
Proof.
  intros Hkind H. unfold trySigil in H. prun H.
  apply ensureToken_spec in E as (Hq & Hs & Hsync & He & Hne).
  destruct a as [x|]; [injection H as <- <-; split; [by apply okstep_quiet|done]|].
  destruct (He eq_refl) as (He0 & He1 & Hh).
  unfold pbind at 1, getCtx in H.
  destruct (bool_decide_reflect (tk_Kind (ctx_token c) = kind)) as [Hk|Hk];
    cbn [negb] in H.
  - prun H. prun H. destruct a0. injection H as <- <-. split; [|done].
    destruct (consume_sigil kind _ _ _ _ Hkind Hh Hk E E0) as [Herr Hgood].
    by eapply okstep_consume.
  - injection H as <- <-. split; [by apply okstep_quiet|done].
Qed.

Lemma trySigil_strong kind : isSigilKind kind = true -> strong (trySigil kind).
Proof. intros Hkind ctx b ctx' H. by apply (trySigil_spec kind) in H as [? _]. Qed.

Lemma tryKeyword_spec keyword ctx b ctx' :
  tryKeyword keyword ctx = Some (b, ctx') ->
  okstep false ctx ctx' /\ (b = false -> quiet ctx ctx').
Proof.
  intros H. unfold tryKeyword in H. prun H.
  apply ensureToken_spec in E as (Hq & Hs & Hsync & He & Hne).
  destruct a as [x|]; [injection H as <- <-; split; [by apply okstep_quiet|done]|].
  destruct (He eq_refl) as (He0 & He1 & Hh).
  unfold pbind at 1, getCtx in H.
  destruct (negb _); [injection H as <- <-; split; [by apply okstep_quiet|done]|].
  prun H. pose proof (readToken_take _ _ _ E) as (-> & _).
  destruct (bool_decide_reflect (a = keyword)) as [Heq|Hk]; cbn [negb] in H.
  - subst a. prun H. destruct a. injection H as <- <-. split; [|done].
    eapply okstep_consume; try done; [by apply consumeToken_sticky in E0|].
    intros src0 off0 Hg.
    eapply consumeToken_raw; try done. by repeat split.
  - injection H as <- <-. split; [by apply okstep_quiet|done].
Qed.

Lemma tryKeyword_strong keyword : strong (tryKeyword keyword).
Proof. intros ctx b ctx' H. by apply tryKeyword_spec in H as [? _]. Qed.

Lemma ident_strong : strong ident.
Proof.
  intros ctx r ctx' H. unfold ident in H. prun H.
  apply ensureToken_spec in E as (Hq & Hs & Hsync & He & Hne).
  destruct a as [x|]; [injection H as <- <-; by apply okstep_quiet|].
  destruct (He eq_refl) as (He0 & He1 & Hh).
  prun H. pose proof (readToken_take _ _ _ E) as (-> & _).
  unfold pbind at 1, getCtx in H.
  destruct (negb _).
  - prun H. injection H as <- <-.
    eapply okstep_trans; [by apply okstep_quiet|]. by eapply setErr_okstep.
  - prun H. destruct a0. injection H as <- <-.
    eapply okstep_consume; try done; [by apply consumeToken_sticky in E0|].
    intros src0 off0 Hg.
    eapply consumeToken_raw; try done. by repeat split.
Qed.

Lemma int_strong : strong int.
Proof.
  intros ctx r ctx' H. unfold int in H. prun H.
  apply ensureToken_spec in E as (Hq & Hs & Hsync & He & Hne).
  destruct a as [x|]; [injection H as <- <-; by apply okstep_quiet|].
  destruct (He eq_refl) as (He0 & He1 & Hh).
  prun H. pose proof (readToken_take _ _ _ E) as (-> & _).
  unfold pbind at 1, getCtx in H.
  destruct (negb _).
  { prun H. injection H as <- <-.
    eapply okstep_trans; [by apply okstep_quiet|]. by eapply setErr_okstep. }
  destruct (newIntLit a _ _) as [lit|e|] eqn:Hlit; [| |discriminate].
  - prun H. destruct a0. injection H as <- <-.
    apply newIntLit_inv in Hlit as (Hraw & Hstart & _).
    eapply okstep_consume; try done; [by apply consumeToken_sticky in E0|].
    intros src0 off0 Hg.
    eapply consumeToken_raw; try done.
    repeat split; simpl; [by rewrite Hraw|].
    unfold IntLit_Span. by rewrite Hraw, Hstart.
  - prun H. injection H as <- <-.
    eapply okstep_trans; [by apply okstep_quiet|]. by eapply setErr_okstep.
Qed.

Lemma newTextLit_raw token start flags lit :
  newTextLit token start flags = Ok lit -> tl_raw lit = token /\ tl_start lit = start.
Proof.
  unfold newTextLit. destruct (slice _ _ _); simpl; try discriminate.
  destruct (negb _); [by intros [= <-]|].
  destruct (unescape _ _ _ _ _ _) as [[[buf va] vt]|]; [|discriminate].
  by intros [= <-].
Qed.

Lemma text_strong : strong text.
Proof.
  intros ctx r ctx' H. unfold text in H. prun H.
  apply ensureToken_spec in E as (Hq & Hs & Hsync & He & Hne).
  destruct a as [x|]; [injection H as <- <-; by apply okstep_quiet|].
  destruct (He eq_refl) as (He0 & He1 & Hh).
  prun H. pose proof (readToken_take _ _ _ E) as (-> & _).
  unfold pbind at 1, getCtx in H.
  destruct (negb _).
  { prun H. injection H as <- <-.
    eapply okstep_trans; [by apply okstep_quiet|]. by eapply setErr_okstep. }
  destruct (newTextLit a _ _) as [lit|e|] eqn:Hlit; [| |discriminate].
  - prun H. destruct a0. injection H as <- <-.
    apply newTextLit_raw in Hlit as (Hraw & Hstart).
    eapply okstep_consume; try done; [by apply consumeToken_sticky in E0|].
    intros src0 off0 Hg.
    eapply consumeToken_raw; try done.
    repeat split; simpl; [by rewrite Hraw|].
    unfold TextLit_Span. by rewrite Hraw, Hstart.
  - prun H. injection H as <- <-.
    eapply okstep_trans; [by apply okstep_quiet|]. by eapply setErr_okstep.
Qed.

(** *** Loops *)

Lemma loop_fuel_run w {St R} (Q : list byte -> Z -> R -> parseCtx -> Prop)
    (body : St -> P (ctl St R)) :
  (forall s ctx c ctx', body s ctx = Some (c, ctx') ->
     match c with
     | Return r => forall src0 off0, Good src0 off0 ctx -> Q src0 off0 r ctx'
     | _ => okstep w ctx ctx'
     end) ->
  forall fuel s ctx x ctx', loop_fuel fuel body s ctx = Some (x, ctx') ->
    match x with
    | inr r => forall src0 off0, Good src0 off0 ctx -> Q src0 off0 r ctx'
    | inl _ => okstep w ctx ctx'
    end.
Proof.
  intros Hbody. induction fuel as [|fuel IH]; intros s ctx x ctx' H; [discriminate|].
  cbn [loop_fuel] in H.
  destruct (body s ctx) as [[c c1]|] eqn:Hb; [|discriminate].
  specialize (Hbody _ _ _ _ Hb).
  destruct c as [s'|s'|r].
  - destruct (ctx_err c1) eqn:Herr; [by injection H as <- <-|].
    destruct (ctx_consumed ctx =? ctx_consumed c1); [by injection H as <- <-|].
    specialize (IH _ _ _ _ H). destruct x as [s2|r].
    + eapply okstep_trans; done.
    + intros src0 off0 Hg. apply IH.
      destruct Hbody as [_ G]. destruct (G _ _ Hg) as [[? _]|[_ ?]]; done.
  - by injection H as <- <-.
  - by injection H as <- <-.
Qed.

Lemma loop_run w {St} (body : St -> P (ctl St Empty_set)) s :
  (forall s, run w (body s)) -> run w (loop body s).
Proof.
  intros Hbody ctx x ctx' H. unfold loop in H.
  destruct (ctx_err ctx); [injection H as <- <-; apply okstep_refl|].
  apply (loop_fuel_run w (fun _ _ _ _ => True)) in H.
  - by destruct x as [?|[]].
  - intros s' c0 c c1 Hb. specialize (Hbody _ _ _ _ Hb). by destruct c as [?|?|[]].
Qed.

Lemma loop__run w (body : P (ctl unit Empty_set)) : run w body -> run w (loop_ body).
Proof.
  intros Hbody. unfold loop_. apply run_bind; [|intros ?; apply run_ret].
  by apply loop_run.
Qed.

(** *** Comments *)

(** One round of [comments]: it stops with a token that is no trivia, or
    it has consumed a token. *)
Definition commentsBody : P (ctl unit Empty_set) :=
  letp e := ensureToken in
  match e with
  | Some _ => pret (Break tt)
  | None =>
    letp ctx := getCtx in
    match tk_Kind (ctx_token ctx) with
    | T_SPACE => consumeSpace >>> pret (Continue tt)
    | T_NEWLINE =>
      consumeToken
        (Some (if saveNewlines (ctx_opts ctx)
               then N_Newline (ctx_offset ctx) (tk_Len (ctx_token ctx) =? 2)
               else N_nil)) >>>
      pret (Continue tt)
    | T_COMMENT =>
      (if saveComments (ctx_opts ctx) then
         letp raw := readToken in
         consumeToken (Some (N_Comment raw (ctx_offset ctx)))
       else consumeToken (Some N_nil)) >>>
      pret (Continue tt)
    | _ => pret (Break tt)
    end
  end.

Lemma comments_unfold : comments = loop_ commentsBody.
Proof. reflexivity. Qed.

Lemma commentsBody_spec ctx c ctx' :
  commentsBody ctx = Some (c, ctx') ->
  okstep false ctx ctx' /\
  match c with
  | Break _ => ctx_err ctx' = None -> ctx_haveToken ctx' = true
  | Continue _ =>
      forall src0 off0, Good src0 off0 ctx -> ctx_consumed ctx < ctx_consumed ctx'
  | Return r => False
  end.
Proof.
  intros H. unfold commentsBody in H. prun H.
  apply ensureToken_spec in E as (Hq & Hs & Hsync & He & Hne).
  destruct a as [x|].
  { injection H as <- <-. split; [by apply okstep_quiet|].
    intros Herr. rewrite Hne in Herr; done. }
  destruct (He eq_refl) as (He0 & He1 & Hh).
  unfold pbind at 1, getCtx in H.
  assert (Hprog : forall c2,
             ctx_err c2 = ctx_err c0 ->
             (forall src0 off0, Good src0 off0 c0 ->
                Good src0 off0 c2 /\ ctx_err c2 = ctx_err c0 /\
                ctx_consumed c2 = ctx_consumed c0 + tk_Len (ctx_token c0)) ->
             tk_Kind (ctx_token c0) <> T_EOF ->
             okstep false ctx c2 /\
             forall src0 off0, Good src0 off0 ctx -> ctx_consumed ctx < ctx_consumed c2).
  { intros c2 Herr Hgood Hk. split; [by eapply okstep_consume|].
    intros src0 off0 Hg.
    assert (Hg0 : Good src0 off0 c0).
    { eapply Good_quiet; [done|done|]. apply Hsync, Hg. }
    destruct (Hgood _ _ Hg0) as (_ & _ & ->).
    destruct (sync_token c0 (good_sync _ _ _ Hg0) Hh) as (_ & _ & _ & _ & H1 & _).
    cbv zeta in H1. specialize (H1 Hk).
    destruct Hq as (_ & _ & _ & -> & _). lia. }
  destruct (tk_Kind (ctx_token c0)) eqn:Hk;
    try (injection H as <- <-; split; [by apply okstep_quiet|done]).
  - (* space *)
    prun H. destruct a. injection H as <- <-.
    apply consumeSpace_spec in E as [Herr Hgood].
    apply Hprog; [done| |done]. intros src0 off0 Hg. by apply Hgood.
  - (* newline *)
    prun H. destruct a. injection H as <- <-.
    apply Hprog; [by apply consumeToken_sticky in E| |done].
    intros src0 off0 Hg. rewrite (good_opts _ _ _ Hg) in E. simpl in E.
    destruct (sync_token c0 (good_sync _ _ _ Hg) Hh)
      as (_ & _ & _ & _ & _ & _ & Hnl).
    cbv zeta in Hnl. specialize (Hnl Hk).
    apply (consumeToken_leaf src0 off0 c0
             (N_Newline (ctx_offset c0) (tk_Len (ctx_token c0) =? 2)) c1 Hg Hh);
      [| |done|done].
    + rewrite Hnl. simpl. by destruct (tk_Len (ctx_token c0) =? 2).
    + simpl. do 2 f_equal.
      assert (Hlen : Z.of_nat (length (take (Z.to_nat (tk_Len (ctx_token c0)))
                                          (ctx_src c0)))
                     = tk_Len (ctx_token c0)).
      { destruct (sync_token c0 (good_sync _ _ _ Hg) Hh) as (? & _).
        cbv zeta in *. rewrite length_take. lia. }
      rewrite Hnl in Hlen.
      destruct (tk_Len (ctx_token c0) =? 2); simpl in Hlen; lia.
  - (* comment *)
    prun H. destruct a. injection H as <- <-.
    assert (Herr : ctx_err c1 = ctx_err c0).
    { destruct (saveComments _).
      - prun E. apply readToken_take in E0 as (-> & _).
        by apply consumeToken_sticky in E.
      - by apply consumeToken_sticky in E. }
    apply Hprog; [done| |done].
    intros src0 off0 Hg. rewrite (good_opts _ _ _ Hg) in E. simpl in E.
    prun E. pose proof (readToken_take _ _ _ E0) as (-> & _).
    eapply consumeToken_raw; try done. by repeat split.
Qed.

Lemma comments_strong : strong comments.
Proof.
  rewrite comments_unfold. apply loop__run.
  intros ctx c ctx' H. by apply commentsBody_spec in H as [? _].
Qed.

(** After [comments] the look-ahead token is in place. *)
Lemma comments_token src0 off0 ctx ctx' :
  Good src0 off0 ctx -> comments ctx = Some (tt, ctx') ->
  ctx_err ctx' = None -> ctx_haveToken ctx' = true.
Proof.
  rewrite comments_unfold. unfold loop_, pbind, loop.
  intros Hg H Herr.
  destruct (ctx_err ctx) eqn:He0.
  { injection H as <-. congruence. }
  destruct (loop_fuel _ _ _ _) as [[x c1]|] eqn:Hl; [|discriminate].
  injection H as <-. clear He0.
  remember (Datatypes.S (length (ctx_src ctx))) as fuel eqn:Hf. clear Hf.
  revert ctx Hg Hl.
  induction fuel as [|fuel IH]; intros ctx Hg Hl; [discriminate|].
  cbn [loop_fuel] in Hl.
  destruct (commentsBody ctx) as [[c c2]|] eqn:Hb; [|discriminate].
  apply commentsBody_spec in Hb as [Hstep Hpost].
  destruct c as [[]|[]|[]].
  - rewrite (proj2 (Z.eqb_neq _ _)) in Hl by (specialize (Hpost _ _ Hg); lia).
    destruct (ctx_err c2) eqn:He2; [injection Hl as <- <-; congruence|].
    eapply IH; [|done]. by eapply okstep_Good.
  - injection Hl as <- <-. by apply Hpost.
Qed.

(** *** Parse functions and their children *)

(** The node [n] that a parse function returns in the context [ctx']: it
    is over the child nodes of the context, and its span is that of what
    the function has consumed. *)
Definition nodeOk (src0 : list byte) (off0 : Z) (n : Node) (ctx' : parseCtx)
  : Prop :=
  Good src0 off0 ctx' /\ interior n (ctx_childNodes ctx') /\
  extent off0 n = unparseAll (ctx_childNodes ctx').

(** What a parse function leaves when it returns a node. *)
Definition okResult (src0 : list byte) (off0 : Z) (r : parsed) (ctx' : parseCtx)
  : Prop :=
  match r with
  | PErr _ => True
  | PNil => False
  | PNode n => nodeOk src0 off0 n ctx'
  end.

(** The end of a parse function, from wherever the invariant holds or an
    error is set. *)
Definition ends (m : P parsed) : Prop :=
  forall ctx r ctx', m ctx = Some (r, ctx') ->
    forall src0 off0, Good src0 off0 ctx \/ ctx_err ctx <> None ->
      okResult src0 off0 r ctx'.

(** A parse function, run on a context without child nodes: it returns an
    error, or nothing without having consumed anything, or a node over
    what it has consumed. *)
Definition parses (f : P parsed) : Prop :=
  forall src0 off0 ctx r ctx',
    Good src0 off0 ctx -> ctx_childNodes ctx = [] -> f ctx = Some (r, ctx') ->
    match r with
    | PErr _ => True
    | PNil => Good src0 off0 ctx' /\ ctx_consumed ctx' = 0
    | PNode n => nodeOk src0 off0 n ctx'
    end.

Lemma Good_fresh src0 off0 ctx :
  Good src0 off0 ctx -> ctx_childNodes ctx = [] ->
  ctx_consumed ctx = 0 /\ ctx_src ctx = src0 /\ ctx_offset ctx = off0.
Proof.
  intros [_ _ _ (u & Hu & _ & Hsrc & Hc & Ho) _ _] Hcs. rewrite Hcs in Hu.
  injection Hu as <-. simpl in *. repeat split; [done|done|lia].
Qed.

Lemma okstep_inv w ctx ctx' src0 off0 :
  okstep w ctx ctx' -> Good src0 off0 ctx \/ ctx_err ctx <> None ->
  Good src0 off0 ctx' \/ ctx_err ctx' <> None.
Proof.
  intros [S G] [Hg|He]; [|right; by apply S].
  destruct (G _ _ Hg) as [[? _]|[_ ?]]; [by left|by right].
Qed.

Lemma ends_bind {A} (m : P A) (k : A -> P parsed) :
  keeps m -> (forall a, ends (k a)) -> ends (pbind m k).
Proof.
  intros Hm Hk ctx r ctx' H src0 off0 Hinv. unfold pbind in H.
  destruct (m ctx) as [[a c1]|] eqn:E; [|discriminate].
  eapply Hk; [done|]. eapply okstep_inv; [eapply Hm, E|done].
Qed.

Lemma ends_finish build :
  (forall sp cs, built (build sp cs) sp cs) -> ends (finish build).
Proof.
  intros Hb ctx r ctx' H src0 off0 Hinv. unfold finish in H.
  destruct (ctx_err ctx) eqn:He; injection H as <- <-; [done|].
  destruct Hinv as [Hg|?]; [|done].
  split; [done|]. split; [apply Hb|]. rewrite (proj2 (Hb _ _)).
  destruct Hg as [Ho Hs Hz (u & Hu & _ & Hsrc & Hcons & Hoff) _ Hx].
  rewrite Hx, Hu. unfold spanOver. simpl.
  assert (Hsize : Z.of_nat (length u) <= Z.of_nat (length src0))
    by (rewrite <- Hsrc, length_app; lia).
  unfold maxSrcLen in Hz.
  replace (ctx_offset ctx - ctx_consumed ctx) with off0 by lia.
  rewrite wrap32_small by (change (2^32) with 4294967296; lia).
  by rewrite Hcons, !Z.eqb_refl.
Qed.

Lemma ends_PErr e : ends (pret (PErr e)).
Proof. by intros ctx r ctx' [= <- <-] src0 off0 _. Qed.

Lemma ends_expected mk : ends (expected mk).
Proof.
  intros ctx r ctx' H src0 off0 _. unfold expected in H. prun H.
  unfold pbind, getCtx, pret in H. by injection H as <- <-.
Qed.

Lemma ends_hasErr (k : P parsed) :
  ends k -> ends (letp failed := hasErr in if failed then returnErr else k).
Proof.
  intros Hk ctx r ctx' H src0 off0 Hinv. unfold pbind, hasErr in H.
  destruct (bool_decide_reflect (ctx_err ctx <> None)) as [He|He].
  - unfold returnErr in H. destruct (ctx_err ctx); [|done]. by injection H as <- <-.
  - by eapply Hk.
Qed.

Lemma parses_ends f : ends f -> parses f.
Proof.
  intros Hf src0 off0 ctx r ctx' Hg _ H.
  specialize (Hf _ _ _ H src0 off0 (or_introl Hg)). by destruct r.
Qed.

(** A parse function that first tries a keyword or a sigil. *)
Lemma parses_try (try_ : P bool) (k : P parsed) :
  (forall ctx b ctx', try_ ctx = Some (b, ctx') ->
     okstep false ctx ctx' /\ (b = false -> quiet ctx ctx')) ->
  ends k ->
  parses (letp ok := try_ in if negb ok then pret PNil else k).
Proof.
  intros Htry Hk src0 off0 ctx r ctx' Hg Hcs H. prun H.
  destruct (Htry _ _ _ E) as [Hstep Hq].
  pose proof (okstep_Good _ _ _ _ Hstep Hg) as Hg1.
  destruct a; cbn [negb] in H.
  - specialize (Hk _ _ _ H src0 off0 (or_introl Hg1)). by destruct r.
  - injection H as <- <-. split; [done|].
    destruct (Hq eq_refl) as (_ & _ & _ & -> & _).
    by destruct (Good_fresh _ _ _ Hg Hcs).
Qed.

Lemma interior_app_text cs n u v :
  unparseAll cs = Some u -> UnparseTo n = Some v ->
  unparseAll (cs ++ [n]) = Some (u ++ v).
Proof.
  intros Hu Hv. rewrite unparseAll_app, Hu. simpl. rewrite Hv.
  by rewrite app_nil_r.
Qed.

(** [parseChild] of a parse function. *)
Lemma parseChild_spec f ctx on ok ctx' :
  parses f -> parseChild f ctx = Some ((on, ok), ctx') ->
  okstep true ctx ctx' /\
  (forall n, on = Some n -> exists cs, ctx_childNodes ctx' = cs ++ [n]) /\
  (ok = false -> on = None) /\
  (ok = true -> forall src0 off0, Good src0 off0 ctx ->
     ctx_consumed ctx < ctx_consumed ctx').
Proof.
  intros Hf H. unfold parseChild in H.
  destruct (ctx_err ctx) eqn:Herr.
  { injection H as <- <- <-. split; [apply okstep_refl|]. done. }
  set (childCtx :=
         {| ctx_src := ctx_src ctx; ctx_opts := ctx_opts ctx;
            ctx_tokens := ctx_tokens ctx; ctx_childNodes := [];
            ctx_haveToken := ctx_haveToken ctx; ctx_token := ctx_token ctx;
            ctx_err := None; ctx_consumed := 0; ctx_offset := ctx_offset ctx |}) in *.
  destruct (f childCtx) as [[r c']|] eqn:Hrun; [|discriminate].
  assert (Hchild : forall src0 off0, Good src0 off0 ctx ->
             Good (ctx_src ctx) (ctx_offset ctx) childCtx).
  { intros src0 off0 [Ho Hs Hz (u & Hu & Hc & Hsrc & Hcons & Hoff) Hsync Hx].
    split; simpl; try done.
    - lia.
    - rewrite <- Hsrc, length_app in Hz. lia.
    - exists []. simpl. repeat split; try done. lia. }
  destruct r as [n| |e].
  - (* a node *)
    destruct (Z.eqb_spec (ctx_consumed c') 0) as [Hz|Hnz].
    + injection H as <- <- <-. split; [|done].
      split; [by intros ?|]. intros src0 off0 Hg. left.
      destruct (Hf _ _ _ _ _ (Hchild _ _ Hg) eq_refl Hrun) as [Hg' _].
      destruct Hg' as [_ _ _ (u & Hu & _ & Hsrc & Hcons & _) Hsync _].
      assert (u = []) by (destruct u; [done|simpl in Hcons; lia]). subst u.
      simpl in Hsrc. split; [|unfold grows; simpl; lia].
      eapply Good_quiet; [done|by repeat split|].
      unfold sync in *. simpl. by rewrite <- Hsrc.
    + destruct (slice _ _ _) as [rest| |] eqn:Hsl; try discriminate.
      apply slice_suffix in Hsl as [Hb ->].
      injection H as <- <- <-.
      split; [|split; [|split; [done|]]].
      * split; [by intros ?|]. intros src0 off0 Hg. left.
        destruct (Hf _ _ _ _ _ (Hchild _ _ Hg) eq_refl Hrun)
          as (Hg' & [Hun Hlv] & Hext).
        destruct Hg' as [_ _ _ (v & Hv & Hcv & Hsrc' & Hcons' & Hoff') Hsync' _].
        destruct Hg as [Ho Hs Hz (u & Hu & Hc & Hsrc & Hcons & Hoff) Hsync Hx].
        assert (Hsize : Z.of_nat (length src0)
                        = Z.of_nat (length u) + Z.of_nat (length v)
                          + Z.of_nat (length (ctx_src c'))).
        { rewrite <- Hsrc, <- Hsrc', !length_app. lia. }
        unfold maxSrcLen in Hz.
        assert (Hrest : drop (Z.to_nat (ctx_consumed c')) (ctx_src ctx) = ctx_src c').
        { rewrite <- Hsrc', Hcons', Nat2Z.id. by rewrite drop_app_length. }
        split.
        -- split; simpl; try done.
           ++ exists (u ++ v). split; [apply interior_app_text; congruence|].
              rewrite leavesAll_app. simpl. rewrite app_nil_r, Hlv.
              rewrite (coverage_app _ _ _ _ Hc), <- Hoff, Hcv.
              split; [done|]. split.
              ** rewrite <- app_assoc, Hrest, Hsrc'. done.
              ** rewrite length_app, Nat2Z.inj_add, Hcons, Hcons', Hoff', Hoff.
                 split; [|lia].
                 apply wrap32_small. change (2^32) with 4294967296. lia.
           ++ unfold sync in *. simpl. by rewrite Hrest.
           ++ rewrite Hu in Hx. rewrite (extentAll_app _ _ _ _ Hx). simpl.
              rewrite <- Hoff, Hext, Hv, app_nil_r.
              by rewrite (interior_app_text _ _ _ _ Hu ltac:(by rewrite Hun)).
        -- unfold grows. simpl. rewrite Hcons, Hcons'.
           rewrite wrap32_small by (change (2^32) with 4294967296; lia). lia.
      * intros n0 [= <-]. by eexists.
      * intros _ src0 off0 Hg. simpl.
        destruct (Hf _ _ _ _ _ (Hchild _ _ Hg) eq_refl Hrun) as [Hg' _].
        destruct Hg' as [_ _ _ (v & Hv & Hcv & Hsrc' & Hcons' & Hoff') Hsync' _].
        destruct Hg as [Ho Hs Hz (u & Hu & Hc & Hsrc & Hcons & Hoff) Hsync Hx].
        assert (Hsize : Z.of_nat (length src0)
                        = Z.of_nat (length u) + Z.of_nat (length v)
                          + Z.of_nat (length (ctx_src c'))).
        { rewrite <- Hsrc, <- Hsrc', !length_app. lia. }
        unfold maxSrcLen in Hz. rewrite Hcons, Hcons'.
        rewrite wrap32_small by (change (2^32) with 4294967296; lia). lia.
  - (* nothing *)
    destruct (Z.eqb_spec (ctx_consumed c') 0) as [Hz|Hnz].
    + injection H as <- <- <-. split; [|done].
      split; [by intros ?|]. intros src0 off0 Hg. left.
      destruct (Hf _ _ _ _ _ (Hchild _ _ Hg) eq_refl Hrun) as [Hg' _].
      destruct Hg' as [_ _ _ (u & Hu & _ & Hsrc & Hcons & _) Hsync _].
      assert (u = []) by (destruct u; [done|simpl in Hcons; lia]). subst u.
      simpl in Hsrc. split; [|unfold grows; simpl; lia].
      eapply Good_quiet; [done|by repeat split|].
      unfold sync in *. simpl. by rewrite <- Hsrc.
    + destruct (slice _ _ _) as [rest| |] eqn:Hsl; try discriminate.
      injection H as <- <- <-.
      split; [|split; [done|split; [done|]]].
      * split; [by intros ?|]. intros src0 off0 Hg.
        by destruct (Hf _ _ _ _ _ (Hchild _ _ Hg) eq_refl Hrun) as [_ ?].
      * intros _ src0 off0 Hg.
        by destruct (Hf _ _ _ _ _ (Hchild _ _ Hg) eq_refl Hrun) as [_ ?].
  - (* an error *)
    injection H as <- <- <-. split; [|done].
    split; [by intros ?|]. intros src0 off0 Hg. right. by split.
Qed.

Lemma parseChild_keeps f : parses f -> keeps (parseChild f).
Proof.
  intros Hf ctx [on ok] ctx' H. by apply (parseChild_spec f) in H as [? _].
Qed.

Lemma hasErr_run w : run w hasErr.
Proof. intros ctx b ctx' [= <- <-]. apply okstep_refl. Qed.

Lemma tokenKind_run w : run w tokenKind.
Proof. intros ctx b ctx' [= <- <-]. apply okstep_refl. Qed.

Lemma getCtx_run w : run w getCtx.
Proof. intros ctx b ctx' [= <- <-]. apply okstep_refl. Qed.

Lemma readToken_run w : run w readToken.
Proof.
  intros ctx b ctx' H. apply readToken_take in H as (-> & _). apply okstep_refl.
Qed.

Lemma suffixComment_run w : run w suffixComment.
Proof. apply run_ret. Qed.

(** [setDecorators] on the child that has just been appended. *)
Lemma setDecorators_children n d cs ctx r ctx' :
  ctx_childNodes ctx = cs ++ [n] ->
  setDecorators (Some n) d ctx = Some (r, ctx') ->
  ctx_childNodes ctx' = cs ++ [withDecorators d n] /\
  ctx_err ctx' = ctx_err ctx /\ ctx_tokens ctx' = ctx_tokens ctx /\
  ctx_haveToken ctx' = ctx_haveToken ctx /\ ctx_token ctx' = ctx_token ctx /\
  ctx_opts ctx' = ctx_opts ctx /\ ctx_src ctx' = ctx_src ctx /\
  ctx_consumed ctx' = ctx_consumed ctx /\ ctx_offset ctx' = ctx_offset ctx.
Proof.
  intros Hcs [= <- <-]. cbn [ctx_childNodes ctx_err ctx_tokens ctx_haveToken
    ctx_token ctx_opts ctx_src ctx_consumed ctx_offset].
  split; [|done]. rewrite Hcs.
  destruct (cs ++ [n]) as [|c l] eqn:Hx; [by destruct cs|].
  change (removelast (c :: l) ++ [withDecorators d n] = cs ++ [withDecorators d n]).
  by rewrite <- Hx, removelast_last.
Qed.

Lemma setDecorators_last w n d cs ctx r ctx' :
  ctx_childNodes ctx = cs ++ [n] ->
  setDecorators (Some n) d ctx = Some (r, ctx') -> okstep w ctx ctx'.
Proof.
  intros Hcs H.
  destruct (setDecorators_children _ _ _ _ _ _ Hcs H)
    as (Hcs' & He & Ht & Hh & Htk & Hop & Hsr & Hco & Hof).
  split; [unfold sticky; by rewrite He|]. intros src0 off0 Hg. left.
  split; [|unfold grows; lia].
  destruct Hg as [Ho Hs Hz (u & Hu & Hc & Hsrc & Hcons & Hoff) Hsync Hx].
  split; try done; [congruence| | |].
  - exists u. rewrite Hcs', Hsr, Hco, Hof. rewrite Hcs in Hu, Hc.
    repeat split; try done.
    + rewrite unparseAll_app in Hu |- *. simpl in *.
      by rewrite withDecorators_UnparseTo.
    + rewrite leavesAll_app in Hc |- *. simpl in *.
      by rewrite withDecorators_leaves.
  - unfold sync in *. by rewrite Hh, Htk, Ht, Hsr.
  - rewrite Hcs', unparseAll_app. rewrite Hcs, unparseAll_app in Hx, Hu.
    destruct (unparseAll cs) as [u0|] eqn:Hu0; [|done].
    destruct (extentAll off0 cs) as [x0|] eqn:Hx0.
    + rewrite (extentAll_app _ _ [n] _ Hx0) in Hx.
      rewrite (extentAll_app _ _ [withDecorators d n] _ Hx0). simpl in *.
      by rewrite withDecorators_extent, withDecorators_UnparseTo.
    + exfalso. clear -Hx Hx0 Hu.
      assert (extentAll off0 (cs ++ [n]) = None); [|congruence].
      clear Hx Hu. revert off0 Hx0. induction cs as [|c cs IH]; intros o H; [done|].
      simpl in *. destruct (extent o c); [|done].
      destruct (extentAll _ cs) eqn:Hr; [done|]. by rewrite (IH _ Hr).
Qed.

(** [parseChild] and then [setDecorators] on its result. *)
Lemma parseChild_setDecorators f d ctx on ok c1 r ctx' :
  parses f -> parseChild f ctx = Some ((on, ok), c1) ->
  setDecorators on d c1 = Some (r, ctx') ->
  okstep true ctx ctx' /\
  (ok = true -> forall src0 off0, Good src0 off0 ctx ->
     ctx_consumed ctx < ctx_consumed ctx').
Proof.
  intros Hf Hc Hs. apply (parseChild_spec f) in Hc as (Hstep & Hlast & _ & Hprog);
    [|done].
  destruct on as [n|].
  - destruct (Hlast n eq_refl) as [cs Hcs]. split.
    + eapply okstep_trans; [done|]. by eapply setDecorators_last.
    + intros Hok src0 off0 Hg.
      destruct (setDecorators_children _ _ _ _ _ _ Hcs Hs) as (_&_&_&_&_&_&_& -> &_).
      by eapply Hprog.
  - injection Hs as <- <-. by split.
Qed.

(** *** The parse functions *)

Create HintDb parses discriminated.

Lemma parseChild_decorated_run f d {B} (k : option Node -> P B) :
  parses f -> (forall a, keeps (k a)) ->
  keeps (letp member := parseChild f in
         letp member := setDecorators member.1 d in k member).
Proof.
  intros Hf Hk ctx b ctx' H. prun H. destruct a as [on ok]. prun H.
  eapply okstep_trans; [|eapply Hk, H].
  by destruct (parseChild_setDecorators _ _ _ _ _ _ _ _ Hf E E0).
Qed.

Ltac leaf_run :=
  first
    [ apply run_ret
    | apply hasErr_run | apply tokenKind_run | apply getCtx_run
    | apply readToken_run | apply suffixComment_run
    | apply run_weaken, ensureToken_strong
    | apply run_weaken, space_strong
    | apply run_weaken, comments_strong
    | apply run_weaken, sigil_strong; reflexivity
    | apply run_weaken, trySigil_strong; reflexivity
    | apply run_weaken, tryKeyword_strong
    | apply run_weaken, ident_strong
    | apply run_weaken, int_strong
    | apply run_weaken, text_strong
    | apply run_weaken, setErr_strong
    | apply run_weaken, setErrO_strong
    | solve [auto with parses] ].

Ltac run_tac :=
  repeat first
    [ leaf_run
    | apply parseChild_keeps; solve [auto with parses]
    | apply parseChild_decorated_run; [solve [auto with parses]|intros ?]
    | apply run_bind; [|intros ?]
    | apply loop__run
    | apply loop_run; intros ?
    | match goal with
      | r : Empty_set |- _ => destruct r
      | |- run _ (if ?b then _ else _) => destruct b
      | |- run _ (match ?x with _ => _ end) => destruct x
      end ].

Ltac ends_tac :=
  repeat first
    [ apply ends_PErr
    | apply ends_expected
    | apply ends_finish; intros sp cs; by apply built_intro
    | apply ends_hasErr
    | apply ends_bind; [solve [run_tac]|intros ?]
    | progress cbv zeta
    | match goal with
      | r : Empty_set |- _ => destruct r
      | |- ends (if ?b then _ else _) => destruct b
      | |- ends (match ?x with _ => _ end) => destruct x
      end ].

Ltac by_keyword :=
  apply parses_try; [intros ? ? ? ?; by eapply tryKeyword_spec|ends_tac].

Ltac by_sigil :=
  apply parses_try;
    [intros ? ? ? H; eapply trySigil_spec; [|exact H]; reflexivity|ends_tac].

Lemma parseTypeName_parses : parses parseTypeName.
Proof. apply parses_ends. unfold parseTypeName, parseName. ends_tac. Qed.

Lemma parseValueName_parses : parses parseValueName.
Proof. apply parses_ends. unfold parseValueName, parseName. ends_tac. Qed.

Lemma parseExportName_parses : parses parseExportName.
Proof. apply parses_ends. unfold parseExportName, parseName. ends_tac. Qed.

#[local] Hint Resolve parseTypeName_parses parseValueName_parses
  parseExportName_parses : parses.

Lemma parseNamespace_parses : parses parseNamespace.
Proof. apply parses_ends. unfold parseNamespace. ends_tac. Qed.

Lemma parseImport_parses : parses parseImport.
Proof. unfold parseImport. by_keyword. Qed.

Lemma parseExport_parses : parses parseExport.
Proof. unfold parseExport. by_keyword. Qed.

Lemma parseOptionName_parses : parses parseOptionName.
Proof. apply parses_ends. unfold parseOptionName. ends_tac. Qed.

Lemma parseEnumRef_parses : parses parseEnumRef.
Proof. apply parses_ends. unfold parseEnumRef. ends_tac. Qed.

#[local] Hint Resolve parseNamespace_parses parseImport_parses
  parseExport_parses parseOptionName_parses parseEnumRef_parses : parses.

Lemma parseValue_run : keeps parseValue.
Proof. unfold parseValue. run_tac. Qed.

#[local] Hint Resolve parseValue_run : parses.

Lemma parseValueOr_run mk : keeps (parseValueOr mk).
Proof. unfold parseValueOr. run_tac. Qed.

Lemma parseConstValue_run : keeps parseConstValue.
Proof. apply parseValueOr_run. Qed.

Lemma parseOptionValue_run : keeps parseOptionValue.
Proof. apply parseValueOr_run. Qed.

#[local] Hint Resolve parseConstValue_run parseOptionValue_run : parses.

Lemma parseOptionsOption_parses : parses parseOptionsOption.
Proof. apply parses_ends. unfold parseOptionsOption. ends_tac. Qed.

Lemma parseOption_parses : parses parseOption.
Proof. unfold parseOption. by_sigil. Qed.

#[local] Hint Resolve parseOptionsOption_parses parseOption_parses : parses.

Lemma parseOptions_parses : parses parseOptions.
Proof. unfold parseOptions. by_keyword. Qed.

#[local] Hint Resolve parseOptions_parses : parses.

Lemma parseDecorator_parses : parses parseDecorator.
Proof. unfold parseDecorator. by_sigil. Qed.

#[local] Hint Resolve parseDecorator_parses : parses.

Lemma parseDecorators_run : keeps parseDecorators.
Proof. unfold parseDecorators. run_tac. Qed.

#[local] Hint Resolve parseDecorators_run : parses.

Lemma parseConst_parses : parses parseConst.
Proof. unfold parseConst. by_keyword. Qed.

Lemma parseEnumItem_parses : parses parseEnumItem.
Proof. apply parses_ends. unfold parseEnumItem. ends_tac. Qed.

Lemma parseMembers_run f : parses f -> keeps (parseMembers f).
Proof. intros Hf. unfold parseMembers. run_tac. Qed.

#[local] Hint Resolve parseConst_parses parseEnumItem_parses : parses.
#[local] Hint Resolve parseMembers_run : parses.

Lemma parseEnum_parses : parses parseEnum.
Proof. unfold parseEnum. by_keyword. Qed.

Lemma parseFieldTag_parses : parses parseFieldTag.
Proof. apply parses_ends. unfold parseFieldTag. ends_tac. Qed.

Lemma parseProtocolTag_parses : parses parseProtocolTag.
Proof. unfold parseProtocolTag. by_sigil. Qed.

Lemma parseFieldType_parses : parses parseFieldType.
Proof. apply parses_ends. unfold parseFieldType. ends_tac. Qed.

#[local] Hint Resolve parseEnum_parses parseFieldTag_parses
  parseProtocolTag_parses parseFieldType_parses : parses.

Lemma parseStructField_parses : parses parseStructField.
Proof. apply parses_ends. unfold parseStructField. ends_tac. Qed.

Lemma parseMessageField_parses : parses parseMessageField.
Proof. apply parses_ends. unfold parseMessageField, parseTaggedField. ends_tac. Qed.

Lemma parseUnionField_parses : parses parseUnionField.
Proof. apply parses_ends. unfold parseUnionField, parseTaggedField. ends_tac. Qed.

#[local] Hint Resolve parseStructField_parses parseMessageField_parses
  parseUnionField_parses : parses.

Lemma parseStruct_parses : parses parseStruct.
Proof. unfold parseStruct. by_keyword. Qed.

Lemma parseMessage_parses : parses parseMessage.
Proof. unfold parseMessage. by_keyword. Qed.

Lemma parseUnion_parses : parses parseUnion.
Proof. unfold parseUnion. by_keyword. Qed.

Lemma parseProtocolRpc_parses : parses parseProtocolRpc.
Proof. unfold parseProtocolRpc. by_keyword. Qed.

Lemma parseProtocolEvent_parses : parses parseProtocolEvent.
Proof. unfold parseProtocolEvent. by_keyword. Qed.

#[local] Hint Resolve parseStruct_parses parseMessage_parses parseUnion_parses
  parseProtocolRpc_parses parseProtocolEvent_parses : parses.

(** *** Loops that return, and decorated declarations *)

Definition runAt (lenient : bool) {A} (m : P A) (ctx : parseCtx) : Prop :=
  forall a ctx', m ctx = Some (a, ctx') -> okstep lenient ctx ctx'.

Lemma run_runAt w {A} (m : P A) ctx : run w m -> runAt w m ctx.
Proof. intros H a ctx' Hm. eapply H, Hm. Qed.

Lemma runAt_bind w {A B} (m : P A) (k : A -> P B) ctx :
  runAt w m ctx -> (forall a, run w (k a)) -> runAt w (pbind m k) ctx.
Proof.
  intros Hm Hk b ctx' H. prun H.
  eapply okstep_trans; [eapply Hm, E|eapply Hk, H].
Qed.

(** The child that [parseChild] has returned is the last child node. *)
Definition lastChild (on : option Node) (ctx : parseCtx) : Prop :=
  forall n, on = Some n -> exists cs, ctx_childNodes ctx = cs ++ [n].

Lemma setDecorators_runAt w on d ctx :
  lastChild on ctx -> runAt w (setDecorators on d) ctx.
Proof.
  intros Hlast r ctx' H. destruct on as [n|].
  - destruct (Hlast n eq_refl) as [cs Hcs]. by eapply setDecorators_last.
  - injection H as <- <-. apply okstep_refl.
Qed.

Lemma parseChild_then_run f {B} (k : option Node * bool -> P B) :
  parses f ->
  (forall a ctx, lastChild a.1 ctx -> runAt true (k a) ctx) ->
  keeps (pbind (parseChild f) k).
Proof.
  intros Hf Hk ctx b ctx' H. prun H. destruct a as [on ok].
  destruct (parseChild_spec _ _ _ _ _ Hf E) as (Hstep & Hlast & _).
  eapply okstep_trans; [done|]. eapply (Hk (on, ok)); done.
Qed.

Lemma returnErr_run w : run w returnErr.
Proof.
  intros ctx r ctx' H. unfold returnErr in H.
  destruct (ctx_err ctx); injection H as <- <-; apply okstep_refl.
Qed.

Lemma expected_run w mk : run w (expected mk).
Proof. unfold expected. run_tac. Qed.

(** What a computation returns, whatever the context. *)
Definition yields {A} (Q : A -> Prop) (m : P A) : Prop :=
  forall ctx a ctx', m ctx = Some (a, ctx') -> Q a.

Lemma yields_bind {A B} (Q : B -> Prop) (m : P A) (k : A -> P B) :
  (forall a, yields Q (k a)) -> yields Q (pbind m k).
Proof. intros Hk ctx b ctx' H. prun H. eapply Hk, H. Qed.

Lemma yields_ret {A} (Q : A -> Prop) (a : A) : Q a -> yields Q (pret a).
Proof. by intros Ha ctx b ctx' [= <- <-]. Qed.

(** A loop body returns from the function with an error only. *)
Definition noNil {St} (c : ctl St parsed) : Prop :=
  match c with
  | Return (PErr _) => True
  | Return _ => False
  | _ => True
  end.

Lemma yields_returnErr {St} (k : P (ctl St parsed)) :
  yields noNil k ->
  yields noNil (letp failed := hasErr in
                if failed then letp r := returnErr in pret (Return r) else k).
Proof.
  intros Hk ctx c ctx' H. unfold pbind at 1, hasErr in H.
  destruct (bool_decide_reflect (ctx_err ctx <> None)) as [He|He].
  - unfold pbind, returnErr in H. destruct (ctx_err ctx); [|done].
    by injection H as <- <-.
  - eapply Hk, H.
Qed.

Lemma yields_expected {St} mk :
  yields (noNil (St:=St)) (letp r := expected mk in pret (Return r)).
Proof.
  intros ctx c ctx' H. prun H. injection H as <- <-.
  unfold expected in E. prun E. unfold pbind, getCtx, pret in E.
  by injection E as <- <-.
Qed.

Lemma ends_loop {St} (body : St -> P (ctl St parsed)) s (k : St -> P parsed) :
  (forall s, keeps (body s)) ->
  (forall s, yields noNil (body s)) ->
  (forall s, ends (k s)) ->
  ends (letp r := loop body s in
        match r with inl s => k s | inr r => pret r end).
Proof.
  intros Hk Hr Hend ctx r ctx' H src0 off0 Hinv. prun H. unfold loop in E.
  destruct (ctx_err ctx) eqn:He.
  { injection E as <- <-. eapply Hend; [exact H|]. right. by rewrite He. }
  destruct Hinv as [Hg|?]; [|done].
  apply (loop_fuel_run true (fun _ _ r _ => exists e, r = PErr e)) in E.
  - destruct a as [s'|r'].
    + eapply Hend; [exact H|]. eapply okstep_inv; [exact E|by left].
    + injection H as <- <-. by destruct (E _ _ Hg) as [e ->].
  - intros s0 c0 x c1 Hb. pose proof (Hr _ _ _ _ Hb) as Hn.
    destruct x as [?|?|[?| |e]]; try done; [by eapply Hk|by eapply Hk|].
    intros _ _ _. by exists e.
Qed.

Lemma parseProtocol_step (st : list Node * list Node) :
  keeps
    (let '(rpcs, events) := st in
     letp close := trySigil T_CLOSE_CURL in
     if close then pret (Break (R:=parsed) st)
     else
       letp decorators := parseDecorators in
       letp rpc := parseChild parseProtocolRpc in
       letp r1 :=
         if rpc.2 then
           letp rpc' := setDecorators rpc.1 decorators in
           pret (true, (rpcs ++ [default N_nil rpc'], events))
         else
           letp failed := hasErr in
           if negb failed then
             letp event := parseChild parseProtocolEvent in
             if event.2 then
               letp event' := setDecorators event.1 decorators in
               pret (true, (rpcs, events ++ [default N_nil event']))
             else pret (false, st)
           else pret (false, st) in
       letp failed := hasErr in
       if failed then letp r := returnErr in pret (Return r)
       else if negb r1.1 then
         letp r := expected errExpectedProtocolItem in pret (Return r)
       else
         suffixComment >>>
         comments >>>
         pret (Continue r1.2)).
Proof.
  destruct st as [rpcs events].
  apply run_bind; [leaf_run|intros close]. destruct close; [apply run_ret|].
  apply run_bind; [leaf_run|intros decorators].
  apply parseChild_then_run; [auto with parses|]. intros [on ok] ctx Hlast.
  apply runAt_bind.
  - destruct ok; cbn [fst snd].
    + apply runAt_bind; [by apply setDecorators_runAt|intros ?; apply run_ret].
    + apply run_runAt. apply run_bind; [leaf_run|intros failed].
      destruct failed; cbn [negb]; [apply run_ret|].
      apply parseChild_then_run; [auto with parses|]. intros [on2 ok2] c2 Hlast2.
      destruct ok2; cbn [fst snd]; [|apply run_runAt, run_ret].
      apply runAt_bind; [by apply setDecorators_runAt|intros ?; apply run_ret].
  - intros r1. apply run_bind; [leaf_run|intros failed]. destruct failed.
    + apply run_bind; [apply returnErr_run|intros ?; apply run_ret].
    + destruct (negb r1.1).
      * apply run_bind; [apply expected_run|intros ?; apply run_ret].
      * run_tac.
Qed.

Lemma parseProtocol_parses : parses parseProtocol.
Proof.
  unfold parseProtocol. apply parses_try; [intros ? ? ? ?; by eapply tryKeyword_spec|].
  do 5 (apply ends_bind; [solve [run_tac]|intros ?]).
  apply (ends_loop _ _
           (fun st : list Node * list Node =>
              let '(rpcs, events) := st in
              suffixComment >>>
              finish (fun span childNodes =>
                        N_Protocol span childNodes a0 [] rpcs events))).
  - intros st. apply parseProtocol_step.
  - intros [rpcs events]. apply yields_bind. intros close.
    destruct close; [by apply yields_ret|].
    do 3 (apply yields_bind; intros ?).
    apply yields_returnErr. destruct (negb _); [apply yields_expected|].
    do 2 (apply yields_bind; intros ?). by apply yields_ret.
  - intros [rpcs events]. ends_tac.
Qed.

#[local] Hint Resolve parseProtocol_parses : parses.

(** *** The declarations of a schema *)

Lemma parseDecl_spec d ps :
  Forall parses ps ->
  forall ctx ok ctx', parseDecl d ps ctx = Some (ok, ctx') ->
    okstep true ctx ctx' /\
    (ok = true -> forall src0 off0, Good src0 off0 ctx ->
       ctx_consumed ctx < ctx_consumed ctx').
Proof.
  induction 1 as [|p ps Hp Hps IH]; intros ctx ok ctx' H; cbn [parseDecl] in H.
  { injection H as <- <-. split; [apply okstep_refl|done]. }
  prun H. destruct a as [on ok1]. destruct ok1; cbn [fst snd] in H.
  - prun H. injection H as <- <-.
    exact (parseChild_setDecorators _ _ _ _ _ _ _ _ Hp E E0).
  - destruct (parseChild_spec _ _ _ _ _ Hp E) as (Hstep & _).
    unfold pbind at 1, hasErr in H.
    destruct (bool_decide_reflect (ctx_err c <> None)) as [He|He].
    + injection H as <- <-. by split.
    + destruct (IH _ _ _ H) as [Hstep2 Hprog]. split.
      * by eapply okstep_trans.
      * intros Hok src0 off0 Hg. destruct Hstep as [_ G].
        destruct (G _ _ Hg) as [[Hg1 Hgr]|[_ ?]]; [|done].
        specialize (Hprog Hok _ _ Hg1). unfold grows in Hgr. lia.
Qed.

(** *** The schema *)

(** One round of the last loop of [parseSchema]. *)
Definition schemaBody : P (ctl unit parsed) :=
  comments >>>
  letp kind := tokenKind in
  if bool_decide (kind = T_EOF) then pret (Break tt)
  else
    letp decorators := parseDecorators in
    letp ok :=
      parseDecl decorators
        [parseConst; parseEnum; parseStruct; parseMessage; parseUnion;
         parseProtocol] in
    letp failed := hasErr in
    if failed then letp r := returnErr in pret (Return r)
    else if negb ok then
      letp token := readToken in
      letp ctx := getCtx in
      if bool_decide (tk_Kind (ctx_token ctx) = T_IDENT)
      then pret (Return (PErr (errUnknownDeclaration token (tokenSpan ctx))))
      else pret (Return (PErr (errExpectedDeclaration
                                 (tk_Kind (ctx_token ctx)) token
                                 (tokenSpan ctx))))
    else pret (Continue tt).

Lemma parseSchema_unfold :
  parseSchema =
  (comments >>>
   letp _ := parseChild parseNamespace in
   loop_ (comments >>> letp _ := parseChild parseImport in pret (Continue tt)) >>>
   loop_ (comments >>> letp _ := parseChild parseExport in pret (Continue tt)) >>>
   loop_ (comments >>> letp _ := parseChild parseOptions in pret (Continue tt)) >>>
   letp r := loop (fun _ : unit => schemaBody) tt in
   match r with
   | inr r => pret r
   | inl _ => finish (fun span childNodes => N_Schema span childNodes)
   end).
Proof. reflexivity. Qed.

Lemma declarations_parse :
  Forall parses
    [parseConst; parseEnum; parseStruct; parseMessage; parseUnion; parseProtocol].
Proof. repeat constructor; auto with parses. Qed.

(** A round of the loop stops at the end of the source, or goes on after
    a declaration, or returns an error. *)
Lemma schemaBody_spec src0 off0 ctx c ctx' :
  Good src0 off0 ctx -> schemaBody ctx = Some (c, ctx') ->
  match c with
  | Return r => exists e, r = PErr e
  | Break _ =>
      ctx_err ctx' <> None \/ (Good src0 off0 ctx' /\ ctx_src ctx' = [])
  | Continue _ =>
      ctx_err ctx' <> None \/
      (Good src0 off0 ctx' /\ ctx_consumed ctx < ctx_consumed ctx')
  end.
Proof.
  intros Hg H. unfold schemaBody in H. prun H. destruct a.
  pose proof (comments_strong _ _ _ E) as Hstep.
  pose proof (okstep_Good _ _ _ _ Hstep Hg) as Hg1.
  assert (Hgr : ctx_consumed ctx <= ctx_consumed c0).
  { destruct Hstep as [_ G]. by destruct (G _ _ Hg) as [[_ ?]|[? _]]. }
  unfold pbind at 1, tokenKind in H.
  destruct (bool_decide_reflect (tk_Kind (ctx_token c0) = T_EOF)) as [Hk|Hk].
  { injection H as <- <-. destruct (ctx_err c0) eqn:He; [by left|right].
    split; [done|].
    pose proof (comments_token _ _ _ _ Hg E He) as Hh.
    pose proof (sync_token _ (good_sync _ _ _ Hg1) Hh) as (_ & _ & _ & Heof & _).
    by apply Heof. }
  prun H. prun H.
  pose proof (parseDecorators_run _ _ _ E0) as Hstep1.
  destruct (parseDecl_spec _ _ declarations_parse _ _ _ E1) as [Hstep2 Hprog].
  unfold pbind at 1, hasErr in H.
  destruct (bool_decide_reflect (ctx_err c2 <> None)) as [He|He].
  { unfold pbind, returnErr in H. destruct (ctx_err c2) as [e|]; [|done].
    injection H as <- <-. by exists e. }
  destruct a0; cbn [negb] in H.
  - injection H as <- <-. right.
    destruct Hstep1 as [_ G1]. destruct (G1 _ _ Hg1) as [[Hg2 Hgr1]|[_ Hx]].
    + destruct Hstep2 as [_ G2]. destruct (G2 _ _ Hg2) as [[Hg3 _]|[_ ?]]; [|done].
      split; [done|]. specialize (Hprog eq_refl _ _ Hg2). unfold grows in Hgr1. lia.
    + destruct Hstep2 as [S2 _]. by destruct (He (S2 Hx)).
  - prun H. unfold pbind, getCtx in H.
    destruct (bool_decide _); injection H as <- <-; by eexists.
Qed.

Lemma schemaLoop_spec fuel src0 off0 ctx x ctx' :
  Good src0 off0 ctx ->
  loop_fuel fuel (fun _ : unit => schemaBody) tt ctx = Some (x, ctx') ->
  match x with
  | inr r => exists e, r = PErr e
  | inl _ => ctx_err ctx' <> None \/ (Good src0 off0 ctx' /\ ctx_src ctx' = [])
  end.
Proof.
  revert ctx. induction fuel as [|fuel IH]; intros ctx Hg H; [discriminate|].
  cbn [loop_fuel] in H.
  destruct (schemaBody ctx) as [[c c1]|] eqn:Hb; [|discriminate].
  pose proof (schemaBody_spec _ _ _ _ _ Hg Hb) as Hc.
  destruct c as [[]|[]|r].
  - destruct (ctx_err c1) eqn:Herr; [injection H as <- <-; left; congruence|].
    destruct Hc as [?|[Hg1 Hlt]]; [done|].
    destruct (Z.eqb_spec (ctx_consumed ctx) (ctx_consumed c1)); [lia|].
    by eapply IH.
  - by injection H as <- <-.
  - by injection H as <- <-.
Qed.

Lemma keeps_inv {A} (m : P A) ctx a ctx' src0 off0 :
  m ctx = Some (a, ctx') -> keeps m ->
  Good src0 off0 ctx \/ ctx_err ctx <> None ->
  Good src0 off0 ctx' \/ ctx_err ctx' <> None.
Proof. intros H Hm. eapply okstep_inv, Hm, H. Qed.

(** [parseSchema] returns a tree only at the end of the source. *)
Lemma parseSchema_spec src0 off0 ctx r ctx' :
  Good src0 off0 ctx -> parseSchema ctx = Some (r, ctx') ->
  match r with
  | PNode n => nodeOk src0 off0 n ctx' /\ ctx_src ctx' = []
  | PNil => False
  | PErr _ => True
  end.
Proof.
  intros Hg H. rewrite parseSchema_unfold in H.
  assert (Hinv : Good src0 off0 ctx \/ ctx_err ctx <> None) by by left.
  clear Hg.
  prun H. apply (keeps_inv _ _ _ _ _ _ E) in Hinv; [|by run_tac]. clear E.
  prun H. apply (keeps_inv _ _ _ _ _ _ E) in Hinv; [|by run_tac]. clear E.
  prun H. apply (keeps_inv _ _ _ _ _ _ E) in Hinv; [|by run_tac]. clear E.
  prun H. apply (keeps_inv _ _ _ _ _ _ E) in Hinv; [|by run_tac]. clear E.
  prun H. apply (keeps_inv _ _ _ _ _ _ E) in Hinv; [|by run_tac]. clear E.
  prun H. unfold loop in E.
  destruct (ctx_err c3) eqn:He.
  { injection E as <- <-. unfold finish in H. rewrite He in H.
    by injection H as <- <-. }
  destruct Hinv as [Hg|?]; [|done].
  apply (schemaLoop_spec _ _ _ _ _ _ Hg) in E.
  destruct a4 as [[]|r'].
  - unfold finish in H. destruct (ctx_err c4) eqn:He'; injection H as <- <-; [done|].
    destruct E as [?|[Hg' Hsrc]]; [done|]. split; [|done].
    assert (Hend : ends (finish (fun span childNodes => N_Schema span childNodes)))
      by ends_tac.
    refine (Hend c4 (PNode _) c4 _ src0 off0 (or_introl Hg')).
    unfold finish. by rewrite He'.
  - injection H as <- <-. by destruct E as [e ->].
Qed.

Lemma newParseCtx_Good src ctx :
  newParseCtx NewParseOptions src = Ok ctx ->
  Good src 0 ctx /\ ctx_childNodes ctx = [].
Proof.
  unfold newParseCtx, NewTokens. intros H.
  destruct (Z.ltb_spec maxSrcLen (Z.of_nat (length src))); [discriminate|].
  destruct (Valid src); [|discriminate]. injection H as <-.
  split; [|done]. split; simpl; try done; try lia.
  exists []. by repeat split.
Qed.

End parser_facts.

(** X15.  A source that [Parse] accepts is what the tree unparses to, byte
    for byte; and the leaves of the tree, in their order, lie one after the
    other from offset 0 to the end of the source, each with a span as long as
    its text, so that every byte of the source is in exactly one leaf. *)
Theorem Parse_Unparse (src : list byte) (cst : syntax.Node) :
  syntax.Parse src = Ok cst ->
  syntax.Unparse cst = Some src /\ coverage 0 (syntax.leaves cst) = Some src.
Proof.
  unfold syntax.Parse, syntax.ParseSchema. intros H.
  destruct (syntax.newParseCtx _ src) as [ctx| |] eqn:Hctx; try discriminate.
  apply newParseCtx_Good in Hctx as [Hg Hcs]. simpl in H.
  destruct (syntax.parseSchema ctx) as [[r ctx']|] eqn:Hp; [|discriminate].
  pose proof (parseSchema_spec _ _ _ _ _ Hg Hp) as Hr.
  destruct r as [n| |e]; [|done|discriminate]. injection H as <-.
  destruct Hr as (([_ _ _ (u & Hu & Hc & Hsrc & _) _ _] & [Hun Hlv] & _) & Hnil).
  rewrite Hnil, app_nil_r in Hsrc. subst u.
  unfold syntax.Unparse. by rewrite Hun, Hlv.
Qed.

Lemma Parse_Unparse_witness :
  syntax.Parse examples.constOverflow = Ok (examples.parsed examples.constOverflow) /\
  syntax.Unparse (examples.parsed examples.constOverflow)
  = Some examples.constOverflow /\
  coverage 0 (syntax.leaves (examples.parsed examples.constOverflow))
  = Some examples.constOverflow.
Proof.
  assert (H : syntax.Parse examples.constOverflow
              = Ok (examples.parsed examples.constOverflow))
    by (vm_compute; reflexivity).
  split; [exact H|]. exact (Parse_Unparse _ _ H).
Defined.

(** X16.  In the tree of a source that [Parse] accepts, every node has the
    span of its text: the root starts at offset 0, every child starts where
    the child before it ends (the first one where its parent starts), and
    the span of every node, interior nodes included, is as long as the text
    that the node unparses to; the text under the root is the source. *)
Theorem Parse_spans (src : list byte) (cst : syntax.Node) :
  syntax.Parse src = Ok cst -> extent 0 cst = Some src.
Proof.
  unfold syntax.Parse, syntax.ParseSchema. intros H.
  destruct (syntax.newParseCtx _ src) as [ctx| |] eqn:Hctx; try discriminate.
  apply newParseCtx_Good in Hctx as [Hg Hcs]. simpl in H.
  destruct (syntax.parseSchema ctx) as [[r ctx']|] eqn:Hp; [|discriminate].
  pose proof (parseSchema_spec _ _ _ _ _ Hg Hp) as Hr.
  destruct r as [n| |e]; [|done|discriminate]. injection H as <-.
  destruct Hr as (([_ _ _ (u & Hu & _ & Hsrc & _) _ _] & _ & Hext) & Hnil).
  rewrite Hnil, app_nil_r in Hsrc. subst u. by rewrite Hext.
Qed.

Lemma Parse_spans_witness :
  syntax.Parse examples.enumAlias = Ok (examples.parsed examples.enumAlias) /\
  extent 0 (examples.parsed examples.enumAlias) = Some examples.enumAlias.
Proof.
  assert (H : syntax.Parse examples.enumAlias
              = Ok (examples.parsed examples.enumAlias))
    by (vm_compute; reflexivity).
  split; [exact H|]. exact (Parse_spans _ _ H).
Defined.
